(** * cbuf.js: a shallow embedding of the parser, hasher and binary codec

    The development follows the TypeScript sources [src/parse.ts],
    [src/serde.ts], [src/lookup.ts] and the grammar [src/cbuf.ne].

    Conventions of the embedding.
    - A JavaScript string is the list of its UTF-16 code units ([list Z]).
    - A byte is a [Z] in [0, 256); an [ArrayBuffer] is a [list Z].
    - A JavaScript [number] is its IEEE-754 binary64 bit pattern.  Quantities
      the code only uses as integers (sizes, offsets, array lengths) are
      [Z].
    - A thrown exception is [Err e]; behaviour of the host that the embedding
      does not cover (inherited properties, fractional array lengths, ...)
      is the explicit error [OutsideModel], so that no theorem about a successful
      run or about a genuine error depends on it.
    - Recursion over the schema graph takes a [fuel : nat]; running out of
      fuel stands for the stack overflow of the unbounded recursion. *)

From Stdlib Require Import ZArith Lia String Ascii.
From stdpp Require Import base option list gmap.

#[local] Set Warnings "-register-all,-clear-no-such-hyp".
#[local] Open Scope Z_scope.

(** ** Errors and the error monad *)

Inductive error : Type :=
| InvalidOffset                 (* deserializeMessage: "Invalid offset" *)
| BufferTooSmall                (* "Buffer too small to contain cbuf header" *)
| BadMagic                      (* "Invalid cbuf magic" *)
| SizeExceedsBuffer             (* "cbuf size exceeds buffer" *)
| HashNotFound                  (* "cbuf hash value not found" *)
| SizeMismatch                  (* "cbuf size does not match decoded size" *)
| UnsupportedType (t : list Z)  (* "Unsupported type" *)
| UnknownMessageType            (* "Unknown message type" *)
| MessageNotObject              (* "message must be an object" *)
| TypeNotFound                  (* lookupMsgdef: "... not found" *)
| ImportNotFound (p : list Z)   (* preprocess: "Import not found" *)
| ParseFailure                  (* the grammar rejects the text (syntax error or no result) *)
| AmbiguousParse | NoEntities | NoStructs
| DuplicateEntity (n : list Z)
| NestedNamespace
| InvalidEnumValue
| UnknownEnumValue
| ComplexDefaultForbidden
| InvalidDefaultValue
| RangeError                    (* DataView / ArrayBuffer / typed array bounds, BigInt(non-integer) *)
| TypeError                     (* property read on undefined or null *)
| StackOverflow                 (* fuel exhausted *)
| OutsideModel.                 (* host behaviour not covered by the embedding *)

Inductive res (A : Type) : Type :=
| Ok (a : A)
| Err (e : error).
Arguments Ok {A} a.
Arguments Err {A} e.

#[global] Instance res_ret : MRet res := fun A a => Ok a.
#[global] Instance res_bind : MBind res := fun A B f m =>
  match m with Ok a => f a | Err e => Err e end.
#[global] Instance res_fmap : FMap res := fun A B f m =>
  match m with Ok a => Ok (f a) | Err e => Err e end.

Definition is_Ok {A} (r : res A) : Prop := exists a, r = Ok a.

Definition of_option {A} (o : option A) (e : error) : res A :=
  match o with Some a => Ok a | None => Err e end.

(** [for (const x of xs) acc = f(acc, x)] with exceptions. *)
Fixpoint foldM {A B} (f : B -> A -> res B) (acc : B) (xs : list A) : res B :=
  match xs with
  | [] => Ok acc
  | x :: xs' => acc' ← f acc x; foldM f acc' xs'
  end.

(** ** JavaScript strings *)

Module JSString.

(** A string literal of the development, as UTF-16 code units. *)
Definition js (s : string) : list Z :=
  map (fun a => Z.of_nat (nat_of_ascii a)) (list_ascii_of_string s).

Definition eqb (a b : list Z) : bool := bool_decide (a = b).

(** [a.concat(b)] on strings is [++]; [xs.join(sep)]. *)
Fixpoint join (sep : list Z) (xs : list (list Z)) : list Z :=
  match xs with
  | [] => []
  | [x] => x
  | x :: xs' => x ++ sep ++ join sep xs'
  end.

Fixpoint is_prefix (p s : list Z) : bool :=
  match p, s with
  | [], _ => true
  | a :: p', b :: s' => (a =? b) && is_prefix p' s'
  | _ :: _, [] => false
  end.

(** [s.includes(p)] *)
Fixpoint includes (p s : list Z) : bool :=
  is_prefix p s ||
  match s with
  | [] => false
  | _ :: s' => includes p s'
  end.

(** A [switch] over string constants, as a table. *)
Fixpoint assoc {A} (k : list Z) (l : list (list Z * A)) : option A :=
  match l with
  | [] => None
  | (k', v) :: l' => if eqb k k' then Some v else assoc k l'
  end.

(** [s.split("\0").shift()]: the text before the first NUL. *)
Fixpoint before_nul (s : list Z) : list Z :=
  match s with
  | [] => []
  | c :: s' => if c =? 0 then [] else c :: before_nul s'
  end.

(** Decimal rendering of a non-negative integer, most significant digit
    first ([`${n}`] for a bigint or an integral number below 1e21). *)
Fixpoint digits (fuel : nat) (n : Z) (acc : list Z) : list Z :=
  match fuel with
  | O => acc
  | S f =>
      let acc' := (48 + n mod 10) :: acc in
      if n / 10 =? 0 then acc' else digits f (n / 10) acc'
  end.

Definition decimal (n : Z) : list Z :=
  if n <? 0 then 45 :: digits (Z.to_nat (Z.log2 (- n)) + 1) (- n) []
  else digits (Z.to_nat (Z.log2 n) + 1) n [].

End JSString.
Export JSString.

(** ** Bytes, little-endian words *)

Module Bytes.

(** The [w] little-endian bytes of [v mod 2^(8w)]. *)
Fixpoint le_bytes (w : nat) (v : Z) : list Z :=
  match w with
  | O => []
  | S w' => v mod 256 :: le_bytes w' (v / 256)
  end.

Fixpoint le_value (bs : list Z) : Z :=
  match bs with
  | [] => 0
  | b :: bs' => b + 256 * le_value bs'
  end.

Definition is_byte (b : Z) : Prop := 0 <= b < 256.

(** Two's complement reading of a [w]-bit pattern. *)
Definition signed (w : Z) (p : Z) : Z :=
  if p <? 2 ^ (w - 1) then p else p - 2 ^ w.

(** [buffer.slice(off, off + len)], for in-range arguments. *)
Definition slice (off len : Z) (buf : list Z) : list Z :=
  take (Z.to_nat len) (drop (Z.to_nat off) buf).

(** The buffer with [bs] stored at [off]. *)
Definition splice (off : Z) (bs buf : list Z) : list Z :=
  take (Z.to_nat off) buf ++ bs ++ drop (Z.to_nat off + length bs) buf.

Definition zeros (n : Z) : list Z := replicate (Z.to_nat n) 0.

End Bytes.
Export Bytes.

(** ** JavaScript numbers as IEEE-754 binary64 bit patterns *)

Module Number.

Inductive number : Type := F64 (bits : Z).

Definition bits_of (n : number) : Z := let 'F64 b := n in b.

#[global] Instance number_eq_dec : EqDecision number.
Proof. solve_decision. Defined.

Definition pack (s e m : Z) : Z := s * 2 ^ 63 + e * 2 ^ 52 + m.
Definition sign (b : Z) : Z := (b / 2 ^ 63) mod 2.
Definition expo (b : Z) : Z := (b / 2 ^ 52) mod 2048.
Definition mant (b : Z) : Z := b mod 2 ^ 52.

Definition with_sign (s mag : Z) : Z := if s =? 1 then - mag else mag.

(** Truncation toward zero of a finite number; [None] for NaN and the
    infinities (ToIntegerOrInfinity, before the modulo of ToUint32 etc.). *)
Definition to_integer (n : number) : option Z :=
  let b := bits_of n in
  let e := expo b in
  if e =? 2047 then None
  else if e =? 0 then Some 0
  else
    let M := 2 ^ 52 + mant b in
    let mag := if 1075 <=? e then M * 2 ^ (e - 1075) else M / 2 ^ (1075 - e) in
    Some (with_sign (sign b) mag).

(** ToUint8 / ToUint16 / ToUint32 and the bit pattern of ToInt8 / ToInt16
    / ToInt32: the low [w] bits of the truncated value; 0 for NaN and
    the infinities. *)
Definition to_bits (w : Z) (n : number) : Z :=
  match to_integer n with
  | Some t => t mod 2 ^ w
  | None => 0
  end.

(** The integer a number denotes when it is integral; [None] otherwise
    ([BigInt(n)] throws a RangeError on [None]). *)
Definition to_exact_integer (n : number) : option Z :=
  let b := bits_of n in
  let e := expo b in
  if e =? 2047 then None
  else if e =? 0 then (if mant b =? 0 then Some 0 else None)
  else
    let M := 2 ^ 52 + mant b in
    if 1075 <=? e then Some (with_sign (sign b) (M * 2 ^ (e - 1075)))
    else if M mod 2 ^ (1075 - e) =? 0
         then Some (with_sign (sign b) (M / 2 ^ (1075 - e)))
         else None.

(** [a / 2^sh] rounded to nearest, ties to even ([0 < sh]). *)
Definition round_shift (a sh : Z) : Z :=
  let q := a / 2 ^ sh in
  let r := a mod 2 ^ sh in
  let half := 2 ^ (sh - 1) in
  if (half <? r) || ((r =? half) && Z.odd q) then q + 1 else q.

(** The number nearest to the integer [z] ([Number(z)] for a bigint, and
    the value of an integer literal). *)
Definition of_Z (z : Z) : number :=
  if z =? 0 then F64 0
  else
    let s := if z <? 0 then 1 else 0 in
    let a := Z.abs z in
    let k := Z.log2 a in
    if k <=? 52 then F64 (pack s (k + 1023) (a * 2 ^ (52 - k) - 2 ^ 52))
    else
      let q := round_shift a (k - 52) in
      let '(q, k) := if q =? 2 ^ 53 then (2 ^ 52, k + 1) else (q, k) in
      if 1023 <? k then F64 (pack s 2047 0)
      else F64 (pack s (k + 1023) (q - 2 ^ 52)).

(** JavaScript has a single NaN value; it is represented by the quiet NaN
    pattern below, and a number read from memory is normalised to it. *)
Definition nan_bits : Z := 0x7FF8000000000000.

Definition is_nan (b : Z) : bool := (expo b =? 2047) && negb (mant b =? 0).

Definition canon (n : number) : number :=
  if is_nan (bits_of n) then F64 nan_bits else n.

(** A value of type [number]: a 64-bit pattern, NaN only as [nan_bits]. *)
Definition valid (n : number) : Prop :=
  0 <= bits_of n < 2 ^ 64 /\ canon n = n.

(** *** Arithmetic

    A finite number is [(-1)^sign * significand * 2^exponent]. *)
Definition significand (b : Z) : Z :=
  if expo b =? 0 then mant b else 2 ^ 52 + mant b.
Definition exponent (b : Z) : Z :=
  if expo b =? 0 then -1074 else expo b - 1075.

Definition is_inf (b : Z) : bool := (expo b =? 2047) && (mant b =? 0).

(** [-n] *)
Definition number_neg (n : number) : number :=
  let b := bits_of n in
  if is_nan b then n else F64 (pack (1 - sign b) (expo b) (mant b)).

(** The number nearest to [(-1)^s * a * 2^x] for an integer [0 < a], ties
    to even; beyond the largest number it is an infinity, and below the
    smallest normal number the spacing is [2^-1074]. *)
Definition round_dyadic (s a x : Z) : number :=
  let k := Z.log2 a in
  let E := k + x in
  if -1022 <=? E then
    let q := if k <=? 52 then a * 2 ^ (52 - k) else round_shift a (k - 52) in
    let '(q, E) := if q =? 2 ^ 53 then (2 ^ 52, E + 1) else (q, E) in
    if 1023 <? E then F64 (pack s 2047 0)
    else F64 (pack s (E + 1023) (q - 2 ^ 52))
  else
    let q := if -1074 <=? x then a * 2 ^ (x + 1074) else round_shift a (- 1074 - x) in
    F64 (pack s 0 q).

(** The number nearest to [(-1)^s * (a / b) * 2^x] for integers [0 < a]
    and [0 < b]: the quotient is taken with 56 bits or more and a last bit
    that tells whether the division left a remainder. *)
Definition round_ratio (s a b x : Z) : number :=
  let t := Z.max 0 (56 + Z.log2 b - Z.log2 a) in
  let q := (a * 2 ^ t) / b in
  let sticky := if (a * 2 ^ t) mod b =? 0 then 0 else 1 in
  round_dyadic s (2 * q + sticky) (x - t - 1).

(** [m + n] *)
Definition number_add (m n : number) : number :=
  let a := bits_of m in
  let b := bits_of n in
  if is_nan a || is_nan b then F64 nan_bits
  else if is_inf a then
    (if is_inf b && negb (sign a =? sign b) then F64 nan_bits else m)
  else if is_inf b then n
  else
    let x := Z.min (exponent a) (exponent b) in
    let t := with_sign (sign a) (significand a) * 2 ^ (exponent a - x)
             + with_sign (sign b) (significand b) * 2 ^ (exponent b - x) in
    if t =? 0 then F64 (pack (if (sign a =? 1) && (sign b =? 1) then 1 else 0) 0 0)
    else round_dyadic (if t <? 0 then 1 else 0) (Z.abs t) x.

(** [m - n] *)
Definition number_sub (m n : number) : number := number_add m (number_neg n).

(** [m * n] *)
Definition number_mul (m n : number) : number :=
  let a := bits_of m in
  let b := bits_of n in
  let s := (sign a + sign b) mod 2 in
  if is_nan a || is_nan b then F64 nan_bits
  else if is_inf a || is_inf b then
    (if (significand a =? 0) || (significand b =? 0) then F64 nan_bits
     else F64 (pack s 2047 0))
  else
    let p := significand a * significand b in
    if p =? 0 then F64 (pack s 0 0)
    else round_dyadic s p (exponent a + exponent b).

(** [m / n] *)
Definition number_div (m n : number) : number :=
  let a := bits_of m in
  let b := bits_of n in
  let s := (sign a + sign b) mod 2 in
  if is_nan a || is_nan b then F64 nan_bits
  else if is_inf a then (if is_inf b then F64 nan_bits else F64 (pack s 2047 0))
  else if is_inf b then F64 (pack s 0 0)
  else if significand b =? 0 then
    (if significand a =? 0 then F64 nan_bits else F64 (pack s 2047 0))
  else if significand a =? 0 then F64 (pack s 0 0)
  else round_ratio s (significand a) (significand b) (exponent a - exponent b).

(** [parseFloat] of a decimal literal [-?digits.digits]: the number
    nearest to [digits / 10^scale], where [digits] is the value of the
    digits without the point and [scale] the number of digits after it
    (the rounding is that of the exact value, however many digits the
    literal has; the sign of a zero is kept). *)
Definition of_decimal (neg : bool) (digits scale : Z) : number :=
  let s := if neg then 1 else 0 in
  if digits =? 0 then F64 (pack s 0 0)
  else round_ratio s digits (10 ^ scale) 0.

(** binary64 -> binary32 pattern, round to nearest even ([setFloat32],
    storing into a [Float32Array]).  NaN is stored as the quiet NaN
    [0x7FC00000] (the choice of NaN pattern is left to the host). *)
Definition f32_of_f64 (n : number) : Z :=
  let b := bits_of n in
  let s := sign b in
  let e := expo b in
  let m := mant b in
  if e =? 2047 then
    (if m =? 0 then s * 2 ^ 31 + 255 * 2 ^ 23 else 0x7FC00000)
  else
    let M := if e =? 0 then m else 2 ^ 52 + m in
    let x := if e =? 0 then -1074 else e - 1075 in
    if M =? 0 then s * 2 ^ 31
    else
      let k := Z.log2 M in
      let E := k + x in
      if -126 <=? E then
        let sig := if k <=? 23 then M * 2 ^ (23 - k) else round_shift M (k - 23) in
        let '(E, sig) := if sig =? 2 ^ 24 then (E + 1, 2 ^ 23) else (E, sig) in
        if 127 <? E then s * 2 ^ 31 + 255 * 2 ^ 23
        else s * 2 ^ 31 + (E + 127) * 2 ^ 23 + (sig - 2 ^ 23)
      else
        let t := x + 149 in
        let sig := if 0 <=? t then M * 2 ^ t else round_shift M (- t) in
        s * 2 ^ 31 + sig.

(** binary32 pattern -> binary64, exact ([getFloat32], reading a
    [Float32Array] element). *)
Definition f64_of_f32 (p : Z) : number :=
  let s := (p / 2 ^ 31) mod 2 in
  let e := (p / 2 ^ 23) mod 256 in
  let m := p mod 2 ^ 23 in
  if e =? 255 then (if m =? 0 then F64 (pack s 2047 0) else F64 nan_bits)
  else if e =? 0 then
    (if m =? 0 then F64 (pack s 0 0)
     else let k := Z.log2 m in
          F64 (pack s (k - 149 + 1023) (m * 2 ^ (52 - k) - 2 ^ 52)))
  else F64 (pack s (e - 127 + 1023) (m * 2 ^ 29)).

End Number.
Export Number.

(** ** TextEncoder / TextDecoder (UTF-8) *)

Module Text.

Definition is_high_surrogate (c : Z) : bool := (0xD800 <=? c) && (c <=? 0xDBFF).
Definition is_low_surrogate (c : Z) : bool := (0xDC00 <=? c) && (c <=? 0xDFFF).

(** The scalar values of a string: surrogate pairs are combined, a lone
    surrogate becomes U+FFFD. *)
Fixpoint scalar_values (s : list Z) : list Z :=
  match s with
  | [] => []
  | c :: t =>
      if is_high_surrogate c then
        match t with
        | d :: t' =>
            if is_low_surrogate d
            then (0x10000 + (c - 0xD800) * 1024 + (d - 0xDC00)) :: scalar_values t'
            else 0xFFFD :: scalar_values t
        | [] => [0xFFFD]
        end
      else if is_low_surrogate c then 0xFFFD :: scalar_values t
      else c :: scalar_values t
  end.

Definition utf8_of_scalar (c : Z) : list Z :=
  if c <? 0x80 then [c]
  else if c <? 0x800 then [0xC0 + c / 64; 0x80 + c mod 64]
  else if c <? 0x10000 then [0xE0 + c / 4096; 0x80 + (c / 64) mod 64; 0x80 + c mod 64]
  else [0xF0 + c / 262144; 0x80 + (c / 4096) mod 64; 0x80 + (c / 64) mod 64; 0x80 + c mod 64].

(** [textEncoder.encode(s)] *)
Definition encode (s : list Z) : list Z :=
  concat (map utf8_of_scalar (scalar_values s)).

(** State of the UTF-8 decoder between bytes. *)
Record dstate : Type := DState {
  code_point : Z;
  bytes_seen : Z;
  bytes_needed : Z;
  lower : Z;
  upper : Z
}.

Definition dinit : dstate := DState 0 0 0 0x80 0xBF.

(** A byte met when no sequence is open. *)
Definition dstart (b : Z) : dstate * list Z :=
  if b <=? 0x7F then (dinit, [b])
  else if (0xC2 <=? b) && (b <=? 0xDF) then (DState (Z.land b 0x1F) 0 1 0x80 0xBF, [])
  else if (0xE0 <=? b) && (b <=? 0xEF) then
    (DState (Z.land b 0xF) 0 2 (if b =? 0xE0 then 0xA0 else 0x80)
            (if b =? 0xED then 0x9F else 0xBF), [])
  else if (0xF0 <=? b) && (b <=? 0xF4) then
    (DState (Z.land b 0x7) 0 3 (if b =? 0xF0 then 0x90 else 0x80)
            (if b =? 0xF4 then 0x8F else 0xBF), [])
  else (dinit, [0xFFFD]).

(** One byte: the new state and the code points emitted. *)
Definition dstep (st : dstate) (b : Z) : dstate * list Z :=
  if bytes_needed st =? 0 then dstart b
  else if (b <? lower st) || (upper st <? b) then
    (* the open sequence is broken: U+FFFD, and the byte is read again *)
    let '(st', out) := dstart b in (st', 0xFFFD :: out)
  else
    let cp := Z.lor (Z.shiftl (code_point st) 6) (Z.land b 0x3F) in
    if bytes_seen st + 1 =? bytes_needed st then (dinit, [cp])
    else (DState cp (bytes_seen st + 1) (bytes_needed st) 0x80 0xBF, []).

Fixpoint drun (st : dstate) (bs : list Z) : list Z :=
  match bs with
  | [] => if bytes_needed st =? 0 then [] else [0xFFFD]
  | b :: bs' => let '(st', out) := dstep st b in out ++ drun st' bs'
  end.

Definition utf16_of_scalar (c : Z) : list Z :=
  if c <? 0x10000 then [c]
  else [0xD800 + (c - 0x10000) / 1024; 0xDC00 + (c - 0x10000) mod 1024].

(** A leading byte order mark is dropped ([ignoreBOM] is false). *)
Definition strip_bom (cps : list Z) : list Z :=
  match cps with
  | c :: t => if c =? 0xFEFF then t else cps
  | [] => []
  end.

(** [textDecoder.decode(bytes)], not fatal. *)
Definition decode (bs : list Z) : list Z :=
  concat (map utf16_of_scalar (strip_bom (drun dinit bs))).

(** ASCII text: every code unit is below 128. *)
Definition is_ascii (s : list Z) : Prop := Forall (fun c => 0 <= c < 128) s.

(** A well-formed string: 16-bit code units, every high surrogate followed
    by a low surrogate and no other low surrogate. *)
Fixpoint well_formed (s : list Z) : bool :=
  match s with
  | [] => true
  | c :: t =>
      (0 <=? c) && (c <? 65536) &&
      (if is_high_surrogate c then
         match t with
         | d :: t' => is_low_surrogate d && well_formed t'
         | [] => false
         end
       else negb (is_low_surrogate c) && well_formed t)
  end.

(** A Unicode scalar value: a code point that is not a surrogate. *)
Definition is_scalar (c : Z) : Prop :=
  0 <= c < 0x110000 /\ ~ (0xD800 <= c <= 0xDFFF).

End Text.

(** ** JavaScript values *)

Module Value.

(** The element types of the typed arrays of [CbufTypedArray]. *)
Inductive tkind : Type :=
| KInt8 | KUint8 | KInt16 | KUint16 | KInt32 | KUint32
| KFloat32 | KFloat64 | KBigInt64 | KBigUint64.

#[global] Instance tkind_eq_dec : EqDecision tkind.
Proof. solve_decision. Defined.

(** [BYTES_PER_ELEMENT] *)
Definition elem_size (k : tkind) : Z :=
  match k with
  | KInt8 | KUint8 => 1
  | KInt16 | KUint16 => 2
  | KInt32 | KUint32 | KFloat32 => 4
  | KFloat64 | KBigInt64 | KBigUint64 => 8
  end.

(** A typed array is the list of the bit patterns of its elements (it is
    a window on raw memory; the host is little-endian). *)
Inductive jsvalue : Type :=
| VUndefined
| VNull
| VBool (b : bool)
| VNumber (n : number)
| VBigInt (z : Z)
| VString (s : list Z)
| VArray (l : list jsvalue)
| VTyped (k : tkind) (ps : list Z)
| VObject (m : gmap (list Z) jsvalue).

Inductive jstype : Type :=
| TUndefined | TObject | TBoolean | TNumber | TBigInt | TString.

#[global] Instance jstype_eq_dec : EqDecision jstype.
Proof. solve_decision. Defined.

Definition typeof (v : jsvalue) : jstype :=
  match v with
  | VUndefined => TUndefined
  | VNull | VArray _ | VTyped _ _ | VObject _ => TObject
  | VBool _ => TBoolean
  | VNumber _ => TNumber
  | VBigInt _ => TBigInt
  | VString _ => TString
  end.

(** [v == undefined] (true of [undefined] and [null]). *)
Definition nullish (v : jsvalue) : bool :=
  match v with VUndefined | VNull => true | _ => false end.

(** [a ?? b] *)
Definition nullish_or (a b : jsvalue) : jsvalue :=
  if nullish a then b else a.

(** An optional property of a descriptor, read as a value. *)
Definition opt (o : option jsvalue) : jsvalue := default VUndefined o.

(** [arr[i]] on a typed array of kind [k] whose element has pattern [p]. *)
Definition typed_get (k : tkind) (p : Z) : jsvalue :=
  match k with
  | KInt8 => VNumber (of_Z (signed 8 p))
  | KUint8 => VNumber (of_Z p)
  | KInt16 => VNumber (of_Z (signed 16 p))
  | KUint16 => VNumber (of_Z p)
  | KInt32 => VNumber (of_Z (signed 32 p))
  | KUint32 => VNumber (of_Z p)
  | KFloat32 => VNumber (f64_of_f32 p)
  | KFloat64 => VNumber (canon (F64 p))
  | KBigInt64 => VBigInt (signed 64 p)
  | KBigUint64 => VBigInt p
  end.

(** [Array.isArray(value) || (ArrayBuffer.isView(value) && !(value
    instanceof DataView))]; the embedding has no DataView values. *)
Definition isArray (v : jsvalue) : bool :=
  match v with VArray _ | VTyped _ _ => true | _ => false end.

(** The elements of [isArray(value) ? value : []]. *)
Definition elements (v : jsvalue) : list jsvalue :=
  match v with
  | VArray l => l
  | VTyped k ps => map (typed_get k) ps
  | _ => []
  end.

(** [arrayValue[i]] *)
Definition index (l : list jsvalue) (i : Z) : jsvalue :=
  if i <? 0 then VUndefined else default VUndefined (l !! Z.to_nat i).

(** [typeof v === "string" ? v.length : 0] *)
Definition string_length (v : jsvalue) : Z :=
  match v with VString s => Z.of_nat (length s) | _ => 0 end.

Definition getNumber (v : jsvalue) : number :=
  match v with
  | VNumber n => n
  | VBigInt z => of_Z z
  | VBool b => if b then of_Z 1 else of_Z 0
  | _ => of_Z 0
  end.

Definition getBigInt (v : jsvalue) : res Z :=
  match v with
  | VBigInt z => Ok z
  | VNumber n => of_option (to_exact_integer n) RangeError
  | VBool b => Ok (if b then 1 else 0)
  | _ => Ok 0
  end.

(** Names that every object inherits from [Object.prototype]. *)
Definition object_prototype_keys : list (list Z) :=
  map js ["constructor"; "__defineGetter__"; "__defineSetter__"; "hasOwnProperty";
          "__lookupGetter__"; "__lookupSetter__"; "isPrototypeOf";
          "propertyIsEnumerable"; "toString"; "valueOf"; "__proto__";
          "toLocaleString"]%string.

Definition inherited (k : list Z) : bool :=
  bool_decide (k ∈ object_prototype_keys).

(** [message[key]].  Own properties of plain objects are modelled; a read
    that would reach the prototype chain, or the properties of arrays and
    primitives, is outside the embedding. *)
Definition get_prop (message : jsvalue) (key : list Z) : res jsvalue :=
  match message with
  | VObject m =>
      match m !! key with
      | Some v => Ok v
      | None => if inherited key then Err OutsideModel else Ok VUndefined
      end
  | VUndefined | VNull => Err TypeError
  | _ => Err OutsideModel
  end.

(** [output[key] = v] on a plain object. *)
Definition set_prop (output : gmap (list Z) jsvalue) (key : list Z) (v : jsvalue)
  : res (gmap (list Z) jsvalue) :=
  if inherited key then Err OutsideModel else Ok (<[key := v]> output).

End Value.
Export Value.

(** ** Schema descriptors *)

Module Field.
(** [MessageDefinitionField] of [@foxglove/message-definition]. *)
Record t : Type := mk {
  name : list Z;
  type : list Z;
  isComplex : bool;
  isArray : bool;
  arrayLength : option Z;
  arrayUpperBound : option Z;
  upperBound : option Z;
  defaultValue : option jsvalue;
  isConstant : bool;
  value : option number
}.

(** [{ name, type }] *)
Definition basic (n ty : list Z) : t :=
  mk n ty false false None None None None false None.
End Field.

Module Msgdef.
(** [CbufMessageDefinition] *)
Record t : Type := mk {
  name : list Z;
  namespaces : list (list Z);
  definitions : list Field.t;
  hashValue : Z;
  isEnum : bool;
  isEnumClass : bool;
  isNakedStruct : bool
}.
End Msgdef.

Module Lookup.

Definition sep : list Z := js "::".

(** [namespaces.slice(0, i).concat(typeName).join("::")] *)
Definition fqName (namespaces : list (list Z)) (i : nat) (typeName : list Z) : list Z :=
  join sep (take i namespaces ++ [typeName]).

(** [for (let i = ...; i >= 0; i--) { const d = m.get(fqName); if (d) return d }] *)
Fixpoint walk {A} (m : gmap (list Z) A) (namespaces : list (list Z))
         (typeName : list Z) (i : nat) : option A :=
  match m !! fqName namespaces i typeName with
  | Some d => Some d
  | None =>
      match i with
      | O => None
      | S i' => walk m namespaces typeName i'
      end
  end.

(** [lookupMsgdef], the version that looks a qualified name up directly. *)
Definition lookupMsgdef (nameToSchema : gmap (list Z) Msgdef.t)
           (namespaces : list (list Z)) (typeName : list Z) : res Msgdef.t :=
  if includes sep typeName
  then of_option (nameToSchema !! typeName) TypeNotFound
  else of_option (walk nameToSchema namespaces typeName (length namespaces)) TypeNotFound.

(** [lookupMsgdef], the earlier version that always walks the namespaces. *)
Definition lookupMsgdef_walk (nameToSchema : gmap (list Z) Msgdef.t)
           (namespaces : list (list Z)) (typeName : list Z) : res Msgdef.t :=
  of_option (walk nameToSchema namespaces typeName (length namespaces)) TypeNotFound.

Definition lookupEnum {A} (enums : gmap (list Z) A)
           (namespaces : list (list Z)) (typeName : list Z) : option A :=
  if includes sep typeName
  then enums !! typeName
  else walk enums namespaces typeName (length namespaces).

End Lookup.
Export Lookup.

(** ** Messages *)

Module MessageData.
(** [CbufMessageData] *)
Record t : Type := mk {
  typeName : list Z;
  timestamp : number;
  message : jsvalue
}.
End MessageData.

Module Message.
(** [CbufMessage] *)
Record t : Type := mk {
  typeName : list Z;
  size : Z;
  variant : Z;
  hashValue : Z;
  timestamp : number;
  message : jsvalue
}.

(** A [CbufMessage] passed where a [CbufMessageData] is expected. *)
Definition data (m : t) : MessageData.t :=
  MessageData.mk (typeName m) (timestamp m) (message m).
End Message.

(** ** DataView and typed-array access *)

Module View.

(** An [ArrayBufferView] / [DataView] used for reading. *)
Record DataView : Type := mkView {
  buffer : list Z;
  byteOffset : Z;
  byteLength : Z
}.

Definition len {A} (l : list A) : Z := Z.of_nat (length l).

(** [new DataView(buffer, byteOffset, byteLength)] *)
Definition new_DataView (buf : list Z) (off n : Z) : res DataView :=
  if (0 <=? off) && (0 <=? n) && (off + n <=? len buf)
  then Ok (mkView buf off n) else Err RangeError.

(** The [w] bytes at [off] of the view. *)
Definition get_bytes (v : DataView) (off w : Z) : res (list Z) :=
  if (0 <=? off) && (off + w <=? byteLength v)
  then Ok (slice (byteOffset v + off) w (buffer v)) else Err RangeError.

Definition getUint8 (v : DataView) (off : Z) : res Z :=
  le_value <$> get_bytes v off 1.
Definition getInt8 (v : DataView) (off : Z) : res Z :=
  (fun bs => signed 8 (le_value bs)) <$> get_bytes v off 1.
Definition getUint16 (v : DataView) (off : Z) : res Z :=
  le_value <$> get_bytes v off 2.
Definition getInt16 (v : DataView) (off : Z) : res Z :=
  (fun bs => signed 16 (le_value bs)) <$> get_bytes v off 2.
Definition getUint32 (v : DataView) (off : Z) : res Z :=
  le_value <$> get_bytes v off 4.
Definition getInt32 (v : DataView) (off : Z) : res Z :=
  (fun bs => signed 32 (le_value bs)) <$> get_bytes v off 4.
Definition getBigUint64 (v : DataView) (off : Z) : res Z :=
  le_value <$> get_bytes v off 8.
Definition getBigInt64 (v : DataView) (off : Z) : res Z :=
  (fun bs => signed 64 (le_value bs)) <$> get_bytes v off 8.
Definition getFloat32 (v : DataView) (off : Z) : res number :=
  (fun bs => f64_of_f32 (le_value bs)) <$> get_bytes v off 4.
Definition getFloat64 (v : DataView) (off : Z) : res number :=
  (fun bs => canon (F64 (le_value bs))) <$> get_bytes v off 8.

(** [new Uint8Array(buffer, off, n)]: the bytes, or a RangeError when the
    window leaves the underlying buffer. *)
Definition uint8_window (buf : list Z) (off n : Z) : res (list Z) :=
  if (0 <=? off) && (0 <=? n) && (off + n <=? len buf)
  then Ok (slice off n buf) else Err RangeError.

(** The patterns of [n] elements of [w] bytes each. *)
Fixpoint read_elems (w n : nat) (bs : list Z) : list Z :=
  match n with
  | O => []
  | S n' => le_value (take w bs) :: read_elems w n' (drop w bs)
  end.

(** [typedArray(TypedArrayConstructor, buffer, offset, length)] *)
Definition typedArray (k : tkind) (buf : list Z) (offset length : Z) : res jsvalue :=
  let w := elem_size k in
  if offset mod w =? 0 then
    (* new TypedArrayConstructor(buffer, offset, length) *)
    bs ← uint8_window buf offset (w * length);
    Ok (VTyped k (read_elems (Z.to_nat w) (Z.to_nat length) bs))
  else
    (* copy the bytes to restore the alignment *)
    let size := w * length in
    if size <? 0 then Err RangeError
    else
      src ← uint8_window buf offset size;
      let copy := splice 0 src (zeros size) in
      Ok (VTyped k (read_elems (Z.to_nat w) (Z.to_nat length) copy)).

(** Writing into the buffer under construction: the serializer's view
    covers the whole new [ArrayBuffer] ([byteOffset] 0). *)
Definition set_bytes (buf : list Z) (off : Z) (bs : list Z) : res (list Z) :=
  if (0 <=? off) && (off + len bs <=? len buf)
  then Ok (splice off bs buf) else Err RangeError.

(** [new ArrayBuffer(size)] *)
Definition new_ArrayBuffer (size : Z) : res (list Z) :=
  if size <? 0 then Err RangeError else Ok (zeros size).

Definition setUint8 (buf : list Z) (off : Z) (n : number) :=
  set_bytes buf off (le_bytes 1 (to_bits 8 n)).
Definition setInt8 := setUint8.
Definition setUint16 (buf : list Z) (off : Z) (n : number) :=
  set_bytes buf off (le_bytes 2 (to_bits 16 n)).
Definition setInt16 := setUint16.
Definition setUint32 (buf : list Z) (off : Z) (n : number) :=
  set_bytes buf off (le_bytes 4 (to_bits 32 n)).
Definition setInt32 := setUint32.
Definition setFloat32 (buf : list Z) (off : Z) (n : number) :=
  set_bytes buf off (le_bytes 4 (f32_of_f64 n)).
Definition setFloat64 (buf : list Z) (off : Z) (n : number) :=
  set_bytes buf off (le_bytes 8 (bits_of (canon n))).
Definition setBigUint64 (buf : list Z) (off : Z) (z : Z) :=
  set_bytes buf off (le_bytes 8 z).
Definition setBigInt64 := setBigUint64.

(** [view.setUint32(off, n, true)] for an integral [n] held as [Z]
    (sizes, lengths, the magic word). *)
Definition setUint32_int (buf : list Z) (off : Z) (n : Z) :=
  set_bytes buf off (le_bytes 4 n).

(** [for (let i = 0; i < n; i++) s = body(i, s)] *)
Fixpoint loop {S} (n : nat) (i : Z) (body : Z -> S -> res S) (s : S) : res S :=
  match n with
  | O => Ok s
  | S n' => s' ← body i s; loop n' (i + 1) body s'
  end.

Definition for_lt {S} (n : Z) (body : Z -> S -> res S) (s : S) : res S :=
  loop (Z.to_nat n) 0 body s.

(** 32-bit integer operators of JavaScript on integral numbers. *)
Definition int32 (a : Z) : Z := signed 32 (a mod 2 ^ 32).
Definition js_and (a b : Z) : Z := int32 (Z.land (int32 a) (int32 b)).
Definition js_shr (a n : Z) : Z := Z.shiftr (int32 a) n.
Definition js_ushr0 (a : Z) : Z := a mod 2 ^ 32.

(** The view holds the bytes [bs] at its offset [off]. *)
Definition fits (view : DataView) (off : Z) (bs : list Z) : Prop :=
  0 <= byteOffset view /\ 0 <= off /\ off + len bs <= byteLength view /\
  byteOffset view + byteLength view <= len (buffer view) /\
  exists pre post, buffer view = pre ++ bs ++ post /\ len pre = byteOffset view + off.

(** The view [v'] shows the bytes of the view [v] inside a larger buffer:
    the buffer of [v], with bytes before and after it.  Both views lie
    inside their buffers, as every [DataView] does. *)
Definition within (v v' : DataView) : Prop :=
  0 <= byteOffset v /\ byteOffset v + byteLength v <= len (buffer v) /\
  byteLength v <= byteLength v' /\
  byteOffset v' + byteLength v' <= len (buffer v') /\
  exists pre post, buffer v' = pre ++ buffer v ++ post /\
                   byteOffset v' = len pre + byteOffset v.

(** The first [L] bytes of the view [v], over a buffer that ends with
    them. *)
Definition cut (L : Z) (v : DataView) : DataView :=
  mkView (take (Z.to_nat (byteOffset v + L)) (buffer v)) (byteOffset v) L.

(** The buffer [view'] has the length of [view] and the same bytes
    outside the [n] bytes from [off] on. *)
Definition same_outside (off n : Z) (view view' : list Z) : Prop :=
  length view' = length view /\
  forall i : nat, Z.of_nat i < off \/ off + n <= Z.of_nat i -> view' !! i = view !! i.

End View.
Export View.

(** ** The binary codec ([src/serde.ts]) *)

Module Serde.

(** The cases of [switch (field.type)]. *)
Inductive tag : Type :=
| Bool | Int8 | Uint8 | Int16 | Uint16 | Int32 | Uint32
| Int64 | Uint64 | Float32 | Float64 | String_.

Definition tag_names : list (list Z * tag) :=
  [(js "bool", Bool); (js "int8", Int8); (js "uint8", Uint8);
   (js "int16", Int16); (js "uint16", Uint16); (js "int32", Int32);
   (js "uint32", Uint32); (js "int64", Int64); (js "uint64", Uint64);
   (js "float32", Float32); (js "float64", Float64); (js "string", String_)].

Definition tag_of (t : list Z) : option tag := assoc t tag_names.

Definition METADATA_DEFINITION : Msgdef.t :=
  {| Msgdef.name := js "cbufmsg::metadata";
     Msgdef.namespaces := [js "cbufmsg"];
     Msgdef.hashValue := 0xbe6738d544ab72c6;
     Msgdef.isEnum := false;
     Msgdef.isEnumClass := false;
     Msgdef.isNakedStruct := false;
     Msgdef.definitions :=
       [Field.basic (js "msg_hash") (js "uint64");
        Field.basic (js "msg_name") (js "string");
        Field.basic (js "msg_meta") (js "string")] |}.

Definition HEADER_SIZE : Z := 4 + 4 + 8 + 8.

Definition MAGIC : Z := 0x56444e54.

Definition createSchemaMaps (schemas : list Msgdef.t)
  : gmap (list Z) Msgdef.t * gmap Z Msgdef.t :=
  foldl (fun '(messageMap, hashMap) schema =>
           (<[Msgdef.name schema := schema]> messageMap,
            if Msgdef.isEnum schema then hashMap
            else <[Msgdef.hashValue schema := schema]> hashMap))
        (∅, ∅) schemas.

(** *** Deserialization *)

(** Decoding of the [sizeAndVariant] word. *)
Definition hasVariant (sizeAndVariant : Z) : bool :=
  js_ushr0 (js_and sizeAndVariant 0x8000000) =? 0x8000000.
Definition size_of_word (sizeAndVariant : Z) : Z :=
  if hasVariant sizeAndVariant
  then js_and sizeAndVariant 0x07ffffff else js_and sizeAndVariant 0x7fffffff.
Definition variant_of_word (sizeAndVariant : Z) : Z :=
  if hasVariant sizeAndVariant
  then js_and (js_shr sizeAndVariant 27) 0x0f else 0.

Definition readBasicType (view : DataView) (offset : Z)
           (message : gmap (list Z) jsvalue) (field : Field.t)
  : res (Z * gmap (list Z) jsvalue) :=
  let put v n := (m ← set_prop message (Field.name field) v; Ok (n, m)) in
  match tag_of (Field.type field) with
  | Some Bool => b ← getUint8 view offset; put (VBool (negb (b =? 0))) 1
  | Some Int8 => x ← getInt8 view offset; put (VNumber (of_Z x)) 1
  | Some Uint8 => x ← getUint8 view offset; put (VNumber (of_Z x)) 1
  | Some Int16 => x ← getInt16 view offset; put (VNumber (of_Z x)) 2
  | Some Uint16 => x ← getUint16 view offset; put (VNumber (of_Z x)) 2
  | Some Int32 => x ← getInt32 view offset; put (VNumber (of_Z x)) 4
  | Some Uint32 => x ← getUint32 view offset; put (VNumber (of_Z x)) 4
  | Some Int64 => x ← getBigInt64 view offset; put (VBigInt x) 8
  | Some Uint64 => x ← getBigUint64 view offset; put (VBigInt x) 8
  | Some Float32 => x ← getFloat32 view offset; put (VNumber x) 4
  | Some Float64 => x ← getFloat64 view offset; put (VNumber x) 8
  | Some String_ =>
      '(length, curOffset) ←
        match Field.upperBound field with
        | Some l => Ok (l, 0)
        | None => l ← getUint32 view offset; Ok (l, 4)
        end;
      bytes ← uint8_window (buffer view) (byteOffset view + offset + curOffset) length;
      let str := Text.decode bytes in
      put (VString (before_nul str)) (curOffset + length)
  | None => Err (UnsupportedType (Field.type field))
  end.

(** [hashValue === METADATA_DEFINITION.hashValue ? METADATA_DEFINITION
    : hashToSchema.get(hashValue)], failing when absent. *)
Definition find_by_hash (hashToSchema : gmap Z Msgdef.t) (hashValue : Z)
  : res Msgdef.t :=
  if hashValue =? Msgdef.hashValue METADATA_DEFINITION then Ok METADATA_DEFINITION
  else of_option (hashToSchema !! hashValue) HashNotFound.

Section Decode.
Context (schemaMap : gmap (list Z) Msgdef.t) (hashMap : gmap Z Msgdef.t).

(** The recursive call [deserializeNakedMessage(schemaMap, hashMap, ...)]. *)
Context (naked : Msgdef.t -> DataView -> Z -> gmap (list Z) jsvalue ->
                 res (Z * gmap (list Z) jsvalue)).

Definition deserializeMessage_with (data : DataView) (offset : option Z)
  : res Message.t :=
  let curOffset := default 0 offset in
  if (curOffset <? 0) || (byteOffset data + byteLength data <=? curOffset)
  then Err InvalidOffset
  else
    view ← new_DataView (buffer data) (byteOffset data + curOffset)
                        (byteLength data - curOffset);
    let curOffset := 0 in
    if byteLength view <? 24 then Err BufferTooSmall
    else
      (* CBUF_MAGIC *)
      magic ← getUint32 view curOffset;
      let curOffset := curOffset + 4 in
      if negb (magic =? 0x56444e54) then Err BadMagic
      else
        (* size and variant *)
        sizeAndVariant ← getUint32 view curOffset;
        let size := size_of_word sizeAndVariant in
        let variant := variant_of_word sizeAndVariant in
        let curOffset := curOffset + 4 in
        if byteLength view <? size then Err SizeExceedsBuffer
        else
          (* hashValue *)
          hashValue ← getBigUint64 view curOffset;
          let curOffset := curOffset + 8 in
          (* timestamp *)
          timestamp ← getFloat64 view curOffset;
          let curOffset := curOffset + 8 in
          msgdef ← find_by_hash hashMap hashValue;
          (* message data *)
          '(n, message) ← naked msgdef view curOffset ∅;
          let curOffset := curOffset + n in
          if negb (curOffset =? size) then Err SizeMismatch
          else Ok (Message.mk (Msgdef.name msgdef) size variant hashValue
                              timestamp (VObject message)).

Definition readNonArrayField (field : Field.t) (namespaces : list (list Z))
           (view : DataView) (offset : Z) (output : gmap (list Z) jsvalue)
  : res (Z * gmap (list Z) jsvalue) :=
  if Field.isComplex field then
    nestedMsgdef ← lookupMsgdef schemaMap namespaces (Field.type field);
    if Msgdef.isNakedStruct nestedMsgdef then
      (* nested naked struct (no header) *)
      '(n, nestedMessage) ← naked nestedMsgdef view offset ∅;
      output ← set_prop output (Field.name field) (VObject nestedMessage);
      Ok (n, output)
    else
      (* nested non-naked struct: a cbuf header, then the message data *)
      nestedMessage ← deserializeMessage_with view (Some offset);
      output ← set_prop output (Field.name field) (Message.message nestedMessage);
      Ok (Message.size nestedMessage, output)
  else
    readBasicType view offset output field.

(** The typed-array cases of the array switch. *)
Definition typed_kind (t : tag) : option tkind :=
  match t with
  | Uint8 => Some KUint8 | Int8 => Some KInt8
  | Uint16 => Some KUint16 | Int16 => Some KInt16
  | Uint32 => Some KUint32 | Int32 => Some KInt32
  | Uint64 => Some KBigUint64 | Int64 => Some KBigInt64
  | Float32 => Some KFloat32 | Float64 => Some KFloat64
  | Bool | String_ => None
  end.

(** One field of [deserializeNakedMessage]; the state is
    [(innerOffset, output)]. *)
Definition deserializeField (msgdef : Msgdef.t) (view : DataView) (offset : Z)
           (st : Z * gmap (list Z) jsvalue) (field : Field.t)
  : res (Z * gmap (list Z) jsvalue) :=
  let '(innerOffset, output) := st in
  if Field.isArray field then
    (* array field (fixed or variable length) *)
    '(arrayLength, innerOffset) ←
      match Field.arrayLength field with
      | Some l => Ok (l, innerOffset)
      | None => l ← getUint32 view (offset + innerOffset); Ok (l, innerOffset + 4)
      end;
    let bufferOffset := byteOffset view + offset + innerOffset in
    match tag_of (Field.type field) with
    | Some Bool =>
        '(innerOffset, array) ←
          for_lt arrayLength
            (fun _ '(innerOffset, array) =>
               b ← getUint8 view (offset + innerOffset);
               Ok (innerOffset + 1, array ++ [VBool (negb (b =? 0))]))
            (innerOffset, []);
        output ← set_prop output (Field.name field) (VArray array);
        Ok (innerOffset, output)
    | Some String_ | None =>
        (* string array or nested struct array *)
        '(innerOffset, array, _) ←
          for_lt arrayLength
            (fun _ '(innerOffset, array, fieldOutput) =>
               let curOffset := offset + innerOffset in
               '(n, fieldOutput) ← readNonArrayField field (Msgdef.namespaces msgdef)
                                      view curOffset fieldOutput;
               elem ← get_prop (VObject fieldOutput) (Field.name field);
               Ok (innerOffset + n, array ++ [elem], fieldOutput))
            (innerOffset, [], ∅);
        output ← set_prop output (Field.name field) (VArray array);
        Ok (innerOffset, output)
    | Some t =>
        match typed_kind t with
        | Some k =>
            arr ← typedArray k (buffer view) bufferOffset arrayLength;
            output ← set_prop output (Field.name field) arr;
            Ok (innerOffset + arrayLength * elem_size k, output)
        | None => Err OutsideModel
        end
    end
  else
    '(n, output) ← readNonArrayField field (Msgdef.namespaces msgdef)
                      view (offset + innerOffset) output;
    Ok (innerOffset + n, output).

End Decode.

Fixpoint deserializeNakedMessage (fuel : nat)
         (schemaMap : gmap (list Z) Msgdef.t) (hashMap : gmap Z Msgdef.t)
         (msgdef : Msgdef.t) (view : DataView) (offset : Z)
         (output : gmap (list Z) jsvalue) {struct fuel}
  : res (Z * gmap (list Z) jsvalue) :=
  match fuel with
  | O => Err StackOverflow
  | S fuel' =>
      foldM (deserializeField schemaMap hashMap
               (deserializeNakedMessage fuel' schemaMap hashMap) msgdef view offset)
            (0, output) (Msgdef.definitions msgdef)
  end.

Definition deserializeMessage (fuel : nat)
           (nameToSchema : gmap (list Z) Msgdef.t) (hashToSchema : gmap Z Msgdef.t)
           (data : DataView) (offset : option Z) : res Message.t :=
  deserializeMessage_with hashToSchema
    (deserializeNakedMessage fuel nameToSchema hashToSchema) data offset.

(** *** Size calculation *)

(** The width of a scalar or array element of a fixed-width type. *)
Definition width (t : tag) : Z :=
  match t with
  | Bool | Uint8 | Int8 => 1
  | Uint16 | Int16 => 2
  | Uint32 | Int32 | Float32 => 4
  | Uint64 | Int64 | Float64 => 8
  | String_ => 0
  end.

(** [(v != undefined && typeof v === "object" ? v : {})] *)
Definition object_or_empty (v : jsvalue) : jsvalue :=
  if negb (nullish v) && bool_decide (typeof v = TObject) then v else VObject ∅.

Section Size.
Context (nameToSchema : gmap (list Z) Msgdef.t).

(** The recursive call [serializedNakedMessageSize(nameToSchema, ...)]. *)
Context (sizeOf : Msgdef.t -> jsvalue -> res Z).

(** One field of [serializedNakedMessageSize]; the state is [size]. *)
Definition sizeField (msgdef : Msgdef.t) (message : jsvalue)
           (size : Z) (field : Field.t) : res Z :=
  v ← get_prop message (Field.name field);
  let value := nullish_or v (opt (Field.defaultValue field)) in
  if Field.isArray field then
    (* array field (fixed or variable length) *)
    let arrayValue := elements value in
    let '(arrayLength, size) :=
      match Field.arrayLength field with
      | Some l => (l, size)
      | None => (len arrayValue, size + 4)
      end in
    match tag_of (Field.type field) with
    | Some String_ =>
        match Field.upperBound field with
        | None =>
            (* variable length string array: a 4-byte length prefix each *)
            let size := size + arrayLength * 4 in
            Ok (foldl (fun size element => size + string_length element) size arrayValue)
        | Some ub => Ok (size + arrayLength * ub)
        end
    | Some t => Ok (size + arrayLength * width t)
    | None =>
        (* nested struct array: the size of each element individually *)
        if 0 <? len arrayValue then
          nestedMsgdef ← lookupMsgdef nameToSchema (Msgdef.namespaces msgdef)
                                      (Field.type field);
          foldM (fun size element =>
                   n ← sizeOf nestedMsgdef (object_or_empty element);
                   Ok (size + n))
                size arrayValue
        else Ok size
    end
  else if Field.isComplex field then
    nestedMsgdef ← lookupMsgdef nameToSchema (Msgdef.namespaces msgdef)
                                (Field.type field);
    let size := if negb (Msgdef.isNakedStruct nestedMsgdef)
                then size + HEADER_SIZE else size in
    n ← sizeOf nestedMsgdef (object_or_empty value);
    Ok (size + n)
  else
    match tag_of (Field.type field) with
    | Some String_ =>
        match Field.upperBound field with
        | None => Ok (size + 4 + string_length value)
        | Some length => Ok (size + length)
        end
    | Some t => Ok (size + width t)
    | None => Err (UnsupportedType (Field.type field))
    end.

End Size.

Fixpoint serializedNakedMessageSize (fuel : nat)
         (nameToSchema : gmap (list Z) Msgdef.t)
         (msgdef : Msgdef.t) (message : jsvalue) {struct fuel} : res Z :=
  match fuel with
  | O => Err StackOverflow
  | S fuel' =>
      foldM (sizeField nameToSchema
               (serializedNakedMessageSize fuel' nameToSchema) msgdef message)
            0 (Msgdef.definitions msgdef)
  end.

(** [message.typeName === METADATA_DEFINITION.name ? METADATA_DEFINITION
    : nameToSchema.get(message.typeName)], failing when absent. *)
Definition find_msgdef (nameToSchema : gmap (list Z) Msgdef.t) (typeName : list Z)
  : res Msgdef.t :=
  if eqb typeName (Msgdef.name METADATA_DEFINITION) then Ok METADATA_DEFINITION
  else of_option (nameToSchema !! typeName) UnknownMessageType.

Definition serializedMessageSize (fuel : nat)
           (nameToSchema : gmap (list Z) Msgdef.t) (message : MessageData.t) : res Z :=
  if negb (bool_decide (typeof (MessageData.message message) = TObject))
  then Err MessageNotObject
  else
    msgdef ← find_msgdef nameToSchema (MessageData.typeName message);
    n ← serializedNakedMessageSize fuel nameToSchema msgdef (MessageData.message message);
    Ok (HEADER_SIZE + n).

(** *** Serialization *)

Section Encode.
Context (nameToSchema : gmap (list Z) Msgdef.t).

(** The recursive calls [serializeNakedMessage(nameToSchema, ...)] and
    [serializedNakedMessageSize(nameToSchema, ...)]. *)
Context (naked : Msgdef.t -> jsvalue -> list Z -> Z -> res (Z * list Z)).
Context (sizeOf : Msgdef.t -> jsvalue -> res Z).

(** What [dest] receives: [dest.set(bytes.slice(0, length))] for a
    non-empty string, [dest.fill(0)] otherwise. *)
Definition stringData (value : jsvalue) (length : Z) : list Z :=
  match value with
  | VString s =>
      if 0 <? len s then take (Z.to_nat length) (Text.encode s)
      else zeros length
  | _ => zeros length
  end.

(** The [case "string"] of [serializeNonArrayField]. *)
Definition serializeString (field : Field.t) (value : jsvalue)
           (view : list Z) (curOffset : Z) : res (Z * list Z) :=
  '(length, innerOffset, view) ←
    match Field.upperBound field with
    | Some l => Ok (l, 0, view)
    | None =>
        let l := string_length value in
        view ← setUint32_int view curOffset l;
        Ok (l, 4, view)
    end;
  if 0 <? length then
    let byteOffset := 0 + curOffset + innerOffset in
    _ ← uint8_window view byteOffset length;   (* dest *)
    view ← set_bytes view byteOffset (stringData value length);
    Ok (innerOffset + length, view)
  else Ok (innerOffset, view).

Definition serializeNonArrayField (namespaces : list (list Z)) (field : Field.t)
           (value : jsvalue) (view : list Z) (curOffset : Z) : res (Z * list Z) :=
  if Field.isComplex field then
    nestedMsgdef ← lookupMsgdef nameToSchema namespaces (Field.type field);
    '(innerOffset, view) ←
      (if negb (Msgdef.isNakedStruct nestedMsgdef) then
         nestedSize ← sizeOf nestedMsgdef value;
         view ← setUint32_int view curOffset 0x56444e54;
         view ← setUint32_int view (curOffset + 4) (HEADER_SIZE + nestedSize);
         view ← setBigUint64 view (curOffset + 8) (Msgdef.hashValue nestedMsgdef);
         view ← setFloat64 view (curOffset + 16) (of_Z 0);
         Ok (24, view)
       else Ok (0, view));
    '(n, view) ← naked nestedMsgdef value view (curOffset + innerOffset);
    Ok (innerOffset + n, view)
  else
    match tag_of (Field.type field) with
    | Some Bool | Some Uint8 =>
        view ← setUint8 view curOffset (getNumber value); Ok (1, view)
    | Some Int8 =>
        view ← setInt8 view curOffset (getNumber value); Ok (1, view)
    | Some Uint16 =>
        view ← setUint16 view curOffset (getNumber value); Ok (2, view)
    | Some Int16 =>
        view ← setInt16 view curOffset (getNumber value); Ok (2, view)
    | Some Uint32 =>
        view ← setUint32 view curOffset (getNumber value); Ok (4, view)
    | Some Int32 =>
        view ← setInt32 view curOffset (getNumber value); Ok (4, view)
    | Some Float32 =>
        view ← setFloat32 view curOffset (getNumber value); Ok (4, view)
    | Some Uint64 =>
        z ← getBigInt value; view ← setBigUint64 view curOffset z; Ok (8, view)
    | Some Int64 =>
        z ← getBigInt value; view ← setBigInt64 view curOffset z; Ok (8, view)
    | Some Float64 =>
        view ← setFloat64 view curOffset (getNumber value); Ok (8, view)
    | Some String_ => serializeString field value view curOffset
    | None => Err (UnsupportedType (Field.type field))
    end.

(** One field of [serializeNakedMessage]; the state is
    [(innerOffset, view)]. *)
Definition serializeField (msgdef : Msgdef.t) (message : jsvalue) (offset : Z)
           (st : Z * list Z) (field : Field.t) : res (Z * list Z) :=
  let '(innerOffset, view) := st in
  v ← get_prop message (Field.name field);
  let value := nullish_or v (opt (Field.defaultValue field)) in
  if Field.isArray field then
    (* array field (fixed or variable length) *)
    let arrayValue := elements value in
    '(arrayLength, innerOffset, view) ←
      match Field.arrayLength field with
      | Some l => Ok (l, innerOffset, view)
      | None =>
          let l := len arrayValue in
          view ← setUint32_int view (offset + innerOffset) l;
          Ok (l, innerOffset + 4, view)
      end;
    for_lt arrayLength
      (fun i '(innerOffset, view) =>
         '(n, view) ← serializeNonArrayField (Msgdef.namespaces msgdef) field
                         (index arrayValue i) view (offset + innerOffset);
         Ok (innerOffset + n, view))
      (innerOffset, view)
  else
    '(n, view) ← serializeNonArrayField (Msgdef.namespaces msgdef) field
                    value view (offset + innerOffset);
    Ok (innerOffset + n, view).

End Encode.

Fixpoint serializeNakedMessage (fuel : nat)
         (nameToSchema : gmap (list Z) Msgdef.t)
         (msgdef : Msgdef.t) (message : jsvalue) (view : list Z) (offset : Z)
         {struct fuel} : res (Z * list Z) :=
  match fuel with
  | O => Err StackOverflow
  | S fuel' =>
      foldM (serializeField nameToSchema
               (serializeNakedMessage fuel' nameToSchema)
               (serializedNakedMessageSize fuel' nameToSchema)
               msgdef message offset)
            (0, view) (Msgdef.definitions msgdef)
  end.

(** The run of [serializeMessage]: the buffer and the final [curOffset]. *)
Definition serializeMessage_run (fuel : nat)
           (nameToSchema : gmap (list Z) Msgdef.t) (message : MessageData.t)
  : res (list Z * Z) :=
  let curOffset := 0 in
  msgdef ← find_msgdef nameToSchema (MessageData.typeName message);
  (* determine the total message size *)
  size ← serializedMessageSize fuel nameToSchema message;
  buffer ← new_ArrayBuffer size;
  (* CBUF_MAGIC *)
  view ← setUint32_int buffer curOffset 0x56444e54;
  let curOffset := curOffset + 4 in
  (* size and variant (variant is always zero) *)
  view ← setUint32_int view curOffset size;
  let curOffset := curOffset + 4 in
  (* hashValue *)
  view ← setBigUint64 view curOffset (Msgdef.hashValue msgdef);
  let curOffset := curOffset + 8 in
  (* timestamp *)
  view ← setFloat64 view curOffset (MessageData.timestamp message);
  let curOffset := curOffset + 8 in
  (* message data *)
  '(n, view) ← serializeNakedMessage fuel nameToSchema msgdef
                  (MessageData.message message) view curOffset;
  let curOffset := curOffset + n in
  Ok (view, curOffset).

Definition serializeMessage (fuel : nat)
           (nameToSchema : gmap (list Z) Msgdef.t) (message : MessageData.t)
  : res (list Z) :=
  fst <$> serializeMessage_run fuel nameToSchema message.

End Serde.

(** ** Hashing and semantic analysis ([src/parse.ts]) *)

Module Parse.

(** [ParserEntityDefinition]: what the grammar yields. *)
Inductive entity : Type :=
| Namespace (name : list Z) (definitions : list entity)
| Constant (type : list Z) (isComplex : bool) (name : list Z) (value : jsvalue)
| Enum (name : list Z) (isEnumClass : option bool) (definitions : list Field.t)
| Struct (name : list Z) (isNakedStruct : option bool) (definitions : list Field.t).

Definition entity_name (e : entity) : list Z :=
  match e with
  | Namespace n _ | Constant _ _ n _ | Enum n _ _ | Struct n _ _ => n
  end.

Definition is_namespace (e : entity) : bool :=
  match e with Namespace _ _ => true | _ => false end.

(** The first code unit of each code point of the string: what
    [for (const c of str)] with [c.charCodeAt(0)] visits. *)
Fixpoint char_codes (s : list Z) : list Z :=
  match s with
  | [] => []
  | c :: t =>
      if Text.is_high_surrogate c then
        match t with
        | d :: t' => if Text.is_low_surrogate d then c :: char_codes t'
                     else c :: char_codes t
        | [] => [c]
        end
      else c :: char_codes t
  end.

(** Whether the last code unit of the string is a high surrogate: a low
    surrogate that follows belongs to the same character. *)
Definition ends_high (s : list Z) : bool :=
  match last s with
  | Some c => Text.is_high_surrogate c
  | None => false
  end.

Definition mask : Z := 0xffffffffffffffff.

Definition hashStep (hash c : Z) : Z :=
  Z.land (Z.land (Z.shiftl hash 5 + hash) mask + c) mask.

Definition hashString (str : list Z) : Z :=
  foldl hashStep 5381 (char_codes str).

Definition elementTypeToStrC (type : list Z) : res (list Z) :=
  of_option
    (assoc type
       [(js "uint8", js "uint8_t"); (js "uint16", js "uint16_t");
        (js "uint32", js "uint32_t"); (js "uint64", js "uint64_t");
        (js "int8", js "int8_t"); (js "int16", js "int16_t");
        (js "int32", js "int32_t"); (js "int64", js "int64_t");
        (js "float32", js "float"); (js "float64", js "double");
        (js "string", js "std::string"); (js "short_string", js "VString<15>");
        (js "bool", js "bool")])
    (UnsupportedType type).

(** [`${n}`] for an integral number. *)
Definition number_to_string (n : Z) : res (list Z) :=
  if Z.abs n <? 10 ^ 21 then Ok (decimal n) else Err OutsideModel.

Section Hash.
Context (nameToSchema : gmap (list Z) Msgdef.t).
(** The recursive call [computeHashValue(nameToSchema, ...)]. *)
Context (nested : list (list Z) -> list Z -> res Z).

(** The text pushed for one field. *)
Definition fieldText (msgdef : Msgdef.t) (field : Field.t) : res (list Z) :=
  prefix ← (if Field.isArray field then
              n ← number_to_string (default 0 (Field.arrayLength field));
              Ok (js "[" ++ n ++ js "] ")
            else Ok []);
  if Field.isComplex field then
    nestedHash ← nested (Msgdef.namespaces msgdef) (Field.type field);
    Ok (prefix ++ decimal nestedHash ++ js " " ++ Field.name field ++ [59; 10])
  else
    c ← elementTypeToStrC (Field.type field);
    Ok (prefix ++ c ++ js " " ++ Field.name field ++ [59; 32; 10]).

(** [buf.join('')]: the canonical text of the struct. *)
Definition canonicalText (msgdef : Msgdef.t) (typeName : list Z) : res (list Z) :=
  foldM (fun buf field => t ← fieldText msgdef field; Ok (buf ++ t))
        (js "struct " ++ typeName ++ [32; 10]) (Msgdef.definitions msgdef).
End Hash.

Fixpoint computeHashValue (fuel : nat) (nameToSchema : gmap (list Z) Msgdef.t)
         (namespaces : list (list Z)) (typeName : list Z) {struct fuel} : res Z :=
  match fuel with
  | O => Err StackOverflow
  | S fuel' =>
      msgdef ← lookupMsgdef nameToSchema namespaces typeName;
      text ← canonicalText (computeHashValue fuel' nameToSchema) msgdef typeName;
      Ok (hashString text)
  end.

Definition defaultValueTypeCheck (typeName : list Z) (element : jsvalue) : res unit :=
  if eqb typeName (js "string") || eqb typeName (js "short_string") then
    if bool_decide (typeof element = TString) then Ok tt else Err InvalidDefaultValue
  else if eqb typeName (js "bool") then
    if bool_decide (typeof element = TBoolean) then Ok tt else Err InvalidDefaultValue
  else
    if bool_decide (typeof element = TNumber) then Ok tt else Err InvalidDefaultValue.

(** [EnumDefinition] as kept in the [enums] map.  The map holds the entity
    object whose member objects the enum case then mutates, so the members
    seen through the map carry the assigned values. *)
Record EnumDefinition : Type := mkEnum {
  enum_name : list Z;
  enum_isEnumClass : option bool;
  enum_definitions : list Field.t
}.

(** The state that [parseEntities] mutates. *)
Record pstate : Type := mkState {
  entityNames : gset (list Z);
  constants : gset (list Z);
  enums : gmap (list Z) EnumDefinition
}.

Definition with_value (d : Field.t) (v : number) : Field.t :=
  Field.mk (Field.name d) (Field.type d) (Field.isComplex d) (Field.isArray d)
           (Field.arrayLength d) (Field.arrayUpperBound d) (Field.upperBound d)
           (Field.defaultValue d) (Field.isConstant d) (Some v).

Definition with_type (d : Field.t) (ty : list Z) (cx : bool) : Field.t :=
  Field.mk (Field.name d) ty cx (Field.isArray d)
           (Field.arrayLength d) (Field.arrayUpperBound d) (Field.upperBound d)
           (Field.defaultValue d) (Field.isConstant d) (Field.value d).

Definition with_default (d : Field.t) (v : option jsvalue) : Field.t :=
  Field.mk (Field.name d) (Field.type d) (Field.isComplex d) (Field.isArray d)
           (Field.arrayLength d) (Field.arrayUpperBound d) (Field.upperBound d)
           v (Field.isConstant d) (Field.value d).

(** "Ensure a value is set for each enum field": [definition.value =
    nextValue++] and [nextValue = definition.value + 1], on numbers.  A
    member value is a number in the embedding, as the grammar yields
    nothing else, so the [typeof ... !== "number"] throw has no
    counterpart. *)
Fixpoint assignEnumValues (nextValue : number) (definitions : list Field.t)
  : list Field.t :=
  match definitions with
  | [] => []
  | definition :: rest =>
      match Field.value definition with
      | None => with_value definition nextValue
                :: assignEnumValues (number_add nextValue (of_Z 1)) rest
      | Some v => definition :: assignEnumValues (number_add v (of_Z 1)) rest
      end
  end.

(** [s === v] for a string [s]. *)
Definition strict_eq_string (s : list Z) (v : jsvalue) : bool :=
  match v with VString s' => eqb s s' | _ => false end.

(** "Rewrite enum-typed fields as uint32s", for one field. *)
Definition rewriteField (enums : gmap (list Z) EnumDefinition)
           (namespaces : list (list Z)) (definition : Field.t) : res Field.t :=
  if Field.isComplex definition then
    match lookupEnum enums namespaces (Field.type definition) with
    | Some enumDefinition =>
        let definition := with_type definition (js "uint32") false in
        let dv := opt (Field.defaultValue definition) in
        if negb (nullish dv) && negb (bool_decide (typeof dv = TNumber)) then
          match find (fun d => strict_eq_string (Field.name d) dv)
                     (enum_definitions enumDefinition) with
          | Some enumValue =>
              Ok (with_default definition (VNumber <$> Field.value enumValue))
          | None => Err UnknownEnumValue
          end
        else Ok definition
    | None =>
        if negb (includes Lookup.sep (Field.type definition))
        then Ok (with_type definition
                   (join Lookup.sep (namespaces ++ [Field.type definition])) true)
        else Ok definition
    end
  else Ok definition.

(** "Type check default values", for one field. *)
Definition checkDefault (definition : Field.t) : res unit :=
  let dv := opt (Field.defaultValue definition) in
  if negb (nullish dv) then
    if Field.isComplex definition then Err ComplexDefaultForbidden
    else if Field.isArray definition then
      match dv with
      | VArray elems =>
          foldM (fun _ element =>
                   defaultValueTypeCheck (Field.type definition) element)
                tt elems
      | _ => Err InvalidDefaultValue
      end
    else defaultValueTypeCheck (Field.type definition) dv
  else Ok tt.

(** [xs.map(f)] for an [f] that may throw. *)
Fixpoint mapM {A B} (f : A -> res B) (xs : list A) : res (list B) :=
  match xs with
  | [] => Ok []
  | x :: xs' => y ← f x; ys ← mapM f xs'; Ok (y :: ys)
  end.

(** One iteration of the loop of [parseEntities]. *)
Fixpoint parseEntity (namespaces : list (list Z)) (st : pstate) (entity : entity)
         {struct entity} : res (pstate * list Msgdef.t) :=
  let entityName := join Lookup.sep (namespaces ++ [entity_name entity]) in
  (* check for duplicate entity names *)
  st ← (if negb (bool_decide (entityName = [])) && negb (is_namespace entity) then
          if bool_decide (entityName ∈ entityNames st)
          then Err (DuplicateEntity entityName)
          else Ok (mkState ({[entityName]} ∪ entityNames st) (constants st) (enums st))
        else Ok st);
  match entity with
  | Namespace name definitions =>
      if 0 <? len namespaces then Err NestedNamespace
      else
        (fix go (es : list Parse.entity) (st : pstate) (results : list Msgdef.t)
           : res (pstate * list Msgdef.t) :=
           match es with
           | [] => Ok (st, results)
           | e :: es' =>
               '(st, r) ← parseEntity (namespaces ++ [name]) st e;
               go es' st (results ++ r)
           end) definitions st []
  | Constant type _ name value =>
      _ ← defaultValueTypeCheck type value;
      Ok (mkState (entityNames st) ({[entityName]} ∪ constants st) (enums st), [])
  | Enum name isEnumClass definitions =>
      let definitions := assignEnumValues (of_Z 0) definitions in
      let st := mkState (entityNames st) (constants st)
                  (<[entityName := mkEnum name isEnumClass definitions]> (enums st)) in
      Ok (st, [Msgdef.mk entityName namespaces definitions 0 true
                         (default false isEnumClass) false])
  | Struct name isNakedStruct definitions =>
      definitions ← mapM (rewriteField (enums st) namespaces) definitions;
      _ ← foldM (fun _ definition => checkDefault definition) tt definitions;
      Ok (st, [Msgdef.mk entityName namespaces definitions 0 false false
                         (default false isNakedStruct)])
  end.

Fixpoint parseEntities (entities : list entity) (namespaces : list (list Z))
         (st : pstate) (results : list Msgdef.t) : res (pstate * list Msgdef.t) :=
  match entities with
  | [] => Ok (st, results)
  | e :: es =>
      '(st, r) ← parseEntity namespaces st e;
      parseEntities es namespaces st (results ++ r)
  end.

Definition with_hash (d : Msgdef.t) (h : Z) : Msgdef.t :=
  Msgdef.mk (Msgdef.name d) (Msgdef.namespaces d) (Msgdef.definitions d) h
            (Msgdef.isEnum d) (Msgdef.isEnumClass d) (Msgdef.isNakedStruct d).

(** [parse], from the entity list that the grammar yields. *)
Definition parseTree (fuel : nat) (entities : list entity) : res (list Msgdef.t) :=
  if bool_decide (entities = []) then Err NoEntities
  else
    '(_, parsed) ← parseEntities entities [] (mkState ∅ ∅ ∅) [];
    (* build a map from struct/enum name to definition *)
    let map := foldl (fun m result => <[Msgdef.name result := result]> m) ∅ parsed in
    let structCount := len (filter (fun r => Msgdef.isEnum r = false) parsed) in
    if structCount =? 0 then Err NoStructs
    else
      (* compute hash values *)
      mapM (fun result =>
              if Msgdef.isEnum result then Ok result
              else h ← computeHashValue fuel map (Msgdef.namespaces result)
                                        (Msgdef.name result);
                   Ok (with_hash result h))
           parsed.

(** The shape of the line of one field in the canonical text. *)
Definition lineShape (nested : list (list Z) -> list Z -> res Z)
           (msgdef : Msgdef.t) (fd : Field.t) (line : list Z) : Prop :=
  exists prefix element terminator,
    line = prefix ++ element ++ js " " ++ Field.name fd ++ terminator /\
    (if Field.isArray fd
     then prefix = js "[" ++ decimal (default 0 (Field.arrayLength fd)) ++ js "] "
     else prefix = []) /\
    (if Field.isComplex fd
     then (exists h, nested (Msgdef.namespaces msgdef) (Field.type fd) = Ok h /\
                     element = decimal h) /\
          terminator = [59; 10]
     else elementTypeToStrC (Field.type fd) = Ok element /\
          terminator = [59; 32; 10]).

(** What a turn of [parseEntities] does with the set of entity names: the
    entities it yields have new names, which the set records. *)
Definition fresh (st st' : pstate) (r : list Msgdef.t) : Prop :=
  entityNames st ⊆ entityNames st' /\
  NoDup (map Msgdef.name r) /\
  forall d, d ∈ r -> Msgdef.name d ∈ entityNames st' /\ Msgdef.name d ∉ entityNames st.

(** The constants, enums and structs of the global namespace have a
    name (the grammar yields no empty identifier). *)
Definition named (entities : list entity) : Prop :=
  Forall (fun e => is_namespace e = false -> entity_name e <> []) entities.

(** The map from names to entities that [parse] builds before hashing. *)
Definition nameMap (parsed : list Msgdef.t) : gmap (list Z) Msgdef.t :=
  foldl (fun m result => <[Msgdef.name result := result]> m) ∅ parsed.

(** Whether a declaration is an enum or a struct. *)
Definition entity_kind (e : entity) : option bool :=
  match e with
  | Enum _ _ _ => Some true
  | Struct _ _ _ => Some false
  | _ => None
  end.

(** The entity [d] of the result stands for a declaration of the entity
    list: an enum or a struct [e] of the top level, under its declared
    name, or an enum or a struct [e] of a namespace [ns] of the top level,
    under its declared name after [ns] and ["::"]. *)
Definition declared (entities : list entity) (d : Msgdef.t) : Prop :=
  (exists e, e ∈ entities /\
             entity_kind e = Some (Msgdef.isEnum d) /\
             Msgdef.namespaces d = [] /\
             Msgdef.name d = entity_name e) \/
  (exists ns es e, Namespace ns es ∈ entities /\ e ∈ es /\
                   entity_kind e = Some (Msgdef.isEnum d) /\
                   Msgdef.namespaces d = [ns] /\
                   Msgdef.name d = ns ++ Lookup.sep ++ entity_name e).

(** What one turn of the loop yields for a declaration in the namespaces
    [namespaces]: nothing for a constant, the entity of an enum or a
    struct under its qualified name, and for a namespace (which has to be
    at the top level) the entities of its enums and structs. *)
Definition yields (namespaces : list (list Z)) (e : entity) (d : Msgdef.t) : Prop :=
  (entity_kind e = Some (Msgdef.isEnum d) /\
   Msgdef.namespaces d = namespaces /\
   Msgdef.name d = join Lookup.sep (namespaces ++ [entity_name e])) \/
  (exists ns es e', e = Namespace ns es /\ namespaces = [] /\ e' ∈ es /\
                    entity_kind e' = Some (Msgdef.isEnum d) /\
                    Msgdef.namespaces d = [ns] /\
                    Msgdef.name d = join Lookup.sep ([ns] ++ [entity_name e'])).

(** The same entity, whatever its hash. *)
(** The shape of the entities of the result: an entity is in at most one
    namespace and its name is its declared name after the namespace; a
    name inside a namespace is qualified, and so is the type of a struct
    field that is still complex there; the default values of the fields of
    a struct have passed the type check. *)
Definition settled (d : Msgdef.t) : Prop :=
  ((length (Msgdef.namespaces d) <= 1)%nat /\
   exists n, Msgdef.name d = join Lookup.sep (Msgdef.namespaces d ++ [n])) /\
  (Msgdef.namespaces d = [] \/ includes Lookup.sep (Msgdef.name d) = true) /\
  (Msgdef.isEnum d = false -> Msgdef.namespaces d <> [] ->
   Forall (fun fd => Field.isComplex fd = true ->
                     includes Lookup.sep (Field.type fd) = true)
          (Msgdef.definitions d)) /\
  (Msgdef.isEnum d = false ->
   Forall (fun fd => checkDefault fd = Ok tt) (Msgdef.definitions d)).

(** A set [P] of (namespaces, type name) pairs that the hash computation
    cannot leave: a name of [P] that resolves leads to a definition with a
    complex field whose type, seen from the namespaces of the definition,
    is in [P] again. *)
Definition cyclic (nameToSchema : gmap (list Z) Msgdef.t)
           (P : list (list Z) -> list Z -> Prop) : Prop :=
  forall namespaces typeName msgdef,
    P namespaces typeName ->
    lookupMsgdef nameToSchema namespaces typeName = Ok msgdef ->
    exists field, field ∈ Msgdef.definitions msgdef /\
                  Field.isComplex field = true /\
                  P (Msgdef.namespaces msgdef) (Field.type field).

Definition same_entity (x y : Msgdef.t) : Prop := exists h, y = with_hash x h.

(** Two schema maps with the same entities under the same names. *)
Definition same_schemas (m1 m2 : gmap (list Z) Msgdef.t) : Prop :=
  forall k, match m1 !! k, m2 !! k with
            | Some x, Some y => same_entity x y
            | None, None => True
            | _, _ => False
            end.

(** The hash of an entity that [parseEntities] builds. *)
Definition hash0 (d : Msgdef.t) : Prop := Msgdef.hashValue d = 0.

End Parse.

(** ** The grammar ([src/cbuf.ne])

    A deterministic reading of the nearley grammar, one function per
    nonterminal.  A literal is the number [parseFloat] gives it and the
    arithmetic of the postprocessors is the arithmetic of numbers; an
    array length that is not an integer is [OutsideModel].
    The one ambiguity of the grammar (the two adjacent [_] of [Field] around
    an absent [Assignment]) is reported through a flag. *)

Module Grammar.
Import Parse.

Definition parser (A : Type) : Type := list Z -> res (A * list Z).

Definition wschar (c : Z) : bool :=
  (c =? 32) || (c =? 9) || (c =? 10) || (c =? 11) || (c =? 12).

(** [_]: the number of blanks skipped and the rest. *)
Fixpoint ws (s : list Z) : nat * list Z :=
  match s with
  | c :: s' => if wschar c then let '(n, r) := ws s' in (S n, r) else (O, s)
  | [] => (O, [])
  end.

(** [__] *)
Definition ws1 : parser unit := fun s =>
  match ws s with
  | (O, _) => Err ParseFailure
  | (_, r) => Ok (tt, r)
  end.

Fixpoint lit (l : list Z) : parser unit := fun s =>
  match l, s with
  | [], _ => Ok (tt, s)
  | a :: l', b :: s' => if a =? b then lit l' s' else Err ParseFailure
  | _ :: _, [] => Err ParseFailure
  end.

Definition starts (l s : list Z) : bool := is_prefix l s.

Definition is_digit (c : Z) : bool := (48 <=? c) && (c <=? 57).
Definition is_alpha_ (c : Z) : bool :=
  ((97 <=? c) && (c <=? 122)) || ((65 <=? c) && (c <=? 90)) || (c =? 95).
Definition is_alnum_ (c : Z) : bool := is_alpha_ c || is_digit c.

Fixpoint span (p : Z -> bool) (s : list Z) : list Z * list Z :=
  match s with
  | c :: s' => if p c then let '(a, r) := span p s' in (c :: a, r) else ([], s)
  | [] => ([], [])
  end.

(** The longest [[a-zA-Z_] [a-zA-Z0-9_]:*] at the head. *)
Definition word (s : list Z) : option (list Z * list Z) :=
  match s with
  | c :: s' => if is_alpha_ c then let '(a, r) := span is_alnum_ s' in Some (c :: a, r)
               else None
  | [] => None
  end.

Definition BASIC_TYPES : list (list Z * list Z) :=
  map (fun p => (js (fst p), js (snd p)))
    [("string", "string"); ("short_string", "short_string"); ("bool", "bool");
     ("int", "int32"); ("float", "float32"); ("double", "float64");
     ("s8", "int8"); ("s16", "int16"); ("s32", "int32"); ("s64", "int64");
     ("u8", "uint8"); ("u16", "uint16"); ("u32", "uint32"); ("u64", "uint64");
     ("f32", "float32"); ("f64", "float64");
     ("int8", "int8"); ("int16", "int16"); ("int32", "int32"); ("int64", "int64");
     ("uint8", "uint8"); ("uint16", "uint16"); ("uint32", "uint32");
     ("uint64", "uint64"); ("float32", "float32"); ("float64", "float64");
     ("int8_t", "int8"); ("int16_t", "int16"); ("int32_t", "int32");
     ("int64_t", "int64"); ("uint8_t", "uint8"); ("uint16_t", "uint16");
     ("uint32_t", "uint32"); ("uint64_t", "uint64")]%string.

Definition KEYWORDS : list (list Z) :=
  map js
    ["namespace"; "const"; "enum"; "struct"; "class"; "true"; "false";
     "string"; "short_string"; "bool"; "int"; "float"; "double";
     "s8"; "s16"; "s32"; "s64"; "u8"; "u16"; "u32"; "u64"; "f32"; "f64";
     "int8"; "int16"; "int32"; "int64"; "uint8"; "uint16"; "uint32"; "uint64";
     "float32"; "float64";
     "int8_t"; "int16_t"; "int32_t"; "int64_t"; "uint8_t"; "uint16_t";
     "uint32_t"; "uint64_t"]%string.

Definition IDENTIFIER : parser (list Z) := fun s =>
  match word s with
  | Some (name, r) =>
      if bool_decide (name ∈ KEYWORDS) then Err ParseFailure else Ok (name, r)
  | None => Err ParseFailure
  end.

(** [("::" IDENTIFIER):*] *)
Fixpoint ComplexTail (fuel : nat) (acc : list (list Z)) (s : list Z)
  : list (list Z) * list Z :=
  match fuel with
  | O => (acc, s)
  | S f =>
      if starts (js "::") s then
        match IDENTIFIER (drop 2 s) with
        | Ok (n, r) => ComplexTail f (acc ++ [n]) r
        | Err _ => (acc, s)
        end
      else (acc, s)
  end.

(** [TypeName]: the type and [isComplex]. *)
Definition TypeName : parser (list Z * bool) := fun s =>
  match word s with
  | Some (w, r) =>
      match assoc w BASIC_TYPES with
      | Some t => Ok ((t, false), r)
      | None =>
          if bool_decide (w ∈ KEYWORDS) then Err ParseFailure
          else let '(names, r) := ComplexTail (length r) [w] r in
               Ok ((join Lookup.sep names, true), r)
      end
  | None => Err ParseFailure
  end.

Definition digits_value (ds : list Z) : Z :=
  foldl (fun acc d => acc * 10 + (d - 48)) 0 ds.

(** [Number]: [parseFloat] of the sign, the digits, the point and the
    digits after it (["0"] when there are none). *)
Definition Number : parser number := fun s =>
  let '(neg, s) := match s with
                   | 45 :: s' => (true, s')
                   | _ => (false, s)
                   end in
  let '(ip, s) := span is_digit s in
  match s with
  | 46 :: s' =>
      let '(fp, r) := span is_digit s' in
      if bool_decide (ip = []) && bool_decide (fp = []) then Err ParseFailure
      else
        let fp := if bool_decide (fp = []) then [48] else fp in
        Ok (of_decimal neg (digits_value (ip ++ fp)) (len fp), r)
  | _ =>
      if bool_decide (ip = []) then Err ParseFailure
      else Ok (of_decimal neg (digits_value ip) 0, s)
  end.

(** The arithmetic of the postprocessors: [+], [-], [*] and [/]. *)
Definition arith (op : Z) (a b : number) : number :=
  if op =? 43 then number_add a b
  else if op =? 45 then number_sub a b
  else if op =? 42 then number_mul a b
  else number_div a b.

(** An array length or bound: an integer that a number holds exactly, and
    not [-0]. *)
Definition array_length (n : number) : res Z :=
  match to_exact_integer n with
  | Some z =>
      if (2 ^ 53 <? Z.abs z) || bool_decide (n = F64 (pack 1 0 0))
      then Err OutsideModel else Ok z
  | None => Err OutsideModel
  end.

(** [AS], [MD] and [P]; [lvl] 0 is [AS], 1 is [MD]. *)
Fixpoint Expr (fuel : nat) : parser number := fun s =>
  match fuel with
  | O => Err ParseFailure
  | S f =>
      let P : parser number := fun s =>
        match s with
        | 40 :: s' =>
            let '(_, s1) := ws s' in
            '(v, s2) ← Expr f s1;
            let '(_, s3) := ws s2 in
            '(_, s4) ← lit [41] s3;
            Ok (v, s4)
        | _ => Number s
        end in
      let tail (ops : list Z) (operand : parser number) :=
        fix go (n : nat) (acc : number) (s : list Z) : res (number * list Z) :=
          match n with
          | O => Ok (acc, s)
          | S n' =>
              let '(_, s1) := ws s in
              match s1 with
              | op :: s2 =>
                  if bool_decide (op ∈ ops) then
                    let '(_, s3) := ws s2 in
                    '(b, s4) ← operand s3;
                    go n' (arith op acc b) s4
                  else Ok (acc, s)
              | [] => Ok (acc, s)
              end
          end in
      let MD : parser number := fun s =>
        '(a, s1) ← P s; tail [42; 47] P (length s1) a s1 in
      '(a, s1) ← MD s; tail [43; 45] MD (length s1) a s1
  end.

Definition NumericExpression : parser number := fun s => Expr (S (length s)) s.

(** [String] *)
Definition String_ : parser (list Z) := fun s =>
  match s with
  | 34 :: s' =>
      let '(body, r) := span (fun c => negb (c =? 34)) s' in
      match r with
      | 34 :: r' => Ok (body, r')
      | _ => Err ParseFailure
      end
  | _ => Err ParseFailure
  end.

(** [Boolean], which must not be the prefix of a longer word. *)
Definition Boolean : parser bool := fun s =>
  match word s with
  | Some (w, r) =>
      if eqb w (js "true") then Ok (true, r)
      else if eqb w (js "false") then Ok (false, r)
      else Err ParseFailure
  | None => Err ParseFailure
  end.

(** [X _ "," _ XList] after the first element, up to the closing brace. *)
Fixpoint ListTail (fuel : nat) (elem : parser jsvalue) (acc : list jsvalue)
  : parser (list jsvalue) := fun s =>
  match fuel with
  | O => Err ParseFailure
  | S f =>
      let '(_, s1) := ws s in
      match s1 with
      | 44 :: s2 =>
          let '(_, s3) := ws s2 in
          '(v, s4) ← elem s3;
          ListTail f elem (acc ++ [v]) s4
      | 125 :: s2 => Ok (acc, s2)
      | _ => Err ParseFailure
      end
  end.

(** [EmptyArray | BooleanArray | NumericArray | StringArray] *)
Definition ArrayLiteral : parser jsvalue := fun s =>
  '(_, s0) ← lit [123] s;
  let '(_, s1) := ws s0 in
  match s1 with
  | 125 :: r => Ok (VArray [], r)
  | _ =>
      let elems (elem : parser jsvalue) :=
        '(v, s2) ← elem s1;
        '(vs, r) ← ListTail (S (length s2)) elem [v] s2;
        Ok (VArray vs, r) in
      match s1 with
      | 34 :: _ => elems (fun s => '(x, r) ← String_ s; Ok (VString x, r))
      | c :: _ =>
          if is_alpha_ c
          then elems (fun s => '(x, r) ← Boolean s; Ok (VBool x, r))
          else elems (fun s => '(x, r) ← Number s; Ok (VNumber x, r))
      | [] => Err ParseFailure
      end
  end.

Definition AssignmentRHS : parser jsvalue := fun s =>
  match s with
  | 34 :: _ => '(x, r) ← String_ s; Ok (VString x, r)
  | 123 :: _ => ArrayLiteral s
  | c :: _ =>
      if is_alpha_ c then
        match Boolean s with
        | Ok (b, r) => Ok (VBool b, r)
        | Err _ => '(x, r) ← IDENTIFIER s; Ok (VString x, r)
        end
      else '(x, r) ← NumericExpression s; Ok (VNumber x, r)
  | [] => Err ParseFailure
  end.

(** [Array]: [isArray], [arrayLength], [arrayUpperBound]. *)
Definition Array_ : parser (bool * option Z * option Z) := fun s =>
  match s with
  | 91 :: s0 =>
      let '(_, s1) := ws s0 in
      match s1 with
      | 93 :: r => Ok ((true, None, None), r)
      | _ =>
          '(x, s2) ← NumericExpression s1;
          n ← array_length x;
          let '(_, s3) := ws s2 in
          '(_, s4) ← lit [93] s3;
          let '(_, s5) := ws s4 in
          if starts (js "@compact") s5
          then Ok ((true, None, Some n), drop 8 s5)
          else Ok ((true, Some n, None), s4)
      end
  | _ => Ok ((false, None, None), s)
  end.

(** [Field]; the flag tells that the text has more than one derivation. *)
Definition Field_ : parser (Field.t * bool) := fun s =>
  '((type, isComplex), s1) ← TypeName s;
  '(_, s2) ← ws1 s1;
  '(name, s3) ← IDENTIFIER s2;
  '((isArray, arrayLength, arrayUpperBound), s4) ← Array_ s3;
  let '(blanks, s5) := ws s4 in
  match s5 with
  | 61 :: s6 =>
      let '(_, s7) := ws s6 in
      '(dv, s8) ← AssignmentRHS s7;
      let '(_, s9) := ws s8 in
      '(_, r) ← lit [59] s9;
      Ok ((Field.mk name type isComplex isArray arrayLength arrayUpperBound
                    None (Some dv) false None, false), r)
  | 59 :: r =>
      Ok ((Field.mk name type isComplex isArray arrayLength arrayUpperBound
                    None None false None, negb (blanks =? 0)%nat), r)
  | _ => Err ParseFailure
  end.

(** [FieldList _ "}"] *)
Fixpoint FieldList (fuel : nat) (acc : list Field.t) (amb : bool)
  : parser (list Field.t * bool) := fun s =>
  match fuel with
  | O => Err ParseFailure
  | S f =>
      '((fd, a), s1) ← Field_ s;
      let '(_, s2) := ws s1 in
      match s2 with
      | 125 :: r => Ok ((acc ++ [fd], amb || a), r)
      | _ => FieldList f (acc ++ [fd]) (amb || a) s2
      end
  end.

(** [Struct], after the keyword. *)
Definition Struct_ : parser (entity * bool) := fun s =>
  '(_, s1) ← ws1 s;
  '(name, s2) ← IDENTIFIER s1;
  let '(_, s3) := ws s2 in
  let '(naked, s4) :=
    if starts (js "@naked") s3 then (Some true, snd (ws (drop 6 s3)))
    else (None, s3) in
  '(_, s5) ← lit [123] s4;
  let '(_, s6) := ws s5 in
  '((fields, amb), r) ← FieldList (S (length s6)) [] false s6;
  Ok ((Struct name naked fields, amb), r).

(** [EnumValue] *)
Definition EnumValue : parser Field.t := fun s =>
  '(name, s1) ← IDENTIFIER s;
  let '(_, s2) := ws s1 in
  match s2 with
  | 61 :: s3 =>
      let '(_, s4) := ws s3 in
      '(v, r) ← Number s4;
      Ok (Field.mk name (js "uint32") false false None None None None true (Some v), r)
  | _ => Ok (Field.mk name (js "uint32") false false None None None None true None, s1)
  end.

(** [EnumList _ "}"] *)
Fixpoint EnumList (fuel : nat) (acc : list Field.t) : parser (list Field.t) := fun s =>
  match fuel with
  | O => Err ParseFailure
  | S f =>
      '(v, s1) ← EnumValue s;
      let '(blanks, s2) := ws s1 in
      match s2 with
      | 125 :: r => Ok (acc ++ [v], r)
      | 44 :: s3 =>
          let '(_, s4) := ws s3 in
          match s4 with
          | 125 :: r => if (blanks =? 0)%nat then Ok (acc ++ [v], r) else Err ParseFailure
          | _ => EnumList f (acc ++ [v]) s4
          end
      | _ => Err ParseFailure
      end
  end.

(** [Enum], after the keyword. *)
Definition Enum_ : parser entity := fun s =>
  let '(_, s0) := ws s in
  let '(cls, s1) :=
    match word s0 with
    | Some (w, r) =>
        if eqb w (js "class") && negb ((fst (ws r) =? 0)%nat) then (Some true, r)
        else (None, s)
    | None => (None, s)
    end in
  '(_, s2) ← ws1 s1;
  '(name, s3) ← IDENTIFIER s2;
  let '(_, s4) := ws s3 in
  '(_, s5) ← lit [123] s4;
  let '(_, s6) := ws s5 in
  '(values, r) ← EnumList (S (length s6)) [] s6;
  Ok (Enum name cls values, r).

(** [Constant], after the keyword. *)
Definition Constant_ : parser entity := fun s =>
  '(_, s1) ← ws1 s;
  '((type, isComplex), s2) ← TypeName s1;
  '(_, s3) ← ws1 s2;
  '(name, s4) ← IDENTIFIER s3;
  let '(_, s5) := ws s4 in
  '(_, s6) ← lit [61] s5;
  let '(_, s7) := ws s6 in
  '(v, s8) ← AssignmentRHS s7;
  '(_, r) ← lit [59] s8;
  Ok (Constant type isComplex name v, r).

(** [NamespaceOrEntityList]; [closing] tells whether a brace ends it. *)
Fixpoint NamespaceOrEntityList (fuel : nat) (closing : bool)
         (acc : list entity) (amb : bool) : parser (list entity * bool) := fun s =>
  match fuel with
  | O => Err ParseFailure
  | S f =>
      '((e, a), s1) ←
        match word s with
        | Some (w, r) =>
            if eqb w (js "struct") then Struct_ r
            else if eqb w (js "enum") then ('(e, r') ← Enum_ r; Ok ((e, false), r'))
            else if eqb w (js "enumclass") then
              (* ["enum"] and [EnumClass] with an empty [_] *)
              '(e, r') ← Enum_ (drop 4 s); Ok ((e, false), r')
            else if eqb w (js "const") then ('(e, r') ← Constant_ r; Ok ((e, false), r'))
            else if eqb w (js "namespace") then
              '(_, r1) ← ws1 r;
              '(name, r2) ← IDENTIFIER r1;
              let '(_, r3) := ws r2 in
              '(_, r4) ← lit [123] r3;
              let '(_, r5) := ws r4 in
              '((es, a), r6) ← NamespaceOrEntityList f true [] false r5;
              Ok ((Namespace name es, a), r6)
            else Err ParseFailure
        | None => Err ParseFailure
        end;
      let '(_, s2) := ws s1 in
      match s2 with
      | [] => if closing then Err ParseFailure else Ok ((acc ++ [e], amb || a), [])
      | 125 :: r =>
          if closing then Ok ((acc ++ [e], amb || a), r) else Err ParseFailure
      | _ => NamespaceOrEntityList f closing (acc ++ [e]) (amb || a) s2
      end
  end.

(** [main]: the entity list, and whether nearley would see several
    results. *)
Definition main (text : list Z) : res (list entity * bool) :=
  let '(_, s) := ws text in
  '(r, _) ← NamespaceOrEntityList (S (length s)) false [] false s;
  Ok r.

End Grammar.

(** [parse(messageDefinition)] *)
Definition parse (fuel : nat) (messageDefinition : list Z) : res (list Msgdef.t) :=
  '(entities, several) ← Grammar.main messageDefinition;
  if several : bool then Err AmbiguousParse
  else Parse.parseTree fuel entities.

(** ** The preprocessor ([preprocess], [preprocessRecursive]) *)

Module Preprocess.

(** What [.] does not match. *)
Definition is_line_terminator (c : Z) : bool :=
  (c =? 10) || (c =? 13) || (c =? 0x2028) || (c =? 0x2029).

(** What [\s] matches. *)
Definition is_space (c : Z) : bool :=
  ((9 <=? c) && (c <=? 13)) || (c =? 32) || (c =? 0xA0) || (c =? 0x1680)
  || ((0x2000 <=? c) && (c <=? 0x200A)) || (c =? 0x2028) || (c =? 0x2029)
  || (c =? 0x202F) || (c =? 0x205F) || (c =? 0x3000) || (c =? 0xFEFF).

(** [.replace(/\/\/.*$/gm, '')] *)
Fixpoint stripLineComments (inComment : bool) (s : list Z) : list Z :=
  match s with
  | [] => []
  | c :: t =>
      if inComment then
        if is_line_terminator c then c :: stripLineComments false t
        else stripLineComments true t
      else
        match c, t with
        | 47, 47 :: t' => stripLineComments true t'
        | _, _ => c :: stripLineComments false t
        end
  end.

(** The text after the first [*/]. *)
Fixpoint afterClose (s : list Z) : option (list Z) :=
  match s with
  | 42 :: ((47 :: t) as s') => Some t
  | _ :: s' => afterClose s'
  | [] => None
  end.

(** [.replace(/\/\*[\s\S]*?\*\//g, '')] *)
Fixpoint stripBlockComments (fuel : nat) (s : list Z) : list Z :=
  match fuel with
  | O => s
  | S f =>
      match s with
      | [] => []
      | c :: t =>
          match c, t with
          | 47, 42 :: t' =>
              match afterClose t' with
              | Some r => stripBlockComments f r
              | None => c :: stripBlockComments f t
              end
          | _, _ => c :: stripBlockComments f t
          end
      end
  end.

Definition stripComments (s : list Z) : list Z :=
  stripBlockComments (length s) (stripLineComments false s).

Definition IMPORT : list Z := js "#import".

(** The index of the last quote of [line] that has a character before it. *)
Definition lastQuote (line : list Z) : option nat :=
  match list_find (fun c => c = 34) (reverse line) with
  | Some (i, _) =>
      let idx := (length line - 1 - i)%nat in
      if (idx =? 0)%nat then None else Some idx
  | None => None
  end.

(** A match of [/#import\s+"(.+)"/] at the head of [s]: the statement,
    the captured path and the text after the statement. *)
Definition matchHere (s : list Z) : option (list Z * list Z * list Z) :=
  if is_prefix IMPORT s then
    let r := drop (length IMPORT) s in
    let '(blanks, r1) := Grammar.span is_space r in
    match blanks, r1 with
    | _ :: _, quote :: r2 =>
        if quote =? 34 then
          let '(line, _) := Grammar.span (fun c => negb (is_line_terminator c)) r2 in
          match lastQuote line with
          | Some idx =>
              let path := take idx line in
              Some (IMPORT ++ blanks ++ [34] ++ path ++ [34], path, drop (S idx) r2)
          | None => None
          end
        else None
    | _, _ => None
    end
  else None.

(** [text.match(/#import\s+"(.+)"/g)]: the statements, left to right. *)
Fixpoint importStatements (fuel : nat) (s : list Z) : list (list Z) :=
  match fuel with
  | O => []
  | S f =>
      match s with
      | [] => []
      | _ :: t =>
          match matchHere s with
          | Some (stmt, _, rest) => stmt :: importStatements f rest
          | None => importStatements f t
          end
      end
  end.

(** [text.match(/#import\s+"(.+)"/)[1]]: the capture of the first match. *)
Fixpoint firstCapture (s : list Z) : option (list Z) :=
  match matchHere s with
  | Some (_, path, _) => Some path
  | None =>
      match s with
      | [] => None
      | _ :: t => firstCapture t
      end
  end.

(** The first occurrence of [pat] in [s]: the text before and after. *)
Fixpoint findFirst (pat s : list Z) (before : list Z) : option (list Z * list Z) :=
  if is_prefix pat s then Some (before, drop (length pat) s)
  else
    match s with
    | [] => None
    | c :: t => findFirst pat t (before ++ [c])
    end.

(** The expansion of the [$] patterns of a replacement text, for a string
    pattern (no capture groups). *)
Fixpoint expand (repl matched before after : list Z) : list Z :=
  match repl with
  | [] => []
  | 36 :: ((c :: t) as t0) =>
      if c =? 36 then 36 :: expand t matched before after
      else if c =? 38 then matched ++ expand t matched before after
      else if c =? 96 then before ++ expand t matched before after
      else if c =? 39 then after ++ expand t matched before after
      else 36 :: expand t0 matched before after
  | c :: t => c :: expand t matched before after
  end.

(** [text.replace(pat, repl)] for a string [pat]. *)
Definition replace (text pat repl : list Z) : list Z :=
  match findFirst pat text [] with
  | Some (before, after) => before ++ expand repl pat before after ++ after
  | None => text
  end.

Section Resolve.
Context (importedDefinitions : gmap (list Z) (list Z)).

(** The recursive call [preprocessRecursive(importContent,
    importedDefinitions, imported)]. *)
Context (recurse : list Z -> gset (list Z) -> res (list Z * gset (list Z))).

(** One turn of the loop over the import statements; the state is
    [(cleanedMessageDefinition, imported)]. *)
Definition resolveImport (st : list Z * gset (list Z)) (importStatement : list Z)
  : res (list Z * gset (list Z)) :=
  let '(cleaned, imported) := st in
  (* extract the import path and check if it exists *)
  importPath ← of_option (firstCapture importStatement) TypeError;
  importContent ← of_option (importedDefinitions !! importPath)
                            (ImportNotFound importPath);
  if bool_decide (importContent = []) then Err (ImportNotFound importPath)
  else if negb (bool_decide (importPath ∈ imported)) then
    (* a previously unseen import *)
    let imported := {[importPath]} ∪ imported in
    '(preprocessedImportContent, imported) ← recurse importContent imported;
    Ok (replace cleaned importStatement preprocessedImportContent, imported)
  else
    (* simply remove the import statement *)
    Ok (replace cleaned importStatement [], imported).

End Resolve.

Fixpoint preprocessRecursive (fuel : nat) (messageDefinition : list Z)
         (importedDefinitions : gmap (list Z) (list Z)) (imported : gset (list Z))
         {struct fuel} : res (list Z * gset (list Z)) :=
  match fuel with
  | O => Err StackOverflow
  | S fuel' =>
      (* remove the comments *)
      let cleanedMessageDefinition := stripComments messageDefinition in
      (* find all #import statements; resolve them in turn *)
      foldM (resolveImport importedDefinitions
               (fun importContent imported =>
                  preprocessRecursive fuel' importContent importedDefinitions imported))
            (cleanedMessageDefinition, imported)
            (importStatements (length cleanedMessageDefinition) cleanedMessageDefinition)
  end.

(** [preprocess(messageDefinition, importedDefinitions)].  Every nested
    call marks one more path of the mapping, which bounds the depth. *)
Definition preprocess (messageDefinition : list Z)
           (importedDefinitions : gmap (list Z) (list Z)) : res (list Z) :=
  fst <$> preprocessRecursive (S (size importedDefinitions)) messageDefinition
                              importedDefinitions ∅.

(** The paths named by the [#import] directives of a text, once its
    comments are removed. *)
Definition imports (text : list Z) : list (list Z) :=
  let cleaned := stripComments text in
  omap firstCapture (importStatements (length cleaned) cleaned).

(** The paths that the directives of [text] reach through the mapping:
    those of the text itself, and those of the non-empty contents of the
    paths reached. *)
Inductive reachable (importedDefinitions : gmap (list Z) (list Z))
  (text : list Z) : list Z -> Prop :=
| reach_direct p :
    p ∈ imports text -> reachable importedDefinitions text p
| reach_via q content p :
    q ∈ imports text ->
    importedDefinitions !! q = Some content -> content <> [] ->
    reachable importedDefinitions content p ->
    reachable importedDefinitions text p.

(** [!importedDefinitions.has(p) || !importedDefinitions.get(p)] *)
Definition missing (importedDefinitions : gmap (list Z) (list Z)) (p : list Z) : Prop :=
  importedDefinitions !! p = None \/ importedDefinitions !! p = Some [].

(** *** The search through the imports *)

(** Every marked path outside [stack] has a non-empty content whose own
    imports are marked. *)
Definition closed (m : gmap (list Z) (list Z)) (stack marked : gset (list Z)) : Prop :=
  forall q, q ∈ marked -> q ∉ stack ->
    exists c, m !! q = Some c /\ c <> [] /\ forall p, p ∈ imports c -> p ∈ marked.

(** What a call of [preprocessRecursive] guarantees. *)
Definition outcome (m : gmap (list Z) (list Z)) (stack marked : gset (list Z))
  (paths : list (list Z)) (reach : list Z -> Prop)
  (r : res (list Z * gset (list Z))) : Prop :=
  match r with
  | Ok (_, marked') =>
      marked ⊆ marked' /\ (forall p, p ∈ paths -> p ∈ marked') /\ closed m stack marked'
  | Err e => exists p, e = ImportNotFound p /\ missing m p /\ reach p
  end.

End Preprocess.

(** ** The wire image of a message

    [Wire] states, as a function to bytes, what the serializer stores in
    the fresh buffer; the serializer itself is [Serde.serializeNakedMessage]
    and the two are related by [Serde_facts.serializeNakedMessage_wire]. *)

Module Wire.
Import Serde.

(** [bs] followed by zero bytes up to the length [n]. *)
Definition pad (n : Z) (bs : list Z) : list Z := bs ++ zeros (n - len bs).

Definition header (size hashValue : Z) (timestamp : number) : list Z :=
  le_bytes 4 MAGIC ++ le_bytes 4 size ++ le_bytes 8 hashValue
  ++ le_bytes 8 (bits_of (canon timestamp)).

Definition stringBytes (field : Field.t) (value : jsvalue) : list Z :=
  let data (length : Z) :=
    if 0 <? length then pad length (stringData value length) else [] in
  match Field.upperBound field with
  | Some l => data l
  | None => le_bytes 4 (string_length value) ++ data (string_length value)
  end.

Section Wire.
Context (nameToSchema : gmap (list Z) Msgdef.t).
Context (naked : Msgdef.t -> jsvalue -> res (list Z)).
Context (sizeOf : Msgdef.t -> jsvalue -> res Z).

Definition nonArrayField (namespaces : list (list Z)) (field : Field.t)
           (value : jsvalue) : res (list Z) :=
  if Field.isComplex field then
    nestedMsgdef ← lookupMsgdef nameToSchema namespaces (Field.type field);
    hdr ← (if negb (Msgdef.isNakedStruct nestedMsgdef) then
             nestedSize ← sizeOf nestedMsgdef value;
             Ok (header (HEADER_SIZE + nestedSize) (Msgdef.hashValue nestedMsgdef)
                        (of_Z 0))
           else Ok []);
    body ← naked nestedMsgdef value;
    Ok (hdr ++ body)
  else
    match tag_of (Field.type field) with
    | Some Bool | Some Uint8 | Some Int8 => Ok (le_bytes 1 (to_bits 8 (getNumber value)))
    | Some Uint16 | Some Int16 => Ok (le_bytes 2 (to_bits 16 (getNumber value)))
    | Some Uint32 | Some Int32 => Ok (le_bytes 4 (to_bits 32 (getNumber value)))
    | Some Float32 => Ok (le_bytes 4 (f32_of_f64 (getNumber value)))
    | Some Uint64 | Some Int64 => z ← getBigInt value; Ok (le_bytes 8 z)
    | Some Float64 => Ok (le_bytes 8 (bits_of (canon (getNumber value))))
    | Some String_ => Ok (stringBytes field value)
    | None => Err (UnsupportedType (Field.type field))
    end.

(** One field; the state is the bytes produced so far. *)
Definition field (msgdef : Msgdef.t) (message : jsvalue)
           (acc : list Z) (fd : Field.t) : res (list Z) :=
  v ← get_prop message (Field.name fd);
  let value := nullish_or v (opt (Field.defaultValue fd)) in
  if Field.isArray fd then
    let arrayValue := elements value in
    let '(arrayLength, acc) :=
      match Field.arrayLength fd with
      | Some l => (l, acc)
      | None => (len arrayValue, acc ++ le_bytes 4 (len arrayValue))
      end in
    for_lt arrayLength
      (fun i acc =>
         bs ← nonArrayField (Msgdef.namespaces msgdef) fd (index arrayValue i);
         Ok (acc ++ bs))
      acc
  else
    bs ← nonArrayField (Msgdef.namespaces msgdef) fd value;
    Ok (acc ++ bs).

End Wire.

Fixpoint nakedMessage (fuel : nat) (nameToSchema : gmap (list Z) Msgdef.t)
         (msgdef : Msgdef.t) (message : jsvalue) {struct fuel} : res (list Z) :=
  match fuel with
  | O => Err StackOverflow
  | S fuel' =>
      foldM (field nameToSchema (nakedMessage fuel' nameToSchema)
                   (serializedNakedMessageSize fuel' nameToSchema) msgdef message)
            [] (Msgdef.definitions msgdef)
  end.

(** The state of the serializer after the bytes [acc] have been stored
    behind [pre0] in a buffer with [N] bytes of room. *)
Definition stored (pre0 : list Z) (N : Z) (acc : list Z) : Z * list Z :=
  (len acc, (pre0 ++ acc) ++ zeros (N - len acc)).

End Wire.

(** ** Well-formed messages

    A message is well formed for a struct when its field map has exactly
    the fields of the struct and every value has the JavaScript type that
    [deserializeMessage] produces for the field: a boolean, a number in the
    range of the integer type, a bigint for the 64-bit types, a float32
    value, a string, a typed array of the element type, a plain array of
    booleans, strings or nested messages of a naked struct, a nested
    message.  [strings] is the condition put on string values. *)

Module WF.
Import Serde.

Definition int_range (t : tag) : option (Z * Z) :=
  match t with
  | Int8 => Some (- 2 ^ 7, 2 ^ 7) | Uint8 => Some (0, 2 ^ 8)
  | Int16 => Some (- 2 ^ 15, 2 ^ 15) | Uint16 => Some (0, 2 ^ 16)
  | Int32 => Some (- 2 ^ 31, 2 ^ 31) | Uint32 => Some (0, 2 ^ 32)
  | Int64 => Some (- 2 ^ 63, 2 ^ 63) | Uint64 => Some (0, 2 ^ 64)
  | _ => None
  end.

(** A float32 value: the widening of a binary32 pattern that the
    narrowing maps back (every pattern but the non-canonical NaNs). *)
Definition is_f32_pattern (p : Z) : Prop :=
  0 <= p < 2 ^ 32 /\ f32_of_f64 (f64_of_f32 p) = p.

Section Strings.
(** The condition on a string value, given the [upperBound] of its field. *)
Context (strings : option Z -> list Z -> Prop).

(** A value of a non-array field of a primitive type. *)
Definition scalar (t : tag) (ub : option Z) (v : jsvalue) : Prop :=
  match t with
  | Bool => exists b, v = VBool b
  | Int8 | Uint8 | Int16 | Uint16 | Int32 | Uint32 =>
      exists z, (exists lo hi, int_range t = Some (lo, hi) /\ lo <= z < hi)
                /\ v = VNumber (of_Z z)
  | Int64 | Uint64 =>
      exists z, (exists lo hi, int_range t = Some (lo, hi) /\ lo <= z < hi)
                /\ v = VBigInt z
  | Float32 => exists p, is_f32_pattern p /\ v = VNumber (f64_of_f32 p)
  | Float64 => exists n, Number.valid n /\ v = VNumber n
  | String_ => exists s, strings ub s /\ v = VString s
  end.

(** An element pattern of a typed array. *)
Definition pattern (k : tkind) (p : Z) : Prop :=
  match k with
  | KFloat32 => is_f32_pattern p
  | KFloat64 => Number.valid (F64 p)
  | _ => 0 <= p < 2 ^ (8 * elem_size k)
  end.

Section Fields.
Context (nameToSchema : gmap (list Z) Msgdef.t) (hashToSchema : gmap Z Msgdef.t).
(** Well-formedness of the nested messages. *)
Context (nested : Msgdef.t -> jsvalue -> Prop).

(** The struct that a complex field refers to; a struct that is framed
    on the wire is found again through its hash. *)
Definition refers (namespaces : list (list Z)) (fd : Field.t) (def : Msgdef.t) : Prop :=
  lookupMsgdef nameToSchema namespaces (Field.type fd) = Ok def /\
  (Msgdef.isNakedStruct def = false ->
   0 <= Msgdef.hashValue def < 2 ^ 64 /\
   find_by_hash hashToSchema (Msgdef.hashValue def) = Ok def).

Definition element (namespaces : list (list Z)) (fd : Field.t) (v : jsvalue) : Prop :=
  if Field.isComplex fd then
    exists def, refers namespaces fd def /\ nested def v
  else
    match tag_of (Field.type fd) with
    | Some t => scalar t (Field.upperBound fd) v
    | None => False
    end.

Definition array (namespaces : list (list Z)) (fd : Field.t) (v : jsvalue) : Prop :=
  match Field.arrayLength fd with
  | Some n => len (elements v) = n
  | None => len (elements v) < 2 ^ 32
  end /\
  match tag_of (Field.type fd) with
  | Some Bool =>
      Field.isComplex fd = false /\
      exists l, v = VArray l /\ Forall (scalar Bool None) l
  | Some String_ =>
      Field.isComplex fd = false /\
      exists l, v = VArray l /\ Forall (scalar String_ (Field.upperBound fd)) l
  | Some t =>
      Field.isComplex fd = false /\
      exists k ps, typed_kind t = Some k /\ v = VTyped k ps /\ Forall (pattern k) ps
  | None =>
      Field.isComplex fd = true /\
      exists def l, refers namespaces fd def /\ v = VArray l /\
                    Forall (nested def) l /\
                    (Msgdef.isNakedStruct def = true \/ l = [])
  end.

Definition field (namespaces : list (list Z)) (fd : Field.t) (v : jsvalue) : Prop :=
  if Field.isArray fd then array namespaces fd v else element namespaces fd v.

Definition message_body (def : Msgdef.t) (v : jsvalue) : Prop :=
  exists m : gmap (list Z) jsvalue,
    v = VObject m /\
    (forall k, is_Some (m !! k) ->
               exists fd, fd ∈ Msgdef.definitions def /\ Field.name fd = k) /\
    Forall (fun fd =>
              inherited (Field.name fd) = false /\
              exists fv, m !! Field.name fd = Some fv /\
                         field (Msgdef.namespaces def) fd fv)
           (Msgdef.definitions def).
End Fields.

(** Well formed, with at most [depth] levels of nesting. *)
Fixpoint message (depth : nat) (nameToSchema : gmap (list Z) Msgdef.t)
         (hashToSchema : gmap Z Msgdef.t) (def : Msgdef.t) (v : jsvalue) : Prop :=
  match depth with
  | O => False
  | S d => message_body nameToSchema hashToSchema
                        (message d nameToSchema hashToSchema) def v
  end.
End Strings.

(** Any JavaScript string. *)
Definition any_string (ub : option Z) (s : list Z) : Prop :=
  Forall (fun c => 0 <= c < 65536) s.

(** A string of ASCII characters other than NUL that fits its field. *)
Definition plain_string (ub : option Z) (s : list Z) : Prop :=
  Forall (fun c => 0 < c < 128) s /\
  match ub with Some l => len s <= l | None => True end.

End WF.

(** ** The round trip, level by level

    What the encoder, the size calculation and the decoder do together on
    a message, an element and a field, given the three functions used for
    the nested messages. *)

Module Codec.
Import Serde.

Section Level.
Context (S : gmap (list Z) Msgdef.t) (H : gmap Z Msgdef.t).
Context (nakedW : Msgdef.t -> jsvalue -> res (list Z)).
Context (sizeOf : Msgdef.t -> jsvalue -> res Z).
Context (nakedD : Msgdef.t -> DataView -> Z -> gmap (list Z) jsvalue ->
                  res (Z * gmap (list Z) jsvalue)).

(** The wire image of the message has the computed size and is decoded
    to the message. *)
Definition codec_ok (def : Msgdef.t) (v : jsvalue) : Prop :=
  exists bs m,
    v = VObject m /\ nakedW def v = Ok bs /\ sizeOf def v = Ok (len bs) /\
    (len bs < 2 ^ 27 -> forall view off,
       fits view off bs -> nakedD def view off ∅ = Ok (len bs, m)).

(** The element [v] of the field is encoded as [bs] and decoded back. *)
Definition elem_ok (ns : list (list Z)) (fd : Field.t) (v : jsvalue) (bs : list Z) : Prop :=
  Wire.nonArrayField S nakedW sizeOf ns fd v = Ok bs /\
  (len bs < 2 ^ 27 -> forall view off out,
     fits view off bs ->
     readNonArrayField S H nakedD fd ns view off out
     = Ok (len bs, <[Field.name fd := v]> out)).

(** The field [fd] of a message [m] with value [fv]: the bytes [ext] that
    the encoder appends are counted by the size calculation and decoded
    to [fv]. *)
Definition field_ok (def : Msgdef.t) (m : gmap (list Z) jsvalue)
           (fd : Field.t) (fv : jsvalue) : Prop :=
  exists ext,
    (forall acc, Wire.field S nakedW sizeOf def (VObject m) acc fd = Ok (acc ++ ext)) /\
    (forall sz, sizeField S sizeOf def (VObject m) sz fd = Ok (sz + len ext)) /\
    (len ext < 2 ^ 27 -> forall view offset io out,
       fits view (offset + io) ext ->
       deserializeField S H nakedD def view offset (io, out) fd
       = Ok (io + len ext, <[Field.name fd := fv]> out)).

End Level.

(** The length word of a variable-length array. *)
Definition prefix (fd : Field.t) (n : Z) : list Z :=
  match Field.arrayLength fd with
  | Some _ => []
  | None => le_bytes 4 n
  end.

(** The length of a well-formed array value agrees with the descriptor. *)
Definition length_ok (fd : Field.t) (n : Z) : Prop :=
  match Field.arrayLength fd with
  | Some l => n = l
  | None => n < 2 ^ 32
  end.

(** The message that the decoder builds, field after field. *)
Definition rebuilt (m : gmap (list Z) jsvalue) (out : gmap (list Z) jsvalue)
           (fds : list Field.t) : gmap (list Z) jsvalue :=
  foldl (fun o fd => <[Field.name fd := default VUndefined (m !! Field.name fd)]> o)
        out fds.

End Codec.

(** ** Schemas and messages used in the examples *)

Module Examples.
Import Serde.

(** The schema maps of a schema text ([createSchemaMaps(parse(text))]). *)
Definition schemaMaps (fuel : nat) (text : list Z)
  : res (gmap (list Z) Msgdef.t * gmap Z Msgdef.t) :=
  createSchemaMaps <$> parse fuel text.

Definition object (fields : list (list Z * jsvalue)) : jsvalue :=
  VObject (list_to_map fields).

Definition str (s : string) : jsvalue := VString (js s).
Definition num (z : Z) : jsvalue := VNumber (of_Z z).

(** A [Uint8Array] / [ArrayBufferView] over a whole buffer. *)
Definition whole (buf : list Z) : DataView := mkView buf 0 (len buf).

(** [deserializeMessage(..., new Uint8Array(serializeMessage(..., m)))] *)
Definition roundTrip (fuel : nat) (maps : gmap (list Z) Msgdef.t * gmap Z Msgdef.t)
           (m : MessageData.t) : res Message.t :=
  buf ← serializeMessage fuel (fst maps) m;
  deserializeMessage fuel (fst maps) (snd maps) (whole buf) None.

(** Scenario A: [struct a { string b; bool c; }]. *)
Definition textA : list Z := js "struct a { string b; bool c; }".

(** [struct a { string b; }] *)
Definition textString : list Z := js "struct a { string b; }".

(** [struct a { short_string b; }] *)
Definition textShort : list Z := js "struct a { short_string b; }".

(** Scenario F: a struct that nests another. *)
Definition textXY : list Z := js "struct X { Y y; } struct Y { u32 z; }".

(** Scenario E. *)
Definition textE : list Z := js "enum E { A, B=10, C } struct S { E f = B; }".

(** An enum whose first member is the largest integer below [2^53]. *)
Definition textEnumMax : list Z :=
  js "enum E { A = 9007199254740991, B, C } struct S { bool b; }".

(** An array of a struct that is framed on the wire. *)
Definition textArray : list Z := js "struct inner { u32 x; } struct outer { inner g[2]; }".

(** A fixed array of strings. *)
Definition textFixed : list Z := js "struct a { string s[1]; }".

(** A struct whose wire image has 2^27 + 24 bytes. *)
Definition textBig : list Z := js "struct big { u8 data[134217728]; }".

(** [{ b: "é" }]: one UTF-16 code unit, two UTF-8 bytes. *)
Definition msgAccent : MessageData.t :=
  MessageData.mk (js "a") (of_Z 0) (object [(js "b", VString [233])]).

(** [{ b: "\uFEFFa\0bcd" }]: the string starts with a byte order mark. *)
Definition msgBom : MessageData.t :=
  MessageData.mk (js "a") (of_Z 0)
    (object [(js "b", VString [0xFEFF; 97; 0; 98; 99; 100])]).

(** [{ b: "a\0b" }] *)
Definition msgNul : MessageData.t :=
  MessageData.mk (js "a") (of_Z 0) (object [(js "b", VString [97; 0; 98])]).

(** [{ b: "x" }] *)
Definition msgShort : MessageData.t :=
  MessageData.mk (js "a") (of_Z 0) (object [(js "b", str "x")]).

(** [{ g: [{ x: 1 }, { x: 2 }] }] *)
Definition msgArray : MessageData.t :=
  MessageData.mk (js "outer") (of_Z 0)
    (object [(js "g", VArray [object [(js "x", num 1)]; object [(js "x", num 2)]])]).

(** [{ s: ["a", "bc"] }] *)
Definition msgFixed : MessageData.t :=
  MessageData.mk (js "a") (of_Z 0) (object [(js "s", VArray [str "a"; str "bc"])]).

(** The text [#import "a"]. *)
Definition textImport : list Z := js "#import " ++ [34] ++ js "a" ++ [34].

(** The text [/#import "a"]. *)
Definition textSlashImport : list Z := js "/" ++ textImport.

(** What [parse] yields for [textXY], and the schema maps. *)
Definition defY : Msgdef.t :=
  Msgdef.mk (js "Y") [] [Field.basic (js "z") (js "uint32")]
            3993632972737304964 false false false.

Definition defX : Msgdef.t :=
  Msgdef.mk (js "X") []
    [Field.mk (js "y") (js "Y") true false None None None None false None]
    5924728727019124922 false false false.

Definition mapsXY : gmap (list Z) Msgdef.t * gmap Z Msgdef.t :=
  createSchemaMaps [defX; defY].

(** [{ y: { z: 7 } }] *)
Definition msgXY : MessageData.t :=
  MessageData.mk (js "X") (of_Z 0) (object [(js "y", object [(js "z", num 7)])]).

(** What [parse] yields for [textString], and the schema maps. *)
Definition defString : Msgdef.t :=
  Msgdef.mk (js "a") [] [Field.basic (js "b") (js "string")]
            344605607655309618 false false false.

Definition mapsString : gmap (list Z) Msgdef.t * gmap Z Msgdef.t :=
  createSchemaMaps [defString].

(** [{}] *)
Definition msgBig : MessageData.t := MessageData.mk (js "big") (of_Z 0) (object []).

(** What [parse] yields for [textBig]. *)
Definition defBig : Msgdef.t :=
  Msgdef.mk (js "big") []
    [Field.mk (js "data") (js "uint8") false true (Some 134217728) None None None
              false None]
    18033026153478112571 false false false.

(** The canonical text of [struct a { bool b; }]. *)
Definition textOfA : list Z := js "struct a " ++ [10] ++ js "bool b; " ++ [10].

(** The schema maps of [struct X { Y y; } struct Y { u32 z; }]. *)
Definition mapXY : gmap (list Z) Msgdef.t :=
  match schemaMaps 2 textXY with
  | Ok maps => fst maps
  | Err _ => ∅
  end.

(** A member of an enum, as [parse] returns it. *)
Definition enumMember (name : string) (v : Z) : Field.t :=
  Field.mk (js name) (js "uint32") false false None None None None true
           (Some (of_Z v)).

(** A struct [T] of the global namespace and a struct [T] of the
    namespace [ns1]. *)
Definition defT : Msgdef.t :=
  Msgdef.mk (js "T") [] [Field.basic (js "x") (js "uint8")] 1 false false false.

Definition defNsT : Msgdef.t :=
  Msgdef.mk (js "ns1::T") [js "ns1"] [Field.basic (js "y") (js "uint16")]
            2 false false false.

Definition mapsT : gmap (list Z) Msgdef.t * gmap Z Msgdef.t :=
  createSchemaMaps [defT; defNsT].

(** [namespace ns1 { struct U { V v; } struct V { bool b; } }], and what
    [parse] makes of it. *)
Definition textNs : list Z :=
  js "namespace ns1 { struct U { V v; } struct V { bool b; } }".

Definition defNsU : Msgdef.t :=
  Msgdef.mk (js "ns1::U") [js "ns1"]
            [Field.mk (js "v") (js "ns1::V") true false None None None None false None]
            10375330062580538889 false false false.

Definition defNsV : Msgdef.t :=
  Msgdef.mk (js "ns1::V") [js "ns1"] [Field.basic (js "b") (js "bool")]
            2475257005927181923 false false false.

(** The struct of [struct a { a x; }], before its hash is computed. *)
Definition defLoop : Msgdef.t :=
  Msgdef.mk (js "a") []
            [Field.mk (js "x") (js "a") true false None None None None false None]
            0 false false false.

(** [struct p { u8 n; u16 v[2]; }], the message
    [{ n: 7, v: Uint16Array [1, 515] }] and its serialization: the array
    is at the odd offset 25. *)
Definition textP : list Z := js "struct p { u8 n; u16 v[2]; }".

Definition defP : Msgdef.t :=
  Msgdef.mk (js "p") []
    [Field.basic (js "n") (js "uint8");
     Field.mk (js "v") (js "uint16") false true (Some 2) None None None false None]
    11177910060281207905 false false false.

Definition mapsP : gmap (list Z) Msgdef.t * gmap Z Msgdef.t :=
  createSchemaMaps [defP].

Definition valueP : jsvalue :=
  object [(js "n", num 7); (js "v", VTyped KUint16 [1; 515])].

Definition msgP : MessageData.t := MessageData.mk (js "p") (of_Z 0) valueP.

Definition bufP : list Z :=
  [84; 78; 68; 86; 29; 0; 0; 0; 97; 156; 83; 10; 250; 233; 31; 155;
   0; 0; 0; 0; 0; 0; 0; 0; 7; 1; 0; 3; 2].

Definition decodedP : Message.t :=
  Message.mk (js "p") 29 0 11177910060281207905 (of_Z 0) valueP.

(** [struct d { double x = 0.9; }], the entity list of the grammar and
    what [parse] makes of it; [0.9] is the number [0x3FECCCCCCCCCCCCD]. *)
Definition textDefault : list Z := js "struct d { double x = 0.9; }".

Definition fieldDefault : Field.t :=
  Field.mk (js "x") (js "float64") false false None None None
           (Some (VNumber (F64 0x3FECCCCCCCCCCCCD))) false None.

Definition entitiesDefault : list Parse.entity :=
  [Parse.Struct (js "d") None [fieldDefault]].

Definition defDefault : Msgdef.t :=
  Msgdef.mk (js "d") [] [fieldDefault] 14075773742957419856 false false false.

(** The entity list of [textNs]. *)
Definition entitiesNs : list Parse.entity :=
  [Parse.Namespace (js "ns1")
     [Parse.Struct (js "U") None
        [Field.mk (js "v") (js "V") true false None None None None false None];
      Parse.Struct (js "V") None [Field.basic (js "b") (js "bool")]]].

End Examples.

(** * Properties *)

(** ** The error monad *)

Lemma bind_Ok {A B} (m : res A) (f : A -> res B) b :
  m ≫= f = Ok b <-> exists a, m = Ok a /\ f a = Ok b.
Proof.
  destruct m as [a|e]; simpl; split.
  - intros H. exists a. auto.
  - intros (a' & [= <-] & H). exact H.
  - discriminate.
  - intros (a' & [=] & _).
Qed.

Lemma Ok_inj {A} (a b : A) : Ok a = Ok b -> a = b.
Proof. now intros [= ->]. Qed.

Lemma foldM_app {A B} (f : B -> A -> res B) acc xs ys :
  foldM f acc (xs ++ ys) = acc' ← foldM f acc xs; foldM f acc' ys.
Proof.
  revert acc. induction xs as [|x xs IH]; intros acc; simpl; [reflexivity|].
  destruct (f acc x) as [a|e]; simpl; [apply IH | reflexivity].
Qed.

(** ** Little-endian words *)

Lemma length_le_bytes w v : length (le_bytes w v) = w.
Proof. revert v; induction w; intros; simpl; auto. Qed.

Lemma le_bytes_is_byte w v : Forall is_byte (le_bytes w v).
Proof.
  revert v; induction w; intros; simpl; constructor; auto.
  unfold is_byte. apply Z.mod_pos_bound. lia.
Qed.

Lemma le_value_le_bytes w v :
  le_value (le_bytes w v) = v mod 256 ^ Z.of_nat w.
Proof.
  revert v; induction w as [|w IH]; intros v.
  - simpl. now rewrite Z.mod_1_r.
  - cbn [le_bytes le_value]. rewrite IH.
    rewrite Nat2Z.inj_succ, Z.pow_succ_r by lia.
    rewrite Z.rem_mul_r by lia. lia.
Qed.

Lemma le_value_le_bytes_small w v :
  0 <= v < 256 ^ Z.of_nat w -> le_value (le_bytes w v) = v.
Proof. intros H. rewrite le_value_le_bytes. now apply Z.mod_small. Qed.

Lemma le_value_bound bs :
  Forall is_byte bs -> 0 <= le_value bs < 256 ^ Z.of_nat (length bs).
Proof.
  induction 1 as [|b bs Hb _ IH]; simpl length; cbn [le_value].
  - simpl. lia.
  - rewrite Nat2Z.inj_succ, Z.pow_succ_r by lia. unfold is_byte in Hb. lia.
Qed.

Lemma le_bytes_le_value bs :
  Forall is_byte bs -> le_bytes (length bs) (le_value bs) = bs.
Proof.
  induction 1 as [|b bs Hb _ IH]; cbn [length le_bytes le_value]; [reflexivity|].
  unfold is_byte in Hb.
  replace ((b + 256 * le_value bs) mod 256) with b.
  2:{ rewrite (Z.mul_comm 256), Z.mod_add by lia.
      symmetry. now apply Z.mod_small. }
  replace ((b + 256 * le_value bs) / 256) with (le_value bs).
  2:{ rewrite (Z.add_comm b), (Z.mul_comm 256), Z.div_add_l by lia.
      rewrite (Z.div_small b) by lia. lia. }
  now rewrite IH.
Qed.

Lemma signed_mod w z :
  0 < w -> - 2 ^ (w - 1) <= z < 2 ^ (w - 1) -> signed w (z mod 2 ^ w) = z.
Proof.
  intros Hw Hz. unfold signed.
  assert (E : 2 ^ w = 2 * 2 ^ (w - 1)).
  { rewrite <- Z.pow_succ_r by lia. f_equal. lia. }
  destruct (Z.ltb_spec (z mod 2 ^ w) (2 ^ (w - 1))) as [H|H].
  - destruct (Z.le_gt_cases 0 z) as [Hz0|Hz0].
    + apply Z.mod_small. lia.
    + exfalso. rewrite <- (Z.mod_add z 1) in H by lia.
      rewrite Z.mod_small in H; lia.
  - destruct (Z.le_gt_cases 0 z) as [Hz0|Hz0].
    + rewrite Z.mod_small in H; lia.
    + rewrite <- (Z.mod_add z 1) by lia. rewrite Z.mod_small; lia.
Qed.

Lemma length_splice off bs buf :
  0 <= off -> off + Z.of_nat (length bs) <= Z.of_nat (length buf) ->
  length (splice off bs buf) = length buf.
Proof.
  intros H0 H1. unfold splice.
  rewrite !length_app, length_take, length_drop. lia.
Qed.

Lemma length_zeros n : length (zeros n) = Z.to_nat n.
Proof. apply length_replicate. Qed.

(** ** Name lookup *)

Lemma lookupMsgdef_unqualified m ns t :
  includes sep t = false -> lookupMsgdef m ns t = lookupMsgdef_walk m ns t.
Proof. unfold lookupMsgdef, lookupMsgdef_walk. now intros ->. Qed.

(** ** Lengths and fresh buffers *)

#[global] Arguments le_bytes : simpl never.
#[global] Arguments le_value : simpl never.
#[global] Arguments zeros : simpl never.
#[global] Arguments splice : simpl never.
#[global] Arguments slice : simpl never.
#[global] Arguments len : simpl never.
#[global] Arguments Text.encode : simpl never.
#[global] Arguments Text.decode : simpl never.
#[global] Arguments of_Z : simpl never.
#[global] Arguments to_bits : simpl never.
#[global] Arguments to_integer : simpl never.
#[global] Arguments to_exact_integer : simpl never.
#[global] Arguments f32_of_f64 : simpl never.
#[global] Arguments f64_of_f32 : simpl never.
#[global] Arguments canon : simpl never.
#[global] Arguments signed : simpl never.
#[global] Arguments Serde.stringData : simpl never.
#[global] Arguments Wire.pad : simpl never.
#[global] Arguments Wire.header : simpl never.
#[global] Arguments Wire.stringBytes : simpl never.
#[global] Arguments js : simpl never.

Lemma len_nil {A} : len (@nil A) = 0.
Proof. reflexivity. Qed.

Lemma len_cons {A} (x : A) l : len (x :: l) = 1 + len l.
Proof. unfold len. simpl length. lia. Qed.

Lemma len_app {A} (a b : list A) : len (a ++ b) = len a + len b.
Proof. unfold len. rewrite length_app. lia. Qed.

Lemma len_nonneg {A} (a : list A) : 0 <= len a.
Proof. unfold len. lia. Qed.

Lemma len_le_bytes w v : len (le_bytes w v) = Z.of_nat w.
Proof. unfold len. now rewrite length_le_bytes. Qed.

Lemma len_zeros n : len (zeros n) = Z.max 0 n.
Proof. unfold len. rewrite length_zeros. lia. Qed.

Lemma len_take {A} n (l : list A) : 0 <= n <= len l -> len (take (Z.to_nat n) l) = n.
Proof. unfold len. intros H. rewrite length_take. lia. Qed.

Lemma zeros_nonpos n : n <= 0 -> zeros n = [].
Proof. intros H. unfold zeros. replace (Z.to_nat n) with O by lia. reflexivity. Qed.

Lemma zeros_add a b : 0 <= a -> 0 <= b -> zeros (a + b) = zeros a ++ zeros b.
Proof.
  intros Ha Hb. unfold zeros. rewrite Z2Nat.inj_add by lia.
  apply replicate_add.
Qed.

Lemma zeros_split a n : 0 <= a <= n -> zeros n = zeros a ++ zeros (n - a).
Proof. intros H. rewrite <- zeros_add by lia. f_equal. lia. Qed.

Create Rewrite HintDb len.
#[export] Hint Rewrite @len_nil @len_cons @len_app len_le_bytes : len.

Ltac len_simpl := autorewrite with len in *; simpl Z.of_nat in *.

(** Reduction of the binds of the error monad, and nothing else. *)
Tactic Notation "mred" :=
  unfold mbind, res_bind, mret, res_ret, fmap, res_fmap; cbv beta iota.
Tactic Notation "mred" "in" hyp(H) :=
  unfold mbind, res_bind, mret, res_ret, fmap, res_fmap in H; cbv beta iota in H.

(** Storing [bs] right after the written prefix of a fresh buffer. *)
Lemma set_bytes_at pre bs n off :
  off = len pre -> len bs <= n ->
  set_bytes (pre ++ zeros n) off bs = Ok ((pre ++ bs) ++ zeros (n - len bs)).
Proof.
  intros -> Hn. unfold set_bytes.
  pose proof (len_nonneg pre). pose proof (len_nonneg bs).
  rewrite len_app, len_zeros.
  destruct (Z.leb_spec 0 (len pre)); [|lia].
  destruct (Z.leb_spec (len pre + len bs) (len pre + Z.max 0 n)); [|lia].
  simpl. f_equal. unfold splice, len.
  rewrite Nat2Z.id.
  rewrite take_app_length.
  rewrite <- app_assoc. f_equal. f_equal.
  rewrite drop_app_add'; [|reflexivity].
  rewrite (zeros_split (len bs) n) by lia.
  unfold len. rewrite drop_app_length'; [reflexivity|].
  rewrite length_zeros. lia.
Qed.

(** The same when only the head of an [l]-byte field is stored. *)
Lemma set_bytes_at_pad pre bs l n off :
  off = len pre -> len bs <= l <= n ->
  set_bytes (pre ++ zeros n) off bs = Ok ((pre ++ Wire.pad l bs) ++ zeros (n - l)).
Proof.
  intros Hoff Hl. rewrite set_bytes_at by lia. f_equal.
  unfold Wire.pad. rewrite <- !app_assoc. do 2 f_equal.
  rewrite (zeros_split (l - len bs) (n - len bs)) by lia.
  do 2 f_equal. lia.
Qed.

Lemma uint8_window_ok buf off n :
  0 <= off -> 0 <= n -> off + n <= len buf ->
  uint8_window buf off n = Ok (slice off n buf).
Proof.
  intros H0 H1 H2. unfold uint8_window.
  destruct (Z.leb_spec 0 off); [|lia].
  destruct (Z.leb_spec 0 n); [|lia].
  destruct (Z.leb_spec (off + n) (len buf)); [|lia].
  reflexivity.
Qed.

(** ** 32-bit operators and the size word *)

Module Word_facts.
Import Serde.

Lemma int32_mod w : int32 w mod 2 ^ 32 = w mod 2 ^ 32.
Proof.
  unfold int32, signed.
  assert (0 <= w mod 2 ^ 32 < 2 ^ 32) by (apply Z.mod_pos_bound; lia).
  destruct (_ <? _).
  - apply Z.mod_small; lia.
  - replace (w mod 2 ^ 32 - 2 ^ 32) with (w mod 2 ^ 32 + (-1) * 2 ^ 32) by lia.
    rewrite Z.mod_add by lia. apply Z.mod_small; lia.
Qed.

Lemma int32_small x : - 2 ^ 31 <= x < 2 ^ 31 -> int32 x = x.
Proof. intros H. unfold int32. apply signed_mod; lia. Qed.

Lemma mod_mod_pow2 x n m : 0 <= n <= m -> (x mod 2 ^ m) mod 2 ^ n = x mod 2 ^ n.
Proof.
  intros H. replace m with (n + (m - n)) by lia.
  rewrite Z.pow_add_r by lia.
  rewrite Z.rem_mul_r by lia.
  rewrite (Z.mul_comm (2 ^ n)), Z.mod_add by lia.
  apply Z.mod_mod. lia.
Qed.

Lemma int32_mod_low x n : 0 <= n <= 32 -> int32 x mod 2 ^ n = x mod 2 ^ n.
Proof.
  intros H. rewrite <- (mod_mod_pow2 (int32 x) n 32) by lia.
  rewrite int32_mod. apply mod_mod_pow2. lia.
Qed.

(** [w & (2^n - 1)] keeps the low [n] bits. *)
Lemma js_and_ones w n :
  0 <= n <= 31 -> js_and w (Z.ones n) = w mod 2 ^ n.
Proof.
  intros Hn. unfold js_and.
  assert (Hb : 0 <= Z.ones n < 2 ^ 31).
  { rewrite Z.ones_equiv. assert (0 < 2 ^ n) by (apply Z.pow_pos_nonneg; lia).
    assert (2 ^ n <= 2 ^ 31) by (apply Z.pow_le_mono_r; lia). lia. }
  rewrite (int32_small (Z.ones n)) by lia.
  rewrite Z.land_ones by lia.
  rewrite int32_mod_low by lia.
  apply int32_small.
  assert (0 <= w mod 2 ^ n < 2 ^ n) by (apply Z.mod_pos_bound; apply Z.pow_pos_nonneg; lia).
  assert (2 ^ n <= 2 ^ 31) by (apply Z.pow_le_mono_r; lia). lia.
Qed.

Lemma land_pow2 x k :
  0 <= k -> Z.land x (2 ^ k) = if Z.testbit x k then 2 ^ k else 0.
Proof.
  intros Hk. apply Z.bits_inj'. intros i Hi.
  rewrite Z.land_spec, Z.pow2_bits_eqb by lia.
  destruct (Z.eqb_spec k i) as [->|Hne].
  - rewrite andb_true_r. destruct (Z.testbit x i) eqn:E.
    + now rewrite Z.pow2_bits_true.
    + now rewrite Z.bits_0.
  - rewrite andb_false_r. destruct (Z.testbit x k).
    + rewrite Z.pow2_bits_false; auto.
    + now rewrite Z.bits_0.
Qed.

Lemma testbit_int32 w k : 0 <= k < 32 -> Z.testbit (int32 w) k = Z.testbit w k.
Proof.
  intros Hk.
  rewrite <- (Z.mod_pow2_bits_low (int32 w) 32 k) by lia.
  rewrite int32_mod. apply Z.mod_pow2_bits_low. lia.
Qed.

Lemma hasVariant_spec w : hasVariant w = Z.testbit w 27.
Proof.
  unfold hasVariant, js_ushr0, js_and.
  rewrite (int32_small 134217728) by lia.
  change 134217728 with (2 ^ 27).
  rewrite land_pow2 by lia.
  rewrite testbit_int32 by lia.
  destruct (Z.testbit w 27).
  - rewrite int32_small by lia. reflexivity.
  - reflexivity.
Qed.

Lemma size_of_word_spec w :
  size_of_word w = if Z.testbit w 27 then w mod 2 ^ 27 else w mod 2 ^ 31.
Proof.
  unfold size_of_word. rewrite hasVariant_spec.
  change 134217727 with (Z.ones 27). change 2147483647 with (Z.ones 31).
  rewrite !js_and_ones by lia. reflexivity.
Qed.

Lemma variant_of_word_spec w :
  0 <= w < 2 ^ 32 ->
  variant_of_word w = if Z.testbit w 27 then (w / 2 ^ 27) mod 16 else 0.
Proof.
  intros Hw. unfold variant_of_word. rewrite hasVariant_spec.
  destruct (Z.testbit w 27); [|reflexivity].
  change 15 with (Z.ones 4). rewrite js_and_ones by lia.
  unfold js_shr. rewrite Z.shiftr_div_pow2 by lia.
  unfold int32, signed. rewrite (Z.mod_small w) by lia.
  destruct (w <? 2 ^ (32 - 1)); [reflexivity|].
  replace (w - 2 ^ 32) with (w + (-32) * 2 ^ 27) by lia.
  rewrite Z.div_add by lia.
  replace (w / 2 ^ 27 + -32) with (w / 2 ^ 27 + (-2) * 16) by lia.
  change (2 ^ 4) with 16. now rewrite Z.mod_add by lia.
Qed.

End Word_facts.

(** ** The serializer stores the wire image *)

Module Serde_facts.
Import Serde.

Lemma len_stringData v l : 0 <= l -> len (stringData v l) <= l.
Proof.
  intros Hl. unfold stringData.
  assert (Hz : len (zeros l) <= l) by (rewrite len_zeros; lia).
  destruct v; auto.
  destruct (0 <? len s); auto.
  unfold len. rewrite length_take. lia.
Qed.

Lemma len_pad l bs : len bs <= l -> len (Wire.pad l bs) = l.
Proof. intros H. unfold Wire.pad. rewrite len_app, len_zeros. lia. Qed.

Lemma len_stringBytes_data v l :
  len (if 0 <? l then Wire.pad l (stringData v l) else []) = Z.max 0 l.
Proof.
  destruct (Z.ltb_spec 0 l).
  - rewrite len_pad by (apply len_stringData; lia). lia.
  - rewrite len_nil. lia.
Qed.

Lemma serializeString_wire fd v pre n off :
  off = len pre -> len (Wire.stringBytes fd v) <= n ->
  serializeString fd v (pre ++ zeros n) off
  = Ok (len (Wire.stringBytes fd v),
        (pre ++ Wire.stringBytes fd v) ++ zeros (n - len (Wire.stringBytes fd v))).
Proof.
  intros -> Hn. unfold serializeString, Wire.stringBytes in *.
  pose proof (len_nonneg pre) as Hpre.
  destruct (Field.upperBound fd) as [l|].
  - mred. rewrite len_stringBytes_data in *.
    destruct (Z.ltb_spec 0 l) as [Hl|Hl].
    + rewrite Z.max_r in * by lia.
      rewrite uint8_window_ok by (rewrite ?len_app, ?len_zeros; lia).
      mred. rewrite (set_bytes_at_pad pre _ l)
        by (try split; try apply len_stringData; lia).
      reflexivity.
    + rewrite Z.max_l in * by lia. rewrite app_nil_r, Z.sub_0_r. reflexivity.
  - rewrite len_app, len_le_bytes, len_stringBytes_data in *.
    change (Z.of_nat 4) with 4 in *.
    assert (Hs : 0 <= string_length v) by (destruct v; simpl; lia).
    unfold setUint32_int. rewrite set_bytes_at by (len_simpl; lia).
    mred. rewrite len_le_bytes. change (Z.of_nat 4) with 4 in *.
    destruct (Z.ltb_spec 0 (string_length v)) as [Hl|Hl].
    + rewrite Z.max_r in * by lia.
      rewrite uint8_window_ok by (rewrite ?len_app, ?len_zeros; len_simpl; lia).
      mred.
      rewrite (set_bytes_at_pad _ _ (string_length v))
        by (try split; try apply len_stringData; len_simpl; lia).
      mred. rewrite <- !app_assoc.
      replace (n - 4 - string_length v) with (n - (4 + string_length v)) by lia.
      reflexivity.
    + rewrite Z.max_l in * by lia. rewrite app_nil_r.
      replace (n - (4 + 0)) with (n - 4) by lia. reflexivity.
Qed.

Section Step.
Context (S : gmap (list Z) Msgdef.t).
Context (naked : Msgdef.t -> jsvalue -> list Z -> Z -> res (Z * list Z)).
Context (nakedW : Msgdef.t -> jsvalue -> res (list Z)).
Context (sizeOf : Msgdef.t -> jsvalue -> res Z).

Hypothesis Hnaked : forall def v pre bs n off,
  nakedW def v = Ok bs -> off = len pre -> len bs <= n ->
  naked def v (pre ++ zeros n) off = Ok (len bs, (pre ++ bs) ++ zeros (n - len bs)).

Lemma serializeNonArrayField_wire ns fd v pre bs n off :
  Wire.nonArrayField S nakedW sizeOf ns fd v = Ok bs ->
  off = len pre -> len bs <= n ->
  serializeNonArrayField S naked sizeOf ns fd v (pre ++ zeros n) off
  = Ok (len bs, (pre ++ bs) ++ zeros (n - len bs)).
Proof.
  intros Hw -> Hn. unfold Wire.nonArrayField, serializeNonArrayField in *.
  pose proof (len_nonneg pre) as Hpre.
  destruct (Field.isComplex fd).
  - destruct (lookupMsgdef S ns (Field.type fd)) as [def|e]; [|discriminate].
    mred. mred in Hw.
    destruct (Msgdef.isNakedStruct def); cbn [negb] in *.
    + mred in Hw. mred.
      destruct (nakedW def v) as [body|e] eqn:Hb; [|discriminate].
      mred in Hw. apply Ok_inj in Hw; subst bs. cbn [app] in *.
      rewrite (Hnaked _ _ pre body n) by (auto; lia).
      mred. replace (0 + len body) with (len body) by lia. reflexivity.
    + destruct (sizeOf def v) as [nestedSize|e]; [|discriminate].
      mred in Hw. mred.
      destruct (nakedW def v) as [body|e] eqn:Hb; [|discriminate].
      mred in Hw. apply Ok_inj in Hw; subst bs.
      unfold Wire.header in *. rewrite !len_app, !len_le_bytes in Hn.
      change (Z.of_nat 4) with 4 in *. change (Z.of_nat 8) with 8 in *.
      pose proof (len_nonneg body).
      unfold setUint32_int, setBigUint64, setFloat64.
      rewrite set_bytes_at by (len_simpl; lia). mred.
      rewrite set_bytes_at by (len_simpl; lia). mred.
      rewrite set_bytes_at by (len_simpl; lia). mred.
      rewrite set_bytes_at by (len_simpl; lia). mred.
      rewrite (Hnaked _ _ _ body) by (auto; len_simpl; lia).
      mred. rewrite !len_app, !len_le_bytes.
      change (Z.of_nat 4) with 4. change (Z.of_nat 8) with 8.
      rewrite <- !app_assoc. change MAGIC with 1447317076.
      replace (n - 4 - 4 - 8 - 8 - len body)
        with (n - (4 + (4 + (8 + 8)) + len body)) by lia.
      reflexivity.
  - destruct (tag_of (Field.type fd)) as [[]|]; try discriminate;
      try (apply Ok_inj in Hw; subst bs; rewrite len_le_bytes in *;
           unfold setUint8, setInt8, setUint8, setUint16, setInt16, setUint16,
             setUint32, setInt32, setUint32, setFloat32, setFloat64;
           rewrite set_bytes_at by (len_simpl; lia); mred;
           rewrite len_le_bytes; reflexivity).
    + destruct (getBigInt v) as [z|e]; [|discriminate].
      mred in Hw. mred. apply Ok_inj in Hw; subst bs. rewrite len_le_bytes in *.
      unfold setBigInt64, setBigUint64.
      rewrite set_bytes_at by (len_simpl; lia). mred.
      rewrite len_le_bytes. reflexivity.
    + destruct (getBigInt v) as [z|e]; [|discriminate].
      mred in Hw. mred. apply Ok_inj in Hw; subst bs. rewrite len_le_bytes in *.
      unfold setBigUint64.
      rewrite set_bytes_at by (len_simpl; lia). mred.
      rewrite len_le_bytes. reflexivity.
    + apply Ok_inj in Hw; subst bs. now apply serializeString_wire.
Qed.

Lemma stored_app pre0 N acc bs :
  (len acc + len bs, ((pre0 ++ acc) ++ bs) ++ zeros (N - len acc - len bs))
  = Wire.stored pre0 N (acc ++ bs).
Proof.
  unfold Wire.stored. rewrite len_app, <- !app_assoc.
  replace (N - len acc - len bs) with (N - (len acc + len bs)) by lia.
  reflexivity.
Qed.

Lemma loop_extends ns fd arr k : forall i acc acc',
  loop k i (fun i acc =>
              bs ← Wire.nonArrayField S nakedW sizeOf ns fd (index arr i);
              Ok (acc ++ bs)) acc = Ok acc' ->
  exists ext, acc' = acc ++ ext.
Proof.
  induction k as [|k IH]; intros i acc acc' H; cbn [loop] in H.
  - apply Ok_inj in H. subst. exists []. now rewrite app_nil_r.
  - destruct (Wire.nonArrayField S nakedW sizeOf ns fd (index arr i)) as [bs|e];
      [|discriminate].
    mred in H. apply IH in H as [ext ->].
    exists (bs ++ ext). now rewrite app_assoc.
Qed.

Lemma loop_wire ns fd arr pre0 N off k : forall i acc acc',
  loop k i (fun i acc =>
              bs ← Wire.nonArrayField S nakedW sizeOf ns fd (index arr i);
              Ok (acc ++ bs)) acc = Ok acc' ->
  off = len pre0 -> len acc' <= N ->
  loop k i (fun i '(innerOffset, view) =>
              '(n, view) ← serializeNonArrayField S naked sizeOf ns fd
                              (index arr i) view (off + innerOffset);
              Ok (innerOffset + n, view))
       (Wire.stored pre0 N acc)
  = Ok (Wire.stored pre0 N acc').
Proof.
  induction k as [|k IH]; intros i acc acc' H -> HN; cbn [loop] in *.
  - apply Ok_inj in H. now subst.
  - destruct (Wire.nonArrayField S nakedW sizeOf ns fd (index arr i)) as [bs|e] eqn:Hb;
      [|discriminate].
    mred in H. pose proof (loop_extends _ _ _ _ _ _ _ H) as [ext ->].
    rewrite !len_app in HN.
    pose proof (len_nonneg ext). pose proof (len_nonneg bs).
    unfold Wire.stored at 1. mred.
    rewrite (serializeNonArrayField_wire _ _ _ (pre0 ++ acc) bs)
      by (auto; len_simpl; lia).
    mred. rewrite stored_app.
    apply IH; auto. rewrite !len_app. lia.
Qed.

Lemma field_extends def msg acc acc' fd :
  Wire.field S nakedW sizeOf def msg acc fd = Ok acc' ->
  exists ext, acc' = acc ++ ext.
Proof.
  unfold Wire.field. intros H.
  destruct (get_prop msg (Field.name fd)) as [v|e]; [|discriminate].
  mred in H.
  destruct (Field.isArray fd).
  - destruct (Field.arrayLength fd) as [l|].
    + unfold for_lt in H. now apply loop_extends in H.
    + unfold for_lt in H. apply loop_extends in H as [ext ->].
      eexists. now rewrite <- app_assoc.
  - destruct (Wire.nonArrayField _ _ _ _ _ _) as [bs|e]; [|discriminate].
    mred in H. apply Ok_inj in H. subst. now exists bs.
Qed.

Lemma serializeField_wire def msg pre0 N off acc acc' fd :
  Wire.field S nakedW sizeOf def msg acc fd = Ok acc' ->
  off = len pre0 -> len acc' <= N ->
  serializeField S naked sizeOf def msg off (Wire.stored pre0 N acc) fd
  = Ok (Wire.stored pre0 N acc').
Proof.
  intros H -> HN. unfold Wire.field in H. unfold serializeField. unfold Wire.stored at 1.
  destruct (get_prop msg (Field.name fd)) as [v|e]; [|discriminate].
  mred in H. mred.
  destruct (Field.isArray fd).
  - destruct (Field.arrayLength fd) as [l|]; unfold for_lt in *.
    + mred. now apply loop_wire.
    + pose proof (loop_extends _ _ _ _ _ _ _ H) as [ext ->].
      rewrite !len_app, len_le_bytes in HN. change (Z.of_nat 4) with 4 in HN.
      pose proof (len_nonneg ext). pose proof (len_nonneg acc).
      unfold setUint32_int.
      rewrite set_bytes_at by (len_simpl; lia). mred.
      rewrite len_le_bytes. change (Z.of_nat 4) with 4.
      rewrite (stored_app pre0 N acc (le_bytes 4 _)).
      apply loop_wire; auto. rewrite !len_app, len_le_bytes.
      change (Z.of_nat 4) with 4. lia.
  - destruct (Wire.nonArrayField _ _ _ _ _ _) as [bs|e] eqn:Hb; [|discriminate].
    mred in H. apply Ok_inj in H. subst acc'.
    rewrite len_app in HN. pose proof (len_nonneg acc). pose proof (len_nonneg bs).
    rewrite (serializeNonArrayField_wire _ _ _ (pre0 ++ acc) bs)
      by (auto; len_simpl; lia).
    mred. now rewrite stored_app.
Qed.

Lemma foldM_field_extends def msg fds : forall acc acc',
  foldM (Wire.field S nakedW sizeOf def msg) acc fds = Ok acc' ->
  exists ext, acc' = acc ++ ext.
Proof.
  induction fds as [|fd fds IH]; intros acc acc' H; cbn [foldM] in H.
  - apply Ok_inj in H. subst. exists []. now rewrite app_nil_r.
  - destruct (Wire.field _ _ _ _ _ _ _) as [acc1|e] eqn:Hf; [|discriminate].
    mred in H. apply field_extends in Hf as [e1 ->].
    apply IH in H as [e2 ->]. exists (e1 ++ e2). now rewrite app_assoc.
Qed.

Lemma foldM_serializeField_wire def msg pre0 N off fds : forall acc acc',
  foldM (Wire.field S nakedW sizeOf def msg) acc fds = Ok acc' ->
  off = len pre0 -> len acc' <= N ->
  foldM (serializeField S naked sizeOf def msg off) (Wire.stored pre0 N acc) fds
  = Ok (Wire.stored pre0 N acc').
Proof.
  induction fds as [|fd fds IH]; intros acc acc' H -> HN; cbn [foldM] in *.
  - apply Ok_inj in H. now subst.
  - destruct (Wire.field _ _ _ _ _ _ _) as [acc1|e] eqn:Hf; [|discriminate].
    mred in H. pose proof (foldM_field_extends _ _ _ _ _ H) as [ext ->].
    rewrite len_app in HN. pose proof (len_nonneg ext).
    rewrite (serializeField_wire _ _ _ _ _ _ _ _ Hf) by (auto; lia).
    mred. apply IH; auto. rewrite len_app. lia.
Qed.

End Step.

(** The serializer, started on the written prefix [pre] of a fresh buffer
    with room for the wire image [bs], stores [bs] and reports its
    length. *)
Lemma serializeNakedMessage_wire fuel S : forall def v pre bs n off,
  Wire.nakedMessage fuel S def v = Ok bs ->
  off = len pre -> len bs <= n ->
  serializeNakedMessage fuel S def v (pre ++ zeros n) off
  = Ok (len bs, (pre ++ bs) ++ zeros (n - len bs)).
Proof.
  induction fuel as [|fuel IH]; intros def v pre bs n off H -> Hn;
    cbn [Wire.nakedMessage serializeNakedMessage] in *; [discriminate|].
  pose proof (foldM_serializeField_wire S _ _ _ IH def v pre n (len pre)
                (Msgdef.definitions def) [] bs H eq_refl Hn) as HH.
  unfold Wire.stored in HH. rewrite app_nil_r, len_nil, Z.sub_0_r in HH.
  exact HH.
Qed.

End Serde_facts.

(** ** Text *)

Module Text_facts.
Import Text.

Lemma before_nul_prefix s : exists t, s = before_nul s ++ t.
Proof.
  induction s as [|c s [t IH]]; cbn [before_nul].
  - now exists [].
  - destruct (c =? 0).
    + now exists (c :: s).
    + exists t. cbn [app]. now rewrite <- IH.
Qed.

Lemma before_nul_no_nul s : ~ In 0 (before_nul s).
Proof.
  induction s as [|c s IH]; cbn [before_nul]; [auto|].
  destruct (Z.eqb_spec c 0) as [->|Hc]; [auto|].
  intros [E|E]; [congruence | auto].
Qed.

Lemma before_nul_strict s : In 0 s -> (length (before_nul s) < length s)%nat.
Proof.
  induction s as [|c s IH]; cbn [before_nul]; intros H; [destruct H|].
  destruct (Z.eqb_spec c 0) as [->|Hc]; cbn [length]; [lia|].
  destruct H as [E|E]; [congruence|]. apply IH in E. lia.
Qed.

Lemma before_nul_id s : ~ In 0 s -> before_nul s = s.
Proof.
  induction s as [|c s IH]; cbn [before_nul]; intros H; [reflexivity|].
  destruct (Z.eqb_spec c 0) as [->|_]; [exfalso; apply H; now left|].
  rewrite IH; [reflexivity|]. intros E. apply H. now right.
Qed.

(** A NUL byte is decoded as U+0000 whatever sequence is open. *)
Lemma dstart_lower b : 0 < lower (fst (dstart b)).
Proof.
  unfold dstart.
  repeat match goal with |- context [if ?c then _ else _] => destruct c end;
    cbn; lia.
Qed.

Lemma dstep_lower st b : 0 < lower (fst (dstep st b)).
Proof.
  unfold dstep.
  destruct (bytes_needed st =? 0); [apply dstart_lower|].
  destruct ((b <? lower st) || (upper st <? b)).
  - pose proof (dstart_lower b). destruct (dstart b). cbn in *. lia.
  - destruct (bytes_seen st + 1 =? bytes_needed st); cbn; lia.
Qed.

Lemma dstep_nul st : 0 < lower st -> In 0 (snd (dstep st 0)).
Proof.
  intros Hl. unfold dstep.
  destruct (bytes_needed st =? 0).
  - cbn. now left.
  - destruct (Z.ltb_spec 0 (lower st)); [|lia]. cbn. right. now left.
Qed.

Lemma drun_nul bs : forall st, 0 < lower st -> In 0 bs -> In 0 (drun st bs).
Proof.
  induction bs as [|b bs IH]; intros st Hl H; [destruct H|].
  cbn [drun]. pose proof (dstep_lower st b) as Hl'.
  destruct (dstep st b) as [st' out] eqn:E. cbn [fst] in Hl'.
  apply in_or_app.
  destruct H as [->|H].
  - left. pose proof (dstep_nul st Hl) as Hn. now rewrite E in Hn.
  - right. now apply IH.
Qed.

Lemma decode_nul bs : In 0 bs -> In 0 (decode bs).
Proof.
  intros H. unfold decode.
  assert (Hr : In 0 (strip_bom (drun dinit bs))).
  { pose proof (drun_nul bs dinit ltac:(cbn; lia) H) as Hd.
    unfold strip_bom. destruct (drun dinit bs) as [|c t]; [exact Hd|].
    destruct (Z.eqb_spec c 65279) as [->|_]; [|exact Hd].
    destruct Hd as [E|E]; [discriminate | exact E]. }
  apply in_concat. exists [0]. split; [|now left].
  apply in_map_iff. exists 0. split; [reflexivity | exact Hr].
Qed.

Lemma scalar_values_ascii s : is_ascii s -> scalar_values s = s.
Proof.
  induction 1 as [|c s Hc _ IH]; cbn [scalar_values]; [reflexivity|].
  unfold is_high_surrogate, is_low_surrogate.
  destruct (Z.leb_spec 55296 c); [lia|]. cbn [andb].
  destruct (Z.leb_spec 56320 c); [lia|]. cbn [andb]. now rewrite IH.
Qed.

Lemma encode_ascii s : is_ascii s -> encode s = s.
Proof.
  intros H. unfold encode. rewrite scalar_values_ascii by exact H.
  induction H as [|c s Hc _ IH]; [reflexivity|].
  cbn [map concat]. rewrite IH. unfold utf8_of_scalar.
  destruct (Z.ltb_spec c 128); [reflexivity | lia].
Qed.

Lemma drun_ascii s : is_ascii s -> drun dinit s = s.
Proof.
  induction 1 as [|c s Hc _ IH]; [reflexivity|].
  cbn [drun]. unfold dstep, dstart. cbn [bytes_needed dinit].
  cbn [Z.eqb]. destruct (Z.leb_spec c 127); [|lia].
  cbn [app]. now rewrite IH.
Qed.

Lemma decode_ascii s : is_ascii s -> decode s = s.
Proof.
  intros H. unfold decode. rewrite drun_ascii by exact H.
  assert (Hs : strip_bom s = s).
  { destruct H as [|c s Hc _]; [reflexivity|]. cbn [strip_bom].
    destruct (Z.eqb_spec c 65279); [lia | reflexivity]. }
  rewrite Hs. clear Hs.
  induction H as [|c s Hc _ IH]; [reflexivity|].
  cbn [map concat]. rewrite IH. unfold utf16_of_scalar.
  destruct (Z.ltb_spec c 65536); [reflexivity | lia].
Qed.

Lemma before_nul_split s :
  s = before_nul s \/ exists rest, s = before_nul s ++ 0 :: rest.
Proof.
  induction s as [|c s IH]; cbn [before_nul]; [now left|].
  destruct (Z.eqb_spec c 0) as [->|_]; [right; now exists s|].
  destruct IH as [IH|[rest IH]].
  - left. now rewrite <- IH.
  - right. exists rest. cbn [app]. now rewrite <- IH.
Qed.

Lemma before_nul_first s : In 0 s -> exists rest, s = before_nul s ++ 0 :: rest.
Proof.
  intros H. destruct (before_nul_split s) as [E|E]; [|exact E].
  exfalso. apply (before_nul_no_nul s). now rewrite <- E.
Qed.

(** *** The decoder on the bytes of the encoder *)

Lemma lor_shift6 x y : 0 <= x -> 0 <= y < 64 -> Z.lor (Z.shiftl x 6) y = x * 64 + y.
Proof.
  intros Hx Hy. rewrite Z.shiftl_mul_pow2 by lia. change (2 ^ 6) with 64.
  assert (Hl : Z.land (x * 64) y = 0).
  { apply Z.bits_inj'. intros n Hn. rewrite Z.land_spec, Z.bits_0.
    destruct (Z.lt_ge_cases n 6).
    - replace (x * 64) with (x * 2 ^ 6) by reflexivity.
      rewrite Z.mul_pow2_bits_low by lia. reflexivity.
    - destruct (Z.eq_dec y 0) as [->|Hy0]; [now rewrite Z.bits_0, andb_false_r|].
      rewrite (Z.bits_above_log2 y n), andb_false_r; [reflexivity | lia |].
      apply Z.lt_le_trans with 6; [|lia]. apply Z.log2_lt_pow2; lia. }
  pose proof (Z.add_lor_land (x * 64) y) as H. rewrite Hl in H. lia.
Qed.

(** The first byte of a sequence of two, three or four bytes. *)
Lemma dstart_lead b :
  0xC2 <= b <= 0xF4 ->
  dstart b
  = if b <=? 0xDF then (DState (b - 0xC0) 0 1 0x80 0xBF, [])
    else if b <=? 0xEF then
      (DState (b - 0xE0) 0 2 (if b =? 0xE0 then 0xA0 else 0x80)
              (if b =? 0xED then 0x9F else 0xBF), [])
    else
      (DState (b - 0xF0) 0 3 (if b =? 0xF0 then 0x90 else 0x80)
              (if b =? 0xF4 then 0x8F else 0xBF), []).
Proof.
  intros Hb. unfold dstart.
  change 0x1F with (Z.ones 5). change 0xF with (Z.ones 4). change 0x7 with (Z.ones 3).
  rewrite !Z.land_ones by lia.
  destruct (Z.leb_spec b 0x7F); [lia|].
  destruct (Z.leb_spec 0xC2 b); [|lia].
  destruct (Z.leb_spec b 0xDF); cbn [andb].
  { do 2 f_equal. Z.div_mod_to_equations. lia. }
  destruct (Z.leb_spec 0xE0 b); [|lia].
  destruct (Z.leb_spec b 0xEF); cbn [andb].
  { do 2 f_equal. Z.div_mod_to_equations. lia. }
  destruct (Z.leb_spec 0xF0 b); [|lia].
  destruct (Z.leb_spec b 0xF4); [|lia]. cbn [andb].
  do 2 f_equal. Z.div_mod_to_equations. lia.
Qed.

(** A continuation byte within the bounds of the open sequence. *)
Lemma dstep_cont cp seen needed lo hi b :
  needed <> 0 -> 0 <= cp -> 0x80 <= lo -> hi <= 0xBF -> lo <= b <= hi ->
  dstep (DState cp seen needed lo hi) b
  = if seen + 1 =? needed then (dinit, [cp * 64 + (b - 0x80)])
    else (DState (cp * 64 + (b - 0x80)) (seen + 1) needed 0x80 0xBF, []).
Proof.
  intros Hn Hcp Hlo Hhi Hb. unfold dstep. cbn [bytes_needed lower upper code_point bytes_seen].
  destruct (Z.eqb_spec needed 0); [contradiction|].
  destruct (Z.ltb_spec b lo); [lia|].
  destruct (Z.ltb_spec hi b); [lia|]. cbn [orb].
  change 0x3F with (Z.ones 6). rewrite Z.land_ones by lia.
  assert (E : b mod 2 ^ 6 = b - 0x80) by (Z.div_mod_to_equations; lia).
  rewrite E, lor_shift6 by lia. reflexivity.
Qed.

Lemma drun_scalar c rest :
  is_scalar c -> drun dinit (utf8_of_scalar c ++ rest) = c :: drun dinit rest.
Proof.
  intros [Hc Hs]. unfold utf8_of_scalar.
  destruct (Z.ltb_spec c 0x80).
  { cbn [app drun]. unfold dstep, dstart. cbn [bytes_needed dinit].
    change (0 =? 0) with true. cbv beta iota.
    destruct (Z.leb_spec c 0x7F); [reflexivity | lia]. }
  destruct (Z.ltb_spec c 0x800).
  { cbn [app drun]. unfold dstep at 1. cbn [bytes_needed dinit].
    change (0 =? 0) with true. cbv beta iota.
    rewrite dstart_lead by (Z.div_mod_to_equations; lia).
    destruct (Z.leb_spec (0xC0 + c / 64) 0xDF); [|Z.div_mod_to_equations; lia].
    cbn [app]. rewrite dstep_cont by (Z.div_mod_to_equations; lia).
    change (0 + 1 =? 1) with true. cbv beta iota. cbn [app].
    f_equal. Z.div_mod_to_equations. lia. }
  destruct (Z.ltb_spec c 0x10000).
  { cbn [app drun]. unfold dstep at 1. cbn [bytes_needed dinit].
    change (0 =? 0) with true. cbv beta iota.
    rewrite dstart_lead by (Z.div_mod_to_equations; lia).
    destruct (Z.leb_spec (0xE0 + c / 4096) 0xDF); [Z.div_mod_to_equations; lia|].
    destruct (Z.leb_spec (0xE0 + c / 4096) 0xEF); [|Z.div_mod_to_equations; lia].
    cbn [app].
    rewrite dstep_cont.
    2: lia. 2: Z.div_mod_to_equations; lia.
    2: destruct (_ =? 0xE0); lia. 2: destruct (_ =? 0xED); lia.
    2: { destruct (Z.eqb_spec (0xE0 + c / 4096) 0xE0), (Z.eqb_spec (0xE0 + c / 4096) 0xED);
         Z.div_mod_to_equations; lia. }
    change (0 + 1 =? 2) with false. cbv beta iota. cbn [app].
    rewrite dstep_cont by (Z.div_mod_to_equations; lia).
    change (0 + 1 + 1 =? 2) with true. cbv beta iota. cbn [app].
    f_equal. Z.div_mod_to_equations. lia. }
  cbn [app drun]. unfold dstep at 1. cbn [bytes_needed dinit].
  change (0 =? 0) with true. cbv beta iota.
  rewrite dstart_lead by (Z.div_mod_to_equations; lia).
  destruct (Z.leb_spec (0xF0 + c / 262144) 0xDF); [Z.div_mod_to_equations; lia|].
  destruct (Z.leb_spec (0xF0 + c / 262144) 0xEF); [Z.div_mod_to_equations; lia|].
  cbn [app].
  rewrite dstep_cont.
  2: lia. 2: Z.div_mod_to_equations; lia.
  2: destruct (_ =? 0xF0); lia. 2: destruct (_ =? 0xF4); lia.
  2: { destruct (Z.eqb_spec (0xF0 + c / 262144) 0xF0), (Z.eqb_spec (0xF0 + c / 262144) 0xF4);
       Z.div_mod_to_equations; lia. }
  change (0 + 1 =? 3) with false. cbv beta iota. cbn [app].
  rewrite dstep_cont by (Z.div_mod_to_equations; lia).
  change (0 + 1 + 1 =? 3) with false. cbv beta iota. cbn [app].
  rewrite dstep_cont by (Z.div_mod_to_equations; lia).
  change (0 + 1 + 1 + 1 =? 3) with true. cbv beta iota. cbn [app].
  f_equal. Z.div_mod_to_equations. lia.
Qed.

Lemma drun_encode cs :
  Forall is_scalar cs -> drun dinit (concat (map utf8_of_scalar cs)) = cs.
Proof.
  induction 1 as [|c cs Hc _ IH]; [reflexivity|].
  cbn [map concat]. rewrite drun_scalar by exact Hc. now rewrite IH.
Qed.

(** The scalar values of a well-formed string are scalar values, they
    spell the string, and the first is U+FEFF only if the string starts
    with it. *)
Lemma scalar_values_well_formed : forall n s,
  (length s <= n)%nat -> well_formed s = true ->
  Forall is_scalar (scalar_values s) /\
  concat (map utf16_of_scalar (scalar_values s)) = s /\
  (head (scalar_values s) = Some 0xFEFF -> head s = Some 0xFEFF).
Proof.
  induction n as [|n IH]; intros s Hn Hw.
  { destruct s; [|cbn in Hn; lia]. cbn. split; [constructor|]. split; [reflexivity|].
    discriminate. }
  destruct s as [|c t]; [cbn; split; [constructor|]; split; [reflexivity | discriminate]|].
  cbn [length] in Hn. cbn [well_formed] in Hw.
  apply andb_true_iff in Hw as [Hr Hw]. apply andb_true_iff in Hr as [Hr0 Hr1].
  apply Z.leb_le in Hr0. apply Z.ltb_lt in Hr1.
  cbn [scalar_values].
  destruct (is_high_surrogate c) eqn:Hh.
  - destruct t as [|d t']; [discriminate|].
    apply andb_true_iff in Hw as [Hl Hw]. rewrite Hl.
    cbn [length] in Hn.
    destruct (IH t' ltac:(lia) Hw) as (Hs & Hc & _).
    unfold is_high_surrogate in Hh. unfold is_low_surrogate in Hl.
    apply andb_true_iff in Hh as [Hh0 Hh1]. apply andb_true_iff in Hl as [Hl0 Hl1].
    apply Z.leb_le in Hh0, Hh1, Hl0, Hl1.
    split; [|split].
    + constructor; [|exact Hs]. unfold is_scalar. lia.
    + cbn [map concat]. rewrite Hc. unfold utf16_of_scalar.
      destruct (Z.ltb_spec (65536 + (c - 55296) * 1024 + (d - 56320)) 65536); [lia|].
      cbn [app]. f_equal; [|f_equal]; Z.div_mod_to_equations; lia.
    + cbn [head]. intros [= E]. lia.
  - apply andb_true_iff in Hw as [Hl Hw]. apply negb_true_iff in Hl. rewrite Hl.
    destruct (IH t ltac:(lia) Hw) as (Hs & Hc & _).
    unfold is_high_surrogate in Hh. unfold is_low_surrogate in Hl.
    split; [|split].
    + constructor; [|exact Hs]. unfold is_scalar. split; [lia|].
      intros Hsur.
      destruct (Z.leb_spec 55296 c), (Z.leb_spec c 56319), (Z.leb_spec 56320 c),
        (Z.leb_spec c 57343); cbn in Hh, Hl; try discriminate; lia.
    + cbn [map concat]. rewrite Hc. unfold utf16_of_scalar.
      destruct (Z.ltb_spec c 65536); [reflexivity | lia].
    + cbn [head]. intros [= ->]. reflexivity.
Qed.

(** Encoding a well-formed string that does not start with U+FEFF and
    decoding the bytes gives the string back. *)
Lemma decode_encode s :
  well_formed s = true -> head s <> Some 0xFEFF -> decode (encode s) = s.
Proof.
  intros Hw Hb.
  destruct (scalar_values_well_formed (length s) s (le_n _) Hw) as (Hs & Hc & Hh).
  unfold decode, encode. rewrite drun_encode by exact Hs.
  assert (E : strip_bom (scalar_values s) = scalar_values s).
  { unfold strip_bom. destruct (scalar_values s) as [|c t] eqn:Es; [reflexivity|].
    destruct (Z.eqb_spec c 65279) as [->|_]; [|reflexivity].
    exfalso. apply Hb, Hh. reflexivity. }
  now rewrite E.
Qed.

End Text_facts.

(** ** Strings on the wire *)

Module String_facts.
Import Serde Examples.

(** C10, as the code has it.  A string field, bounded or not, is decoded
    from its window of [length] bytes ([upperBound], or the u32 read at
    the field) and the value stored is the decoded text cut before its
    first NUL: it holds no NUL, and the decoded text is that value alone
    or that value, a NUL and the rest, the latter as soon as the window
    holds a NUL byte.  When the window holds the bytes that the encoder
    gives for a well-formed string that does not start with U+FEFF, the
    decoded text is that string, so that the value is the part of the
    original string before its first NUL. *)
Theorem readBasicType_string_prefix view offset message fd n m'
  (Htag : tag_of (Field.type fd) = Some String_)
  (Hread : readBasicType view offset message fd = Ok (n, m')) :
  exists length curOffset bytes text,
    match Field.upperBound fd with
    | Some l => length = l /\ curOffset = 0
    | None => getUint32 view offset = Ok length /\ curOffset = 4
    end /\
    uint8_window (buffer view) (byteOffset view + offset + curOffset) length = Ok bytes /\
    n = curOffset + length /\
    text = Text.decode bytes /\
    m' = <[Field.name fd := VString (before_nul text)]> message /\
    ~ In 0 (before_nul text) /\
    (text = before_nul text \/ exists rest, text = before_nul text ++ 0 :: rest) /\
    (In 0 bytes -> exists rest, text = before_nul text ++ 0 :: rest) /\
    (forall s, Text.well_formed s = true -> head s <> Some 0xFEFF ->
               bytes = Text.encode s ->
               text = s /\
               before_nul text = before_nul s /\
               (In 0 bytes -> exists rest, s = before_nul text ++ 0 :: rest)).
Proof.
  unfold readBasicType in Hread. rewrite Htag in Hread.
  assert (Hlen : exists length curOffset,
             match Field.upperBound fd with
             | Some l => length = l /\ curOffset = 0
             | None => getUint32 view offset = Ok length /\ curOffset = 4
             end /\
             (bytes ← uint8_window (buffer view)
                        (byteOffset view + offset + curOffset) length;
              m ← set_prop message (Field.name fd)
                    (VString (before_nul (Text.decode bytes)));
              Ok (curOffset + length, m)) = Ok (n, m')).
  { destruct (Field.upperBound fd) as [l|].
    - exists l, 0. split; [auto|]. exact Hread.
    - destruct (getUint32 view offset) as [l|e]; [|discriminate].
      exists l, 4. split; [auto|]. exact Hread. }
  destruct Hlen as (length & curOffset & Hsel & Hrun).
  destruct (uint8_window _ _ _) as [bytes|e] eqn:Hw; [|discriminate].
  mred in Hrun. unfold set_prop in Hrun.
  destruct (inherited (Field.name fd)); [discriminate|].
  apply Ok_inj in Hrun. injection Hrun as <- <-.
  exists length, curOffset, bytes, (Text.decode bytes).
  assert (Hnul : In 0 bytes ->
                 exists rest, Text.decode bytes
                              = before_nul (Text.decode bytes) ++ 0 :: rest).
  { intros H. apply Text_facts.before_nul_first, Text_facts.decode_nul, H. }
  split; [exact Hsel|]. split; [exact Hw|]. split; [reflexivity|].
  split; [reflexivity|]. split; [reflexivity|].
  split; [apply Text_facts.before_nul_no_nul|].
  split; [apply Text_facts.before_nul_split|].
  split; [exact Hnul|].
  intros s Hwf Hbom ->. clear Hread Hw.
  rewrite Text_facts.decode_encode in * by assumption.
  split; [reflexivity|]. split; [reflexivity|]. exact Hnul.
Qed.

(** The bytes [04 00 00 00 C3 A9 00 'b'] of an unbounded string field:
    the encoding of ["é\0b"], read as ["é"]. *)
Lemma readBasicType_string_prefix_witness :
  let view := mkView [4; 0; 0; 0; 195; 169; 0; 98] 0 8 in
  let fd := Field.basic (js "b") (js "string") in
  tag_of (Field.type fd) = Some String_ /\
  readBasicType view 0 ∅ fd = Ok (8, {[js "b" := VString [233]]}) /\
  Text.encode [233; 0; 98] = [195; 169; 0; 98] /\
  exists length curOffset bytes text,
    match Field.upperBound fd with
    | Some l => length = l /\ curOffset = 0
    | None => getUint32 view 0 = Ok length /\ curOffset = 4
    end /\
    uint8_window (buffer view) (byteOffset view + 0 + curOffset) length = Ok bytes /\
    8 = curOffset + length /\
    text = Text.decode bytes /\
    ({[js "b" := VString [233]]} : gmap (list Z) jsvalue)
    = <[Field.name fd := VString (before_nul text)]> ∅ /\
    ~ In 0 (before_nul text) /\
    (text = before_nul text \/ exists rest, text = before_nul text ++ 0 :: rest) /\
    (In 0 bytes -> exists rest, text = before_nul text ++ 0 :: rest) /\
    (forall s, Text.well_formed s = true -> head s <> Some 0xFEFF ->
               bytes = Text.encode s ->
               text = s /\
               before_nul text = before_nul s /\
               (In 0 bytes -> exists rest, s = before_nul text ++ 0 :: rest)).
Proof.
  intros view fd.
  assert (H1 : tag_of (Field.type fd) = Some String_) by (vm_compute; reflexivity).
  assert (H2 : readBasicType view 0 ∅ fd = Ok (8, {[js "b" := VString [233]]}))
    by (vm_compute; reflexivity).
  split; [exact H1|]. split; [exact H2|].
  split; [vm_compute; reflexivity|].
  exact (readBasicType_string_prefix view 0 ∅ fd 8 _ H1 H2).
Defined.

(** A string that starts with U+FEFF does not come back as a prefix of
    itself: the decoder drops the byte order mark.  The bytes of
    ["\uFEFFa\0b"] hold a NUL byte and are read as ["a"], and the round
    trip of [{ b: "\uFEFFa\0bcd" }] returns [{ b: "a" }].  A lone surrogate
    comes back as U+FFFD. *)
Lemma leading_bom_is_dropped :
  let fd := Field.basic (js "b") (js "string") in
  let s := [0xFEFF; 97; 0; 98] in
  Text.encode s = [239; 187; 191; 97; 0; 98] /\
  In 0 (Text.encode s) /\
  readBasicType (mkView ([6; 0; 0; 0] ++ Text.encode s) 0 10) 0 ∅ fd
  = Ok (10, {[js "b" := VString [97]]}) /\
  ~ (exists rest, s = [97] ++ rest) /\
  (maps ← schemaMaps 1 textString;
   Message.message <$> roundTrip 1 maps msgBom)
  = Ok (object [(js "b", VString [97])]) /\
  ~ (exists rest, [0xFEFF; 97; 0; 98; 99; 100] = [97] ++ rest) /\
  readBasicType (mkView ([4; 0; 0; 0] ++ Text.encode [0xD800; 0]) 0 8) 0 ∅ fd
  = Ok (8, {[js "b" := VString [0xFFFD]]}).
Proof.
  intros fd s.
  split; [vm_compute; reflexivity|].
  split; [vm_compute; tauto|].
  split; [vm_compute; reflexivity|].
  split; [intros [rest E]; discriminate E|].
  split; [vm_compute; reflexivity|].
  split; [intros [rest E]; discriminate E|].
  vm_compute. reflexivity.
Qed.

(** The round trip of [{ b: "a\0b" }] through [struct a { string b; }]
    returns [{ b: "a" }]. *)
Lemma roundTrip_nul :
  (maps ← schemaMaps 1 textString;
   Message.message <$> roundTrip 1 maps msgNul)
  = Ok (object [(js "b", VString [97])]).
Proof. vm_compute. reflexivity. Qed.

(** C5.  For [{ b: "é" }] in [struct a { string b; }] the serializer
    stores the length word 1, the number of UTF-16 code units, and the
    single byte C3, while the UTF-8 encoding of the value is the two bytes
    C3 A9. *)
Theorem unbounded_string_length_is_utf16 :
  Text.encode [233] = [195; 169] /\
  (maps ← schemaMaps 1 textString;
   drop 24 <$> serializeMessage 1 (fst maps) msgAccent)
  = Ok ([1; 0; 0; 0] ++ [195]).
Proof. split; vm_compute; reflexivity. Qed.

(** C6.  [struct a { short_string b; }] is parsed to a field of type
    [short_string] without [upperBound], which the size calculation and
    the serializer reject as an unsupported type. *)
Theorem short_string_is_not_rewritten :
  parse 1 textShort
  = Ok [Msgdef.mk (js "a") [] [Field.basic (js "b") (js "short_string")]
                  882380958363159241 false false false] /\
  (maps ← schemaMaps 1 textShort; serializedMessageSize 1 (fst maps) msgShort)
  = Err (UnsupportedType (js "short_string")) /\
  (maps ← schemaMaps 1 textShort; serializeMessage 1 (fst maps) msgShort)
  = Err (UnsupportedType (js "short_string")).
Proof. repeat split; vm_compute; reflexivity. Qed.

(** A [string] field with an [upperBound] occupies exactly that many
    bytes: the head of the UTF-8 text, then NUL bytes. *)
Lemma bounded_string_wire fd v l :
  Field.upperBound fd = Some l -> 0 <= l ->
  len (Wire.stringBytes fd v) = l /\
  exists head, Wire.stringBytes fd v = head ++ zeros (l - len head) /\
               head = (if 0 <? l then stringData v l else []).
Proof.
  intros Hub Hl. unfold Wire.stringBytes. rewrite Hub.
  split.
  - rewrite Serde_facts.len_stringBytes_data. lia.
  - eexists. split; [|reflexivity].
    destruct (Z.ltb_spec 0 l); [reflexivity|].
    rewrite zeros_nonpos; [reflexivity|]. rewrite len_nil. lia.
Qed.

End String_facts.

(** ** Whole messages *)

Module Message_facts.
Import Serde Examples.

Lemma new_ArrayBuffer_ok size : 0 <= size -> new_ArrayBuffer size = Ok (zeros size).
Proof. intros H. unfold new_ArrayBuffer. destruct (Z.ltb_spec size 0); [lia | reflexivity]. Qed.

(** [serializeMessage] stores the header and the wire image of the
    payload at the head of a fresh buffer of [size] bytes. *)
Lemma serializeMessage_run_wire fuel S msg def size bs :
  find_msgdef S (MessageData.typeName msg) = Ok def ->
  serializedMessageSize fuel S msg = Ok size ->
  Wire.nakedMessage fuel S def (MessageData.message msg) = Ok bs ->
  24 + len bs <= size ->
  serializeMessage_run fuel S msg
  = Ok ((Wire.header size (Msgdef.hashValue def) (MessageData.timestamp msg) ++ bs)
          ++ zeros (size - 24 - len bs),
        24 + len bs).
Proof.
  intros Hdef Hsize Hw Hfit. unfold serializeMessage_run.
  rewrite Hdef, Hsize. mred.
  pose proof (len_nonneg bs) as Hbs.
  rewrite new_ArrayBuffer_ok by lia. mred.
  unfold setUint32_int, setBigUint64, setFloat64.
  rewrite (set_bytes_at [] _ size) by (len_simpl; lia). mred.
  rewrite set_bytes_at by (len_simpl; lia). mred.
  rewrite set_bytes_at by (len_simpl; lia). mred.
  rewrite set_bytes_at by (len_simpl; lia). mred.
  rewrite (Serde_facts.serializeNakedMessage_wire _ _ _ _ _ bs)
    by (auto; len_simpl; lia).
  mred. unfold Wire.header. rewrite !len_le_bytes.
  change (Z.of_nat 4) with 4. change (Z.of_nat 8) with 8.
  cbn [app]. rewrite <- !app_assoc. change MAGIC with 1447317076.
  replace (size - 4 - 4 - 8 - 8 - len bs) with (size - 24 - len bs) by lia.
  replace (0 + 4 + 4 + 8 + 8 + len bs) with (24 + len bs) by lia.
  reflexivity.
Qed.

(** C1.  For [struct inner { u32 x; } struct outer { inner g[2]; }] and
    [{ g: [{ x: 1 }, { x: 2 }] }] the size calculation returns 32, the
    wire image of the payload has 56 bytes (two framed elements), and
    [serializeMessage] fails with a RangeError on its 32-byte buffer.  For
    [struct a { string s[1]; }] and [{ s: ["a", "bc"] }] the size
    calculation returns 31 and [serializeMessage] returns a 31-byte
    buffer of which it has filled 29 bytes. *)
Theorem size_differs_from_bytes_written :
  (maps ← schemaMaps 2 textArray; serializedMessageSize 2 (fst maps) msgArray) = Ok 32 /\
  (maps ← schemaMaps 2 textArray;
   def ← find_msgdef (fst maps) (js "outer");
   len <$> Wire.nakedMessage 2 (fst maps) def (MessageData.message msgArray)) = Ok 56 /\
  (maps ← schemaMaps 2 textArray; serializeMessage 2 (fst maps) msgArray) = Err RangeError /\
  (maps ← schemaMaps 2 textFixed; serializedMessageSize 2 (fst maps) msgFixed) = Ok 31 /\
  (maps ← schemaMaps 2 textFixed;
   '(buf, curOffset) ← serializeMessage_run 2 (fst maps) msgFixed;
   Ok (len buf, curOffset)) = Ok (31, 29).
Proof. repeat split; vm_compute; reflexivity. Qed.

Lemma index_nil i : index [] i = VUndefined.
Proof. unfold index. now destruct (i <? 0). Qed.

Lemma loop_const {A} (body : Z -> list A -> res (list A)) (x : A) k :
  (forall i acc, body i acc = Ok (acc ++ [x])) ->
  forall i acc, loop k i body acc = Ok (acc ++ replicate k x).
Proof.
  intros Hb. induction k as [|k IH]; intros i acc; cbn [loop replicate].
  - now rewrite app_nil_r.
  - rewrite Hb. mred. rewrite IH, <- app_assoc. reflexivity.
Qed.

(** The wire image of the payload of [msgBig]: 2^27 zero bytes. *)
Lemma wire_big :
  Wire.nakedMessage 1 (fst (createSchemaMaps [defBig])) defBig
                    (MessageData.message msgBig)
  = Ok (zeros 134217728).
Proof.
  set (S := fst (createSchemaMaps [defBig])).
  cbn [Wire.nakedMessage]. unfold defBig at 2. cbn [Msgdef.definitions foldM].
  set (fd := Field.mk _ _ _ _ _ _ _ _ _ _).
  unfold Wire.field.
  assert (Hget : get_prop (MessageData.message msgBig) (Field.name fd) = Ok VUndefined)
    by (vm_compute; reflexivity).
  rewrite Hget. mred.
  change (Field.isArray fd) with true. cbv iota.
  change (Field.arrayLength fd) with (Some 134217728). cbv iota beta.
  change (elements (nullish_or VUndefined (opt (Field.defaultValue fd)))) with (@nil jsvalue).
  unfold for_lt.
  rewrite (loop_const _ 0).
  - unfold zeros. rewrite app_nil_l. reflexivity.
  - intros i acc. rewrite index_nil.
    match goal with
    | |- context [Wire.nonArrayField ?a ?b ?c ?d ?e ?f] =>
        assert (Hb : Wire.nonArrayField a b c d e f = Ok [0])
          by (vm_compute; reflexivity);
        rewrite Hb
    end.
    reflexivity.
Qed.

(** C4.  The decoder reads the size and variant word as the claim says:
    with bit 27 set, the size is bits 0-26 and the variant bits 27-30;
    otherwise the size is bits 0-30 and the variant 0; [(9 << 27) | 42]
    gives size 42 and variant 9.  The serializer stores the size as the
    whole word: for [struct big { u8 data[134217728]; }] and [{}] it
    returns a buffer of 2^27 + 24 bytes whose word has bit 27 set, which
    the decoder reads as variant 1 and size 24. *)
Theorem size_and_variant_word (w : Z) (Hw : 0 <= w < 2 ^ 32) :
  size_of_word w = (if Z.testbit w 27 then w mod 2 ^ 27 else w mod 2 ^ 31) /\
  variant_of_word w = (if Z.testbit w 27 then (w / 2 ^ 27) mod 16 else 0) /\
  size_of_word (Z.lor (Z.shiftl 9 27) 42) = 42 /\
  variant_of_word (Z.lor (Z.shiftl 9 27) 42) = 9 /\
  parse 1 textBig = Ok [defBig] /\
  exists buf,
    serializeMessage 1 (fst (createSchemaMaps [defBig])) msgBig = Ok buf /\
    len buf = 2 ^ 27 + 24 /\
    getUint32 (whole buf) 4 = Ok (2 ^ 27 + 24) /\
    Z.testbit (2 ^ 27 + 24) 27 = true /\
    variant_of_word (2 ^ 27 + 24) = 1 /\
    size_of_word (2 ^ 27 + 24) = 24.
Proof.
  split; [apply Word_facts.size_of_word_spec|].
  split; [now apply Word_facts.variant_of_word_spec|].
  split; [vm_compute; reflexivity|].
  split; [vm_compute; reflexivity|].
  split; [vm_compute; reflexivity|].
  set (S := fst (createSchemaMaps [defBig])).
  assert (Hdef : find_msgdef S (MessageData.typeName msgBig) = Ok defBig)
    by (vm_compute; reflexivity).
  assert (Hsize : serializedMessageSize 1 S msgBig = Ok 134217752)
    by (vm_compute; reflexivity).
  pose proof (serializeMessage_run_wire 1 S msgBig defBig 134217752
                (zeros 134217728) Hdef Hsize wire_big) as Hrun.
  rewrite len_zeros in Hrun. specialize (Hrun ltac:(lia)).
  replace (134217752 - 24 - 0 `max` 134217728) with 0 in Hrun by lia.
  rewrite (zeros_nonpos 0), app_nil_r in Hrun by lia.
  eexists. split; [unfold serializeMessage; rewrite Hrun; reflexivity|].
  cbn [fst].
  assert (Hlen : len (Wire.header 134217752 (Msgdef.hashValue defBig)
                        (MessageData.timestamp msgBig) ++ zeros 134217728)
                 = 134217752).
  { unfold Wire.header. rewrite !len_app, !len_le_bytes, len_zeros. lia. }
  split; [exact Hlen|].
  split.
  - unfold getUint32, get_bytes, whole. cbn [byteLength byteOffset buffer].
    rewrite Hlen. cbn [Z.leb Z.add Z.compare Pos.compare Pos.compare_cont andb
                         Pos.add Pos.succ].
    unfold Wire.header, slice.
    change (Z.to_nat (0 + 4)) with 4%nat. change (Z.to_nat 4) with 4%nat.
    rewrite <- !app_assoc.
    rewrite drop_app_length' by (now rewrite length_le_bytes).
    rewrite take_app_length' by (now rewrite length_le_bytes).
    change (4 + 4 <=? 134217752) with true. mred.
    rewrite le_value_le_bytes. reflexivity.
  - repeat split; vm_compute; reflexivity.
Qed.

Lemma size_and_variant_word_witness :
  0 <= 1207959594 < 2 ^ 32 /\
  size_of_word 1207959594 = 42 /\ variant_of_word 1207959594 = 9.
Proof.
  assert (Hw : 0 <= 1207959594 < 2 ^ 32) by lia.
  split; [exact Hw|].
  destruct (size_and_variant_word 1207959594 Hw) as (Hs & Hv & _).
  split; [exact Hs | exact Hv].
Defined.

(** When the size is below 2^27 the stored word has bit 27 clear. *)
Lemma small_size_has_no_variant size :
  0 <= size < 2 ^ 27 -> hasVariant size = false /\ size_of_word size = size
                        /\ variant_of_word size = 0.
Proof.
  intros H.
  assert (Hb : Z.testbit size 27 = false).
  { destruct (Z.eq_dec size 0) as [->|Hne]; [reflexivity|].
    apply Z.bits_above_log2; [lia|]. apply Z.log2_lt_pow2; lia. }
  rewrite Word_facts.hasVariant_spec, Word_facts.size_of_word_spec,
    Word_facts.variant_of_word_spec, Hb by lia.
  repeat split. apply Z.mod_small. lia.
Qed.

End Message_facts.

(** ** The struct hash *)

Module Hash_facts.
Import Parse Examples.

Lemma hashStep_spec h c : hashStep h c = (Z.shiftl h 5 + h + c) mod 2 ^ 64.
Proof.
  unfold hashStep, mask. change 18446744073709551615 with (Z.ones 64).
  rewrite !Z.land_ones by lia. now rewrite Zplus_mod_idemp_l.
Qed.

Lemma fieldText_shape nested msgdef fd t :
  fieldText nested msgdef fd = Ok t -> lineShape nested msgdef fd t.
Proof.
  unfold fieldText, lineShape. intros H.
  destruct (Field.isArray fd) eqn:Ha.
  - unfold number_to_string in H.
    destruct (_ <? _); [|discriminate]. mred in H.
    destruct (Field.isComplex fd).
    + destruct (nested _ _) as [h|e] eqn:Hh; [|discriminate].
      mred in H. apply Ok_inj in H. subst t.
      eexists _, (decimal h), _.
      split; [reflexivity|]. split; [reflexivity|]. split; [eauto | reflexivity].
    + destruct (elementTypeToStrC _) as [el|e] eqn:He; [|discriminate].
      mred in H. apply Ok_inj in H. subst t.
      eexists _, el, _.
      split; [reflexivity|]. split; [reflexivity|]. split; reflexivity.
  - mred in H.
    destruct (Field.isComplex fd).
    + destruct (nested _ _) as [h|e] eqn:Hh; [|discriminate].
      mred in H. apply Ok_inj in H. subst t.
      exists [], (decimal h), [59; 10].
      split; [reflexivity|]. split; [reflexivity|]. split; [eauto | reflexivity].
    + destruct (elementTypeToStrC _) as [el|e] eqn:He; [|discriminate].
      mred in H. apply Ok_inj in H. subst t.
      exists [], el, [59; 32; 10].
      split; [reflexivity|]. split; [reflexivity|]. split; reflexivity.
Qed.

Lemma canonicalText_lines nested msgdef fds : forall buf text,
  foldM (fun buf field => t ← fieldText nested msgdef field; Ok (buf ++ t)) buf fds
  = Ok text ->
  exists lines, text = buf ++ concat lines /\
                Forall2 (lineShape nested msgdef) fds lines.
Proof.
  induction fds as [|fd fds IH]; intros buf text H; cbn [foldM] in H.
  - apply Ok_inj in H. subst. exists []. split; [now rewrite app_nil_r | constructor].
  - destruct (fieldText nested msgdef fd) as [t|e] eqn:Ht; [|discriminate].
    mred in H. apply IH in H as (lines & -> & Hl).
    exists (t :: lines). split.
    + cbn [concat]. now rewrite app_assoc.
    + constructor; [now apply fieldText_shape | exact Hl].
Qed.

(** C7, as the code has it.  The text hashed for a struct is
    ["struct " ++ typeName ++ " \n"] followed by one line per field; the
    line of a primitive field is its C spelling, a space, the field name
    and ["; \n"] (a space before the newline); the line of a complex
    field is the decimal string of the hash computed recursively for the
    nested struct, a space, the field name and [";\n"], without the
    space; the line of an array field starts with ["[N] "]. *)
Theorem canonical_text_lines fuel nameToSchema namespaces typeName h
  (H : computeHashValue (S fuel) nameToSchema namespaces typeName = Ok h) :
  exists msgdef lines,
    lookupMsgdef nameToSchema namespaces typeName = Ok msgdef /\
    Forall2 (lineShape (computeHashValue fuel nameToSchema) msgdef)
            (Msgdef.definitions msgdef) lines /\
    h = hashString (js "struct " ++ typeName ++ [32; 10] ++ concat lines).
Proof.
  cbn [computeHashValue] in H.
  destruct (lookupMsgdef nameToSchema namespaces typeName) as [msgdef|e]; [|discriminate].
  mred in H.
  destruct (canonicalText _ msgdef typeName) as [text|e] eqn:Ht; [|discriminate].
  mred in H. apply Ok_inj in H. subst h.
  unfold canonicalText in Ht. apply canonicalText_lines in Ht as (lines & -> & Hl).
  exists msgdef, lines. split; [reflexivity|]. split; [exact Hl|].
  now rewrite <- !app_assoc.
Qed.

Lemma canonical_text_lines_witness :
  computeHashValue 2 mapXY [] (js "X") = Ok 5924728727019124922 /\
  exists msgdef lines,
    lookupMsgdef mapXY [] (js "X") = Ok msgdef /\
    Forall2 (lineShape (computeHashValue 1 mapXY) msgdef)
            (Msgdef.definitions msgdef) lines /\
    5924728727019124922 = hashString (js "struct " ++ js "X" ++ [32; 10] ++ concat lines).
Proof.
  assert (H : computeHashValue 2 mapXY [] (js "X") = Ok 5924728727019124922)
    by (vm_compute; reflexivity).
  split; [exact H|].
  exact (canonical_text_lines 1 mapXY [] (js "X") _ H).
Defined.

(** The line of the complex field [y] of [X] is the decimal hash of [Y],
    [" y"] and [";\n"]: it does not end with ["; \n"]. *)
Lemma complex_line_has_no_space :
  exists msgdef fd line,
    lookupMsgdef mapXY [] (js "X") = Ok msgdef /\
    Msgdef.definitions msgdef = [fd] /\
    Field.isComplex fd = true /\
    fieldText (computeHashValue 1 mapXY) msgdef fd = Ok line /\
    line = js "3993632972737304964 y;" ++ [10] /\
    ~ (exists init, line = init ++ [59; 32; 10]).
Proof.
  eexists _, _, _.
  split; [vm_compute; reflexivity|].
  split; [reflexivity|].
  split; [reflexivity|].
  split; [vm_compute; reflexivity|].
  split; [vm_compute; reflexivity|].
  intros [init E].
  apply (f_equal (@rev Z)) in E. rewrite rev_app_distr in E.
  vm_compute in E. discriminate E.
Qed.

End Hash_facts.

(** ** Semantic analysis *)

Module Parse_facts.
Import Parse Examples.

Lemma mapM_Forall2 {A B} (f : A -> res B) xs : forall ys,
  mapM f xs = Ok ys -> Forall2 (fun x y => f x = Ok y) xs ys.
Proof.
  induction xs as [|x xs IH]; intros ys H; cbn [mapM] in H.
  - apply Ok_inj in H. subst. constructor.
  - destruct (f x) as [y|e] eqn:Hy; [|discriminate]. mred in H.
    destruct (mapM f xs) as [ys'|e]; [|discriminate]. mred in H.
    apply Ok_inj in H. subst. constructor; auto.
Qed.

Lemma parseEntity_hash0 : forall entity namespaces st st' r,
  parseEntity namespaces st entity = Ok (st', r) -> Forall hash0 r.
Proof.
  fix IH 1. intros entity namespaces st st' r H.
  destruct entity as [name definitions|type cx name value|name cls definitions
                     |name naked definitions];
    cbn [parseEntity] in H;
    match type of H with
    | (?c ≫= _) = _ => destruct c as [st0|e]; [|discriminate]
    end; mred in H.
  - destruct (0 <? len namespaces); [discriminate|].
    assert (Hnil : Forall hash0 (@nil Msgdef.t)) by constructor.
    revert Hnil H. generalize (@nil Msgdef.t). revert st0.
    induction definitions as [|e es IHes]; intros st0 acc Hacc H.
    + injection H as <- <-. exact Hacc.
    + destruct (parseEntity (namespaces ++ [name]) st0 e) as [[st1 r1]|err] eqn:He;
        [|discriminate].
      mred in H. apply IH in He.
      eapply IHes; [|exact H]. apply Forall_app. auto.
  - destruct (defaultValueTypeCheck type value); [|discriminate].
    mred in H. injection H as <- <-. constructor.
  - injection H as <- <-. repeat constructor.
  - destruct (mapM _ definitions) as [ds|e]; [|discriminate]. mred in H.
    destruct (foldM _ tt ds); [|discriminate]. mred in H.
    injection H as <- <-. repeat constructor.
Qed.

Lemma parseEntities_hash0 entities : forall namespaces st results st' out,
  parseEntities entities namespaces st results = Ok (st', out) ->
  Forall hash0 results -> Forall hash0 out.
Proof.
  induction entities as [|e es IH]; intros namespaces st results st' out H Hr;
    cbn [parseEntities] in H.
  - injection H as <- <-. exact Hr.
  - destruct (parseEntity namespaces st e) as [[st1 r1]|err] eqn:He; [|discriminate].
    mred in H. apply parseEntity_hash0 in He.
    eapply IH; [exact H|]. apply Forall_app. auto.
Qed.

Lemma parseTree_enum_hash fuel entities defs :
  parseTree fuel entities = Ok defs ->
  forall d, In d defs -> Msgdef.isEnum d = true -> Msgdef.hashValue d = 0.
Proof.
  unfold parseTree. intros H.
  destruct (bool_decide _); [discriminate|].
  destruct (parseEntities entities [] _ []) as [[st parsed]|e] eqn:Hp; [|discriminate].
  mred in H. destruct (_ =? 0); [discriminate|].
  apply parseEntities_hash0 in Hp; [|constructor].
  apply mapM_Forall2 in H.
  intros d Hd He.
  apply list_elem_of_In in Hd.
  destruct (proj1 (list_elem_of_lookup _ _) Hd) as [i Hi].
  destruct (Forall2_lookup_r _ _ _ _ _ H Hi) as (x & Hx & Hfx).
  assert (Hx0 : hash0 x).
  { rewrite Forall_forall in Hp. apply Hp.
    apply list_elem_of_lookup. eauto. }
  destruct (Msgdef.isEnum x) eqn:Hxe.
  - apply Ok_inj in Hfx. subst d. exact Hx0.
  - destruct (computeHashValue _ _ _ _); [|discriminate]. mred in Hfx.
    apply Ok_inj in Hfx. subst d. cbn in He. congruence.
Qed.

End Parse_facts.


Module Preprocess_facts.
Import Preprocess Examples.

Lemma span_spec p s : forall a r,
  Grammar.span p s = (a, r) -> s = a ++ r /\ Forall (fun x => p x = true) a.
Proof.
  induction s as [|c s IH]; intros a r H; cbn [Grammar.span] in H.
  - injection H as <- <-. split; [reflexivity | constructor].
  - destruct (p c) eqn:Hc.
    + destruct (Grammar.span p s) as [a' r'] eqn:E. injection H as <- <-.
      destruct (IH _ _ eq_refl) as [-> Ha]. split; [reflexivity|].
      constructor; assumption.
    + injection H as <- <-. split; [reflexivity | constructor].
Qed.

Lemma span_stop p a c r :
  Forall (fun x => p x = true) a -> p c = false ->
  Grammar.span p (a ++ c :: r) = (a, c :: r).
Proof.
  intros Ha Hc. induction Ha as [|x a Hx _ IH]; cbn [app Grammar.span].
  - now rewrite Hc.
  - now rewrite Hx, IH.
Qed.

Lemma span_all p a :
  Forall (fun x => p x = true) a -> Grammar.span p a = (a, []).
Proof.
  induction 1 as [|x a Hx _ IH]; cbn [Grammar.span]; [reflexivity|].
  now rewrite Hx, IH.
Qed.

Lemma is_prefix_app p s : is_prefix p (p ++ s) = true.
Proof.
  induction p as [|c p IH]; cbn [app is_prefix]; [reflexivity|].
  now rewrite Z.eqb_refl, IH.
Qed.

Lemma lastQuote_spec line idx :
  lastQuote line = Some idx -> (0 < idx < length line)%nat.
Proof.
  unfold lastQuote. intros H.
  destruct (list_find _ _) as [[i c]|] eqn:E; [|discriminate].
  apply list_find_Some in E as (Hi & _ & _).
  apply lookup_lt_Some in Hi. rewrite length_reverse in Hi.
  destruct (Nat.eqb_spec (length line - 1 - i) 0); [discriminate|].
  injection H as <-. lia.
Qed.

Lemma lastQuote_closed path :
  path <> [] -> lastQuote (path ++ [34]) = Some (length path).
Proof.
  intros Hne. unfold lastQuote. rewrite reverse_app. cbn [reverse rev_append app].
  change (reverse [34]) with [34]. cbn [app].
  unfold list_find. rewrite decide_True by reflexivity.
  rewrite length_app. cbn [length].
  replace (length path + 1 - 1 - 0)%nat with (length path) by lia.
  destruct path; [congruence|]. reflexivity.
Qed.


(** A matched statement, matched again, yields the same path. *)
Lemma matchHere_stmt s stmt path rest :
  matchHere s = Some (stmt, path, rest) -> matchHere stmt = Some (stmt, path, []).
Proof.
  unfold matchHere at 1. intros H.
  destruct (is_prefix IMPORT s); [|discriminate].
  destruct (Grammar.span is_space _) as [blanks r1] eqn:Eb.
  apply span_spec in Eb as [_ Hblanks].
  destruct blanks as [|b blanks]; [discriminate|].
  destruct r1 as [|quote r2]; [discriminate|].
  destruct (Z.eqb_spec quote 34) as [->|]; [|discriminate].
  destruct (Grammar.span (fun c => negb _) r2) as [line r3] eqn:El.
  apply span_spec in El as [_ Hline].
  destruct (lastQuote line) as [idx|] eqn:Eq; [|discriminate].
  apply lastQuote_spec in Eq.
  apply (inj Some) in H. apply pair_equal_spec in H as [H <-].
  apply pair_equal_spec in H as [<- <-].
  set (path := take idx line).
  assert (Hpath : Forall (fun x => negb (is_line_terminator x) = true) (path ++ [34])).
  { apply Forall_app. split; [now apply Forall_take|]. now repeat constructor. }
  assert (Hne : path <> []).
  { intros E. apply (f_equal length) in E. unfold path in E.
    rewrite length_take in E. simpl in E. lia. }
  unfold matchHere. rewrite is_prefix_app, drop_app_length.
  change ((b :: blanks) ++ [34] ++ path ++ [34])
    with ((b :: blanks) ++ 34 :: (path ++ [34])).
  rewrite (span_stop is_space (b :: blanks) 34) by auto.
  rewrite Z.eqb_refl, (span_all _ _ Hpath), (lastQuote_closed _ Hne).
  rewrite take_app_length.
  replace (drop (S (length path)) (path ++ [34])) with (@nil Z); [reflexivity|].
  symmetry. apply drop_ge. rewrite length_app. simpl. lia.
Qed.

Lemma firstCapture_here s stmt path rest :
  matchHere s = Some (stmt, path, rest) -> firstCapture s = Some path.
Proof. intros H. destruct s; cbn [firstCapture]; now rewrite H. Qed.

(** Every statement of the list has a path ([match(...)![1]!] is defined). *)
Lemma importStatements_capture fuel : forall s stmt,
  stmt ∈ importStatements fuel s -> is_Some (firstCapture stmt).
Proof.
  induction fuel as [|fuel IH]; intros s stmt H; cbn [importStatements] in H.
  - now apply elem_of_nil in H.
  - destruct s as [|c t]; [now apply elem_of_nil in H|].
    destruct (matchHere (c :: t)) as [[[st p] rest]|] eqn:E.
    + apply elem_of_cons in H as [->|H]; [|now apply IH in H].
      exists p. eapply firstCapture_here, matchHere_stmt, E.
    + now apply IH in H.
Qed.

(** ** The search through the imports *)

Section Search.
Context (m : gmap (list Z) (list Z)).
Context (recurse : list Z -> gset (list Z) -> res (list Z * gset (list Z))).
Context (fuel : nat).

Hypothesis Hrecurse : forall text stack marked,
  (size (dom m ∖ marked) < fuel)%nat -> closed m stack marked ->
  outcome m stack marked (imports text) (reachable m text) (recurse text marked).

Lemma closed_pop stack marked q c :
  closed m ({[q]} ∪ stack) marked ->
  m !! q = Some c -> c <> [] -> (forall p, p ∈ imports c -> p ∈ marked) ->
  closed m stack marked.
Proof.
  intros Hcl Hq Hc Himp x Hx Hs.
  destruct (decide (x = q)) as [->|Hne]; [eauto|].
  apply Hcl; [exact Hx|]. set_solver.
Qed.

Lemma closed_push stack marked q :
  closed m stack marked -> closed m ({[q]} ∪ stack) ({[q]} ∪ marked).
Proof.
  intros Hcl x Hx Hs.
  assert (x ∈ marked) by set_solver. assert (x ∉ stack) by set_solver.
  destruct (Hcl x) as (c & ? & ? & ?); auto.
  exists c. repeat split; auto. set_solver.
Qed.

Lemma size_marked_mono (a b : gset (list Z)) :
  a ⊆ b -> (size (dom m ∖ b) <= size (dom m ∖ a))%nat.
Proof. intros H. apply subseteq_size. set_solver. Qed.

Lemma size_marked_push (marked : gset (list Z)) q :
  q ∈ dom m -> q ∉ marked ->
  (size (dom m ∖ ({[q]} ∪ marked)) < size (dom m ∖ marked))%nat.
Proof.
  intros Hq Hn. apply subset_size.
  apply strict_spec_alt. split; [set_solver|].
  intros E. assert (q ∈ dom m ∖ marked) as Hin by set_solver.
  rewrite <- E in Hin. set_solver.
Qed.

Lemma resolve_all text stack : forall stmts cleaned marked,
  Forall (fun stmt => exists p, firstCapture stmt = Some p /\ p ∈ imports text) stmts ->
  (size (dom m ∖ marked) < S fuel)%nat -> closed m stack marked ->
  outcome m stack marked (omap firstCapture stmts) (reachable m text)
          (foldM (resolveImport m recurse) (cleaned, marked) stmts).
Proof.
  induction stmts as [|stmt stmts IH]; intros cleaned marked Hst Hsz Hcl.
  - cbn. repeat split; auto. intros p Hp. now apply elem_of_nil in Hp.
  - apply Forall_cons in Hst as [(q & Hq & Hin) Hst].
    cbn [foldM omap list_omap]. unfold resolveImport at 2. rewrite Hq.
    cbn [of_option]. mred.
    destruct (m !! q) as [c|] eqn:Hm; cbn [of_option].
    2:{ exists q. split; [reflexivity|]. split; [now left | now constructor]. }
    mred. destruct (decide (c = [])) as [->|Hc].
    { rewrite bool_decide_true by reflexivity.
      exists q. split; [reflexivity|]. split; [now right | now constructor]. }
    rewrite bool_decide_false by exact Hc.
    destruct (decide (q ∈ marked)) as [Hmk|Hmk].
    + rewrite bool_decide_true by exact Hmk. cbn [negb]. mred.
      specialize (IH (replace cleaned stmt []) marked Hst Hsz Hcl).
      unfold outcome in *.
      destruct (foldM _ _ stmts) as [[t marked']|e]; [|exact IH].
      destruct IH as (Hsub & Hall & Hcl'). repeat split; auto.
      intros p Hp. apply elem_of_cons in Hp as [->|Hp]; [set_solver | auto].
    + rewrite bool_decide_false by exact Hmk. cbn [negb].
      assert (Hdom : q ∈ dom m) by (apply elem_of_dom; eauto).
      pose proof (size_marked_push marked q Hdom Hmk) as Hlt.
      pose proof (Hrecurse c ({[q]} ∪ stack) ({[q]} ∪ marked) ltac:(lia)
                    (closed_push _ _ q Hcl)) as Hr.
      unfold outcome in Hr.
      destruct (recurse c ({[q]} ∪ marked)) as [[t marked1]|e].
      2:{ destruct Hr as (p & -> & Hmiss & Hreach). mred.
          exists p. repeat split; auto. eapply reach_via; eauto. }
      destruct Hr as (Hsub1 & Hall1 & Hcl1). mred.
      assert (Hcl1' : closed m stack marked1) by (eapply closed_pop; eauto).
      pose proof (size_marked_mono marked marked1 ltac:(set_solver)) as Hle.
      specialize (IH (replace cleaned stmt t) marked1 Hst ltac:(lia) Hcl1').
      unfold outcome in *.
      destruct (foldM _ _ stmts) as [[t' marked']|e]; [|exact IH].
      destruct IH as (Hsub & Hall & Hcl'). repeat split; [set_solver | | auto].
      intros p Hp. apply elem_of_cons in Hp as [->|Hp]; [set_solver | auto].
Qed.

End Search.

Lemma preprocessRecursive_outcome m : forall fuel text stack marked,
  (size (dom m ∖ marked) < fuel)%nat -> closed m stack marked ->
  outcome m stack marked (imports text) (reachable m text)
          (preprocessRecursive fuel text m marked).
Proof.
  induction fuel as [|fuel IH]; intros text stack marked Hsz Hcl; [lia|].
  cbn [preprocessRecursive]. unfold imports.
  apply (resolve_all m _ fuel (fun t s k Hk Hc => IH t s k Hk Hc)); auto.
  apply Forall_forall. intros stmt Hin.
    destruct (importStatements_capture _ _ _ Hin) as [p Hp].
    exists p. split; [exact Hp|]. unfold imports.
    apply list_elem_of_omap. eauto.
Qed.

(** Everything reachable from a text whose imports are in a closed set is
    in the set. *)
Lemma reachable_closed m marked text p :
  closed m ∅ marked -> (forall q, q ∈ imports text -> q ∈ marked) ->
  reachable m text p ->
  p ∈ marked.
Proof.
  intros Hcl Himp Hr. induction Hr as [text p Hp | text q c p Hq Hm Hc _ IH]; [auto|].
  apply IH. destruct (Hcl q) as (c' & Hm' & _ & Hall); [auto | set_solver|].
  assert (c' = c) as -> by congruence. exact Hall.
Qed.


(** C9, amended.  [preprocess] succeeds exactly when every path reached
    by the [#import] directives is mapped to a non-empty text; otherwise
    it fails with ImportNotFound for a reached path that is absent from
    the mapping or mapped to the empty text (it never runs out of stack,
    whatever the cycles among the imports).  A text without a directive
    is returned with its comments removed. *)
Theorem preprocess_fails_iff_missing (text : list Z) (m : gmap (list Z) (list Z)) :
  (is_Ok (preprocess text m) <->
   forall p, reachable m text p -> exists c, m !! p = Some c /\ c <> []) /\
  (forall e, preprocess text m = Err e ->
     exists p, e = ImportNotFound p /\ reachable m text p /\ missing m p) /\
  (imports text = [] -> preprocess text m = Ok (stripComments text)).
Proof.
  assert (Hout : outcome m ∅ ∅ (imports text) (reachable m text)
                   (preprocessRecursive (S (size m)) text m ∅)).
  { apply preprocessRecursive_outcome.
    - rewrite difference_empty_L, size_dom. lia.
    - intros q Hq. now apply elem_of_empty in Hq. }
  assert (Herr : forall e, preprocess text m = Err e ->
             exists p, e = ImportNotFound p /\ reachable m text p /\ missing m p).
  { intros e He. unfold preprocess in He. unfold outcome in Hout.
    destruct (preprocessRecursive _ _ _ _) as [[t marked]|e']; [discriminate|].
    mred in He. injection He as <-.
    destruct Hout as (p & -> & Hmiss & Hreach). eauto. }
  split; [|split; [exact Herr|]].
  - split.
    + intros [t Ht] p Hp. unfold preprocess in Ht. unfold outcome in Hout.
      destruct (preprocessRecursive _ _ _ _) as [[t' marked]|e']; [|discriminate].
      destruct Hout as (_ & Hall & Hcl).
      pose proof (reachable_closed m marked text p Hcl Hall Hp) as Hin.
      destruct (Hcl p Hin) as (c & Hc & Hne & _); [set_solver|]. eauto.
    + intros Hall. destruct (preprocess text m) as [t|e] eqn:E; [now exists t|].
      destruct (Herr e eq_refl) as (p & _ & Hreach & Hmiss).
      destruct (Hall p Hreach) as (c & Hc & Hne).
      destruct Hmiss as [Hm|Hm]; congruence.
  - intros Hno. unfold preprocess. cbn [preprocessRecursive]. unfold imports in Hno.
    destruct (importStatements _ _) as [|stmt stmts] eqn:E; [reflexivity|].
    destruct (importStatements_capture (length (stripComments text))
                (stripComments text) stmt) as [p Hp].
    { rewrite E. now left. }
    cbn [omap list_omap] in Hno. rewrite Hp in Hno. discriminate.
Qed.

(** C9, as claimed, fails: the import of a path that is present in the
    mapping with an empty text is reported as not found; and a text whose
    only import is present can come out with a [//] comment, made of the
    character before the directive and the imported text. *)
Lemma empty_import_is_not_found :
  (forall p, reachable {[js "a" := []]} textImport p ->
             is_Some (({[js "a" := []]} : gmap (list Z) (list Z)) !! p)) /\
  preprocess textImport {[js "a" := []]} = Err (ImportNotFound (js "a")) /\
  (forall p, reachable {[js "a" := js "/ hi"]} textSlashImport p ->
             is_Some (({[js "a" := js "/ hi"]} : gmap (list Z) (list Z)) !! p)) /\
  preprocess textSlashImport {[js "a" := js "/ hi"]} = Ok (js "// hi").
Proof.
  assert (H1 : imports textImport = [js "a"]) by (vm_compute; reflexivity).
  assert (H2 : imports textSlashImport = [js "a"]) by (vm_compute; reflexivity).
  assert (H3 : imports (js "/ hi") = []) by (vm_compute; reflexivity).
  split; [|split; [vm_compute; reflexivity|split; [|vm_compute; reflexivity]]].
  - intros p Hp. inversion Hp as [p' Hin | q c p' Hin Hm Hc _]; subst.
    + rewrite H1 in Hin. apply list_elem_of_singleton in Hin as ->.
      rewrite lookup_singleton_eq. eauto.
    + rewrite H1 in Hin. apply list_elem_of_singleton in Hin as ->.
      rewrite lookup_singleton_eq in Hm. congruence.
  - intros p Hp. inversion Hp as [p' Hin | q c p' Hin Hm Hc Hr]; subst.
    + rewrite H2 in Hin. apply list_elem_of_singleton in Hin as ->.
      rewrite lookup_singleton_eq. eauto.
    + rewrite H2 in Hin. apply list_elem_of_singleton in Hin as ->.
      rewrite lookup_singleton_eq in Hm. injection Hm as <-.
      inversion Hr as [p'' Hin | q c p'' Hin _ _ _]; subst;
        rewrite H3 in Hin; now apply elem_of_nil in Hin.
Qed.

End Preprocess_facts.


(** ** Integral numbers *)

Module Number_facts.

Lemma pack_sign s e m :
  0 <= s <= 1 -> 0 <= e < 2048 -> 0 <= m < 2 ^ 52 -> sign (pack s e m) = s.
Proof.
  intros Hs He Hm. unfold sign, pack.
  replace (s * 2 ^ 63 + e * 2 ^ 52 + m) with (s * 2 ^ 63 + (e * 2 ^ 52 + m)) by lia.
  rewrite Z.div_add_l, Z.div_small by lia.
  rewrite Z.add_0_r. apply Z.mod_small. lia.
Qed.

Lemma pack_expo s e m :
  0 <= s <= 1 -> 0 <= e < 2048 -> 0 <= m < 2 ^ 52 -> expo (pack s e m) = e.
Proof.
  intros Hs He Hm. unfold expo, pack.
  replace (s * 2 ^ 63 + e * 2 ^ 52 + m) with ((s * 2048 + e) * 2 ^ 52 + m) by lia.
  rewrite Z.div_add_l, Z.div_small by lia.
  rewrite Z.add_0_r, Z.add_comm, Z.mod_add by lia. apply Z.mod_small. lia.
Qed.

Lemma pack_mant s e m :
  0 <= s <= 1 -> 0 <= e < 2048 -> 0 <= m < 2 ^ 52 -> mant (pack s e m) = m.
Proof.
  intros Hs He Hm. unfold mant, pack.
  replace (s * 2 ^ 63 + e * 2 ^ 52 + m) with (m + (s * 2048 + e) * 2 ^ 52) by lia.
  rewrite Z.mod_add by lia. apply Z.mod_small. lia.
Qed.

(** An integer below 2^53 in magnitude is a number, and truncating that
    number gives the integer back. *)
Lemma to_integer_of_Z z : - 2 ^ 53 < z < 2 ^ 53 -> to_integer (of_Z z) = Some z.
Proof.
  intros Hz. unfold of_Z.
  destruct (Z.eqb_spec z 0) as [->|Hne]; [reflexivity|].
  set (s := if z <? 0 then 1 else 0).
  set (a := Z.abs z). set (k := Z.log2 a).
  assert (Ha : 0 < a < 2 ^ 53) by lia.
  assert (Hk : 0 <= k < 53).
  { split; [apply Z.log2_nonneg|]. apply Z.log2_lt_pow2; lia. }
  destruct (Z.log2_spec a) as [Hlo Hhi]; [lia|]. fold k in Hlo, Hhi.
  rewrite Z.pow_succ_r in Hhi by lia.
  destruct (Z.leb_spec k 52); [|lia].
  assert (Hp : 2 ^ k * 2 ^ (52 - k) = 2 ^ 52).
  { rewrite <- Z.pow_add_r by lia. f_equal. lia. }
  assert (Hq : 0 < 2 ^ (52 - k)) by (apply Z.pow_pos_nonneg; lia).
  set (P := 2 ^ (52 - k)) in *.
  assert (Hm : 0 <= a * P - 2 ^ 52 < 2 ^ 52) by nia.
  assert (Hs : 0 <= s <= 1) by (unfold s; destruct (z <? 0); lia).
  unfold to_integer. cbn [bits_of].
  rewrite pack_expo, pack_sign, pack_mant by lia.
  destruct (Z.eqb_spec (k + 1023) 2047); [lia|].
  destruct (Z.eqb_spec (k + 1023) 0); [lia|].
  replace (2 ^ 52 + (a * P - 2 ^ 52)) with (a * P) by lia.
  assert (Hmag : (if 1075 <=? k + 1023 then a * P * 2 ^ (k + 1023 - 1075)
                  else a * P / 2 ^ (1075 - (k + 1023))) = a).
  { destruct (Z.leb_spec 1075 (k + 1023)).
    - assert (k = 52) as Hk52 by lia. unfold P. rewrite Hk52. simpl. lia.
    - replace (1075 - (k + 1023)) with (52 - k) by lia. fold P.
      apply Z.div_mul. lia. }
  rewrite Hmag. f_equal. unfold with_sign, s, a.
  destruct (Z.ltb_spec z 0); simpl; lia.
Qed.

Lemma to_bits_of_Z w z : - 2 ^ 53 < z < 2 ^ 53 -> to_bits w (of_Z z) = z mod 2 ^ w.
Proof. intros Hz. unfold to_bits. now rewrite to_integer_of_Z. Qed.

(** An integer of at most 32 bits survives the store as a [w]-bit word
    and the unsigned or signed load. *)
Lemma unsigned_word w z :
  0 < w <= 32 -> 0 <= z < 2 ^ w -> to_bits w (of_Z z) = z.
Proof.
  intros Hw Hz.
  assert (2 ^ w <= 2 ^ 32) by (apply Z.pow_le_mono_r; lia).
  rewrite to_bits_of_Z by lia. apply Z.mod_small. lia.
Qed.

Lemma signed_word w z :
  0 < w <= 32 -> - 2 ^ (w - 1) <= z < 2 ^ (w - 1) ->
  signed w (to_bits w (of_Z z)) = z.
Proof.
  intros Hw Hz.
  assert (2 ^ (w - 1) <= 2 ^ 32) by (apply Z.pow_le_mono_r; lia).
  rewrite to_bits_of_Z by lia. apply signed_mod; lia.
Qed.

(** The pattern of a signed element, stored again. *)
Lemma signed_pattern w p :
  0 < w <= 32 -> 0 <= p < 2 ^ w -> to_bits w (of_Z (signed w p)) = p.
Proof.
  intros Hw Hp.
  assert (E : 2 ^ w = 2 * 2 ^ (w - 1)).
  { rewrite <- Z.pow_succ_r by lia. f_equal. lia. }
  assert (2 ^ w <= 2 ^ 32) by (apply Z.pow_le_mono_r; lia).
  unfold signed. destruct (Z.ltb_spec p (2 ^ (w - 1))).
  - rewrite to_bits_of_Z by lia. apply Z.mod_small. lia.
  - rewrite to_bits_of_Z by lia.
    rewrite <- (Z.mod_add (p - 2 ^ w) 1) by lia.
    replace (p - 2 ^ w + 1 * 2 ^ w) with p by lia. apply Z.mod_small. lia.
Qed.

Lemma signed_pattern_64 p : 0 <= p < 2 ^ 64 -> signed 64 p mod 2 ^ 64 = p.
Proof.
  intros Hp. unfold signed. destruct (Z.ltb_spec p (2 ^ (64 - 1))).
  - apply Z.mod_small. lia.
  - rewrite <- (Z.mod_add (p - 2 ^ 64) 1) by lia.
    replace (p - 2 ^ 64 + 1 * 2 ^ 64) with p by lia. apply Z.mod_small. lia.
Qed.

Lemma valid_canon n : Number.valid n -> canon n = n.
Proof. now intros [_ H]. Qed.

Lemma valid_timestamp n :
  Number.valid n -> canon (F64 (bits_of (canon n) mod 2 ^ 64)) = n.
Proof.
  intros [Hb Hc]. rewrite Hc. rewrite Z.mod_small by exact Hb.
  destruct n as [b]. exact Hc.
Qed.

End Number_facts.

(** ** Reading what was stored *)

Module Memory_facts.

Lemma fits_app_l view off a b : fits view off (a ++ b) -> fits view off a.
Proof.
  intros (H0 & H1 & H2 & H3 & pre & post & E & Hp). rewrite len_app in H2.
  pose proof (len_nonneg b).
  repeat split; try lia. exists pre, (b ++ post). split; [|exact Hp].
  now rewrite E, <- app_assoc.
Qed.

Lemma fits_app_r view off a b : fits view off (a ++ b) -> fits view (off + len a) b.
Proof.
  intros (H0 & H1 & H2 & H3 & pre & post & E & Hp). rewrite len_app in H2.
  pose proof (len_nonneg a).
  repeat split; try lia. exists (pre ++ a), post. split.
  - now rewrite E, <- !app_assoc.
  - rewrite len_app. lia.
Qed.

Lemma fits_nil view off :
  0 <= byteOffset view -> 0 <= off -> off <= byteLength view ->
  byteOffset view + byteLength view <= len (buffer view) -> fits view off [].
Proof.
  intros H0 H1 H2 H3. repeat split; try (rewrite ?len_nil; lia).
  exists (take (Z.to_nat (byteOffset view + off)) (buffer view)),
         (drop (Z.to_nat (byteOffset view + off)) (buffer view)).
  cbn [app]. rewrite take_drop. split; [reflexivity|].
  apply len_take. lia.
Qed.

Lemma fits_inv_nil view off bs : fits view off bs -> fits view (off + len bs) [].
Proof.
  intros Hf. rewrite <- (app_nil_r bs) in Hf. now apply fits_app_r in Hf.
Qed.

Lemma slice_at pre bs post : slice (len pre) (len bs) (pre ++ bs ++ post) = bs.
Proof.
  unfold slice, len. rewrite !Nat2Z.id.
  rewrite drop_app_length. apply take_app_length.
Qed.

Lemma get_bytes_fits view off bs w :
  fits view off bs -> w = len bs -> get_bytes view off w = Ok bs.
Proof.
  intros (H0 & H1 & H2 & H3 & pre & post & E & Hp) ->. unfold get_bytes.
  destruct (Z.leb_spec 0 off); [|lia].
  destruct (Z.leb_spec (off + len bs) (byteLength view)); [|lia].
  cbn [andb]. rewrite E, <- Hp. now rewrite slice_at.
Qed.

Lemma window_fits view off bs pos n :
  fits view off bs -> pos = byteOffset view + off -> n = len bs ->
  uint8_window (buffer view) pos n = Ok bs.
Proof.
  intros (H0 & H1 & H2 & H3 & pre & post & E & Hp) -> ->.
  pose proof (len_nonneg bs).
  rewrite uint8_window_ok by lia.
  rewrite E, <- Hp. now rewrite slice_at.
Qed.

(** The view that [deserializeMessage] opens at [off] holds the same bytes. *)
Lemma fits_nested view off k bs :
  fits view (off + k) bs -> 0 <= off -> 0 <= k ->
  fits (mkView (buffer view) (byteOffset view + off) (byteLength view - off)) k bs.
Proof.
  intros (H0 & H1 & H2 & H3 & pre & post & E & Hp) Hoff Hk.
  cbn [fits byteOffset byteLength buffer]. unfold fits. cbn [byteOffset byteLength buffer].
  repeat split; try lia. exists pre, post. split; [exact E | lia].
Qed.

Lemma getUint32_fits view off z bs :
  fits view off bs -> bs = le_bytes 4 z -> 0 <= z < 2 ^ 32 ->
  getUint32 view off = Ok z.
Proof.
  intros Hf -> Hz. unfold getUint32.
  rewrite (get_bytes_fits _ _ _ _ Hf) by now rewrite len_le_bytes.
  mred. f_equal. apply le_value_le_bytes_small. simpl. lia.
Qed.

End Memory_facts.

(** ** Plain strings *)

Module Plain_facts.
Import Serde Text_facts.

Lemma len_nil_inv {A} (l : list A) : len l <= 0 -> l = [].
Proof. destruct l; [reflexivity|]. unfold len. simpl length. lia. Qed.

Lemma plain_ascii ub s : WF.plain_string ub s -> Text.is_ascii s.
Proof. intros [H _]. eapply Forall_impl; [exact H|]. simpl. intros; lia. Qed.

Lemma plain_no_nul ub s : WF.plain_string ub s -> ~ In 0 s.
Proof.
  intros [H _] Hin. rewrite Forall_forall in H.
  apply list_elem_of_In, H in Hin. lia.
Qed.

Lemma ascii_zeros k : Text.is_ascii (zeros k).
Proof. apply Forall_replicate. lia. Qed.

Lemma before_nul_zeros s k : ~ In 0 s -> before_nul (s ++ zeros k) = s.
Proof.
  induction s as [|c s IH]; intros Hs; cbn [app before_nul].
  - unfold zeros. destruct (Z.to_nat k); reflexivity.
  - destruct (Z.eqb_spec c 0) as [->|_]; [exfalso; apply Hs; now left|].
    rewrite IH; [reflexivity|]. intros Hin. apply Hs. now right.
Qed.

(** What the decoder makes of a plain string followed by NUL bytes. *)
Lemma decode_plain ub s k :
  WF.plain_string ub s -> before_nul (Text.decode (s ++ zeros k)) = s.
Proof.
  intros Hs. rewrite decode_ascii.
  - apply before_nul_zeros. eapply plain_no_nul, Hs.
  - apply Forall_app. split; [eapply plain_ascii, Hs | apply ascii_zeros].
Qed.

(** The bytes of a plain string on the wire. *)
Lemma stringBytes_plain fd s :
  WF.plain_string (Field.upperBound fd) s ->
  Wire.stringBytes fd (VString s)
  = match Field.upperBound fd with
    | Some l => s ++ zeros (l - len s)
    | None => le_bytes 4 (len s) ++ s
    end.
Proof.
  intros Hs. pose proof (plain_ascii _ _ Hs) as Ha. destruct Hs as [_ Hub].
  pose proof (len_nonneg s) as Hlen.
  assert (Hdata : forall l, len s <= l ->
            (if 0 <? l then Wire.pad l (stringData (VString s) l) else [])
            = s ++ zeros (l - len s)).
  { intros l Hl. destruct (Z.ltb_spec 0 l) as [H0|H0].
    - unfold stringData, Wire.pad. destruct (Z.ltb_spec 0 (len s)) as [H1|H1].
      + rewrite encode_ascii by exact Ha.
        rewrite take_ge by (unfold len in *; lia). reflexivity.
      + assert (s = []) as -> by (now apply len_nil_inv).
        replace (l - len (zeros l)) with 0 by (rewrite len_zeros; lia).
        rewrite (zeros_nonpos 0), app_nil_r by lia. cbn [app].
        change (len (@nil Z)) with 0. now rewrite Z.sub_0_r.
    - assert (s = []) as -> by (apply len_nil_inv; lia).
      rewrite zeros_nonpos by (rewrite len_nil; lia). reflexivity. }
  unfold Wire.stringBytes. destruct (Field.upperBound fd) as [l|].
  - now apply Hdata.
  - cbn [string_length]. fold (len s). rewrite Hdata by lia.
    rewrite Z.sub_diag, zeros_nonpos, app_nil_r by lia. reflexivity.
Qed.

End Plain_facts.

(** ** The round trip of well-formed messages *)

Module RoundTrip_facts.
Import Serde Codec Number_facts Memory_facts Plain_facts.

Lemma load_unsigned n w z :
  (0 < n <= 4)%nat -> w = 8 * Z.of_nat n -> 0 <= z < 2 ^ w ->
  le_value (le_bytes n (to_bits w (of_Z z))) = z.
Proof.
  intros Hn -> Hz. rewrite unsigned_word by lia.
  apply le_value_le_bytes_small.
  replace (256 ^ Z.of_nat n) with (2 ^ (8 * Z.of_nat n)); [exact Hz|].
  rewrite Z.pow_mul_r by lia. reflexivity.
Qed.

Lemma load_signed n w z :
  (0 < n <= 4)%nat -> w = 8 * Z.of_nat n -> - 2 ^ (w - 1) <= z < 2 ^ (w - 1) ->
  signed w (le_value (le_bytes n (to_bits w (of_Z z)))) = z.
Proof.
  intros Hn -> Hz.
  assert (E : 256 ^ Z.of_nat n = 2 ^ (8 * Z.of_nat n)).
  { rewrite Z.pow_mul_r by lia. reflexivity. }
  rewrite le_value_le_bytes, E.
  assert (Hb : to_bits (8 * Z.of_nat n) (of_Z z) mod 2 ^ (8 * Z.of_nat n)
               = to_bits (8 * Z.of_nat n) (of_Z z)).
  { assert (2 ^ (8 * Z.of_nat n - 1) <= 2 ^ 32) by (apply Z.pow_le_mono_r; lia).
    rewrite to_bits_of_Z by lia. apply Z.mod_mod. apply Z.pow_nonzero; lia. }
  rewrite Hb. apply signed_word; lia.
Qed.

Lemma load_pattern n w p :
  (0 < n <= 8)%nat -> w = 8 * Z.of_nat n -> 0 <= p < 2 ^ w ->
  le_value (le_bytes n p) = p.
Proof.
  intros Hn -> Hp. apply le_value_le_bytes_small.
  replace (256 ^ Z.of_nat n) with (2 ^ (8 * Z.of_nat n)); [exact Hp|].
  rewrite Z.pow_mul_r by lia. reflexivity.
Qed.

Lemma load_signed_64 z :
  - 2 ^ 63 <= z < 2 ^ 63 -> signed 64 (le_value (le_bytes 8 z)) = z.
Proof.
  intros Hz. rewrite le_value_le_bytes.
  change (256 ^ Z.of_nat 8) with (2 ^ 64). apply signed_mod; lia.
Qed.

Lemma load_float64 n :
  Number.valid n -> canon (F64 (le_value (le_bytes 8 (bits_of (canon n))))) = n.
Proof.
  intros Hn. rewrite le_value_le_bytes. change (256 ^ Z.of_nat 8) with (2 ^ 64).
  now apply valid_timestamp.
Qed.

Lemma load_float32 p :
  WF.is_f32_pattern p ->
  f64_of_f32 (le_value (le_bytes 4 (f32_of_f64 (f64_of_f32 p)))) = f64_of_f32 p.
Proof.
  intros [Hp ->]. f_equal. apply (load_pattern 4 32); [lia | reflexivity | exact Hp].
Qed.

Section Level.
Context (S : gmap (list Z) Msgdef.t) (H : gmap Z Msgdef.t).
Context (nested : Msgdef.t -> jsvalue -> Prop).
Context (nakedW : Msgdef.t -> jsvalue -> res (list Z)).
Context (sizeOf : Msgdef.t -> jsvalue -> res Z).
Context (nakedD : Msgdef.t -> DataView -> Z -> gmap (list Z) jsvalue ->
                  res (Z * gmap (list Z) jsvalue)).

#[local] Abbreviation codec_ok := (Codec.codec_ok nakedW sizeOf nakedD).
#[local] Abbreviation elem_ok := (Codec.elem_ok S H nakedW sizeOf nakedD).
#[local] Abbreviation field_ok := (Codec.field_ok S H nakedW sizeOf nakedD).

Hypothesis Hnested : forall def v, nested def v -> codec_ok def v.

Ltac load Hf Hinh :=
  unfold getUint8, getInt8, getUint16, getInt16, getUint32, getInt32,
    getBigUint64, getBigInt64, getFloat32, getFloat64;
  rewrite (get_bytes_fits _ _ _ _ Hf) by (now rewrite len_le_bytes);
  mred; unfold set_prop; rewrite Hinh; mred; rewrite len_le_bytes.

Lemma scalar_elem ns fd t v :
  Field.isComplex fd = false -> tag_of (Field.type fd) = Some t ->
  inherited (Field.name fd) = false ->
  WF.scalar WF.plain_string t (Field.upperBound fd) v ->
  exists bs,
    elem_ok ns fd v bs /\
    len bs = match t with
             | String_ => match Field.upperBound fd with
                          | Some l => l
                          | None => 4 + string_length v
                          end
             | _ => width t
             end.
Proof.
  intros HnC Htag Hinh Hwf. unfold Codec.elem_ok.
  unfold Wire.nonArrayField, readNonArrayField, readBasicType.
  rewrite HnC, Htag.
  destruct t; cbn [WF.scalar WF.int_range] in Hwf.
  - (* bool *)
    destruct Hwf as (b & ->). eexists. split; [split; [reflexivity|] | now rewrite len_le_bytes].
    intros _ view off out Hf. load Hf Hinh. do 3 f_equal.
    destruct b; cbn [getNumber].
    + rewrite (load_unsigned 1 8 1) by (try reflexivity; lia). reflexivity.
    + rewrite (load_unsigned 1 8 0) by (try reflexivity; lia). reflexivity.
  - (* int8 *)
    destruct Hwf as (z & (lo & hi & [= <- <-] & Hz) & ->).
    eexists. split; [split; [reflexivity|] | now rewrite len_le_bytes].
    intros _ view off out Hf. load Hf Hinh. cbn [getNumber].
    rewrite (load_signed 1 8) by (try reflexivity; lia). reflexivity.
  - (* uint8 *)
    destruct Hwf as (z & (lo & hi & [= <- <-] & Hz) & ->).
    eexists. split; [split; [reflexivity|] | now rewrite len_le_bytes].
    intros _ view off out Hf. load Hf Hinh. cbn [getNumber].
    rewrite (load_unsigned 1 8) by (try reflexivity; lia). reflexivity.
  - (* int16 *)
    destruct Hwf as (z & (lo & hi & [= <- <-] & Hz) & ->).
    eexists. split; [split; [reflexivity|] | now rewrite len_le_bytes].
    intros _ view off out Hf. load Hf Hinh. cbn [getNumber].
    rewrite (load_signed 2 16) by (try reflexivity; lia). reflexivity.
  - (* uint16 *)
    destruct Hwf as (z & (lo & hi & [= <- <-] & Hz) & ->).
    eexists. split; [split; [reflexivity|] | now rewrite len_le_bytes].
    intros _ view off out Hf. load Hf Hinh. cbn [getNumber].
    rewrite (load_unsigned 2 16) by (try reflexivity; lia). reflexivity.
  - (* int32 *)
    destruct Hwf as (z & (lo & hi & [= <- <-] & Hz) & ->).
    eexists. split; [split; [reflexivity|] | now rewrite len_le_bytes].
    intros _ view off out Hf. load Hf Hinh. cbn [getNumber].
    rewrite (load_signed 4 32) by (try reflexivity; lia). reflexivity.
  - (* uint32 *)
    destruct Hwf as (z & (lo & hi & [= <- <-] & Hz) & ->).
    eexists. split; [split; [reflexivity|] | now rewrite len_le_bytes].
    intros _ view off out Hf. load Hf Hinh. cbn [getNumber].
    rewrite (load_unsigned 4 32) by (try reflexivity; lia). reflexivity.
  - (* int64 *)
    destruct Hwf as (z & (lo & hi & [= <- <-] & Hz) & ->).
    cbn [getBigInt]. mred.
    eexists. split; [split; [reflexivity|] | now rewrite len_le_bytes].
    intros _ view off out Hf. load Hf Hinh.
    rewrite load_signed_64 by lia. reflexivity.
  - (* uint64 *)
    destruct Hwf as (z & (lo & hi & [= <- <-] & Hz) & ->).
    cbn [getBigInt]. mred.
    eexists. split; [split; [reflexivity|] | now rewrite len_le_bytes].
    intros _ view off out Hf. load Hf Hinh.
    rewrite (load_pattern 8 64) by (try reflexivity; lia). reflexivity.
  - (* float32 *)
    destruct Hwf as (p & Hp & ->).
    eexists. split; [split; [reflexivity|] | now rewrite len_le_bytes].
    intros _ view off out Hf. load Hf Hinh. cbn [getNumber].
    rewrite load_float32 by exact Hp. reflexivity.
  - (* float64 *)
    destruct Hwf as (n & Hn & ->).
    eexists. split; [split; [reflexivity|] | now rewrite len_le_bytes].
    intros _ view off out Hf. load Hf Hinh. cbn [getNumber].
    rewrite load_float64 by exact Hn. reflexivity.
  - (* string *)
    destruct Hwf as (s & Hs & ->).
    pose proof (stringBytes_plain fd s Hs) as Hbytes.
    pose proof (len_nonneg s) as Hlen.
    eexists. split; [split; [reflexivity|] |].
    + rewrite Hbytes. intros Hsmall view off out Hf.
      destruct (Field.upperBound fd) as [l|] eqn:Hub.
      * assert (Hl : len s <= l) by (destruct Hs as [_ Hs]; exact Hs).
        assert (Hle : len (s ++ zeros (l - len s)) = l)
          by (rewrite len_app, len_zeros; lia).
        mred. rewrite (window_fits _ _ _ _ _ Hf) by lia.
        mred. rewrite (decode_plain (Some l)) by exact Hs.
        unfold set_prop. rewrite Hinh. mred. rewrite Hle. reflexivity.
      * rewrite len_app, len_le_bytes in Hsmall. change (Z.of_nat 4) with 4 in Hsmall.
        rewrite (getUint32_fits _ _ (len s) _ (fits_app_l _ _ _ _ Hf)) by (auto; lia).
        mred. apply fits_app_r in Hf. rewrite len_le_bytes in Hf.
        change (Z.of_nat 4) with 4 in Hf.
        rewrite (window_fits _ _ _ _ _ Hf) by lia.
        mred. rewrite <- (app_nil_r s) at 1. change (@nil Z) with (zeros 0).
        rewrite (decode_plain None) by exact Hs.
        unfold set_prop. rewrite Hinh. mred.
        rewrite len_app, len_le_bytes. reflexivity.
    + rewrite Hbytes. destruct (Field.upperBound fd) as [l|].
      * destruct Hs as [_ Hs]. rewrite len_app, len_zeros. lia.
      * rewrite len_app, len_le_bytes. reflexivity.
Qed.

(** A framed message: the header is checked and the payload decoded. *)
Lemma framed_decode def m body view offset size ts :
  find_by_hash H (Msgdef.hashValue def) = Ok def ->
  0 <= Msgdef.hashValue def < 2 ^ 64 ->
  size = 24 + len body -> size < 2 ^ 27 ->
  (forall view' off', fits view' off' body -> nakedD def view' off' ∅ = Ok (len body, m)) ->
  fits view (default 0 offset) (Wire.header size (Msgdef.hashValue def) ts ++ body) ->
  deserializeMessage_with H nakedD view offset
  = Ok (Message.mk (Msgdef.name def) size 0 (Msgdef.hashValue def)
                   (canon (F64 (bits_of (canon ts) mod 2 ^ 64))) (VObject m)).
Proof.
  intros Hfind Hhash Hsize Hsmall Hbody Hf.
  pose proof (len_nonneg body) as Hlen.
  set (off := default 0 offset) in *.
  assert (Hhdr : len (Wire.header size (Msgdef.hashValue def) ts) = 24).
  { unfold Wire.header. rewrite !len_app, !len_le_bytes. reflexivity. }
  pose proof Hf as (H0 & H1 & H2 & H3 & _).
  rewrite len_app, Hhdr in H2.
  unfold deserializeMessage_with. fold off.
  destruct (Z.ltb_spec off 0); [lia|].
  destruct (Z.leb_spec (byteOffset view + byteLength view) off); [lia|].
  cbn [orb]. unfold new_DataView.
  destruct (Z.leb_spec 0 (byteOffset view + off)); [|lia].
  destruct (Z.leb_spec 0 (byteLength view - off)); [|lia].
  destruct (Z.leb_spec (byteOffset view + off + (byteLength view - off))
                       (len (buffer view))); [|lia].
  cbn [andb]. mred.
  set (view' := mkView (buffer view) (byteOffset view + off) (byteLength view - off)).
  assert (Hf' : fits view' 0 (Wire.header size (Msgdef.hashValue def) ts ++ body)).
  { apply fits_nested; [|lia|lia]. now rewrite Z.add_0_r. }
  cbn [byteLength view'].
  destruct (Z.ltb_spec (byteLength view - off) 24); [lia|].
  pose proof (fits_app_r _ _ _ _ Hf') as Fbody. rewrite Hhdr in Fbody.
  apply fits_app_l in Hf'. unfold Wire.header in Hf'.
  pose proof (fits_app_l _ _ _ _ Hf') as Fa.
  apply fits_app_r in Hf'. rewrite len_le_bytes in Hf'.
  pose proof (fits_app_l _ _ _ _ Hf') as Fb.
  apply fits_app_r in Hf'. rewrite len_le_bytes in Hf'.
  pose proof (fits_app_l _ _ _ _ Hf') as Fc.
  apply fits_app_r in Hf'. rewrite len_le_bytes in Hf'.
  change (0 + Z.of_nat 4) with 4 in *. change (4 + Z.of_nat 4) with 8 in *.
  change (8 + Z.of_nat 8) with 16 in *. change (0 + 24) with 24 in *.
  rewrite (getUint32_fits _ _ MAGIC _ Fa) by (auto; unfold MAGIC; lia).
  mred. change (negb (MAGIC =? 1447317076)) with false. cbv iota.
  change (0 + 4) with 4.
  rewrite (getUint32_fits _ _ size _ Fb) by (auto; lia).
  mred.
  destruct (Message_facts.small_size_has_no_variant size ltac:(lia)) as (_ & -> & ->).
  destruct (Z.ltb_spec (byteLength view - off) size); [lia|].
  unfold getBigUint64. rewrite (get_bytes_fits _ _ _ _ Fc) by now rewrite len_le_bytes.
  mred. rewrite (load_pattern 8 64) by (try reflexivity; lia).
  unfold getFloat64. rewrite (get_bytes_fits _ _ _ _ Hf') by now rewrite len_le_bytes.
  mred. rewrite Hfind. mred.
  change (4 + 4 + 8 + 8) with 24. rewrite (Hbody _ _ Fbody). mred.
  destruct (Z.eqb_spec (24 + len body) size); [|lia]. cbn [negb].
  rewrite le_value_le_bytes. reflexivity.
Qed.

Lemma complex_elem ns fd def v :
  Field.isComplex fd = true -> inherited (Field.name fd) = false ->
  WF.refers S H ns fd def -> nested def v ->
  exists bs body,
    elem_ok ns fd v bs /\ nakedW def v = Ok body /\ sizeOf def v = Ok (len body) /\
    len bs = (if Msgdef.isNakedStruct def then 0 else 24) + len body /\
    typeof v = TObject /\ nullish v = false.
Proof.
  intros HC Hinh [Hlook Hframed] Hv.
  destruct (Hnested def v Hv) as (body & m & -> & Hw & Hs & Hd).
  pose proof (len_nonneg body) as Hlen.
  unfold Codec.elem_ok, Wire.nonArrayField, readNonArrayField.
  rewrite HC, Hlook. mred.
  destruct (Msgdef.isNakedStruct def) eqn:Hnaked; cbn [negb]; mred.
  - rewrite Hw. mred. exists body, body. cbn [app].
    split; [split; [reflexivity|] | auto].
    intros Hsmall view off out Hf. rewrite (Hd Hsmall _ _ Hf). mred.
    unfold set_prop. rewrite Hinh. reflexivity.
  - rewrite Hs. mred. rewrite Hw. mred.
    destruct (Hframed eq_refl) as [Hhash Hfind].
    assert (Hhdr : forall ts, len (Wire.header (HEADER_SIZE + len body)
                                     (Msgdef.hashValue def) ts) = 24).
    { intros ts. unfold Wire.header. rewrite !len_app, !len_le_bytes. reflexivity. }
    eexists _, body. split; [split; [reflexivity|] |].
    + rewrite len_app, Hhdr. intros Hsmall view off out Hf.
      rewrite (framed_decode def m body view (Some off) (HEADER_SIZE + len body)
                 (of_Z 0) Hfind Hhash eq_refl);
        [ | change HEADER_SIZE with 24; lia
          | intros view' off' Hf'; apply Hd; [lia | exact Hf']
          | exact Hf ].
      mred. cbn [Message.message Message.size]. unfold set_prop. rewrite Hinh.
      reflexivity.
    + rewrite len_app, Hhdr. auto.
Qed.

(** *** Loops over the elements of an array *)

Lemma index_middle (done : list jsvalue) e es :
  index (done ++ e :: es) (len done) = e.
Proof.
  unfold index. pose proof (len_nonneg done).
  destruct (Z.ltb_spec (len done) 0); [lia|].
  unfold len. rewrite Nat2Z.id, list_lookup_middle by reflexivity. reflexivity.
Qed.

Lemma wire_elements ns fd : forall es enc done acc,
  Forall2 (fun e bs => Wire.nonArrayField S nakedW sizeOf ns fd e = Ok bs) es enc ->
  loop (length es) (len done)
       (fun i acc =>
          bs ← Wire.nonArrayField S nakedW sizeOf ns fd (index (done ++ es) i);
          Ok (acc ++ bs)) acc
  = Ok (acc ++ concat enc).
Proof.
  intros es enc done acc Hall. revert done acc.
  induction Hall as [|e bs es enc He _ IH]; intros done acc; cbn [length loop concat].
  - now rewrite app_nil_r.
  - rewrite index_middle, He. mred.
    replace (done ++ e :: es) with ((done ++ [e]) ++ es) by now rewrite <- app_assoc.
    replace (len done + 1) with (len (done ++ [e])) by (rewrite len_app; reflexivity).
    rewrite IH, <- app_assoc. reflexivity.
Qed.

Lemma wire_array ns fd es enc acc :
  Forall2 (fun e bs => Wire.nonArrayField S nakedW sizeOf ns fd e = Ok bs) es enc ->
  for_lt (len es)
         (fun i acc =>
            bs ← Wire.nonArrayField S nakedW sizeOf ns fd (index es i);
            Ok (acc ++ bs)) acc
  = Ok (acc ++ concat enc).
Proof.
  intros Hall. unfold for_lt, len. rewrite Nat2Z.id.
  exact (wire_elements ns fd es enc [] acc Hall).
Qed.

(** The loop of the string and struct arrays. *)
Lemma decode_elements ns fd view offset : forall es enc i io arr fo,
  Forall2 (elem_ok ns fd) es enc ->
  len (concat enc) < 2 ^ 27 ->
  fits view (offset + io) (concat enc) ->
  exists fo',
    loop (length es) i
         (fun _ '(innerOffset, array, fieldOutput) =>
            let curOffset := offset + innerOffset in
            '(n, fieldOutput) ← readNonArrayField S H nakedD fd ns view curOffset
                                   fieldOutput;
            elem ← get_prop (VObject fieldOutput) (Field.name fd);
            Ok (innerOffset + n, array ++ [elem], fieldOutput))
         (io, arr, fo)
    = Ok (io + len (concat enc), arr ++ es, fo').
Proof.
  intros es enc i io arr fo Hall. revert i io arr fo.
  induction Hall as [|e bs es enc [_ He] _ IH]; intros i io arr fo Hsmall Hf;
    cbn [length loop concat] in *.
  - exists fo. rewrite len_nil, Z.add_0_r, app_nil_r. reflexivity.
  - rewrite len_app in Hsmall.
    pose proof (len_nonneg bs). pose proof (len_nonneg (concat enc)).
    rewrite (He ltac:(lia) _ _ _ (fits_app_l _ _ _ _ Hf)). mred.
    unfold get_prop. rewrite lookup_insert_eq. mred.
    apply fits_app_r in Hf.
    replace (offset + io + len bs) with (offset + (io + len bs)) in Hf by lia.
    destruct (IH (i + 1) (io + len bs) (arr ++ [e]) (<[Field.name fd := e]> fo)
                ltac:(lia) Hf) as [fo' Hfo'].
    exists fo'. rewrite len_app.
    replace (arr ++ e :: es) with ((arr ++ [e]) ++ es) by now rewrite <- app_assoc.
    replace (io + (len bs + len (concat enc))) with (io + len bs + len (concat enc))
      by lia.
    exact Hfo'.
Qed.

Lemma elem_ok_wire ns fd es enc :
  Forall2 (elem_ok ns fd) es enc ->
  Forall2 (fun e bs => Wire.nonArrayField S nakedW sizeOf ns fd e = Ok bs) es enc.
Proof. intros Hall. eapply Forall2_impl; [exact Hall|]. now intros e bs [He _]. Qed.

(** *** One field *)

Lemma scalar_not_nullish t ub v :
  WF.scalar WF.plain_string t ub v -> nullish v = false.
Proof.
  destruct t; cbn [WF.scalar];
    first [ intros (? & _ & ->) | intros (? & ->) ]; reflexivity.
Qed.

Lemma element_field def m fd fv :
  m !! Field.name fd = Some fv -> inherited (Field.name fd) = false ->
  Field.isArray fd = false ->
  WF.element WF.plain_string S H nested (Msgdef.namespaces def) fd fv ->
  field_ok def m fd fv.
Proof.
  intros Hget Hinh Harr Hwf. unfold WF.element in Hwf. unfold Codec.field_ok.
  unfold Wire.field, sizeField, deserializeField, get_prop.
  rewrite Hget, Harr. mred. unfold nullish_or.
  destruct (Field.isComplex fd) eqn:HC.
  - destruct Hwf as (d & Href & Hv).
    destruct (complex_elem _ fd d fv HC Hinh Href Hv)
      as (bs & body & [Hw Hd] & Hbody & Hsize & Hlen & Hty & Hnn).
    rewrite Hnn. exists bs. split; [|split].
    + intros acc. rewrite Hw. reflexivity.
    + intros sz. destruct Href as [-> _]. mred.
      unfold object_or_empty. rewrite Hnn, Hty. cbn [negb andb].
      rewrite bool_decide_true by reflexivity. rewrite Hsize. mred.
      rewrite Hlen. destruct (Msgdef.isNakedStruct d); cbn [negb];
        change HEADER_SIZE with 24; f_equal; lia.
    + intros Hsmall view offset io out Hf. rewrite (Hd Hsmall _ _ _ Hf). reflexivity.
  - destruct (tag_of (Field.type fd)) as [t|] eqn:Htag; [|destruct Hwf].
    destruct (scalar_elem (Msgdef.namespaces def) fd t fv HC Htag Hinh Hwf)
      as (bs & [Hw Hd] & Hlen).
    rewrite (scalar_not_nullish _ _ _ Hwf). exists bs. split; [|split].
    + intros acc. rewrite Hw. reflexivity.
    + intros sz. rewrite Hlen.
      destruct t; try reflexivity.
      destruct (Field.upperBound fd); f_equal; lia.
    + intros Hsmall view offset io out Hf. rewrite (Hd Hsmall _ _ _ Hf). reflexivity.
Qed.

(** *** Array fields *)

Lemma Forall_pick {A B} (P : A -> B -> Prop) l :
  Forall (fun x => exists y, P x y) l -> exists ys, Forall2 P l ys.
Proof.
  induction 1 as [|x l [y Hy] _ [ys IH]].
  - exists []. constructor.
  - exists (y :: ys). now constructor.
Qed.

(** The shared part of the array fields: the length word is stored, then
    the elements in turn. *)
Lemma wire_array_field def m fd fv enc acc :
  m !! Field.name fd = Some fv -> nullish fv = false -> Field.isArray fd = true ->
  length_ok fd (len (elements fv)) ->
  Forall2 (fun e bs => Wire.nonArrayField S nakedW sizeOf (Msgdef.namespaces def) fd e
                       = Ok bs) (elements fv) enc ->
  Wire.field S nakedW sizeOf def (VObject m) acc fd
  = Ok (acc ++ prefix fd (len (elements fv)) ++ concat enc).
Proof.
  intros Hget Hnn Harr Hlen Hall. unfold Wire.field, get_prop, prefix, length_ok in *.
  rewrite Hget, Harr. mred. unfold nullish_or. rewrite Hnn.
  destruct (Field.arrayLength fd) as [n|].
  - subst n. now apply wire_array.
  - rewrite app_assoc. now apply wire_array.
Qed.

(** String arrays and struct arrays. *)
Lemma slow_array_field def m fd l enc :
  m !! Field.name fd = Some (VArray l) -> inherited (Field.name fd) = false ->
  Field.isArray fd = true ->
  tag_of (Field.type fd) = Some String_ \/ tag_of (Field.type fd) = None ->
  length_ok fd (len l) ->
  Forall2 (elem_ok (Msgdef.namespaces def) fd) l enc ->
  (forall sz, sizeField S sizeOf def (VObject m) sz fd
              = Ok (sz + len (prefix fd (len l) ++ concat enc))) ->
  field_ok def m fd (VArray l).
Proof.
  intros Hget Hinh Harr Htag Hlen Hall Hsize.
  exists (prefix fd (len l) ++ concat enc). split; [|split; [exact Hsize|]].
  - intros acc. apply (wire_array_field def m fd (VArray l)); auto.
    now apply elem_ok_wire.
  - intros Hsmall view offset io out Hf.
    unfold deserializeField. rewrite Harr.
    unfold prefix, length_ok in *. rewrite len_app in Hsmall.
    pose proof (len_nonneg l) as Hl. pose proof (len_nonneg (concat enc)) as Hc.
    assert (Hloop : forall io' n, n = len l -> len (concat enc) < 2 ^ 27 ->
              fits view (offset + io') (concat enc) ->
              exists fo',
                for_lt n
                  (fun _ '(innerOffset, array, fieldOutput) =>
                     let curOffset := offset + innerOffset in
                     '(n, fieldOutput) ← readNonArrayField S H nakedD fd
                                            (Msgdef.namespaces def) view curOffset
                                            fieldOutput;
                     elem ← get_prop (VObject fieldOutput) (Field.name fd);
                     Ok (innerOffset + n, array ++ [elem], fieldOutput))
                  (io', [], ∅)
                = Ok (io' + len (concat enc), l, fo')).
    { intros io' n -> Hs Hf'. unfold for_lt, len at 1. rewrite Nat2Z.id.
      exact (decode_elements _ fd view offset l enc 0 io' [] ∅ Hall Hs Hf'). }
    destruct (Field.arrayLength fd) as [n|].
    + cbn [app] in *. rewrite len_nil in Hsmall. mred.
      destruct (Hloop io n ltac:(auto) ltac:(lia) Hf) as [fo' Hfo'].
      mred in Hfo'.
      destruct Htag as [-> | ->]; rewrite Hfo'; mred;
        unfold set_prop; rewrite Hinh; reflexivity.
    + rewrite len_le_bytes in Hsmall. change (Z.of_nat 4) with 4 in Hsmall.
      rewrite (getUint32_fits _ _ (len l) _ (fits_app_l _ _ _ _ Hf)) by (auto; lia).
      mred. apply fits_app_r in Hf. rewrite len_le_bytes in Hf.
      change (Z.of_nat 4) with 4 in Hf.
      replace (offset + io + 4) with (offset + (io + 4)) in Hf by lia.
      destruct (Hloop (io + 4) (len l) eq_refl ltac:(lia) Hf) as [fo' Hfo'].
      mred in Hfo'.
      destruct Htag as [-> | ->]; rewrite Hfo'; mred;
        unfold set_prop; rewrite Hinh; rewrite len_app, len_le_bytes;
        change (Z.of_nat 4) with 4; do 2 f_equal; lia.
Qed.

Lemma sum_unbounded (l : list jsvalue) (enc : list (list Z)) :
  Forall2 (fun e bs => len bs = 4 + string_length e) l enc ->
  forall s0, foldl (fun size element => size + string_length element) s0 l
             = s0 + len (concat enc) - 4 * len l.
Proof.
  induction 1 as [|e bs l enc He _ IH]; intros s0; cbn [foldl concat].
  - unfold len. cbn [length]. lia.
  - rewrite IH, len_app, len_cons, He. lia.
Qed.

Lemma sum_bounded (l : list jsvalue) (enc : list (list Z)) ub :
  Forall2 (fun e bs => len bs = ub) l enc -> len (concat enc) = len l * ub.
Proof.
  induction 1 as [|e bs l enc He _ IH]; cbn [concat].
  - unfold len. cbn [length]. lia.
  - rewrite len_app, len_cons, He, IH. lia.
Qed.

Lemma sum_nested d (l : list jsvalue) (enc : list (list Z)) :
  Forall2 (fun e bs => sizeOf d (object_or_empty e) = Ok (len bs)) l enc ->
  forall s0, foldM (fun size element =>
                      n ← sizeOf d (object_or_empty element); Ok (size + n)) s0 l
             = Ok (s0 + len (concat enc)).
Proof.
  induction 1 as [|e bs l enc He _ IH]; intros s0; cbn [foldM concat].
  - rewrite len_nil, Z.add_0_r. reflexivity.
  - rewrite He. mred. rewrite IH, len_app. f_equal. lia.
Qed.

Lemma string_array_field def m fd l :
  m !! Field.name fd = Some (VArray l) -> inherited (Field.name fd) = false ->
  Field.isArray fd = true -> Field.isComplex fd = false ->
  tag_of (Field.type fd) = Some String_ ->
  length_ok fd (len l) ->
  Forall (WF.scalar WF.plain_string String_ (Field.upperBound fd)) l ->
  field_ok def m fd (VArray l).
Proof.
  intros Hget Hinh Harr HC Htag Hlen Hl.
  assert (Hex : exists enc,
             Forall2 (fun e bs =>
                        elem_ok (Msgdef.namespaces def) fd e bs /\
                        len bs = match Field.upperBound fd with
                                 | Some l => l
                                 | None => 4 + string_length e
                                 end) l enc).
  { apply Forall_pick. eapply Forall_impl; [exact Hl|].
    intros e He. cbv beta.
    exact (scalar_elem (Msgdef.namespaces def) fd String_ e HC Htag Hinh He). }
  destruct Hex as [enc Henc].
  assert (Hok : Forall2 (elem_ok (Msgdef.namespaces def) fd) l enc).
  { eapply Forall2_impl; [exact Henc|]. now intros e bs [He _]. }
  apply (slow_array_field def m fd l enc); auto.
  intros sz. unfold sizeField, get_prop. rewrite Hget, Harr. mred.
  unfold nullish_or. cbn [nullish elements]. rewrite Htag.
  unfold prefix, length_ok in *. rewrite len_app.
  destruct (Field.upperBound fd) as [ub|].
  - assert (Hsum := sum_bounded l enc ub).
    rewrite Hsum by (eapply Forall2_impl; [exact Henc|]; now intros e bs [_ He]).
    destruct (Field.arrayLength fd) as [n|]; [subst n|];
      rewrite ?len_nil, ?len_le_bytes; f_equal; lia.
  - assert (Hsum := sum_unbounded l enc).
    destruct (Field.arrayLength fd) as [n|]; [subst n|];
      rewrite Hsum by (eapply Forall2_impl; [exact Henc|]; now intros e bs [_ He]);
      rewrite ?len_nil, ?len_le_bytes; f_equal; lia.
Qed.

Lemma struct_array_field def m fd d l :
  m !! Field.name fd = Some (VArray l) -> inherited (Field.name fd) = false ->
  Field.isArray fd = true -> Field.isComplex fd = true ->
  tag_of (Field.type fd) = None ->
  length_ok fd (len l) ->
  WF.refers S H (Msgdef.namespaces def) fd d -> Forall (nested d) l ->
  Msgdef.isNakedStruct d = true \/ l = [] ->
  field_ok def m fd (VArray l).
Proof.
  intros Hget Hinh Harr HC Htag Hlen Href Hl Hnaked.
  assert (Hex : exists enc,
             Forall2 (fun e bs =>
                        elem_ok (Msgdef.namespaces def) fd e bs /\
                        sizeOf d (object_or_empty e) = Ok (len bs)) l enc).
  { apply Forall_pick. rewrite Forall_forall in Hl. apply Forall_forall.
    intros e Hin. specialize (Hl e Hin).
    destruct (complex_elem _ fd d e HC Hinh Href Hl)
      as (bs & body & Hok & _ & Hsize & Hlen' & Hty & Hnn).
    exists bs. split; [exact Hok|].
    unfold object_or_empty. rewrite Hnn, Hty. cbn [negb andb].
    rewrite bool_decide_true by reflexivity.
    destruct Hnaked as [Hn | ->]; [|now apply elem_of_nil in Hin].
    rewrite Hn in Hlen'. rewrite Hsize, Hlen'. reflexivity. }
  destruct Hex as [enc Henc].
  assert (Hok : Forall2 (elem_ok (Msgdef.namespaces def) fd) l enc).
  { eapply Forall2_impl; [exact Henc|]. now intros e bs [He _]. }
  apply (slow_array_field def m fd l enc); auto.
  intros sz. unfold sizeField, get_prop. rewrite Hget, Harr. mred.
  unfold nullish_or. cbn [nullish elements]. rewrite Htag.
  unfold prefix, length_ok in *. rewrite len_app.
  assert (Hsum := sum_nested d l enc).
  specialize (Hsum ltac:(eapply Forall2_impl; [exact Henc|]; now intros e bs [_ He])).
  destruct Href as [Hlook _].
  assert (Hempty : len l <= 0 -> len (concat enc) = 0).
  { intros Hz. apply len_nil_inv in Hz. subst l.
    apply Forall2_nil_inv_l in Henc. now subst enc. }
  pose proof (len_nonneg l).
  destruct (Field.arrayLength fd) as [n|]; [subst n|];
    rewrite ?len_le_bytes; change (len (@nil Z)) with 0; change (Z.of_nat 4) with 4;
    (destruct (Z.ltb_spec 0 (len l));
     [ rewrite Hlook; mred; rewrite Hsum; f_equal; lia
     | rewrite Hempty by lia; f_equal; lia ]).
Qed.

(** Arrays of booleans. *)
Lemma bool_elem ns fd e :
  Field.isComplex fd = false -> tag_of (Field.type fd) = Some Bool ->
  WF.scalar WF.plain_string Bool None e ->
  exists x, Wire.nonArrayField S nakedW sizeOf ns fd e = Ok [x] /\
            e = VBool (negb (x =? 0)).
Proof.
  intros HC Htag [b ->]. unfold Wire.nonArrayField. rewrite HC, Htag.
  destruct b; cbn [getNumber].
  - exists 1. rewrite unsigned_word by lia. split; reflexivity.
  - exists 0. rewrite unsigned_word by lia. split; reflexivity.
Qed.

Lemma bool_loop view offset : forall l xs i io arr,
  Forall2 (fun e x => e = VBool (negb (x =? 0))) l xs ->
  fits view (offset + io) xs ->
  loop (length l) i
       (fun _ '(innerOffset, array) =>
          b ← getUint8 view (offset + innerOffset);
          Ok (innerOffset + 1, array ++ [VBool (negb (b =? 0))]))
       (io, arr)
  = Ok (io + len xs, arr ++ l).
Proof.
  intros l xs i io arr Hall. revert i io arr.
  induction Hall as [|e x l xs -> _ IH]; intros i io arr Hf; cbn [length loop].
  - rewrite len_nil, Z.add_0_r, app_nil_r. reflexivity.
  - change (x :: xs) with ([x] ++ xs) in Hf.
    unfold getUint8. rewrite (get_bytes_fits _ _ _ _ (fits_app_l _ _ _ _ Hf)) by reflexivity.
    mred. change (le_value [x]) with (x + 256 * 0). rewrite Z.mul_0_r, Z.add_0_r.
    apply fits_app_r in Hf. change (len [x]) with 1 in Hf.
    replace (offset + io + 1) with (offset + (io + 1)) in Hf by lia.
    specialize (IH (i + 1) (io + 1) (arr ++ [VBool (negb (x =? 0))]) Hf).
    unfold getUint8 in IH. mred in IH.
    rewrite IH, len_cons, <- app_assoc. do 2 f_equal. lia.
Qed.

Lemma concat_singletons (xs : list Z) : concat (map (fun x => [x]) xs) = xs.
Proof. induction xs as [|x xs IH]; cbn [map concat app]; [reflexivity | now rewrite IH]. Qed.

Lemma bool_array_field def m fd l :
  m !! Field.name fd = Some (VArray l) -> inherited (Field.name fd) = false ->
  Field.isArray fd = true -> Field.isComplex fd = false ->
  tag_of (Field.type fd) = Some Bool ->
  length_ok fd (len l) ->
  Forall (WF.scalar WF.plain_string Bool None) l ->
  field_ok def m fd (VArray l).
Proof.
  intros Hget Hinh Harr HC Htag Hlen Hl.
  assert (Hex : exists xs,
             Forall2 (fun e x =>
                        Wire.nonArrayField S nakedW sizeOf (Msgdef.namespaces def) fd e
                        = Ok [x] /\ e = VBool (negb (x =? 0))) l xs).
  { apply Forall_pick. eapply Forall_impl; [exact Hl|].
    intros e He. cbv beta. exact (bool_elem _ fd e HC Htag He). }
  destruct Hex as [xs Hxs].
  assert (Hw : Forall2 (fun e bs => Wire.nonArrayField S nakedW sizeOf
                                      (Msgdef.namespaces def) fd e = Ok bs)
                       l (map (fun x => [x]) xs)).
  { apply Forall2_fmap_r. eapply Forall2_impl; [exact Hxs|]. now intros e x [He _]. }
  assert (Hr : Forall2 (fun e x => e = VBool (negb (x =? 0))) l xs).
  { eapply Forall2_impl; [exact Hxs|]. now intros e x [_ He]. }
  assert (Hn : len xs = len l).
  { unfold len. f_equal. symmetry. eapply Forall2_length, Hxs. }
  pose proof (len_nonneg l) as Hl0.
  exists (prefix fd (len l) ++ xs). split; [|split].
  - intros acc. rewrite <- (concat_singletons xs) at 1.
    apply (wire_array_field def m fd (VArray l)); auto.
  - intros sz. unfold sizeField, get_prop. rewrite Hget, Harr. mred.
    unfold nullish_or. cbn [nullish elements]. rewrite Htag.
    unfold prefix, length_ok in *. rewrite len_app, Hn.
    destruct (Field.arrayLength fd) as [n|]; [subst n|];
      rewrite ?len_le_bytes; change (len (@nil Z)) with 0; cbn [width];
      f_equal; lia.
  - intros Hsmall view offset io out Hf.
    unfold deserializeField. rewrite Harr.
    unfold prefix, length_ok in *. rewrite len_app in Hsmall.
    destruct (Field.arrayLength fd) as [n|].
    + cbn [app] in *. mred. rewrite Htag. unfold for_lt.
      subst n. unfold len at 1. rewrite Nat2Z.id.
      pose proof (bool_loop view offset l xs 0 io [] Hr Hf) as Hloop.
      mred in Hloop. rewrite Hloop. mred. unfold set_prop. rewrite Hinh.
      change (len (@nil Z)) with 0. reflexivity.
    + rewrite len_le_bytes in Hsmall. change (Z.of_nat 4) with 4 in Hsmall.
      rewrite (getUint32_fits _ _ (len l) _ (fits_app_l _ _ _ _ Hf)) by (auto; lia).
      mred. rewrite Htag. apply fits_app_r in Hf. rewrite len_le_bytes in Hf.
      change (Z.of_nat 4) with 4 in Hf.
      replace (offset + io + 4) with (offset + (io + 4)) in Hf by lia.
      unfold for_lt. unfold len at 1. rewrite Nat2Z.id.
      pose proof (bool_loop view offset l xs 0 (io + 4) [] Hr Hf) as Hloop.
      mred in Hloop. rewrite Hloop. mred. unfold set_prop. rewrite Hinh.
      rewrite len_app, len_le_bytes. change (Z.of_nat 4) with 4.
      do 2 f_equal. lia.
Qed.

(** Typed arrays. *)
Lemma le_bytes_signed_64 p : 0 <= p < 2 ^ 64 -> le_bytes 8 (signed 64 p) = le_bytes 8 p.
Proof.
  intros Hp.
  rewrite <- (le_bytes_le_value (le_bytes 8 (signed 64 p))) at 1
    by apply le_bytes_is_byte.
  rewrite length_le_bytes, le_value_le_bytes.
  change (256 ^ Z.of_nat 8) with (2 ^ 64). now rewrite signed_pattern_64.
Qed.

Lemma typed_wire ns fd t k p :
  Field.isComplex fd = false -> tag_of (Field.type fd) = Some t ->
  typed_kind t = Some k -> WF.pattern k p ->
  Wire.nonArrayField S nakedW sizeOf ns fd (typed_get k p)
  = Ok (le_bytes (Z.to_nat (elem_size k)) p) /\
  0 <= p < 2 ^ (8 * elem_size k).
Proof.
  intros HC Htag Hk Hp. unfold Wire.nonArrayField. rewrite HC, Htag.
  destruct t; cbn [typed_kind] in Hk; try discriminate; injection Hk as <-;
    cbn [typed_get getNumber getBigInt WF.pattern elem_size width] in *.
  - (* int8 *)
    split; [|exact Hp]. change (8 * 1) with 8 in Hp.
    rewrite (signed_pattern 8) by lia. reflexivity.
  - split; [|exact Hp]. change (8 * 1) with 8 in Hp.
    rewrite (unsigned_word 8) by lia. reflexivity.
  - split; [|exact Hp]. change (8 * 2) with 16 in Hp.
    rewrite (signed_pattern 16) by lia. reflexivity.
  - split; [|exact Hp]. change (8 * 2) with 16 in Hp.
    rewrite (unsigned_word 16) by lia. reflexivity.
  - split; [|exact Hp]. change (8 * 4) with 32 in Hp.
    rewrite (signed_pattern 32) by lia. reflexivity.
  - split; [|exact Hp]. change (8 * 4) with 32 in Hp.
    rewrite (unsigned_word 32) by lia. reflexivity.
  - (* int64 *)
    split; [|exact Hp]. change (8 * 8) with 64 in Hp. mred.
    rewrite le_bytes_signed_64 by lia. reflexivity.
  - split; [|exact Hp]. reflexivity.
  - (* float32 *)
    destruct Hp as [Hp ->]. split; [reflexivity | exact Hp].
  - (* float64 *)
    destruct Hp as [Hp Hc]. rewrite Hc, Hc. cbn [bits_of] in *.
    split; [reflexivity | exact Hp].
Qed.

Lemma word_range k : 256 ^ Z.of_nat (Z.to_nat (elem_size k)) = 2 ^ (8 * elem_size k).
Proof. destruct k; reflexivity. Qed.

Lemma read_elems_concat w ps :
  Forall (fun p => 0 <= p < 256 ^ Z.of_nat w) ps ->
  read_elems w (length ps) (concat (map (le_bytes w) ps)) = ps.
Proof.
  induction 1 as [|p ps Hp _ IH]; cbn [length read_elems map concat]; [reflexivity|].
  rewrite take_app_length' by now rewrite length_le_bytes.
  rewrite drop_app_length' by now rewrite length_le_bytes.
  rewrite IH, le_value_le_bytes_small by exact Hp. reflexivity.
Qed.

Lemma len_concat_words w (ps : list Z) :
  len (concat (map (le_bytes w) ps)) = Z.of_nat w * len ps.
Proof.
  induction ps as [|p ps IH]; cbn [map concat].
  - unfold len. cbn [length]. lia.
  - rewrite len_app, len_le_bytes, len_cons, IH. lia.
Qed.

Lemma typedArray_fits k view off ps pos :
  Forall (fun p => 0 <= p < 256 ^ Z.of_nat (Z.to_nat (elem_size k))) ps ->
  fits view off (concat (map (le_bytes (Z.to_nat (elem_size k))) ps)) ->
  pos = byteOffset view + off ->
  typedArray k (buffer view) pos (len ps) = Ok (VTyped k ps).
Proof.
  intros Hps Hf ->. unfold typedArray.
  assert (Hw : 0 < elem_size k) by (destruct k; simpl; lia).
  assert (Hlen : len (concat (map (le_bytes (Z.to_nat (elem_size k))) ps))
                 = elem_size k * len ps).
  { rewrite len_concat_words. f_equal. lia. }
  pose proof (len_nonneg ps) as Hn.
  assert (Hread : read_elems (Z.to_nat (elem_size k)) (Z.to_nat (len ps))
                    (concat (map (le_bytes (Z.to_nat (elem_size k))) ps)) = ps).
  { unfold len. rewrite Nat2Z.id. now apply read_elems_concat. }
  destruct (_ mod _ =? 0).
  - rewrite (window_fits _ _ _ _ _ Hf) by auto. mred. now rewrite Hread.
  - destruct (Z.ltb_spec (elem_size k * len ps) 0); [nia|].
    rewrite (window_fits _ _ _ _ _ Hf) by auto. mred.
    replace (splice 0 _ _) with (concat (map (le_bytes (Z.to_nat (elem_size k))) ps)).
    + now rewrite Hread.
    + unfold splice. cbn [Z.to_nat take app Nat.add].
      rewrite drop_ge, app_nil_r; [reflexivity|].
      rewrite length_zeros. unfold len in *. lia.
Qed.

Lemma typed_array_field def m fd t k ps :
  m !! Field.name fd = Some (VTyped k ps) -> inherited (Field.name fd) = false ->
  Field.isArray fd = true -> Field.isComplex fd = false ->
  tag_of (Field.type fd) = Some t -> typed_kind t = Some k ->
  length_ok fd (len (elements (VTyped k ps))) ->
  Forall (WF.pattern k) ps ->
  field_ok def m fd (VTyped k ps).
Proof.
  intros Hget Hinh Harr HC Htag Hk Hlen Hps.
  set (w := Z.to_nat (elem_size k)).
  assert (Hw : 0 < elem_size k) by (destruct k; simpl; lia).
  assert (Hwire : Forall2 (fun e bs => Wire.nonArrayField S nakedW sizeOf
                                         (Msgdef.namespaces def) fd e = Ok bs)
                          (elements (VTyped k ps)) (map (le_bytes w) ps)).
  { cbn [elements]. apply Forall2_fmap. apply Forall_Forall2_diag.
    eapply Forall_impl; [exact Hps|]. intros p Hp. cbv beta.
    now destruct (typed_wire (Msgdef.namespaces def) fd t k p HC Htag Hk Hp) as [Hp' _]. }
  assert (Hrange : Forall (fun p => 0 <= p < 256 ^ Z.of_nat w) ps).
  { eapply Forall_impl; [exact Hps|]. intros p Hp. cbv beta.
    unfold w. rewrite word_range.
    now destruct (typed_wire (Msgdef.namespaces def) fd t k p HC Htag Hk Hp) as (_ & Hr). }
  assert (Hwidth : width t = elem_size k).
  { destruct t; cbn [typed_kind] in Hk; try discriminate; injection Hk as <-; reflexivity. }
  assert (Hn : len (elements (VTyped k ps)) = len ps).
  { cbn [elements]. unfold len. now rewrite length_map. }
  assert (Hlc : len (concat (map (le_bytes w) ps)) = elem_size k * len ps).
  { rewrite len_concat_words. unfold w. f_equal. lia. }
  pose proof (len_nonneg ps) as Hps0.
  exists (prefix fd (len (elements (VTyped k ps))) ++ concat (map (le_bytes w) ps)).
  split; [|split].
  - intros acc. apply (wire_array_field def m fd (VTyped k ps)); auto.
  - intros sz. unfold sizeField, get_prop. rewrite Hget, Harr. mred.
    unfold nullish_or. cbn [nullish]. rewrite Htag, Hn in *.
    unfold prefix, length_ok in *. rewrite len_app, Hlc, <- Hwidth.
    destruct (Field.arrayLength fd) as [n|]; [subst n|];
      rewrite ?len_le_bytes; change (len (@nil Z)) with 0;
      (destruct t; cbn [typed_kind] in Hk; try discriminate; f_equal; lia).
  - intros Hsmall view offset io out Hf.
    unfold deserializeField. rewrite Harr. rewrite Hn in *.
    unfold prefix, length_ok in *. rewrite len_app, Hlc in Hsmall.
    destruct (Field.arrayLength fd) as [n|].
    + cbn [app] in *. mred. rewrite Htag. subst n.
      assert (Hta := typedArray_fits k view (offset + io) ps
                       (byteOffset view + offset + io) Hrange Hf ltac:(lia)).
      destruct t; cbn [typed_kind] in Hk; try discriminate; injection Hk as <-;
        cbn [typed_kind]; rewrite Hta; mred; unfold set_prop; rewrite Hinh; mred;
        rewrite Hlc; change (len (@nil Z)) with 0; do 2 f_equal; lia.
    + rewrite len_le_bytes in Hsmall. change (Z.of_nat 4) with 4 in Hsmall.
      rewrite (getUint32_fits _ _ (len ps) _ (fits_app_l _ _ _ _ Hf)) by (auto; lia).
      mred. rewrite Htag. apply fits_app_r in Hf. rewrite len_le_bytes in Hf.
      change (Z.of_nat 4) with 4 in Hf.
      assert (Hta := typedArray_fits k view (offset + io + 4) ps
                       (byteOffset view + offset + (io + 4)) Hrange Hf ltac:(lia)).
      destruct t; cbn [typed_kind] in Hk; try discriminate; injection Hk as <-;
        cbn [typed_kind]; rewrite Hta; mred; unfold set_prop; rewrite Hinh; mred;
        rewrite len_app, len_le_bytes, Hlc; change (Z.of_nat 4) with 4;
        do 2 f_equal; lia.
Qed.

(** *** Any field, and all the fields of a struct *)

Lemma any_field def m fd fv :
  m !! Field.name fd = Some fv -> inherited (Field.name fd) = false ->
  WF.field WF.plain_string S H nested (Msgdef.namespaces def) fd fv ->
  field_ok def m fd fv.
Proof.
  intros Hget Hinh Hwf. unfold WF.field in Hwf.
  destruct (Field.isArray fd) eqn:Harr; [|now apply element_field].
  destruct Hwf as [Hlen Hkind]. fold (length_ok fd (len (elements fv))) in Hlen.
  destruct (tag_of (Field.type fd)) as [t|] eqn:Htag.
  - destruct t;
      try (destruct Hkind as (HC & k & ps & Hk & -> & Hps);
           now apply (typed_array_field def m fd _ k ps Hget Hinh Harr HC Htag Hk)).
    + destruct Hkind as (HC & l & -> & Hl). now apply bool_array_field.
    + destruct Hkind as (HC & l & -> & Hl). now apply string_array_field.
  - destruct Hkind as (HC & d & l & Href & -> & Hl & Hnaked).
    now apply (struct_array_field def m fd d l).
Qed.

Lemma fields_ok def m : forall fds,
  Forall (fun fd =>
            inherited (Field.name fd) = false /\
            exists fv, m !! Field.name fd = Some fv /\
                       WF.field WF.plain_string S H nested (Msgdef.namespaces def) fd fv)
         fds ->
  exists ext,
    (forall acc, foldM (Wire.field S nakedW sizeOf def (VObject m)) acc fds
                 = Ok (acc ++ ext)) /\
    (forall sz, foldM (sizeField S sizeOf def (VObject m)) sz fds = Ok (sz + len ext)) /\
    (len ext < 2 ^ 27 -> forall view offset io out,
       fits view (offset + io) ext ->
       foldM (deserializeField S H nakedD def view offset) (io, out) fds
       = Ok (io + len ext, rebuilt m out fds)).
Proof.
  induction 1 as [|fd fds (Hinh & fv & Hget & Hwf) _ (rest & Hw & Hs & Hd)].
  - exists []. cbn [foldM rebuilt foldl]. repeat split.
    + intros acc. now rewrite app_nil_r.
    + intros sz. rewrite len_nil, Z.add_0_r. reflexivity.
    + intros _ view offset io out _. rewrite len_nil, Z.add_0_r. reflexivity.
  - destruct (any_field def m fd fv Hget Hinh Hwf) as (ext & Hw1 & Hs1 & Hd1).
    exists (ext ++ rest). cbn [foldM]. repeat split.
    + intros acc. rewrite Hw1. mred. rewrite Hw, <- app_assoc. reflexivity.
    + intros sz. rewrite Hs1. mred. rewrite Hs, len_app. f_equal. lia.
    + rewrite len_app. intros Hsmall view offset io out Hf.
      pose proof (len_nonneg ext). pose proof (len_nonneg rest).
      rewrite (Hd1 ltac:(lia) _ _ _ _ (fits_app_l _ _ _ _ Hf)). mred.
      apply fits_app_r in Hf.
      replace (offset + io + len ext) with (offset + (io + len ext)) in Hf by lia.
      rewrite (Hd ltac:(lia) _ _ _ _ Hf).
      unfold rebuilt. cbn [foldl]. rewrite Hget. cbn [default].
      do 2 f_equal. lia.
Qed.

Lemma rebuilt_other m fds : forall out k,
  k ∉ map Field.name fds -> rebuilt m out fds !! k = out !! k.
Proof.
  unfold rebuilt. induction fds as [|fd fds IH]; intros out k Hk; cbn [foldl];
    [reflexivity|].
  cbn [map] in Hk. apply not_elem_of_cons in Hk as [Hne Hk].
  rewrite IH by exact Hk. now rewrite lookup_insert_ne.
Qed.

Lemma rebuilt_field m fds : forall out k,
  k ∈ map Field.name fds ->
  rebuilt m out fds !! k = Some (default VUndefined (m !! k)).
Proof.
  unfold rebuilt. induction fds as [|fd fds IH]; intros out k Hk; cbn [foldl map] in *.
  - now apply elem_of_nil in Hk.
  - destruct (decide (k ∈ map Field.name fds)) as [Hin|Hout]; [now apply IH|].
    apply elem_of_cons in Hk as [->|Hk]; [|contradiction].
    fold (rebuilt m (<[Field.name fd := default VUndefined (m !! Field.name fd)]> out) fds).
    rewrite rebuilt_other by exact Hout. apply lookup_insert_eq.
Qed.

Lemma rebuilt_all m fds :
  (forall k, is_Some (m !! k) -> exists fd, fd ∈ fds /\ Field.name fd = k) ->
  Forall (fun fd => is_Some (m !! Field.name fd)) fds ->
  rebuilt m ∅ fds = m.
Proof.
  intros Hkeys Hall. apply map_eq. intros k.
  destruct (decide (k ∈ map Field.name fds)) as [Hin|Hout].
  - rewrite rebuilt_field by exact Hin.
    apply list_elem_of_fmap in Hin as (fd & -> & Hfd).
    rewrite Forall_forall in Hall. destruct (Hall fd Hfd) as [v ->]. reflexivity.
  - rewrite rebuilt_other by exact Hout. rewrite lookup_empty.
    destruct (m !! k) as [v|] eqn:E; [|reflexivity].
    destruct (Hkeys k ltac:(eauto)) as (fd & Hfd & <-).
    exfalso. apply Hout. apply list_elem_of_fmap. eauto.
Qed.

(** A well-formed message body, given the codec of the level below. *)
Lemma body_ok def v :
  WF.message_body WF.plain_string S H nested def v ->
  exists bs m,
    v = VObject m /\
    foldM (Wire.field S nakedW sizeOf def v) [] (Msgdef.definitions def) = Ok bs /\
    foldM (sizeField S sizeOf def v) 0 (Msgdef.definitions def) = Ok (len bs) /\
    (len bs < 2 ^ 27 -> forall view off out,
       out = ∅ -> fits view off bs ->
       foldM (deserializeField S H nakedD def view off) (0, out) (Msgdef.definitions def)
       = Ok (len bs, m)).
Proof.
  intros (m & -> & Hkeys & Hfields).
  destruct (fields_ok def m _ Hfields) as (ext & Hw & Hs & Hd).
  exists ext, m. split; [reflexivity|]. split; [apply (Hw [])|].
  split; [apply (Hs 0)|].
  intros Hsmall view off out -> Hf.
  rewrite <- (Z.add_0_r off) in Hf.
  rewrite (Hd Hsmall _ _ _ _ Hf), Z.add_0_l, rebuilt_all; [reflexivity | exact Hkeys |].
  eapply Forall_impl; [exact Hfields|]. intros fd (_ & fv & -> & _). eauto.
Qed.

End Level.

(** The codec of well-formed messages, at any nesting depth that the fuel
    covers. *)
Lemma naked_codec S H : forall depth fuel def v,
  (depth <= fuel)%nat ->
  WF.message WF.plain_string depth S H def v ->
  codec_ok (Wire.nakedMessage fuel S) (serializedNakedMessageSize fuel S)
           (deserializeNakedMessage fuel S H) def v.
Proof.
  induction depth as [|depth IH]; intros fuel def v Hfuel Hwf; [destruct Hwf|].
  destruct fuel as [|fuel]; [lia|].
  cbn [WF.message] in Hwf.
  destruct (body_ok S H (WF.message WF.plain_string depth S H)
              (Wire.nakedMessage fuel S) (serializedNakedMessageSize fuel S)
              (deserializeNakedMessage fuel S H)
              (fun d w Hw => IH fuel d w ltac:(lia) Hw) def v Hwf)
    as (bs & m & -> & Hw & Hs & Hd).
  exists bs, m. split; [reflexivity|]. split; [exact Hw|]. split; [exact Hs|].
  intros Hsmall view off Hf. cbn [deserializeNakedMessage].
  now apply Hd.
Qed.

Import Examples.

(** C2, amended.  A message that is well formed for its struct, with
    plain strings (ASCII without NUL, fitting a bounded field), a
    timestamp that is a number, and a struct that the hash map returns:
    the size calculation succeeds and, when the size is below 2^27,
    [deserializeMessage] of the buffer of [serializeMessage] returns the
    type name, that size, variant 0, the hash, the timestamp and the
    message itself. *)
Theorem roundTrip_well_formed (fuel depth : nat)
  (S : gmap (list Z) Msgdef.t) (H : gmap Z Msgdef.t)
  (msg : MessageData.t) (def : Msgdef.t)
  (Hdef : find_msgdef S (MessageData.typeName msg) = Ok def)
  (Hname : Msgdef.name def = MessageData.typeName msg)
  (Hhash : 0 <= Msgdef.hashValue def < 2 ^ 64)
  (Hfind : find_by_hash H (Msgdef.hashValue def) = Ok def)
  (Hts : Number.valid (MessageData.timestamp msg))
  (Hfuel : (depth <= fuel)%nat)
  (Hwf : WF.message WF.plain_string depth S H def (MessageData.message msg)) :
  exists size,
    serializedMessageSize fuel S msg = Ok size /\
    (size < 2 ^ 27 ->
     roundTrip fuel (S, H) msg
     = Ok (Message.mk (MessageData.typeName msg) size 0 (Msgdef.hashValue def)
                      (MessageData.timestamp msg) (MessageData.message msg))).
Proof.
  destruct (naked_codec S H depth fuel def _ Hfuel Hwf) as (bs & m & Hm & Hw & Hs & Hd).
  pose proof (len_nonneg bs) as Hlen.
  assert (Hsize : serializedMessageSize fuel S msg = Ok (24 + len bs)).
  { unfold serializedMessageSize. rewrite Hm. cbn [typeof].
    rewrite bool_decide_true by reflexivity. cbn [negb].
    rewrite Hdef. mred. rewrite <- Hm, Hs. reflexivity. }
  exists (24 + len bs). split; [exact Hsize|]. intros Hsmall.
  unfold roundTrip, serializeMessage. cbn [fst snd].
  rewrite (Message_facts.serializeMessage_run_wire fuel S msg def (24 + len bs) bs
             Hdef Hsize Hw ltac:(lia)).
  mred. cbn [fst].
  replace (24 + len bs - 24 - len bs) with 0 by lia.
  rewrite (zeros_nonpos 0), app_nil_r by lia.
  set (hdr := Wire.header _ _ _).
  unfold deserializeMessage.
  rewrite (framed_decode H _ def m bs (whole (hdr ++ bs)) None (24 + len bs)
             (MessageData.timestamp msg) Hfind Hhash eq_refl Hsmall).
  - rewrite valid_timestamp by exact Hts. now rewrite Hname, Hm.
  - intros view' off' Hf'. apply Hd; [lia | exact Hf'].
  - unfold fits, whole. cbn [byteOffset byteLength buffer default]. fold hdr.
    pose proof (len_nonneg (hdr ++ bs)).
    split; [lia|]. split; [lia|]. split; [lia|]. split; [lia|].
    exists [], []. rewrite app_nil_r. split; reflexivity.
Qed.

Lemma object_keys (fields : list (list Z * jsvalue)) k :
  is_Some ((list_to_map fields : gmap (list Z) jsvalue) !! k) -> k ∈ fields.*1.
Proof.
  intros [v Hv]. destruct (decide (k ∈ fields.*1)) as [Hin|Hout]; [exact Hin|].
  apply (not_elem_of_list_to_map_1 (M := gmap (list Z))) in Hout. congruence.
Qed.

(** [{ y: { z: 7 } }] for [struct X { Y y; } struct Y { u32 z; }]: a
    framed struct inside a message, 52 bytes. *)
Lemma roundTrip_well_formed_witness :
  WF.message WF.plain_string 2 (fst mapsXY) (snd mapsXY) defX (MessageData.message msgXY) /\
  serializedMessageSize 2 (fst mapsXY) msgXY = Ok 52 /\
  roundTrip 2 mapsXY msgXY
  = Ok (Message.mk (js "X") 52 0 5924728727019124922 (of_Z 0)
                   (MessageData.message msgXY)).
Proof.
  assert (Hdef : find_msgdef (fst mapsXY) (MessageData.typeName msgXY) = Ok defX)
    by (vm_compute; reflexivity).
  assert (Hhash : 0 <= Msgdef.hashValue defX < 2 ^ 64) by (cbn; lia).
  assert (Hfind : find_by_hash (snd mapsXY) (Msgdef.hashValue defX) = Ok defX)
    by (vm_compute; reflexivity).
  assert (Hts : Number.valid (MessageData.timestamp msgXY))
    by (change (MessageData.timestamp msgXY) with (F64 0);
        split; [cbn; lia | reflexivity]).
  assert (Hz : WF.message WF.plain_string 1 (fst mapsXY) (snd mapsXY) defY
                 (object [(js "z", num 7)])).
  { exists (list_to_map [(js "z", num 7)]). split; [reflexivity|]. split.
    - intros k Hk. apply object_keys in Hk. apply list_elem_of_singleton in Hk as ->.
      eexists. split; [left | reflexivity].
    - repeat constructor. exists (num 7). split; [vm_compute; reflexivity|].
      unfold WF.field, WF.element. cbn [Field.isArray Field.isComplex Field.basic defY
        Msgdef.definitions Field.type Field.upperBound].
      replace (tag_of (js "uint32")) with (Some Uint32) by (vm_compute; reflexivity).
      exists 7. split; [|reflexivity]. exists 0, (2 ^ 32). split; [reflexivity | lia]. }
  assert (Hwf : WF.message WF.plain_string 2 (fst mapsXY) (snd mapsXY) defX
                  (MessageData.message msgXY)).
  { exists (list_to_map [(js "y", object [(js "z", num 7)])]).
    split; [reflexivity|]. split.
    - intros k Hk. apply object_keys in Hk. apply list_elem_of_singleton in Hk as ->.
      eexists. split; [left | reflexivity].
    - repeat constructor. exists (object [(js "z", num 7)]).
      split; [vm_compute; reflexivity|].
      exists defY. split; [|exact Hz]. split; [vm_compute; reflexivity|].
      intros _. split; [cbn; lia | vm_compute; reflexivity]. }
  destruct (roundTrip_well_formed 2 2 (fst mapsXY) (snd mapsXY) msgXY defX
              Hdef eq_refl Hhash Hfind Hts (le_n 2) Hwf) as (size & Hsize & Hrt).
  assert (Hs : serializedMessageSize 2 (fst mapsXY) msgXY = Ok 52)
    by (vm_compute; reflexivity).
  assert (size = 52) as -> by congruence.
  split; [exact Hwf|]. split; [exact Hs|].
  apply Hrt. lia.
Defined.

(** C2, as claimed, fails: [{ b: "a\0b" }] is a message of
    [struct a { string b; }] whose value is a string, and the round trip
    returns [{ b: "a" }]. *)
Lemma roundTrip_changes_nul_string :
  schemaMaps 1 textString = Ok mapsString /\
  WF.message WF.any_string 1 (fst mapsString) (snd mapsString) defString
             (MessageData.message msgNul) /\
  find_msgdef (fst mapsString) (MessageData.typeName msgNul) = Ok defString /\
  Msgdef.isNakedStruct defString = false /\
  exists r,
    roundTrip 1 mapsString msgNul = Ok r /\
    Message.message r = object [(js "b", VString [97])] /\
    Message.message r <> MessageData.message msgNul.
Proof.
  split; [vm_compute; reflexivity|]. split.
  { exists (list_to_map [(js "b", VString [97; 0; 98])]). split; [reflexivity|]. split.
    - intros k Hk. apply object_keys in Hk. apply list_elem_of_singleton in Hk as ->.
      eexists. split; [left | reflexivity].
    - repeat constructor. exists (VString [97; 0; 98]). split; [vm_compute; reflexivity|].
      unfold WF.field, WF.element. cbn [Field.isArray Field.isComplex Field.basic
        defString Msgdef.definitions Field.type Field.upperBound].
      replace (tag_of (js "string")) with (Some String_) by (vm_compute; reflexivity).
      exists [97; 0; 98]. split; [|reflexivity]. repeat constructor; lia. }
  split; [vm_compute; reflexivity|]. split; [reflexivity|].
  eexists. split; [vm_compute; reflexivity|]. split; [vm_compute; reflexivity|].
  cbn [Message.message]. intros E.
  apply (f_equal (fun v => match v with
                           | VObject m => m !! js "b"
                           | _ => None
                           end)) in E.
  vm_compute in E. discriminate.
Qed.

End RoundTrip_facts.


(** ** Name lookup through the namespaces *)

Module Lookup_facts.

Lemma walk_Some {A} (m : gmap (list Z) A) ns t d : forall i,
  walk m ns t i = Some d <->
  exists j, (j <= i)%nat /\ m !! fqName ns j t = Some d /\
            forall k, (j < k <= i)%nat -> m !! fqName ns k t = None.
Proof.
  induction i as [|i IH]; cbn [walk].
  - destruct (m !! fqName ns 0 t) as [d'|] eqn:E; split.
    + intros [= ->]. exists O. repeat split; auto. intros k Hk. lia.
    + intros (j & Hj & Hd & _). assert (j = 0)%nat as -> by lia. congruence.
    + discriminate.
    + intros (j & Hj & Hd & _). assert (j = 0)%nat as -> by lia. congruence.
  - destruct (m !! fqName ns (S i) t) as [d'|] eqn:E; split.
    + intros [= ->]. exists (S i). repeat split; auto. intros k Hk. lia.
    + intros (j & Hj & Hd & Hk).
      destruct (decide (j = S i)) as [->|Hne]; [congruence|].
      rewrite (Hk (S i)) in E by lia. discriminate.
    + intros Hw. apply IH in Hw as (j & Hj & Hd & Hk).
      exists j. repeat split; [lia | exact Hd |].
      intros k Hk'. destruct (decide (k = S i)) as [->|Hne]; [exact E|].
      apply Hk. lia.
    + intros (j & Hj & Hd & Hk).
      assert (j <> S i) by congruence.
      apply IH. exists j. repeat split; [lia | exact Hd |].
      intros k Hk'. apply Hk. lia.
Qed.

Lemma walk_None {A} (m : gmap (list Z) A) ns t : forall i,
  walk m ns t i = None <-> forall j, (j <= i)%nat -> m !! fqName ns j t = None.
Proof.
  induction i as [|i IH]; cbn [walk].
  - destruct (m !! fqName ns 0 t) as [d'|] eqn:E; split.
    + discriminate.
    + intros Hall. rewrite (Hall O) in E by lia. discriminate.
    + intros _ j Hj. assert (j = 0)%nat as -> by lia. exact E.
    + reflexivity.
  - destruct (m !! fqName ns (S i) t) as [d'|] eqn:E; split.
    + discriminate.
    + intros Hall. rewrite (Hall (S i)) in E by lia. discriminate.
    + intros Hw j Hj. destruct (decide (j = S i)) as [->|Hne]; [exact E|].
      apply (proj1 IH Hw). lia.
    + intros Hall. apply IH. intros j Hj. apply Hall. lia.
Qed.

(** X1.  For a type name without [::], [lookupMsgdef] returns the
    definition registered under the longest prefix of the namespaces that
    has one (the innermost enclosing namespace first, the global namespace
    last), and it fails, with the not-found error, exactly when no prefix
    has one. *)
Theorem lookupMsgdef_innermost (S : gmap (list Z) Msgdef.t)
  (namespaces : list (list Z)) (typeName : list Z)
  (Hplain : includes sep typeName = false) :
  (forall d, lookupMsgdef S namespaces typeName = Ok d <->
     exists j, (j <= length namespaces)%nat /\
               S !! fqName namespaces j typeName = Some d /\
               forall k, (j < k <= length namespaces)%nat ->
                         S !! fqName namespaces k typeName = None) /\
  (forall e, lookupMsgdef S namespaces typeName = Err e <->
     e = TypeNotFound /\
     forall j, (j <= length namespaces)%nat ->
               S !! fqName namespaces j typeName = None).
Proof.
  unfold lookupMsgdef. rewrite Hplain. split.
  - intros d. rewrite <- walk_Some.
    destruct (walk S namespaces typeName (length namespaces)); cbn [of_option];
      split; congruence.
  - intros e. rewrite <- walk_None.
    destruct (walk S namespaces typeName (length namespaces)); cbn [of_option]; split.
    + discriminate.
    + intros [_ ?]. discriminate.
    + intros [= <-]. auto.
    + intros [-> _]. reflexivity.
Qed.

(** [T] looked up from inside [ns1] is [ns1::T], not the global [T]. *)
Lemma lookupMsgdef_innermost_witness :
  includes sep (js "T") = false /\
  lookupMsgdef (fst Examples.mapsT) [js "ns1"] (js "T") = Ok Examples.defNsT.
Proof.
  assert (Hplain : includes sep (js "T") = false) by (vm_compute; reflexivity).
  split; [exact Hplain|].
  apply (proj1 (lookupMsgdef_innermost (fst Examples.mapsT) [js "ns1"] (js "T") Hplain)).
  exists 1%nat. split; [simpl; lia|]. split; [vm_compute; reflexivity|].
  intros k Hk. simpl in Hk. lia.
Defined.

End Lookup_facts.

(** ** The schema maps *)

Module Maps_facts.
Import Serde.

Lemma createSchemaMaps_snoc schemas x :
  createSchemaMaps (schemas ++ [x])
  = (<[Msgdef.name x := x]> (fst (createSchemaMaps schemas)),
     if Msgdef.isEnum x then snd (createSchemaMaps schemas)
     else <[Msgdef.hashValue x := x]> (snd (createSchemaMaps schemas))).
Proof.
  unfold createSchemaMaps. rewrite foldl_app. cbn [foldl].
  destruct (foldl _ _ schemas) as [a b]. reflexivity.
Qed.

Lemma last_filter_snoc {A} (P : A -> bool) l x :
  last (filter (fun d => P d = true) (l ++ [x]))
  = if P x then Some x else last (filter (fun d => P d = true) l).
Proof.
  rewrite filter_app. cbn [filter list_filter].
  destruct (decide (P x = true)) as [H|H].
  - rewrite H. apply last_snoc.
  - rewrite app_nil_r. destruct (P x); [congruence | reflexivity].
Qed.

Lemma names_last schemas name :
  fst (createSchemaMaps schemas) !! name
  = last (filter (fun d => bool_decide (Msgdef.name d = name) = true) schemas).
Proof.
  induction schemas as [|x schemas IHn] using rev_ind; [reflexivity|].
  rewrite createSchemaMaps_snoc. cbn [fst].
  rewrite (last_filter_snoc (fun d => bool_decide (Msgdef.name d = name))).
  destruct (decide (Msgdef.name x = name)) as [<-|Hne].
  - rewrite bool_decide_true by reflexivity. apply lookup_insert_eq.
  - rewrite bool_decide_false by exact Hne.
    rewrite lookup_insert_ne by exact Hne. exact IHn.
Qed.

Lemma hashes_last schemas hash :
  snd (createSchemaMaps schemas) !! hash
  = last (filter (fun d => negb (Msgdef.isEnum d)
                           && bool_decide (Msgdef.hashValue d = hash) = true) schemas).
Proof.
  induction schemas as [|x schemas IHh] using rev_ind; [reflexivity|].
  rewrite createSchemaMaps_snoc. cbn [snd].
  rewrite (last_filter_snoc (fun d => negb (Msgdef.isEnum d)
                                      && bool_decide (Msgdef.hashValue d = hash))).
  destruct (Msgdef.isEnum x); cbn [negb andb]; [exact IHh|].
  destruct (decide (Msgdef.hashValue x = hash)) as [<-|Hne].
  - rewrite bool_decide_true by reflexivity. apply lookup_insert_eq.
  - rewrite bool_decide_false by exact Hne.
    rewrite lookup_insert_ne by exact Hne. exact IHh.
Qed.

(** X2.  In the maps of [createSchemaMaps], a name is mapped to the last
    schema of the list that has this name, and a hash to the last schema
    with this hash that is not an enum: a later schema replaces an earlier
    one, and no enum is ever reachable through its hash. *)
Theorem createSchemaMaps_last (schemas : list Msgdef.t) (name : list Z) (hash : Z) :
  fst (createSchemaMaps schemas) !! name
  = last (filter (fun d => bool_decide (Msgdef.name d = name) = true) schemas) /\
  snd (createSchemaMaps schemas) !! hash
  = last (filter (fun d => negb (Msgdef.isEnum d)
                           && bool_decide (Msgdef.hashValue d = hash) = true) schemas).
Proof. split; [apply names_last | apply hashes_last]. Qed.

(** When the names are pairwise distinct, every schema is found under
    its name. *)
Lemma createSchemaMaps_found schemas d :
  NoDup (map Msgdef.name schemas) -> d ∈ schemas ->
  fst (createSchemaMaps schemas) !! Msgdef.name d = Some d.
Proof.
  intros Hnd Hd. rewrite names_last.
  induction schemas as [|x schemas IH] using rev_ind; [now apply elem_of_nil in Hd|].
  rewrite (last_filter_snoc (fun d0 => bool_decide (Msgdef.name d0 = Msgdef.name d))).
  rewrite map_app in Hnd. apply NoDup_app in Hnd as (Hnd & Hdis & _).
  apply elem_of_app in Hd as [Hd|Hd].
  - rewrite bool_decide_false; [now apply IH|].
    intros E. apply (Hdis (Msgdef.name d)).
    + apply list_elem_of_fmap. eauto.
    + rewrite <- E. now left.
  - apply list_elem_of_singleton in Hd as ->.
    now rewrite bool_decide_true by reflexivity.
Qed.

End Maps_facts.


(** ** What [parse] returns *)

Module Schema_facts.
Import Serde Parse.

Lemma join_snoc_nil ns n : join Lookup.sep (ns ++ [n]) = [] -> ns = [] /\ n = [].
Proof.
  destruct ns as [|a ns]; cbn [app join].
  - auto.
  - destruct (ns ++ [n]) eqn:E; [now destruct ns|].
    intros Hj. apply (f_equal length) in Hj.
    rewrite !length_app in Hj. change (length Lookup.sep) with 2%nat in Hj.
    simpl in Hj. lia.
Qed.

Lemma fresh_nil st : fresh st st [].
Proof.
  split; [reflexivity|]. split; [constructor|].
  intros d Hd. now apply elem_of_nil in Hd.
Qed.

Lemma fresh_app st st1 st2 r1 r2 :
  fresh st st1 r1 -> fresh st1 st2 r2 -> fresh st st2 (r1 ++ r2).
Proof.
  intros (Hs1 & Hn1 & Hr1) (Hs2 & Hn2 & Hr2). split; [set_solver|]. split.
  - rewrite map_app. apply NoDup_app. split; [exact Hn1|]. split; [|exact Hn2].
    intros k Hk1 Hk2.
    apply list_elem_of_fmap in Hk1 as (d1 & -> & Hd1).
    apply list_elem_of_fmap in Hk2 as (d2 & E & Hd2).
    destruct (Hr1 d1 Hd1) as [Hin _]. destruct (Hr2 d2 Hd2) as [_ Hout].
    rewrite <- E in Hout. contradiction.
  - intros d Hd. apply elem_of_app in Hd as [Hd|Hd].
    + destruct (Hr1 d Hd). split; [set_solver | auto].
    + destruct (Hr2 d Hd). split; [auto | set_solver].
Qed.

(** One entity: the names of what it yields are new and recorded. *)
Lemma parseEntity_fresh : forall entity namespaces st st' r,
  (namespaces = [] -> is_namespace entity = false -> entity_name entity <> []) ->
  parseEntity namespaces st entity = Ok (st', r) -> fresh st st' r.
Proof.
  fix IH 1. intros entity namespaces st st' r Hname H.
  assert (Hjoin : is_namespace entity = false ->
                  join Lookup.sep (namespaces ++ [entity_name entity]) <> []).
  { intros Hns Hj. apply join_snoc_nil in Hj as [-> Hn]. now apply Hname. }
  destruct entity as [name definitions|type cx name value|name cls definitions
                     |name naked definitions];
    cbn [parseEntity entity_name is_namespace negb andb] in *.
  - (* namespace *)
    rewrite andb_false_r in H. mred in H.
    destruct (0 <? len namespaces) eqn:Hlen; [discriminate|].
    assert (Hacc : fresh st st []) by apply fresh_nil.
    assert (Hne : namespaces ++ [name] <> []) by now destruct namespaces.
    revert Hacc H. generalize (@nil Msgdef.t). generalize st at 2 3.
    induction definitions as [|e es IHes]; intros st0 acc Hacc H.
    + injection H as <- <-. exact Hacc.
    + destruct (parseEntity (namespaces ++ [name]) st0 e) as [[st1 r1]|err] eqn:He;
        [|discriminate].
      mred in H. apply IH in He; [|intros E; contradiction].
      eapply IHes; [|exact H]. eapply fresh_app; eauto.
  - (* constant *)
    specialize (Hjoin eq_refl). rewrite bool_decide_false in H by exact Hjoin.
    cbn [negb andb] in H.
    destruct (bool_decide _) eqn:Hdup; [discriminate|]. mred in H.
    destruct (defaultValueTypeCheck type value); [|discriminate].
    mred in H. injection H as <- <-. cbn [entityNames].
    split; [set_solver|]. split; [constructor|].
    intros d Hd. now apply elem_of_nil in Hd.
  - (* enum *)
    specialize (Hjoin eq_refl). rewrite bool_decide_false in H by exact Hjoin.
    cbn [negb andb] in H.
    destruct (bool_decide _) eqn:Hdup; [discriminate|]. mred in H.
    apply bool_decide_eq_false in Hdup.
    injection H as <- <-. cbn [entityNames].
    split; [set_solver|]. split; [repeat constructor; set_solver|].
    intros d Hd. apply list_elem_of_singleton in Hd as ->. cbn [Msgdef.name].
    split; [set_solver | exact Hdup].
  - (* struct *)
    specialize (Hjoin eq_refl). rewrite bool_decide_false in H by exact Hjoin.
    cbn [negb andb] in H.
    destruct (bool_decide _) eqn:Hdup; [discriminate|]. mred in H.
    apply bool_decide_eq_false in Hdup.
    destruct (mapM _ definitions) as [ds|e]; [|discriminate]. mred in H.
    destruct (foldM _ tt ds); [|discriminate]. mred in H.
    injection H as <- <-. cbn [entityNames].
    split; [set_solver|]. split; [repeat constructor; set_solver|].
    intros d Hd. apply list_elem_of_singleton in Hd as ->. cbn [Msgdef.name].
    split; [set_solver | exact Hdup].
Qed.

Lemma parseEntities_fresh entities : forall st0 st results st' out,
  named entities ->
  parseEntities entities [] st results = Ok (st', out) ->
  fresh st0 st results -> fresh st0 st' out.
Proof.
  induction entities as [|e es IH]; intros st0 st results st' out Hn H Hr;
    cbn [parseEntities] in H.
  - injection H as <- <-. exact Hr.
  - apply Forall_cons in Hn as [He Hes].
    destruct (parseEntity [] st e) as [[st1 r1]|err] eqn:Hp; [|discriminate].
    mred in H. apply parseEntity_fresh in Hp; [|intros _; exact He].
    eapply IH; [exact Hes | exact H |]. eapply fresh_app; eauto.
Qed.

(** [parse] in two steps: the entities, then their hashes. *)
Lemma parseTree_steps fuel entities defs :
  parseTree fuel entities = Ok defs ->
  exists st parsed,
    entities <> [] /\
    parseEntities entities [] (mkState ∅ ∅ ∅) [] = Ok (st, parsed) /\
    (exists x, x ∈ parsed /\ Msgdef.isEnum x = false) /\
    Forall2 (fun x y =>
               if Msgdef.isEnum x then y = x
               else exists h,
                 computeHashValue fuel (nameMap parsed) (Msgdef.namespaces x)
                                  (Msgdef.name x) = Ok h /\
                 y = with_hash x h) parsed defs.
Proof.
  unfold parseTree. intros H.
  destruct (decide (entities = [])) as [->|Hne].
  { rewrite bool_decide_true in H by reflexivity. discriminate. }
  rewrite bool_decide_false in H by exact Hne.
  destruct (parseEntities entities [] _ []) as [[st parsed]|e] eqn:Hp; [|discriminate].
  mred in H.
  destruct (Z.eqb_spec (len (filter (fun r => Msgdef.isEnum r = false) parsed)) 0)
    as [Hz|Hz]; [discriminate|].
  exists st, parsed. split; [exact Hne|]. split; [reflexivity|]. split.
  - destruct (filter (fun r => Msgdef.isEnum r = false) parsed) as [|x l] eqn:Hf;
      [now rewrite len_nil in Hz|].
    assert (Hx : x ∈ filter (fun r => Msgdef.isEnum r = false) parsed)
      by (rewrite Hf; now left).
    apply list_elem_of_filter in Hx as [Hx1 Hx2]. eauto.
  - apply Parse_facts.mapM_Forall2 in H.
    eapply Forall2_impl; [exact H|]. intros x y Hxy. cbv beta in Hxy.
    destruct (Msgdef.isEnum x); [now apply Ok_inj in Hxy|].
    destruct (computeHashValue _ _ _ _) as [h|e]; [|discriminate].
    mred in Hxy. apply Ok_inj in Hxy. eauto.
Qed.

Lemma with_hash_self x : with_hash x (Msgdef.hashValue x) = x.
Proof. now destruct x. Qed.

Lemma parseTree_same fuel entities defs :
  parseTree fuel entities = Ok defs ->
  exists st parsed,
    parseEntities entities [] (mkState ∅ ∅ ∅) [] = Ok (st, parsed) /\
    Forall2 same_entity parsed defs.
Proof.
  intros H. destruct (parseTree_steps _ _ _ H) as (st & parsed & _ & Hp & _ & Hall).
  exists st, parsed. split; [exact Hp|].
  eapply Forall2_impl; [exact Hall|]. intros x y Hxy. cbv beta in Hxy.
  destruct (Msgdef.isEnum x).
  - subst y. exists (Msgdef.hashValue x). now rewrite with_hash_self.
  - destruct Hxy as (h & _ & ->). now exists h.
Qed.

Lemma same_entity_names parsed defs :
  Forall2 same_entity parsed defs -> map Msgdef.name defs = map Msgdef.name parsed.
Proof.
  induction 1 as [|x y parsed defs [h ->] _ IH]; [reflexivity|].
  cbn [map]. now rewrite IH.
Qed.

Lemma parseTree_NoDup fuel entities defs :
  named entities -> parseTree fuel entities = Ok defs ->
  NoDup (map Msgdef.name defs).
Proof.
  intros Hn H. destruct (parseTree_same _ _ _ H) as (st & parsed & Hp & Hs).
  rewrite (same_entity_names _ _ Hs).
  eapply (parseEntities_fresh entities (mkState ∅ ∅ ∅)) in Hp;
    [|exact Hn | apply fresh_nil].
  now destruct Hp as (_ & Hnd & _).
Qed.

(** *** Hashes *)

Lemma hashStep_range h c : 0 <= hashStep h c < 2 ^ 64.
Proof. rewrite Hash_facts.hashStep_spec. apply Z.mod_pos_bound. lia. Qed.

Lemma hashString_range str : 0 <= hashString str < 2 ^ 64.
Proof.
  unfold hashString. generalize (char_codes str). intros l.
  assert (H0 : 0 <= 5381 < 2 ^ 64) by lia. revert H0. generalize 5381.
  induction l as [|c l IH]; intros h Hh; cbn [foldl]; [exact Hh|].
  apply IH, hashStep_range.
Qed.

Lemma computeHashValue_range fuel S ns t h :
  computeHashValue fuel S ns t = Ok h -> 0 <= h < 2 ^ 64.
Proof.
  destruct fuel as [|fuel]; cbn [computeHashValue]; [discriminate|].
  destruct (lookupMsgdef S ns t) as [d|e]; [|discriminate]. mred.
  destruct (canonicalText _ _ _) as [text|e]; [|discriminate]. mred.
  intros [= <-]. apply hashString_range.
Qed.

(** *** Schema maps that differ in the stored hashes only *)

Lemma same_schemas_insert m1 m2 x y :
  same_schemas m1 m2 -> same_entity x y ->
  same_schemas (<[Msgdef.name x := x]> m1) (<[Msgdef.name y := y]> m2).
Proof.
  intros Hm [h ->] k. cbn [with_hash Msgdef.name].
  destruct (decide (k = Msgdef.name x)) as [->|Hne].
  - rewrite !lookup_insert_eq. now exists h.
  - rewrite !lookup_insert_ne by congruence. apply Hm.
Qed.

Lemma createSchemaMaps_names schemas :
  fst (createSchemaMaps schemas) = nameMap schemas.
Proof.
  induction schemas as [|x schemas IH] using rev_ind; [reflexivity|].
  rewrite Maps_facts.createSchemaMaps_snoc. cbn [fst].
  unfold nameMap. rewrite foldl_app. cbn [foldl]. now rewrite IH.
Qed.

Lemma same_schemas_nameMap parsed defs :
  Forall2 same_entity parsed defs -> same_schemas (nameMap parsed) (nameMap defs).
Proof.
  unfold nameMap. intros Hall.
  assert (H0 : same_schemas ∅ ∅) by (intros k; now rewrite !lookup_empty).
  revert H0. generalize (∅ : gmap (list Z) Msgdef.t) at 1 3.
  generalize (∅ : gmap (list Z) Msgdef.t).
  induction Hall as [|x y parsed defs Hxy _ IH]; intros m2 m1 Hm; cbn [foldl];
    [exact Hm|].
  apply IH. now apply same_schemas_insert.
Qed.

Lemma same_schemas_walk m1 m2 ns t : forall i,
  same_schemas m1 m2 ->
  match walk m1 ns t i, walk m2 ns t i with
  | Some x, Some y => same_entity x y
  | None, None => True
  | _, _ => False
  end.
Proof.
  induction i as [|i IH]; intros Hm; cbn [walk].
  - specialize (Hm (fqName ns 0 t)) as Hk.
    destruct (m1 !! fqName ns 0 t), (m2 !! fqName ns 0 t); auto.
  - specialize (Hm (fqName ns (S i) t)) as Hk.
    destruct (m1 !! fqName ns (S i) t), (m2 !! fqName ns (S i) t);
      try contradiction; [exact Hk | now apply IH].
Qed.

Lemma same_schemas_lookup m1 m2 ns t :
  same_schemas m1 m2 ->
  match lookupMsgdef m1 ns t, lookupMsgdef m2 ns t with
  | Ok x, Ok y => same_entity x y
  | Err e1, Err e2 => e1 = e2
  | _, _ => False
  end.
Proof.
  intros Hm. unfold lookupMsgdef. destruct (includes sep t).
  - specialize (Hm t). destruct (m1 !! t), (m2 !! t); cbn [of_option]; auto.
  - pose proof (same_schemas_walk m1 m2 ns t (length ns) Hm) as Hw.
    destruct (walk m1 ns t _), (walk m2 ns t _); cbn [of_option]; auto.
Qed.

Lemma foldM_ext {A B} (f g : B -> A -> res B) l :
  (forall b a, f b a = g b a) -> forall b, foldM f b l = foldM g b l.
Proof.
  intros Hfg. induction l as [|a l IH]; intros b; cbn [foldM]; [reflexivity|].
  rewrite Hfg. destruct (g b a); [apply IH | reflexivity].
Qed.

Lemma canonicalText_ext f g d t :
  (forall ns ty, f ns ty = g ns ty) -> canonicalText f d t = canonicalText g d t.
Proof.
  intros Hfg. unfold canonicalText. apply foldM_ext. intros buf fd.
  unfold fieldText. now rewrite Hfg.
Qed.

(** The struct hash does not depend on the hashes stored in the map. *)
Lemma computeHashValue_same m1 m2 : forall fuel ns t,
  same_schemas m1 m2 -> computeHashValue fuel m1 ns t = computeHashValue fuel m2 ns t.
Proof.
  induction fuel as [|fuel IH]; intros ns t Hm; cbn [computeHashValue]; [reflexivity|].
  pose proof (same_schemas_lookup m1 m2 ns t Hm) as Hl.
  destruct (lookupMsgdef m1 ns t) as [x|e1], (lookupMsgdef m2 ns t) as [y|e2];
    try contradiction; [|now subst].
  destruct Hl as [h ->]. mred.
  rewrite (canonicalText_ext (computeHashValue fuel m1) (computeHashValue fuel m2)
             x t (fun ns' ty => IH ns' ty Hm)).
  reflexivity.
Qed.

(** *** The entities that the grammar yields *)

Lemma IDENTIFIER_named s name r : Grammar.IDENTIFIER s = Ok (name, r) -> name <> [].
Proof.
  unfold Grammar.IDENTIFIER, Grammar.word. intros Hi.
  destruct s as [|c s']; [discriminate|].
  destruct (Grammar.is_alpha_ c); [|discriminate].
  destruct (Grammar.span Grammar.is_alnum_ s') as [a r'].
  destruct (bool_decide _); [discriminate|].
  apply Ok_inj in Hi. apply pair_equal_spec in Hi as [<- _]. discriminate.
Qed.

Ltac step H :=
  mred in H;
  match type of H with
  | match ?X with _ => _ end = Ok _ =>
      let E := fresh "E" in destruct X eqn:E; try discriminate H
  end.

Lemma Struct_named s e a r :
  Grammar.Struct_ s = Ok ((e, a), r) -> entity_name e <> [].
Proof.
  unfold Grammar.Struct_. intros Hs. repeat step Hs.
  apply Ok_inj in Hs. apply pair_equal_spec in Hs as [Hs _].
  apply pair_equal_spec in Hs as [<- _]. cbn [entity_name].
  match goal with
  | E : Grammar.IDENTIFIER _ = Ok _ |- _ => exact (IDENTIFIER_named _ _ _ E)
  end.
Qed.

Lemma Enum_named s e r : Grammar.Enum_ s = Ok (e, r) -> entity_name e <> [].
Proof.
  unfold Grammar.Enum_. intros Hs. repeat step Hs.
  apply Ok_inj in Hs. apply pair_equal_spec in Hs as [<- _]. cbn [entity_name].
  match goal with
  | E : Grammar.IDENTIFIER _ = Ok _ |- _ => exact (IDENTIFIER_named _ _ _ E)
  end.
Qed.

Lemma Constant_named s e r : Grammar.Constant_ s = Ok (e, r) -> entity_name e <> [].
Proof.
  unfold Grammar.Constant_. intros Hs. repeat step Hs.
  apply Ok_inj in Hs. apply pair_equal_spec in Hs as [<- _]. cbn [entity_name].
  match goal with
  | E : Grammar.IDENTIFIER _ = Ok _ |- _ => exact (IDENTIFIER_named _ _ _ E)
  end.
Qed.

Lemma NamespaceOrEntityList_named : forall fuel closing acc amb s es a r,
  Grammar.NamespaceOrEntityList fuel closing acc amb s = Ok ((es, a), r) ->
  named acc -> named es.
Proof.
  induction fuel as [|fuel IH]; intros closing acc amb s es a r Hl Hacc;
    cbn [Grammar.NamespaceOrEntityList] in Hl; [discriminate|].
  match type of Hl with
  | (?X ≫= _) = _ => destruct X as [[[e a1] s1]|err] eqn:He; [|discriminate]
  end.
  assert (Hn : is_namespace e = false -> entity_name e <> []).
  { destruct (Grammar.word s) as [[w r0]|]; [|discriminate].
    destruct (eqb w (js "struct")); [now apply Struct_named in He|].
    destruct (eqb w (js "enum")).
    { destruct (Grammar.Enum_ r0) as [[e' r']|] eqn:Ee; [|discriminate].
      apply Ok_inj in He. apply pair_equal_spec in He as [He _].
      apply pair_equal_spec in He as [<- _]. now apply Enum_named in Ee. }
    destruct (eqb w (js "enumclass")).
    { destruct (Grammar.Enum_ (drop 4 s)) as [[e' r']|] eqn:Ee; [|discriminate].
      apply Ok_inj in He. apply pair_equal_spec in He as [He _].
      apply pair_equal_spec in He as [<- _]. now apply Enum_named in Ee. }
    destruct (eqb w (js "const")).
    { destruct (Grammar.Constant_ r0) as [[e' r']|] eqn:Ee; [|discriminate].
      apply Ok_inj in He. apply pair_equal_spec in He as [He _].
      apply pair_equal_spec in He as [<- _]. now apply Constant_named in Ee. }
    destruct (eqb w (js "namespace")); [|discriminate].
    repeat step He. apply Ok_inj in He. apply pair_equal_spec in He as [He _].
    apply pair_equal_spec in He as [<- _]. discriminate. }
  assert (Hacc' : named (acc ++ [e])).
  { apply Forall_app. split; [exact Hacc|]. now constructor. }
  mred in Hl. destruct (Grammar.ws s1) as [k s2].
  destruct s2 as [|c s2'].
  - destruct closing; [discriminate|]. apply Ok_inj in Hl.
    apply pair_equal_spec in Hl as [Hl _]. apply pair_equal_spec in Hl as [<- _].
    exact Hacc'.
  - destruct (decide (c = 125)) as [->|Hc].
    + destruct closing; [|discriminate]. apply Ok_inj in Hl.
      apply pair_equal_spec in Hl as [Hl _]. apply pair_equal_spec in Hl as [<- _].
      exact Hacc'.
    + assert (Hrec : Grammar.NamespaceOrEntityList fuel closing (acc ++ [e])
                       (amb || a1) (c :: s2') = Ok (es, a, r)).
      { destruct c as [|p|p]; try exact Hl.
        do 7 (destruct p as [p|p|]; try exact Hl). congruence. }
      exact (IH _ _ _ _ _ _ _ Hrec Hacc').
Qed.

(** [parse] in two steps: the grammar, then the entities. *)
Lemma parse_tree fuel text defs :
  parse fuel text = Ok defs ->
  exists entities, named entities /\ parseTree fuel entities = Ok defs.
Proof.
  unfold parse, Grammar.main. intros Hp.
  destruct (Grammar.ws text) as [k s].
  destruct (Grammar.NamespaceOrEntityList _ false [] false s) as [[[es a] r]|e] eqn:Hl;
    [|discriminate].
  mred in Hp. destruct a; [discriminate|].
  exists es. split; [|exact Hp].
  apply (NamespaceOrEntityList_named _ _ _ _ _ _ _ _ Hl). constructor.
Qed.

(** *** The properties of the result *)

Import Examples.

(** X3.  The entities that [parse] returns have pairwise distinct
    names. *)
Theorem parse_names_distinct (fuel : nat) (text : list Z)
  (defs : list Msgdef.t)
  (Hparse : parse fuel text = Ok defs) :
  NoDup (map Msgdef.name defs).
Proof.
  destruct (parse_tree _ _ _ Hparse) as (entities & Hnamed & Htree).
  clear Hparse. rename Htree into Hparse.
  exact (parseTree_NoDup fuel entities defs Hnamed Hparse).
Qed.

Lemma parse_names_distinct_witness :
  parse 2 textXY = Ok [defX; defY] /\
  NoDup (map Msgdef.name [defX; defY]).
Proof.
  assert (Hp : parse 2 textXY = Ok [defX; defY]) by (vm_compute; reflexivity).
  split; [exact Hp|].
  exact (parse_names_distinct 2 textXY [defX; defY] Hp).
Defined.

(** X4.  [parse] never returns a schema without a struct, and every
    hash it stores is a 64-bit unsigned integer. *)
Theorem parse_has_struct (fuel : nat) (text : list Z) (defs : list Msgdef.t)
  (Hparse : parse fuel text = Ok defs) :
  (exists d, d ∈ defs /\ Msgdef.isEnum d = false) /\
  Forall (fun d => 0 <= Msgdef.hashValue d < 2 ^ 64) defs.
Proof.
  destruct (parse_tree _ _ _ Hparse) as (entities & _ & Htree).
  clear Hparse. rename Htree into Hparse.
  destruct (parseTree_steps _ _ _ Hparse) as (st & parsed & _ & Hp & (x & Hx & Hxe) & Hall).
  split.
  - destruct (proj1 (list_elem_of_lookup _ _) Hx) as [i Hi].
    destruct (Forall2_lookup_l _ _ _ _ _ Hall Hi) as (y & Hy & Hxy).
    rewrite Hxe in Hxy. destruct Hxy as (h & _ & ->).
    exists (with_hash x h). split; [|exact Hxe].
    apply list_elem_of_lookup. eauto.
  - apply Parse_facts.parseEntities_hash0 in Hp; [|constructor].
    apply Forall_forall. intros y Hy.
    destruct (proj1 (list_elem_of_lookup _ _) Hy) as [i Hi].
    destruct (Forall2_lookup_r _ _ _ _ _ Hall Hi) as (x' & Hx' & Hxy).
    destruct (Msgdef.isEnum x').
    + subst y. rewrite Forall_forall in Hp.
      rewrite (Hp x') by (apply list_elem_of_lookup; eauto). lia.
    + destruct Hxy as (h & Hh & ->). cbn [with_hash Msgdef.hashValue].
      eapply computeHashValue_range, Hh.
Qed.

Lemma parse_has_struct_witness :
  parse 2 textXY = Ok [defX; defY] /\
  (exists d, d ∈ [defX; defY] /\ Msgdef.isEnum d = false) /\
  Forall (fun d => 0 <= Msgdef.hashValue d < 2 ^ 64) [defX; defY].
Proof.
  assert (Hp : parse 2 textXY = Ok [defX; defY]) by (vm_compute; reflexivity).
  split; [exact Hp|]. exact (parse_has_struct 2 textXY [defX; defY] Hp).
Defined.

(** X5.  In the maps that [createSchemaMaps] builds from the result of
    [parse], every entity is found under its own name, and the hash of
    every struct leads to a struct with this hash. *)
Theorem parse_then_maps (fuel : nat) (text : list Z) (defs : list Msgdef.t)
  (d : Msgdef.t)
  (Hparse : parse fuel text = Ok defs)
  (Hd : d ∈ defs) :
  fst (createSchemaMaps defs) !! Msgdef.name d = Some d /\
  (Msgdef.isEnum d = false ->
   exists d', snd (createSchemaMaps defs) !! Msgdef.hashValue d = Some d' /\
              Msgdef.hashValue d' = Msgdef.hashValue d /\ Msgdef.isEnum d' = false /\
              d' ∈ defs).
Proof.
  destruct (parse_tree _ _ _ Hparse) as (entities & Hnamed & Htree).
  clear Hparse. rename Htree into Hparse.
  split.
  - apply Maps_facts.createSchemaMaps_found; [|exact Hd].
    exact (parseTree_NoDup fuel entities defs Hnamed Hparse).
  - intros He.
    rewrite Maps_facts.hashes_last.
    set (P := fun d0 : Msgdef.t =>
                negb (Msgdef.isEnum d0)
                && bool_decide (Msgdef.hashValue d0 = Msgdef.hashValue d) = true).
    assert (Hin : d ∈ filter P defs).
    { apply list_elem_of_filter. split; [|exact Hd]. unfold P. rewrite He.
      now rewrite bool_decide_true by reflexivity. }
    destruct (filter P defs) as [|a l] eqn:Hf using rev_ind;
      [now apply elem_of_nil in Hin|].
    clear IHl. rewrite last_snoc. exists a.
    assert (Ha : a ∈ filter P defs) by (rewrite Hf; apply elem_of_app; right; now left).
    apply list_elem_of_filter in Ha as [Hpa Ha]. unfold P in Hpa.
    apply andb_true_iff in Hpa as [Hne Heq]. apply bool_decide_eq_true in Heq.
    split; [reflexivity|]. split; [exact Heq|]. split; [|exact Ha].
    now destruct (Msgdef.isEnum a).
Qed.

Lemma parse_then_maps_witness :
  parse 2 textXY = Ok [defX; defY] /\
  fst (createSchemaMaps [defX; defY]) !! Msgdef.name defY = Some defY.
Proof.
  assert (Hp : parse 2 textXY = Ok [defX; defY]) by (vm_compute; reflexivity).
  split; [exact Hp|].
  refine (proj1 (parse_then_maps 2 textXY [defX; defY] defY Hp _)).
  right. left.
Defined.

Lemma parse_hash fuel entities defs d :
  parseTree fuel entities = Ok defs -> d ∈ defs -> Msgdef.isEnum d = false ->
  computeHashValue fuel (fst (createSchemaMaps defs)) (Msgdef.namespaces d)
                   (Msgdef.name d)
  = Ok (Msgdef.hashValue d).
Proof.
  intros Hparse Hd Hstruct.
  destruct (parseTree_steps _ _ _ Hparse) as (st & parsed & _ & Hp & _ & Hall).
  destruct (parseTree_same _ _ _ Hparse) as (st' & parsed' & Hp' & Hsame).
  rewrite Hp in Hp'. injection Hp' as <- <-.
  destruct (proj1 (list_elem_of_lookup _ _) Hd) as [i Hi].
  destruct (Forall2_lookup_r _ _ _ _ _ Hall Hi) as (x & Hx & Hxy).
  destruct (Msgdef.isEnum x) eqn:Hxe; [subst d; congruence|].
  destruct Hxy as (h & Hh & ->). cbn [with_hash Msgdef.namespaces Msgdef.name
                                      Msgdef.hashValue].
  rewrite createSchemaMaps_names.
  rewrite <- (computeHashValue_same (nameMap parsed) (nameMap defs)); [exact Hh|].
  now apply same_schemas_nameMap.
Qed.

(** X6.  The hash that [parse] stores in a struct is the one that
    [computeHashValue] returns for the struct's namespaces and name over
    the name map of [createSchemaMaps]: the hash is a function of the
    names, namespaces and fields of the schema, not of the stored hashes. *)
Theorem parse_hash_recomputed (fuel : nat) (text : list Z)
  (defs : list Msgdef.t) (d : Msgdef.t)
  (Hparse : parse fuel text = Ok defs)
  (Hd : d ∈ defs)
  (Hstruct : Msgdef.isEnum d = false) :
  computeHashValue fuel (fst (createSchemaMaps defs)) (Msgdef.namespaces d)
                   (Msgdef.name d)
  = Ok (Msgdef.hashValue d).
Proof.
  destruct (parse_tree _ _ _ Hparse) as (entities & _ & Htree).
  clear Hparse. rename Htree into Hparse.
  exact (parse_hash fuel entities defs d Hparse Hd Hstruct).
Qed.

Lemma parse_hash_recomputed_witness :
  parse 2 textXY = Ok [defX; defY] /\
  computeHashValue 2 (fst (createSchemaMaps [defX; defY])) [] (js "X")
  = Ok 5924728727019124922.
Proof.
  assert (Hp : parse 2 textXY = Ok [defX; defY]) by (vm_compute; reflexivity).
  split; [exact Hp|].
  refine (parse_hash_recomputed 2 textXY [defX; defY] defX Hp _ eq_refl).
  left.
Defined.

(** *** Nested types *)

Lemma includes_middle p a b : includes p (a ++ p ++ b) = true.
Proof.
  induction a as [|c a IH]; cbn [app].
  - destruct (p ++ b) eqn:E; cbn [includes];
      rewrite <- E, Preprocess_facts.is_prefix_app; reflexivity.
  - cbn [includes]. rewrite IH. apply orb_true_r.
Qed.

Lemma join_qualified a ns n : includes Lookup.sep (join Lookup.sep ((a :: ns) ++ [n])) = true.
Proof.
  cbn [app join]. destruct (ns ++ [n]) eqn:E; [now destruct ns|].
  apply includes_middle.
Qed.

(** A name is looked up as itself from its own namespace, when the
    namespace is global or the name is qualified. *)
Lemma lookup_own S ns name d :
  S !! name = Some d -> ns = [] \/ includes Lookup.sep name = true ->
  lookupMsgdef S ns name = Ok d.
Proof.
  intros Hd Hq. unfold lookupMsgdef.
  destruct (includes sep name) eqn:Hi; [now rewrite Hd|].
  destruct Hq as [->|Hq]; [|discriminate].
  cbn [length walk]. unfold fqName. cbn [take app join]. now rewrite Hd.
Qed.

Lemma rewriteField_qualified enums ns fd fd' :
  ns <> [] -> rewriteField enums ns fd = Ok fd' ->
  Field.isComplex fd' = true -> includes Lookup.sep (Field.type fd') = true.
Proof.
  intros Hns H HC. unfold rewriteField in H.
  destruct (Field.isComplex fd) eqn:HCfd.
  - destruct (lookupEnum enums ns (Field.type fd)) as [en|].
    + destruct (_ && _).
      * destruct (find _ _); [|discriminate]. injection H as <-. discriminate HC.
      * injection H as <-. discriminate HC.
    + destruct (includes Lookup.sep (Field.type fd)) eqn:Hi; cbn [negb] in H;
        injection H as <-; [exact Hi|].
      cbn [with_type Field.type]. destruct ns as [|a ns]; [congruence|].
      apply join_qualified.
  - injection H as <-. congruence.
Qed.

Lemma mapM_rewriteField_qualified enums ns fds : forall fds',
  ns <> [] -> mapM (rewriteField enums ns) fds = Ok fds' ->
  Forall (fun fd => Field.isComplex fd = true ->
                    includes Lookup.sep (Field.type fd) = true) fds'.
Proof.
  intros fds' Hns H. apply Parse_facts.mapM_Forall2 in H.
  induction H as [|fd fd' fds fds' Hfd _ IH]; constructor; [|exact IH].
  now apply (rewriteField_qualified enums ns fd).
Qed.

Lemma foldM_checkDefault ds : forall u,
  foldM (fun _ definition => checkDefault definition) tt ds = Ok u ->
  Forall (fun fd => checkDefault fd = Ok tt) ds.
Proof.
  induction ds as [|fd ds IH]; intros u H; [constructor|]. cbn [foldM] in H.
  destruct (checkDefault fd) as [[]|e] eqn:Hfd; [|discriminate]. mred in H.
  constructor; [exact Hfd | now apply (IH u)].
Qed.

Lemma parseEntity_settled : forall entity namespaces st st' r,
  (length namespaces <= 1)%nat ->
  parseEntity namespaces st entity = Ok (st', r) -> Forall settled r.
Proof.
  fix IH 1. intros entity namespaces st st' r Hns1 H.
  assert (Hq : forall n, namespaces = [] \/
                         includes Lookup.sep (join Lookup.sep (namespaces ++ [n])) = true).
  { intros n. destruct namespaces as [|a ns]; [now left|]. right. apply join_qualified. }
  destruct entity as [name definitions|type cx name value|name cls definitions
                     |name naked definitions];
    cbn [parseEntity] in H;
    match type of H with
    | (?c ≫= _) = _ => destruct c as [st0|e]; [|discriminate]
    end; mred in H.
  - destruct (Z.ltb_spec 0 (len namespaces)) as [|Hlen]; [discriminate|].
    assert (Hin : (length (namespaces ++ [name]) <= 1)%nat).
    { rewrite length_app. unfold len in Hlen. cbn [length]. lia. }
    assert (Hnil : Forall settled (@nil Msgdef.t)) by constructor.
    revert Hnil H. generalize (@nil Msgdef.t). revert st0.
    induction definitions as [|e es IHes]; intros st0 acc Hacc H.
    + injection H as <- <-. exact Hacc.
    + destruct (parseEntity (namespaces ++ [name]) st0 e) as [[st1 r1]|err] eqn:He;
        [|discriminate].
      mred in H. apply IH in He; [|exact Hin].
      eapply IHes; [|exact H]. apply Forall_app. auto.
  - destruct (defaultValueTypeCheck type value); [|discriminate].
    mred in H. injection H as <- <-. constructor.
  - injection H as <- <-. constructor; [|constructor].
    split; cbn; [split; [exact Hns1 | now exists name]|].
    split; [apply Hq|]. split; discriminate.
  - destruct (mapM _ definitions) as [ds|e] eqn:Hds; [|discriminate]. mred in H.
    destruct (foldM _ tt ds) as [u|e] eqn:Hck; [|discriminate]. mred in H.
    injection H as <- <-. constructor; [|constructor].
    split; cbn; [split; [exact Hns1 | now exists name]|].
    split; [apply Hq|]. split.
    + intros _ Hns.
      now apply (mapM_rewriteField_qualified (enums st0) namespaces definitions).
    + intros _. now apply (foldM_checkDefault ds u).
Qed.

Lemma parseEntities_settled entities : forall namespaces st results st' out,
  (length namespaces <= 1)%nat ->
  parseEntities entities namespaces st results = Ok (st', out) ->
  Forall settled results -> Forall settled out.
Proof.
  induction entities as [|e es IH]; intros namespaces st results st' out Hns H Hr;
    cbn [parseEntities] in H.
  - injection H as <- <-. exact Hr.
  - destruct (parseEntity namespaces st e) as [[st1 r1]|err] eqn:He; [|discriminate].
    mred in H. apply parseEntity_settled in He; [|exact Hns].
    eapply IH; [exact Hns | exact H |]. apply Forall_app. auto.
Qed.

Lemma settled_same x y : same_entity x y -> settled x -> settled y.
Proof. intros [h ->] Hx. exact Hx. Qed.

Lemma parseTree_settled fuel entities defs :
  parseTree fuel entities = Ok defs -> Forall settled defs.
Proof.
  intros H. destruct (parseTree_same _ _ _ H) as (st & parsed & Hp & Hs).
  apply parseEntities_settled in Hp; [|cbn; lia|constructor]. clear H.
  induction Hs as [|x y parsed defs Hxy _ IH]; [constructor|].
  apply Forall_cons in Hp as [Hx Hp]. constructor; [|now apply IH].
  now apply (settled_same x y).
Qed.

Lemma foldM_each {A} (f : A -> res (list Z)) l : forall b r,
  foldM (fun buf x => t ← f x; Ok (buf ++ t)) b l = Ok r ->
  forall x, x ∈ l -> exists t, f x = Ok t.
Proof.
  induction l as [|a l IH]; intros b r H x Hx; [now apply elem_of_nil in Hx|].
  cbn [foldM] in H. destruct (f a) as [t|e] eqn:Ha; [|discriminate]. mred in H.
  apply elem_of_cons in Hx as [->|Hx]; [eauto|]. exact (IH _ _ H x Hx).
Qed.

Lemma foldM_stuck {A} (f : A -> res (list Z)) l x :
  x ∈ l -> (exists e, f x = Err e) ->
  forall b, exists e, foldM (fun buf x => t ← f x; Ok (buf ++ t)) b l = Err e.
Proof.
  intros Hx [e He]. induction l as [|a l IH]; intros b; [now apply elem_of_nil in Hx|].
  cbn [foldM]. destruct (f a) as [t|e'] eqn:Ha; [|mred; eauto]. mred.
  apply elem_of_cons in Hx as [->|Hx]; [congruence|]. now apply IH.
Qed.

Lemma nameMap_elem l k d : nameMap l !! k = Some d -> d ∈ l.
Proof.
  rewrite <- createSchemaMaps_names, Maps_facts.names_last. intros H.
  apply last_Some in H as [l' Hl'].
  assert (Hd : d ∈ filter (fun d0 => bool_decide (Msgdef.name d0 = k) = true) l).
  { rewrite Hl'. apply elem_of_app. right. now left. }
  now apply list_elem_of_filter in Hd as [_ Hd].
Qed.

Lemma lookupMsgdef_elem l ns t d : lookupMsgdef (nameMap l) ns t = Ok d -> d ∈ l.
Proof.
  unfold lookupMsgdef. destruct (includes sep t).
  - destruct (nameMap l !! t) eqn:E; [|discriminate]. intros [= <-].
    now apply nameMap_elem in E.
  - destruct (walk _ _ _ _) eqn:E; [|discriminate]. intros [= <-].
    apply Lookup_facts.walk_Some in E as (j & _ & E & _). now apply nameMap_elem in E.
Qed.

(** Inside a struct of the result, a complex type is looked up directly. *)
Lemma settled_direct S d fd :
  Msgdef.isEnum d = false ->
  (Msgdef.namespaces d = [] \/ includes Lookup.sep (Field.type fd) = true) ->
  lookupMsgdef S (Msgdef.namespaces d) (Field.type fd)
  = of_option (S !! Field.type fd) TypeNotFound.
Proof.
  intros _ Hq. unfold lookupMsgdef.
  destruct (includes sep (Field.type fd)) eqn:Hi; [reflexivity|].
  destruct Hq as [->|Hq]; [|discriminate].
  cbn [length walk]. unfold fqName. cbn [take app join].
  now destruct (S !! Field.type fd).
Qed.

(** X7.  The result of [parse] is closed under the types it uses: the type
    of every complex field of every struct of the result resolves, from
    the namespaces of the struct, to an entity of the result. *)
Theorem parse_closed (fuel : nat) (text : list Z) (defs : list Msgdef.t)
  (d : Msgdef.t) (fd : Field.t)
  (Hparse : parse fuel text = Ok defs)
  (Hd : d ∈ defs)
  (Hstruct : Msgdef.isEnum d = false)
  (Hfd : fd ∈ Msgdef.definitions d)
  (Hcomplex : Field.isComplex fd = true) :
  exists d', lookupMsgdef (fst (createSchemaMaps defs)) (Msgdef.namespaces d)
                          (Field.type fd) = Ok d' /\
             d' ∈ defs.
Proof.
  destruct (parse_tree _ _ _ Hparse) as (entities & Hnamed & Htree).
  clear Hparse. rename Htree into Hparse.
  pose proof (parseTree_NoDup fuel entities defs Hnamed Hparse) as Hnd.
  pose proof (parseTree_settled fuel entities defs Hparse) as Hset.
  pose proof (parse_hash fuel entities defs d Hparse Hd Hstruct) as Hh.
  destruct fuel as [|fuel]; [discriminate|]. cbn [computeHashValue] in Hh.
  rewrite (lookup_own _ _ _ d) in Hh.
  - mred in Hh.
    destruct (canonicalText _ d (Msgdef.name d)) as [canonical|e] eqn:Ht; [|discriminate].
    unfold canonicalText in Ht.
    destruct (foldM_each _ _ _ _ Ht fd Hfd) as [t Hfield].
    unfold fieldText in Hfield. rewrite Hcomplex in Hfield.
    destruct (if Field.isArray fd then _ else _) as [prefix|e]; [|discriminate].
    mred in Hfield.
    destruct (computeHashValue fuel _ (Msgdef.namespaces d) (Field.type fd))
      as [h|e] eqn:Hn; [|discriminate].
    destruct fuel as [|fuel]; [discriminate|]. cbn [computeHashValue] in Hn.
    destruct (lookupMsgdef _ (Msgdef.namespaces d) (Field.type fd)) as [d'|e] eqn:Hl;
      [|discriminate].
    exists d'. split; [reflexivity|].
    rewrite createSchemaMaps_names in Hl. now apply lookupMsgdef_elem in Hl.
  - now apply Maps_facts.createSchemaMaps_found.
  - rewrite Forall_forall in Hset. exact (proj1 (proj2 (Hset d Hd))).
Qed.

Lemma parse_closed_witness :
  parse 2 textXY = Ok [defX; defY] /\
  exists d', lookupMsgdef (fst (createSchemaMaps [defX; defY])) [] (js "Y") = Ok d' /\
             d' ∈ [defX; defY].
Proof.
  assert (Hp : parse 2 textXY = Ok [defX; defY]) by (vm_compute; reflexivity).
  split; [exact Hp|].
  refine (parse_closed 2 textXY [defX; defY] defX
            (Field.mk (js "y") (js "Y") true false None None None None false None)
            Hp _ eq_refl _ eq_refl).
  - left.
  - left.
Defined.

(** X8.  In the result of [parse], the name of an entity declared in a
    namespace is qualified, and so is the type of every complex field of a
    struct declared there; the lookup of such a type from the struct is
    therefore the direct lookup of the type in the map, whatever the map:
    the enclosing namespaces are never searched. *)
Theorem parse_qualifies (fuel : nat) (text : list Z) (defs : list Msgdef.t)
  (d : Msgdef.t)
  (Hparse : parse fuel text = Ok defs)
  (Hd : d ∈ defs) :
  (Msgdef.namespaces d <> [] -> includes Lookup.sep (Msgdef.name d) = true) /\
  (Msgdef.isEnum d = false ->
   forall fd, fd ∈ Msgdef.definitions d -> Field.isComplex fd = true ->
     (Msgdef.namespaces d <> [] -> includes Lookup.sep (Field.type fd) = true) /\
     forall S, lookupMsgdef S (Msgdef.namespaces d) (Field.type fd)
               = of_option (S !! Field.type fd) TypeNotFound).
Proof.
  destruct (parse_tree _ _ _ Hparse) as (entities & _ & Htree).
  clear Hparse. rename Htree into Hparse.
  pose proof (parseTree_settled fuel entities defs Hparse) as Hset.
  rewrite Forall_forall in Hset. specialize (Hset d Hd).
  destruct Hset as (_ & Hname & Hfields & _). split.
  - intros Hns. destruct Hname; [contradiction | assumption].
  - intros He fd Hfd Hc.
    assert (Hq : Msgdef.namespaces d <> [] -> includes Lookup.sep (Field.type fd) = true).
    { intros Hns. specialize (Hfields He Hns). rewrite Forall_forall in Hfields.
      exact (Hfields fd Hfd Hc). }
    split; [exact Hq|]. intros S. apply settled_direct; [exact He|].
    destruct (Msgdef.namespaces d); [now left | right; now apply Hq].
Qed.

Lemma parse_qualifies_witness :
  parse 2 textNs = Ok [defNsU; defNsV] /\
  includes Lookup.sep (Msgdef.name defNsU) = true.
Proof.
  assert (Hp : parse 2 textNs = Ok [defNsU; defNsV]) by (vm_compute; reflexivity).
  split; [exact Hp|].
  refine (proj1 (parse_qualifies 2 textNs [defNsU; defNsV] defNsU Hp _) _).
  - left.
  - discriminate.
Defined.

Lemma cyclic_no_hash (S : gmap (list Z) Msgdef.t)
  (P : list (list Z) -> list Z -> Prop)
  (Hcyclic : cyclic S P) :
  forall (fuel : nat) (namespaces : list (list Z)) (typeName : list Z),
    P namespaces typeName ->
    exists e, computeHashValue fuel S namespaces typeName = Err e.
Proof.
  induction fuel as [|fuel IH]; intros ns t HP; cbn [computeHashValue]; [eauto|].
  destruct (lookupMsgdef S ns t) as [d|e] eqn:Hl; [|mred; eauto]. mred.
  destruct (Hcyclic ns t d HP Hl) as (fd & Hfd & Hc & HP').
  unfold canonicalText.
  destruct (foldM_stuck (fieldText (computeHashValue fuel S) d) (Msgdef.definitions d)
              fd Hfd) with (b := js "struct " ++ t ++ [32; 10]) as [e He].
  - unfold fieldText. rewrite Hc.
    destruct (if Field.isArray fd then _ else _) as [prefix|e]; [|mred; eauto]. mred.
    destruct (IH _ _ HP') as [e ->]. eauto.
  - rewrite He. eauto.
Qed.

(** X9.  A struct that contains itself, directly or through other structs,
    has no hash: when a set of names is [cyclic] in the map, the hash
    computation of a name of the set returns no hash at any recursion
    depth (the recursion of the source never ends but by an error). *)
Theorem computeHashValue_cyclic (S : gmap (list Z) Msgdef.t)
  (P : list (list Z) -> list Z -> Prop)
  (Hcyclic : cyclic S P) :
  forall (fuel : nat) (namespaces : list (list Z)) (typeName : list Z),
    P namespaces typeName ->
    exists e, computeHashValue fuel S namespaces typeName = Err e.
Proof. exact (cyclic_no_hash S P Hcyclic). Qed.

Lemma cyclic_loop :
  cyclic (nameMap [defLoop]) (fun ns t => ns = [] /\ t = js "a").
Proof.
  intros ns t d [-> ->] Hl.
  assert (Hd : Ok d = Ok defLoop) by (rewrite <- Hl; vm_compute; reflexivity).
  apply Ok_inj in Hd as ->.
  exists (Field.mk (js "x") (js "a") true false None None None None false None).
  split; [left|]. split; [reflexivity|]. split; reflexivity.
Qed.

Lemma computeHashValue_cyclic_witness :
  cyclic (nameMap [defLoop]) (fun ns t => ns = [] /\ t = js "a") /\
  exists e, computeHashValue 7 (nameMap [defLoop]) [] (js "a") = Err e.
Proof.
  split; [exact cyclic_loop|].
  exact (computeHashValue_cyclic _ _ cyclic_loop 7%nat [] (js "a") (conj eq_refl eq_refl)).
Defined.

(** X23.  The structs of a result of [parse] are not recursive: no struct
    of the result is in a set of names that is [cyclic] in the name map
    built from the result, that is, no struct contains itself, directly
    or through other structs. *)
Theorem parse_not_recursive (fuel : nat) (text : list Z) (defs : list Msgdef.t)
  (P : list (list Z) -> list Z -> Prop) (d : Msgdef.t)
  (Hparse : parse fuel text = Ok defs)
  (Hcyclic : cyclic (fst (createSchemaMaps defs)) P)
  (Hd : d ∈ defs)
  (Hstruct : Msgdef.isEnum d = false) :
  ~ P (Msgdef.namespaces d) (Msgdef.name d).
Proof.
  destruct (parse_tree _ _ _ Hparse) as (entities & _ & Htree).
  intros HP.
  pose proof (parse_hash fuel entities defs d Htree Hd Hstruct) as Hh.
  destruct (cyclic_no_hash _ P Hcyclic fuel _ _ HP) as [e He].
  rewrite He in Hh. discriminate.
Qed.

Lemma parse_not_recursive_witness :
  parse 2 textXY = Ok [defX; defY] /\
  ~ (fun ns t => False) (Msgdef.namespaces defX) (Msgdef.name defX).
Proof.
  assert (Hp : parse 2 textXY = Ok [defX; defY]) by (vm_compute; reflexivity).
  split; [exact Hp|].
  refine (parse_not_recursive 2 textXY [defX; defY] (fun ns t => False) defX Hp _ _
            eq_refl).
  - intros ns t d HP. destruct HP.
  - left.
Defined.

End Schema_facts.


(** ** The decoder on arbitrary bytes *)

Module Decode_facts.
Import Serde.

Lemma uint8_window_inv buf off n bs :
  uint8_window buf off n = Ok bs ->
  0 <= off /\ 0 <= n /\ off + n <= len buf /\ bs = slice off n buf.
Proof.
  unfold uint8_window.
  destruct (Z.leb_spec 0 off); [|discriminate].
  destruct (Z.leb_spec 0 n); [|discriminate].
  destruct (Z.leb_spec (off + n) (len buf)); [|discriminate].
  intros [= <-]. auto.
Qed.

Lemma length_slice off n buf :
  0 <= off -> 0 <= n -> off + n <= len buf -> length (slice off n buf) = Z.to_nat n.
Proof.
  intros H0 H1 H2. unfold slice. rewrite length_take, length_drop.
  unfold len in H2. lia.
Qed.

(** The copy that restores the alignment holds the bytes of the window. *)
Lemma typedArray_window k buf offset length :
  typedArray k buf offset length
  = (bs ← uint8_window buf offset (elem_size k * length);
     Ok (VTyped k (read_elems (Z.to_nat (elem_size k)) (Z.to_nat length) bs))).
Proof.
  unfold typedArray. destruct (offset mod elem_size k =? 0); [reflexivity|].
  destruct (Z.ltb_spec (elem_size k * length) 0) as [Hneg|Hpos].
  - unfold uint8_window. destruct (0 <=? offset); cbn [andb]; [|reflexivity].
    destruct (Z.leb_spec 0 (elem_size k * length)); [lia | reflexivity].
  - destruct (uint8_window buf offset (elem_size k * length)) as [src|e] eqn:Hw;
      [|reflexivity].
    apply uint8_window_inv in Hw as (H0 & H1 & H2 & ->). mred. do 3 f_equal.
    unfold splice. cbn [Z.to_nat take app Nat.add].
    rewrite length_slice by lia.
    rewrite drop_ge by (rewrite length_zeros; lia). apply app_nil_r.
Qed.

Lemma slice_within pre b post off w :
  0 <= off -> 0 <= w -> off + w <= len b ->
  slice (len pre + off) w (pre ++ b ++ post) = slice off w b.
Proof.
  intros H0 H1 H2. unfold slice, len in *.
  replace (Z.to_nat (Z.of_nat (length pre) + off))
    with (length pre + Z.to_nat off)%nat by lia.
  rewrite drop_app_add. rewrite drop_app_le by lia.
  apply take_app_le. rewrite length_drop. lia.
Qed.

Lemma get_within {A} (f : list Z -> A) v v' off w r :
  within v v' -> f <$> get_bytes v off w = Ok r -> 0 <= w ->
  f <$> get_bytes v' off w = Ok r.
Proof.
  intros (H0 & H1 & H2 & H3 & pre & post & Hb & Ho) Hr Hw. revert Hr. unfold get_bytes.
  destruct (Z.leb_spec 0 off); [|discriminate].
  destruct (Z.leb_spec (off + w) (byteLength v)); [|discriminate].
  destruct (Z.leb_spec (off + w) (byteLength v')); [|lia].
  cbn [andb]. rewrite Hb, Ho, <- Z.add_assoc, slice_within by lia. auto.
Qed.

Lemma window_within v v' p p' n bs :
  within v v' -> p' - byteOffset v' = p - byteOffset v ->
  uint8_window (buffer v) p n = Ok bs -> uint8_window (buffer v') p' n = Ok bs.
Proof.
  intros (H0 & H1 & H2 & H3 & pre & post & Hb & Ho) Hp Hw.
  apply uint8_window_inv in Hw as (Hp0 & Hn & Hfit & ->).
  pose proof (len_nonneg pre). pose proof (len_nonneg post).
  rewrite uint8_window_ok; rewrite ?Hb, ?len_app; try lia.
  replace p' with (len pre + p) by lia. now rewrite slice_within.
Qed.

Lemma typedArray_within k v v' p p' n arr :
  within v v' -> p' - byteOffset v' = p - byteOffset v ->
  typedArray k (buffer v) p n = Ok arr -> typedArray k (buffer v') p' n = Ok arr.
Proof.
  intros Hv Hp. rewrite !typedArray_window.
  destruct (uint8_window (buffer v) p _) as [bs|e] eqn:Hw; [|discriminate].
  now rewrite (window_within v v' p p' _ bs Hv Hp Hw).
Qed.

Lemma loop_mono {S} (body body' : Z -> S -> res S) n : forall i s r,
  (forall i s r, body i s = Ok r -> body' i s = Ok r) ->
  loop n i body s = Ok r -> loop n i body' s = Ok r.
Proof.
  induction n as [|n IH]; intros i s r Hb H; cbn [loop] in *; [exact H|].
  destruct (body i s) as [s'|e] eqn:E; [|discriminate].
  rewrite (Hb _ _ _ E). mred. mred in H. now apply IH.
Qed.

Lemma loop_inv {S} (P : S -> Prop) (body : Z -> S -> res S) n : forall i s r,
  (forall i s r, P s -> body i s = Ok r -> P r) ->
  P s -> loop n i body s = Ok r -> P r.
Proof.
  induction n as [|n IH]; intros i s r Hb Hs H; cbn [loop] in H.
  - now injection H as <-.
  - destruct (body i s) as [s'|e] eqn:E; [|discriminate]. mred in H.
    eapply IH; [exact Hb | | exact H]. eapply Hb; eauto.
Qed.

Lemma foldM_mono {A B} (f f' : B -> A -> res B) l : forall b r,
  (forall b a r, f b a = Ok r -> f' b a = Ok r) ->
  foldM f b l = Ok r -> foldM f' b l = Ok r.
Proof.
  induction l as [|a l IH]; intros b r Hf H; cbn [foldM] in *; [exact H|].
  destruct (f b a) as [b'|e] eqn:E; [|discriminate].
  rewrite (Hf _ _ _ E). mred. mred in H. now apply IH.
Qed.

Lemma foldM_inv {A B} (P : B -> Prop) (f : B -> A -> res B) l : forall b r,
  (forall b a r, P b -> f b a = Ok r -> P r) ->
  P b -> foldM f b l = Ok r -> P r.
Proof.
  induction l as [|a l IH]; intros b r Hf Hb H; cbn [foldM] in H.
  - now injection H as <-.
  - destruct (f b a) as [b'|e] eqn:E; [|discriminate]. mred in H.
    eapply IH; [exact Hf | | exact H]. eapply Hf; eauto.
Qed.

Ltac getter_at g H x E Hv :=
  match type of H with
  | context [g ?v ?o] =>
      destruct (g v o) as [x|] eqn:E; [|mred in H; discriminate H];
      match type of Hv with
      | within _ ?v' =>
          match type of E with
          | _ = Ok ?y =>
              let E' := fresh "E" in
              assert (E' : g v' o = Ok y)
                by (unfold g in E |- *; apply (get_within _ _ _ _ _ _ Hv E); lia);
              rewrite E'; clear E'
          end
      end
  end.

Ltac getter H x E Hv :=
  first [ getter_at getUint8 H x E Hv | getter_at getInt8 H x E Hv
        | getter_at getUint16 H x E Hv | getter_at getInt16 H x E Hv
        | getter_at getUint32 H x E Hv | getter_at getInt32 H x E Hv
        | getter_at getBigUint64 H x E Hv | getter_at getBigInt64 H x E Hv
        | getter_at getFloat32 H x E Hv | getter_at getFloat64 H x E Hv ].

(** *** The same bytes inside a larger buffer *)

Section Within.
Context (S : gmap (list Z) Msgdef.t) (H : gmap Z Msgdef.t).
Context (naked : Msgdef.t -> DataView -> Z -> gmap (list Z) jsvalue ->
                 res (Z * gmap (list Z) jsvalue)).
Hypothesis Hnaked : forall def v v' off out r,
  within v v' -> naked def v off out = Ok r -> naked def v' off out = Ok r.

Lemma readBasicType_within v v' off out fd r :
  within v v' -> readBasicType v off out fd = Ok r -> readBasicType v' off out fd = Ok r.
Proof.
  intros Hv Hr. unfold readBasicType in *.
  destruct (tag_of (Field.type fd)) as [[]|]; try (getter Hr x E Hv; exact Hr);
    [|discriminate].
  destruct (Field.upperBound fd) as [l|].
  - mred. mred in Hr.
    destruct (uint8_window (buffer v) _ l) as [bs|e] eqn:Ew; [|discriminate].
    rewrite (window_within v v' (byteOffset v + off + 0) (byteOffset v' + off + 0)
               _ _ Hv ltac:(lia) Ew).
    exact Hr.
  - getter Hr x E Hv. mred. mred in Hr.
    destruct (uint8_window (buffer v) _ _) as [bs|e] eqn:Ew; [|discriminate].
    rewrite (window_within v v' (byteOffset v + off + 4) (byteOffset v' + off + 4)
               _ _ Hv ltac:(lia) Ew).
    exact Hr.
Qed.

Lemma deserializeMessage_within v v' offset m :
  within v v' ->
  deserializeMessage_with H naked v offset = Ok m ->
  deserializeMessage_with H naked v' offset = Ok m.
Proof.
  intros Hv Hm. pose proof Hv as (H0 & H1 & H2 & H3 & pre & post & Hb & Ho).
  pose proof (len_nonneg pre). pose proof (len_nonneg post).
  unfold deserializeMessage_with in *. set (o := default 0 offset) in *.
  destruct (Z.ltb_spec o 0); [discriminate|].
  destruct (Z.leb_spec (byteOffset v + byteLength v) o); [discriminate|].
  destruct (Z.leb_spec (byteOffset v' + byteLength v') o); [lia|].
  cbn [orb] in *. unfold new_DataView in *.
  destruct (Z.leb_spec 0 (byteOffset v + o)); [|discriminate].
  destruct (Z.leb_spec 0 (byteLength v - o)); [|discriminate].
  destruct (Z.leb_spec (byteOffset v + o + (byteLength v - o)) (len (buffer v)));
    [|discriminate].
  destruct (Z.leb_spec 0 (byteOffset v' + o)); [|lia].
  destruct (Z.leb_spec 0 (byteLength v' - o)); [|lia].
  assert (Hbig : within (mkView (buffer v) (byteOffset v + o) (byteLength v - o))
                        (mkView (buffer v') (byteOffset v' + o) (byteLength v' - o))).
  { unfold within. cbn [byteOffset byteLength buffer].
    split; [lia|]. split; [lia|]. split; [lia|]. split; [lia|].
    exists pre, post. split; [exact Hb|lia]. }
  destruct (Z.leb_spec (byteOffset v' + o + (byteLength v' - o)) (len (buffer v')))
    as [Hfit|Hout].
  - cbn [andb] in *. mred. mred in Hm.
    set (w := mkView (buffer v) _ _) in *. set (w' := mkView (buffer v') _ _) in *.
    cbn [byteLength w w'] in *.
    destruct (Z.ltb_spec (byteLength v - o) 24); [discriminate|].
    destruct (Z.ltb_spec (byteLength v' - o) 24); [lia|].
    getter Hm magic E1 Hbig. mred. mred in Hm.
    destruct (negb (_ =? 1447317076)); [discriminate|].
    getter Hm word E2 Hbig. mred. mred in Hm.
    destruct (Z.ltb_spec (byteLength v - o) (size_of_word word)); [discriminate|].
    destruct (Z.ltb_spec (byteLength v' - o) (size_of_word word)); [lia|].
    getter Hm hash E3 Hbig. mred. mred in Hm.
    getter Hm ts E4 Hbig. mred. mred in Hm.
    destruct (find_by_hash H hash) as [def|e]; [|discriminate].
    destruct (naked def w _ ∅) as [r|e] eqn:En; [|discriminate].
    rewrite (Hnaked _ _ _ _ _ _ Hbig En). exact Hm.
  - lia.
Qed.

Lemma readNonArrayField_within fd ns v v' off out r :
  within v v' ->
  readNonArrayField S H naked fd ns v off out = Ok r ->
  readNonArrayField S H naked fd ns v' off out = Ok r.
Proof.
  intros Hv Hr. unfold readNonArrayField in *.
  destruct (Field.isComplex fd); [|now apply (readBasicType_within v)].
  destruct (lookupMsgdef S ns (Field.type fd)) as [def|e]; [|discriminate].
  mred. mred in Hr. destruct (Msgdef.isNakedStruct def).
  - destruct (naked def v off ∅) as [r'|e] eqn:En; [|discriminate].
    now rewrite (Hnaked _ _ _ _ _ _ Hv En).
  - destruct (deserializeMessage_with H naked v (Some off)) as [m|e] eqn:Em;
      [|discriminate].
    now rewrite (deserializeMessage_within _ _ _ _ Hv Em).
Qed.

Lemma deserializeField_within def v v' offset st fd r :
  within v v' ->
  deserializeField S H naked def v offset st fd = Ok r ->
  deserializeField S H naked def v' offset st fd = Ok r.
Proof.
  intros Hv Hr. unfold deserializeField in *. destruct st as [io out].
  destruct (Field.isArray fd).
  - assert (Hlen : forall n io',
              match Field.arrayLength fd with
              | Some l => Ok (l, io)
              | None => l ← getUint32 v (offset + io); Ok (l, io + 4)
              end = Ok (n, io') ->
              match Field.arrayLength fd with
              | Some l => Ok (l, io)
              | None => l ← getUint32 v' (offset + io); Ok (l, io + 4)
              end = Ok (n, io')).
    { intros n io' Hl. destruct (Field.arrayLength fd); [exact Hl|].
      getter Hl x E Hv. exact Hl. }
    destruct (match Field.arrayLength fd with Some l => _ | None => _ end)
      as [[n io']|e] eqn:El; [|discriminate].
    rewrite (Hlen _ _ eq_refl). mred. mred in Hr.
    assert (Hslow :
      forall A (k : Z * list jsvalue * gmap (list Z) jsvalue -> res A) a,
        (for_lt n
           (fun _ '(innerOffset, array, fieldOutput) =>
              '(n0, fieldOutput) ← readNonArrayField S H naked fd
                                     (Msgdef.namespaces def) v
                                     (offset + innerOffset) fieldOutput;
              elem ← get_prop (VObject fieldOutput) (Field.name fd);
              Ok (innerOffset + n0, array ++ [elem], fieldOutput))
           (io', [], ∅) ≫= k) = Ok a ->
        (for_lt n
           (fun _ '(innerOffset, array, fieldOutput) =>
              '(n0, fieldOutput) ← readNonArrayField S H naked fd
                                     (Msgdef.namespaces def) v'
                                     (offset + innerOffset) fieldOutput;
              elem ← get_prop (VObject fieldOutput) (Field.name fd);
              Ok (innerOffset + n0, array ++ [elem], fieldOutput))
           (io', [], ∅) ≫= k) = Ok a).
    { intros A k a Hk.
      destruct (for_lt n _ (io', [], ∅)) as [s|e] eqn:Ef in Hk; [|discriminate].
      unfold for_lt in *. erewrite loop_mono; [exact Hk | | exact Ef].
      intros _ [[i1 arr] fo] r1 Hb.
      destruct (readNonArrayField S H naked fd _ v _ fo) as [r2|e] eqn:Er;
        [|discriminate].
      now rewrite (readNonArrayField_within _ _ _ _ _ _ _ Hv Er). }
    destruct (tag_of (Field.type fd)) as [[]|]; cbn [typed_kind] in *;
      try (now apply Hslow);
      try (destruct (typedArray _ (buffer v) _ n) as [arr|e] eqn:Et; [|discriminate];
           rewrite (typedArray_within _ v v' (byteOffset v + offset + io')
                      (byteOffset v' + offset + io') _ _ Hv ltac:(lia) Et);
           exact Hr).
    destruct (for_lt n _ (io', [])) as [s|e] eqn:Ef in Hr; [|discriminate].
    unfold for_lt in *. erewrite loop_mono; [exact Hr | | exact Ef].
    intros _ [i1 arr] r1 Hb. getter Hb x E Hv. exact Hb.
  - destruct (readNonArrayField S H naked fd _ v _ out) as [r2|e] eqn:Er;
      [|discriminate].
    now rewrite (readNonArrayField_within _ _ _ _ _ _ _ Hv Er).
Qed.

End Within.

Lemma naked_within S H : forall fuel def v v' off out r,
  within v v' ->
  deserializeNakedMessage fuel S H def v off out = Ok r ->
  deserializeNakedMessage fuel S H def v' off out = Ok r.
Proof.
  induction fuel as [|fuel IH]; intros def v v' off out r Hv Hr;
    cbn [deserializeNakedMessage] in *; [discriminate|].
  eapply foldM_mono; [|exact Hr].
  intros st fd r'. now apply deserializeField_within.
Qed.

(** Decoding at an offset is decoding from the start of the view that
    begins there. *)
Lemma deserializeMessage_rebase S H fuel data o :
  0 <= o < byteOffset data + byteLength data ->
  0 < byteOffset data + byteLength data ->
  0 <= byteOffset data -> o <= byteLength data ->
  byteOffset data + byteLength data <= len (buffer data) ->
  deserializeMessage fuel S H data (Some o)
  = deserializeMessage fuel S H
      (mkView (buffer data) (byteOffset data + o) (byteLength data - o)) None.
Proof.
  intros Ho Hpos Hb0 Hbl Hfit.
  unfold deserializeMessage, deserializeMessage_with.
  change (default 0 (Some o)) with o. change (default 0 (@None Z)) with 0.
  cbn [byteOffset byteLength buffer]. unfold new_DataView.
  destruct (Z.ltb_spec o 0); [lia|].
  destruct (Z.leb_spec (byteOffset data + byteLength data) o); [lia|].
  destruct (Z.ltb_spec 0 0); [lia|].
  destruct (Z.leb_spec (byteOffset data + o + (byteLength data - o)) 0); [lia|].
  rewrite !Z.add_0_r, !Z.sub_0_r.
  reflexivity.
Qed.

(** *** What a successful decoding consumes *)

Lemma size_of_word_range w : 0 <= size_of_word w < 2 ^ 31.
Proof.
  rewrite Word_facts.size_of_word_spec.
  assert (0 <= w mod 2 ^ 27 < 2 ^ 27) by (apply Z.mod_pos_bound; lia).
  assert (0 <= w mod 2 ^ 31 < 2 ^ 31) by (apply Z.mod_pos_bound; lia).
  destruct (Z.testbit w 27); lia.
Qed.

(** The variant is 0 or an odd number below 16, and a message with a
    variant is shorter than 2^27 bytes. *)
Lemma variant_of_word_odd w :
  variant_of_word w = 0 \/
  (Z.odd (variant_of_word w) = true /\ 0 < variant_of_word w < 16 /\
   size_of_word w < 2 ^ 27).
Proof.
  rewrite Word_facts.size_of_word_spec. unfold variant_of_word.
  rewrite Word_facts.hasVariant_spec.
  destruct (Z.testbit w 27) eqn:Hbit; [right | now left].
  change 15 with (Z.ones 4). rewrite Word_facts.js_and_ones by lia.
  assert (Hodd : Z.odd (js_shr w 27 mod 2 ^ 4) = true).
  { rewrite <- Z.bit0_odd, Z.mod_pow2_bits_low by lia.
    unfold js_shr. rewrite Z.shiftr_spec by lia.
    rewrite Word_facts.testbit_int32 by lia. exact Hbit. }
  assert (0 <= js_shr w 27 mod 2 ^ 4 < 2 ^ 4) by (apply Z.mod_pos_bound; lia).
  assert (0 <= w mod 2 ^ 27 < 2 ^ 27) by (apply Z.mod_pos_bound; lia).
  split; [exact Hodd|]. split; [|lia].
  destruct (Z.eq_dec (js_shr w 27 mod 2 ^ 4) 0) as [E|E]; [|lia].
  rewrite E in Hodd. discriminate.
Qed.

Section Consumed.
Context (S : gmap (list Z) Msgdef.t) (H : gmap Z Msgdef.t).
Context (naked : Msgdef.t -> DataView -> Z -> gmap (list Z) jsvalue ->
                 res (Z * gmap (list Z) jsvalue)).
Hypothesis Hnaked : forall def v off out n out',
  naked def v off out = Ok (n, out') -> 0 <= n.

Lemma readBasicType_consumed v off out fd n out' :
  readBasicType v off out fd = Ok (n, out') -> 0 <= n.
Proof.
  unfold readBasicType, set_prop. intros Hr.
  destruct (tag_of (Field.type fd)) as [[]|];
    try (match type of Hr with
         | (?g ≫= _) = _ => destruct g; [|discriminate]
         end;
         mred in Hr; destruct (inherited _); [discriminate|];
         injection Hr as <- _; lia);
    [|discriminate].
  destruct (match Field.upperBound fd with Some l => _ | None => _ end)
    as [[length cur]|e] eqn:El; [|discriminate].
  mred in Hr.
  destruct (uint8_window _ _ length) as [bs|e] eqn:Ew; [|discriminate].
  apply uint8_window_inv in Ew as (_ & Hlen & _).
  destruct (inherited _); [discriminate|]. injection Hr as <- _.
  destruct (Field.upperBound fd).
  - injection El as <- <-. lia.
  - destruct (getUint32 v off); [|discriminate]. injection El as <- <-. lia.
Qed.

(** The header that a successful decoding has checked. *)
Lemma deserializeMessage_with_header data offset m :
  deserializeMessage_with H naked data offset = Ok m ->
  24 <= Message.size m <= byteLength data - default 0 offset /\
  getUint32 data (default 0 offset) = Ok MAGIC /\
  (exists word, getUint32 data (default 0 offset + 4) = Ok word /\
                Message.size m = size_of_word word /\
                Message.variant m = variant_of_word word) /\
  getBigUint64 data (default 0 offset + 8) = Ok (Message.hashValue m) /\
  exists def, find_by_hash H (Message.hashValue m) = Ok def /\
              Message.typeName m = Msgdef.name def.
Proof.
  unfold deserializeMessage_with.
  set (o := default 0 offset). unfold new_DataView.
  destruct (Z.ltb_spec o 0); [discriminate|].
  destruct (Z.leb_spec (byteOffset data + byteLength data) o); [discriminate|].
  destruct (Z.leb_spec 0 (byteOffset data + o)); [|discriminate].
  destruct (Z.leb_spec 0 (byteLength data - o)); [|discriminate].
  destruct (Z.leb_spec (byteOffset data + o + (byteLength data - o))
                       (len (buffer data))); [|discriminate].
  cbn [orb andb]. mred. set (w := mkView _ _ _). cbn [byteLength w].
  destruct (Z.ltb_spec (byteLength data - o) 24); [discriminate|].
  assert (Hget : forall A (f : list Z -> A) k n r,
            0 <= k -> 0 <= n -> f <$> get_bytes w k n = Ok r ->
            f <$> get_bytes data (o + k) n = Ok r).
  { intros A f k n r Hk Hn. unfold get_bytes. cbn [byteLength byteOffset buffer w].
    destruct (Z.leb_spec 0 k); [|lia].
    destruct (Z.leb_spec (k + n) (byteLength data - o)); [|discriminate].
    destruct (Z.leb_spec 0 (o + k)); [|lia].
    destruct (Z.leb_spec (o + k + n) (byteLength data)); [|lia].
    cbn [andb]. now rewrite Z.add_assoc. }
  destruct (getUint32 w 0) as [magic|e] eqn:E1; [|discriminate].
  destruct (Z.eqb_spec magic 1447317076) as [->|]; [|discriminate]. cbn [negb].
  destruct (getUint32 w (0 + 4)) as [word|e] eqn:E2; [|discriminate]. mred.
  destruct (Z.ltb_spec (byteLength data - o) (size_of_word word)); [discriminate|].
  destruct (getBigUint64 w (0 + 4 + 4)) as [hash|e] eqn:E3; [|discriminate].
  destruct (getFloat64 w (0 + 4 + 4 + 8)) as [ts|e]; [|discriminate]. mred.
  destruct (find_by_hash H hash) as [def|e] eqn:Ef; [|discriminate].
  destruct (naked def w _ ∅) as [[n out]|e] eqn:En; [|discriminate].
  apply Hnaked in En.
  destruct (Z.eqb_spec (0 + 4 + 4 + 8 + 8 + n) (size_of_word word)) as [Hsz|];
    [|discriminate].
  cbn [negb]. intros [= <-]. cbn [Message.size Message.variant Message.hashValue
                                   Message.typeName].
  apply (Hget _ le_value 0 4) in E1; [|lia|lia].
  apply (Hget _ le_value (0 + 4) 4) in E2; [|lia|lia].
  apply (Hget _ le_value (0 + 4 + 4) 8) in E3; [|lia|lia].
  rewrite Z.add_0_r in E1.
  split; [lia|]. split; [exact E1|]. split; [exists word; auto|].
  split; [exact E3|]. exists def. auto.
Qed.

Lemma readNonArrayField_consumed fd ns v off out n out' :
  readNonArrayField S H naked fd ns v off out = Ok (n, out') -> 0 <= n.
Proof.
  unfold readNonArrayField, set_prop. intros Hr.
  destruct (Field.isComplex fd); [|now apply readBasicType_consumed in Hr].
  destruct (lookupMsgdef S ns (Field.type fd)) as [def|e]; [|discriminate].
  mred in Hr. destruct (Msgdef.isNakedStruct def).
  - destruct (naked def v off ∅) as [[k o]|e] eqn:En; [|discriminate].
    apply Hnaked in En. destruct (inherited _); [discriminate|].
    now injection Hr as <- _.
  - destruct (deserializeMessage_with H naked v (Some off)) as [m|e] eqn:Em;
      [|discriminate].
    apply deserializeMessage_with_header in Em as (Hsz & _).
    destruct (inherited _); [discriminate|]. injection Hr as <- _. lia.
Qed.

Lemma deserializeField_consumed def v offset io out fd io' out' :
  deserializeField S H naked def v offset (io, out) fd = Ok (io', out') -> io <= io'.
Proof.
  unfold deserializeField, set_prop. intros Hr.
  destruct (Field.isArray fd).
  - destruct (match Field.arrayLength fd with Some l => _ | None => _ end)
      as [[n i0]|e] eqn:El; [|discriminate].
    assert (Hi0 : io <= i0).
    { destruct (Field.arrayLength fd); [injection El as _ <-; lia|].
      destruct (getUint32 v _); [|discriminate]. injection El as _ <-. lia. }
    mred in Hr.
    assert (Hslow :
      forall s, for_lt n
           (fun _ '(innerOffset, array, fieldOutput) =>
              '(n0, fieldOutput) ← readNonArrayField S H naked fd
                                     (Msgdef.namespaces def) v
                                     (offset + innerOffset) fieldOutput;
              elem ← get_prop (VObject fieldOutput) (Field.name fd);
              Ok (innerOffset + n0, array ++ [elem], fieldOutput))
           (i0, [], ∅) = Ok s -> io <= fst (fst s)).
    { intros s. unfold for_lt. apply (loop_inv (fun s => io <= fst (fst s))); [|exact Hi0].
      intros _ [[i1 arr] fo] r1 Hi1 Hb. cbn [fst] in *.
      destruct (readNonArrayField S H naked fd _ v _ fo) as [[k fo']|e] eqn:Er;
        [|discriminate].
      apply readNonArrayField_consumed in Er. mred in Hb.
      destruct (get_prop _ _); [|discriminate]. injection Hb as <-. cbn [fst]. lia. }
    destruct (tag_of (Field.type fd)) as [[]|]; cbn [typed_kind] in Hr;
      try (destruct (for_lt n _ (i0, [], ∅)) as [[[i1 arr] fo]|e] eqn:Ef in Hr;
           [|discriminate]; apply Hslow in Ef; cbn [fst] in Ef; mred in Hr;
           destruct (inherited _); [discriminate|]; injection Hr as <- _; exact Ef);
      try (destruct (typedArray _ _ _ n) as [arr|e] eqn:Et; [|discriminate];
           rewrite typedArray_window in Et;
           destruct (uint8_window _ _ _) as [bs|e] eqn:Ew in Et; [|discriminate];
           apply uint8_window_inv in Ew as (_ & Hn & _); mred in Hr;
           destruct (inherited _); [discriminate|]; injection Hr as <- _;
           cbn [elem_size] in *; lia).
    destruct (for_lt n _ (i0, [])) as [[i1 arr]|e] eqn:Ef in Hr; [|discriminate].
    mred in Hr. destruct (inherited _); [discriminate|]. injection Hr as <- _.
    revert Ef. unfold for_lt.
    apply (loop_inv (fun s : Z * list jsvalue => io <= fst s) _ _ _ _ (i1, arr));
      [|exact Hi0].
    intros _ [i2 arr2] r1 Hi2 Hb. cbn [fst] in *.
    destruct (getUint8 v _); [|discriminate]. injection Hb as <-. cbn [fst]. lia.
  - destruct (readNonArrayField S H naked fd _ v _ out) as [[k o]|e] eqn:Er;
      [|discriminate].
    apply readNonArrayField_consumed in Er. injection Hr as <- _. lia.
Qed.

End Consumed.

Lemma naked_consumed S H : forall fuel def v off out n out',
  deserializeNakedMessage fuel S H def v off out = Ok (n, out') -> 0 <= n.
Proof.
  induction fuel as [|fuel IH]; intros def v off out n out' Hr;
    cbn [deserializeNakedMessage] in Hr; [discriminate|].
  revert Hr.
  apply (foldM_inv (fun st : Z * gmap (list Z) jsvalue => 0 <= fst st)
           _ _ (0, out) (n, out')); [|cbn; lia].
  intros [io o] fd [io' o'] Hio Hf. cbn [fst] in *.
  apply (deserializeField_consumed S H _ IH) in Hf. lia.
Qed.

(** *** The keys of the decoded object *)

Ltac crack H :=
  repeat (mred in H;
          match type of H with
          | context [match ?X with _ => _ end] =>
              lazymatch X with
              | context [match ?Y with _ => _ end] => fail
              | _ => destruct X eqn:?; try discriminate H
              end
          end).

(** Every field stores one property, under its name. *)
Lemma deserializeField_sets S H naked def v offset io out fd io' out' :
  deserializeField S H naked def v offset (io, out) fd = Ok (io', out') ->
  exists x, out' = <[Field.name fd := x]> out.
Proof.
  unfold deserializeField, readNonArrayField, readBasicType, set_prop. intros Hr.
  crack Hr; apply Ok_inj in Hr; apply pair_equal_spec in Hr as [_ <-]; eauto.
Qed.

Lemma naked_keys S H : forall fuel def v off out n out',
  deserializeNakedMessage fuel S H def v off out = Ok (n, out') ->
  forall k, is_Some (out' !! k) <->
            is_Some (out !! k) \/ k ∈ map Field.name (Msgdef.definitions def).
Proof.
  intros [|fuel] def v off out n out' Hr; cbn [deserializeNakedMessage] in Hr;
    [discriminate|].
  revert Hr. generalize 0 at 1. revert out n out'.
  induction (Msgdef.definitions def) as [|fd fds IH]; intros out n out' i Hr k;
    cbn [foldM] in Hr.
  - injection Hr as _ <-. cbn [map]. rewrite elem_of_nil. tauto.
  - destruct (deserializeField _ _ _ _ _ _ (i, out) fd) as [[i1 out1]|e] eqn:Ef;
      [|discriminate].
    mred in Hr. apply deserializeField_sets in Ef as [x ->].
    rewrite (IH _ _ _ _ Hr k). cbn [map]. rewrite elem_of_cons.
    destruct (decide (k = Field.name fd)) as [->|Hne].
    + rewrite lookup_insert_eq. split; [intros _; right; now left|].
      intros _. left. eauto.
    + rewrite lookup_insert_ne by congruence. tauto.
Qed.

(** What a successful decoding says about the offset. *)
Lemma deserializeMessage_offset S H fuel data offset m :
  deserializeMessage fuel S H data offset = Ok m ->
  0 <= default 0 offset < byteOffset data + byteLength data /\
  0 <= byteOffset data + default 0 offset /\
  default 0 offset + 24 <= byteLength data /\
  byteOffset data + byteLength data <= len (buffer data).
Proof.
  unfold deserializeMessage, deserializeMessage_with.
  set (o := default 0 offset). unfold new_DataView.
  destruct (Z.ltb_spec o 0); [discriminate|].
  destruct (Z.leb_spec (byteOffset data + byteLength data) o); [discriminate|].
  destruct (Z.leb_spec 0 (byteOffset data + o)); [|discriminate].
  destruct (Z.leb_spec 0 (byteLength data - o)); [|discriminate].
  destruct (Z.leb_spec (byteOffset data + o + (byteLength data - o))
                       (len (buffer data))); [|discriminate].
  cbn [orb andb]. mred. cbn [byteLength].
  destruct (Z.ltb_spec (byteLength data - o) 24); [discriminate|].
  intros _. lia.
Qed.

Import Examples.

(** X10.  Decoding is local: a message that [deserializeMessage] reads
    from a buffer is read, with the same result, from any buffer that
    holds the same bytes between other bytes, at the offset moved by the
    number of bytes put before.  (The typed arrays of the result are built
    by the aligned or by the copying path of [typedArray] according to the
    new offsets; their elements are the same.) *)
Theorem deserializeMessage_in_place (fuel : nat)
  (S : gmap (list Z) Msgdef.t) (H : gmap Z Msgdef.t)
  (buf pre post : list Z) (offset : option Z) (m : Message.t)
  (Hm : deserializeMessage fuel S H (whole buf) offset = Ok m) :
  deserializeMessage fuel S H (whole (pre ++ buf ++ post))
                     (Some (len pre + default 0 offset))
  = Ok m.
Proof.
  pose proof (deserializeMessage_offset _ _ _ _ _ _ Hm) as (Ho & Hbo & Hsz & Hfit).
  set (o := default 0 offset) in *.
  assert (Hm' : deserializeMessage fuel S H (whole buf) (Some o) = Ok m)
    by (destruct offset; exact Hm).
  pose proof (len_nonneg pre). pose proof (len_nonneg post).
  assert (Hbig : len (pre ++ buf ++ post) = len pre + len buf + len post)
    by (rewrite !len_app; lia).
  unfold whole in *. cbn [byteOffset byteLength buffer] in *.
  rewrite deserializeMessage_rebase in Hm'
    by (cbn [byteOffset byteLength buffer]; lia).
  rewrite deserializeMessage_rebase by (cbn [byteOffset byteLength buffer]; lia).
  cbn [byteOffset byteLength buffer] in *.
  unfold deserializeMessage in *.
  eapply deserializeMessage_within; [| |exact Hm'].
  - intros def v v' off out r. apply naked_within.
  - unfold within. cbn [byteOffset byteLength buffer].
    split; [lia|]. split; [lia|]. split; [lia|]. split; [lia|].
    exists pre, post. split; [reflexivity | lia].
Qed.

Lemma deserializeMessage_in_place_witness :
  deserializeMessage 1 (fst mapsP) (snd mapsP) (whole bufP) None = Ok decodedP /\
  deserializeMessage 1 (fst mapsP) (snd mapsP) (whole ([1; 2; 3] ++ bufP ++ [9]))
                     (Some 3)
  = Ok decodedP.
Proof.
  assert (Hm : deserializeMessage 1 (fst mapsP) (snd mapsP) (whole bufP) None
               = Ok decodedP) by (vm_compute; reflexivity).
  split; [exact Hm|].
  exact (deserializeMessage_in_place 1 (fst mapsP) (snd mapsP) bufP [1; 2; 3] [9]
           None decodedP Hm).
Defined.

(** X11.  The elements that [typedArray] returns do not depend on the
    alignment of the offset: it returns the elements read from the
    window of the buffer, and it fails with a RangeError exactly when the
    window, of the element size times the length bytes, leaves the
    buffer or has a negative length. *)
Theorem typedArray_any_alignment (k : tkind) (buf : list Z) (offset length : Z) :
  typedArray k buf offset length
  = if (0 <=? offset) && (0 <=? elem_size k * length)
       && (offset + elem_size k * length <=? len buf)
    then Ok (VTyped k (read_elems (Z.to_nat (elem_size k)) (Z.to_nat length)
                                  (slice offset (elem_size k * length) buf)))
    else Err RangeError.
Proof.
  rewrite typedArray_window. unfold uint8_window.
  now destruct (_ && _).
Qed.

(** X12.  A message that [deserializeMessage] returns lies inside the
    view: its size is at least the 24 bytes of the header and at most the
    bytes of the view from the offset on, so that the offset plus the size
    is a valid end; the view holds the magic word at the offset and the
    hash of the message 8 bytes later; the size and the variant are those
    of the word 4 bytes later, the variant being 0 or an odd number below
    16; and the type name is the name of the definition of the hash. *)
Theorem deserializeMessage_frame (fuel : nat)
  (S : gmap (list Z) Msgdef.t) (H : gmap Z Msgdef.t)
  (data : DataView) (offset : option Z) (m : Message.t)
  (Hm : deserializeMessage fuel S H data offset = Ok m) :
  let o := default 0 offset in
  0 <= o /\ 24 <= Message.size m /\ o + Message.size m <= byteLength data /\
  byteOffset data + byteLength data <= len (buffer data) /\
  getUint32 data o = Ok MAGIC /\
  (exists word, getUint32 data (o + 4) = Ok word /\
                Message.size m = size_of_word word /\
                Message.variant m = variant_of_word word) /\
  (Message.variant m = 0 \/
   (Z.odd (Message.variant m) = true /\ 0 < Message.variant m < 16 /\
    Message.size m < 2 ^ 27)) /\
  getBigUint64 data (o + 8) = Ok (Message.hashValue m) /\
  exists def, find_by_hash H (Message.hashValue m) = Ok def /\
              Message.typeName m = Msgdef.name def.
Proof.
  intros o.
  pose proof (deserializeMessage_offset _ _ _ _ _ _ Hm) as (Ho & _ & _ & Hfit).
  unfold deserializeMessage in Hm.
  apply (deserializeMessage_with_header H _ (naked_consumed S H fuel)) in Hm
    as (Hsz & Hmagic & (word & Hword & Hsize & Hvar) & Hhash & Hdef).
  fold o in Ho, Hsz, Hmagic, Hword, Hhash.
  split; [lia|]. split; [lia|]. split; [lia|]. split; [exact Hfit|].
  split; [exact Hmagic|]. split; [exists word; auto|].
  split; [rewrite Hsize, Hvar; apply variant_of_word_odd|].
  split; [exact Hhash | exact Hdef].
Qed.

Lemma deserializeMessage_frame_witness :
  deserializeMessage 1 (fst mapsP) (snd mapsP) (whole bufP) None = Ok decodedP /\
  24 <= Message.size decodedP /\
  0 + Message.size decodedP <= byteLength (whole bufP).
Proof.
  assert (Hm : deserializeMessage 1 (fst mapsP) (snd mapsP) (whole bufP) None
               = Ok decodedP) by (vm_compute; reflexivity).
  split; [exact Hm|].
  destruct (deserializeMessage_frame 1 (fst mapsP) (snd mapsP) (whole bufP) None
              decodedP Hm) as (_ & Hlow & Hhigh & _).
  split; [exact Hlow | exact Hhigh].
Defined.

(** X15.  For a hash map in which no field is named like a member of
    [Object.prototype] (the assignment [message["__proto__"] = v] would
    not create a key of the object), the message object that
    [deserializeMessage] returns has exactly the field names of the
    definition of its hash as keys: every field is set, and nothing else
    is. *)
Theorem deserializeMessage_keys (fuel : nat)
  (S : gmap (list Z) Msgdef.t) (H : gmap Z Msgdef.t)
  (data : DataView) (offset : option Z) (m : Message.t)
  (Hnames : map_Forall (fun _ def =>
                          Forall (fun fd => inherited (Field.name fd) = false)
                                 (Msgdef.definitions def)) H)
  (Hm : deserializeMessage fuel S H data offset = Ok m) :
  exists def obj,
    find_by_hash H (Message.hashValue m) = Ok def /\
    Message.message m = VObject obj /\
    Forall (fun fd => inherited (Field.name fd) = false) (Msgdef.definitions def) /\
    forall k, is_Some (obj !! k) <-> k ∈ map Field.name (Msgdef.definitions def).
Proof.
  unfold deserializeMessage, deserializeMessage_with in Hm.
  crack Hm. apply Ok_inj in Hm. subst m.
  cbn [Message.hashValue Message.message].
  match goal with
  | Hn : deserializeNakedMessage _ _ _ ?d _ _ ∅ = Ok (_, ?o),
    Hf : find_by_hash _ _ = Ok ?d |- _ =>
      exists d, o; split; [exact Hf|]; split; [reflexivity|]; split;
      [|intros k; rewrite (naked_keys _ _ _ _ _ _ _ _ _ Hn k), lookup_empty;
        split; [intros [[? [=]]|Hk]; exact Hk | auto]];
      unfold find_by_hash in Hf
  end.
  match goal with
  | Hf : (if ?c then _ else _) = Ok _ |- _ => destruct c
  end.
  - match goal with Hf : Ok _ = Ok _ |- _ => apply Ok_inj in Hf; subst end.
    vm_compute. repeat constructor.
  - match goal with
    | Hf : of_option (H !! ?h) _ = Ok _ |- _ =>
        destruct (H !! h) as [d'|] eqn:Hl; [|discriminate Hf];
        apply Ok_inj in Hf; subst; exact (Hnames _ _ Hl)
    end.
Qed.

Lemma deserializeMessage_keys_witness :
  map_Forall (fun _ def =>
                Forall (fun fd => inherited (Field.name fd) = false)
                       (Msgdef.definitions def)) (snd mapsP) /\
  deserializeMessage 1 (fst mapsP) (snd mapsP) (whole bufP) None = Ok decodedP /\
  exists def obj,
    find_by_hash (snd mapsP) (Message.hashValue decodedP) = Ok def /\
    Message.message decodedP = VObject obj /\
    Forall (fun fd => inherited (Field.name fd) = false) (Msgdef.definitions def) /\
    forall k, is_Some (obj !! k) <-> k ∈ map Field.name (Msgdef.definitions def).
Proof.
  assert (Hn : map_Forall (fun _ def =>
                 Forall (fun fd => inherited (Field.name fd) = false)
                        (Msgdef.definitions def)) (snd mapsP)).
  { apply map_Forall_to_list. vm_compute. repeat constructor. }
  assert (Hm : deserializeMessage 1 (fst mapsP) (snd mapsP) (whole bufP) None
               = Ok decodedP) by (vm_compute; reflexivity).
  split; [exact Hn|]. split; [exact Hm|].
  exact (deserializeMessage_keys 1 (fst mapsP) (snd mapsP) (whole bufP) None
           decodedP Hn Hm).
Defined.

Lemma get_bytes_take buf k off w :
  0 <= off -> 0 <= w -> off + w <= k -> k <= len buf ->
  get_bytes (whole (take (Z.to_nat k) buf)) off w = get_bytes (whole buf) off w.
Proof.
  intros H0 H1 H2 H3. unfold get_bytes, whole. cbn [byteLength byteOffset buffer].
  assert (Hlen : len (take (Z.to_nat k) buf) = k).
  { unfold len in *. rewrite length_take. lia. }
  rewrite Hlen.
  destruct (Z.leb_spec 0 off); [|lia].
  destruct (Z.leb_spec (off + w) k); [|lia].
  destruct (Z.leb_spec (off + w) (len buf)); [|lia].
  cbn [andb]. f_equal. unfold slice. rewrite Z.add_0_l.
  rewrite !take_drop_commute, take_take. do 2 f_equal. lia.
Qed.

(** X19.  A truncated message is not decoded: when [deserializeMessage]
    reads a message from the start of a buffer, it returns no message
    from the first [k] bytes of the buffer for any [k] below the size of
    the message. *)
Theorem deserializeMessage_truncated (fuel : nat)
  (S : gmap (list Z) Msgdef.t) (H : gmap Z Msgdef.t)
  (buf : list Z) (m : Message.t) (k : Z)
  (Hm : deserializeMessage fuel S H (whole buf) None = Ok m)
  (Hk : k < Message.size m) :
  forall m', deserializeMessage fuel S H (whole (take (Z.to_nat k) buf)) None <> Ok m'.
Proof.
  intros m' Hm'.
  unfold deserializeMessage in Hm, Hm'.
  apply (deserializeMessage_with_header H _ (naked_consumed S H fuel)) in Hm
    as (Hsz & _ & (word & Hword & Hsize & _) & _).
  apply (deserializeMessage_with_header H _ (naked_consumed S H fuel)) in Hm'
    as (Hsz' & _ & (word' & Hword' & Hsize' & _) & _).
  cbn [default byteLength whole] in *.
  change (default 0 None) with 0 in *.
  assert (Hcut : len (take (Z.to_nat k) buf) <= Z.max 0 k).
  { unfold len. rewrite length_take. lia. }
  assert (Hfull : len (take (Z.to_nat k) buf) <= len buf).
  { unfold len. rewrite length_take. lia. }
  destruct (Z.le_gt_cases k (len buf)) as [Hin|Hout].
  - unfold getUint32 in Hword, Hword'.
    rewrite get_bytes_take in Hword' by lia.
    rewrite Hword in Hword'. injection Hword' as <-. lia.
  - lia.
Qed.

Lemma deserializeMessage_truncated_witness :
  deserializeMessage 1 (fst mapsP) (snd mapsP) (whole bufP) None = Ok decodedP /\
  deserializeMessage 1 (fst mapsP) (snd mapsP) (whole (take 28 bufP)) None
  <> Ok decodedP.
Proof.
  assert (Hm : deserializeMessage 1 (fst mapsP) (snd mapsP) (whole bufP) None
               = Ok decodedP) by (vm_compute; reflexivity).
  split; [exact Hm|].
  refine (deserializeMessage_truncated 1 (fst mapsP) (snd mapsP) bufP decodedP 28
            Hm _ decodedP).
  vm_compute. reflexivity.
Defined.

End Decode_facts.


(** ** The serializer on arbitrary messages *)

Module Encode_facts.
Import Serde Decode_facts.

Lemma same_outside_refl off n view : same_outside off n view view.
Proof. split; auto. Qed.

Lemma same_outside_weaken p k off n view view' :
  same_outside p k view view' -> off <= p -> p + k <= off + n ->
  same_outside off n view view'.
Proof.
  intros [Hl Hs] H0 H1. split; [exact Hl|]. intros i Hi. apply Hs. lia.
Qed.

Lemma same_outside_trans off n v1 v2 v3 :
  same_outside off n v1 v2 -> same_outside off n v2 v3 -> same_outside off n v1 v3.
Proof.
  intros [Hl1 Hs1] [Hl2 Hs2]. split; [congruence|].
  intros i Hi. rewrite Hs2, Hs1; auto.
Qed.

Lemma same_outside_len off n view view' :
  same_outside off n view view' -> len view' = len view.
Proof. intros [Hl _]. unfold len. now rewrite Hl. Qed.

Lemma same_outside_take off n view view' :
  same_outside off n view view' ->
  take (Z.to_nat off) view' = take (Z.to_nat off) view.
Proof.
  intros [Hl Hs]. apply list_eq. intros i.
  destruct (decide (i < Z.to_nat off)%nat) as [Hi|Hi].
  - rewrite !lookup_take_lt by exact Hi. apply Hs. lia.
  - rewrite !lookup_take_ge by lia. reflexivity.
Qed.

Lemma set_bytes_inv buf p bs buf' :
  set_bytes buf p bs = Ok buf' ->
  0 <= p /\ p + len bs <= len buf /\ same_outside p (len bs) buf buf'.
Proof.
  unfold set_bytes.
  destruct (Z.leb_spec 0 p); [|discriminate].
  destruct (Z.leb_spec (p + len bs) (len buf)); [|discriminate].
  intros [= <-]. split; [lia|]. split; [lia|].
  unfold len in *. split; [apply length_splice; lia|].
  intros i Hi. unfold splice. destruct Hi as [Hi|Hi].
  - rewrite lookup_app_l by (rewrite length_take; lia).
    apply lookup_take_lt. lia.
  - rewrite lookup_app_r by (rewrite length_take; lia).
    rewrite lookup_app_r by (rewrite length_take; lia).
    rewrite lookup_drop, length_take. f_equal. lia.
Qed.

(** The state [(a, v1)] of a loop of the serializer has moved on to
    [(c, v3)] through [(b, v2)]: the offset has not gone back, it has
    stayed inside the buffer when it has moved, and the bytes outside the
    part passed over are as before. *)
Lemma advance_trans off a v1 b v2 c v3 :
  a <= b /\ (a < b -> off + b <= len v1) /\ same_outside (off + a) (b - a) v1 v2 ->
  b <= c /\ (b < c -> off + c <= len v2) /\ same_outside (off + b) (c - b) v2 v3 ->
  a <= c /\ (a < c -> off + c <= len v1) /\ same_outside (off + a) (c - a) v1 v3.
Proof.
  intros (Hab & Ba & H1) (Hbc & Bb & H2).
  pose proof (same_outside_len _ _ _ _ H1) as Hl.
  split; [lia|]. split; [intros Hac; destruct (Z.eq_dec b c); [subst; lia | lia]|].
  apply (same_outside_trans _ _ v1 v2 v3).
  - apply (same_outside_weaken (off + a) (b - a)); [exact H1 | lia | lia].
  - apply (same_outside_weaken (off + b) (c - b)); [exact H2 | lia | lia].
Qed.

Ltac write H b E :=
  match type of H with
  | context [set_bytes ?v ?p ?bs] =>
      destruct (set_bytes v p bs) as [b|] eqn:E; [|discriminate H];
      apply set_bytes_inv in E; rewrite ?len_le_bytes in E; simpl Z.of_nat in E;
      mred in H
  end.

Section Frame.
Context (S : gmap (list Z) Msgdef.t).
Context (naked : Msgdef.t -> jsvalue -> list Z -> Z -> res (Z * list Z)).
Context (sizeOf : Msgdef.t -> jsvalue -> res Z).
Hypothesis Hnaked : forall def v view off n view',
  naked def v view off = Ok (n, view') ->
  0 <= n /\ (0 < n -> off + n <= len view) /\ same_outside off n view view'.

Lemma serializeString_frame fd value view cur n view' :
  serializeString fd value view cur = Ok (n, view') ->
  0 <= n /\ (0 < n -> cur + n <= len view) /\ same_outside cur n view view'.
Proof.
  unfold serializeString, setUint32_int. intros Hs.
  assert (Hdata : forall l v0 k v1,
            (if 0 <? l
             then _ ← uint8_window v0 (0 + cur + k) l;
                  view ← set_bytes v0 (0 + cur + k) (stringData value l);
                  Ok (k + l, view)
             else Ok (k, v0)) = Ok (n, v1) ->
            k <= n /\ (k < n -> cur + n <= len v0) /\
            same_outside (cur + k) (n - k) v0 v1).
  { intros l v0 k v1 Hd. destruct (Z.ltb_spec 0 l).
    - destruct (uint8_window v0 _ l) as [w|e] eqn:Ew; [|discriminate]. mred in Hd.
      apply uint8_window_inv in Ew as (_ & _ & Hfit & _).
      destruct (set_bytes v0 _ _) as [v2|e] eqn:Eb; [|discriminate].
      injection Hd as <- <-. apply set_bytes_inv in Eb as (_ & _ & Eb).
      pose proof (Serde_facts.len_stringData value l ltac:(lia)).
      pose proof (len_nonneg (stringData value l)).
      split; [lia|]. split; [lia|]. apply (same_outside_weaken _ _ _ _ _ _ Eb); lia.
    - injection Hd as <- <-. split; [lia|]. split; [lia|]. apply same_outside_refl. }
  destruct (Field.upperBound fd) as [l|].
  - mred in Hs. apply Hdata in Hs as (Hn & Hb & Hs).
    split; [lia|]. split; [lia|]. apply (same_outside_weaken _ _ _ _ _ _ Hs); lia.
  - write Hs v0 Eb. destruct Eb as (_ & Hfit & Eb).
    pose proof (same_outside_len _ _ _ _ Eb) as Hl.
    apply Hdata in Hs as (Hn & Hb & Hs). split; [lia|].
    split; [intros _; destruct (Z.eq_dec n 4); [lia | lia]|].
    apply (same_outside_trans _ _ view v0 view').
    + apply (same_outside_weaken _ _ _ _ _ _ Eb); lia.
    + apply (same_outside_weaken _ _ _ _ _ _ Hs); lia.
Qed.

Lemma serializeNonArrayField_frame ns fd value view cur n view' :
  serializeNonArrayField S naked sizeOf ns fd value view cur = Ok (n, view') ->
  0 <= n /\ (0 < n -> cur + n <= len view) /\ same_outside cur n view view'.
Proof.
  unfold serializeNonArrayField. intros Hs.
  destruct (Field.isComplex fd).
  - destruct (lookupMsgdef S ns (Field.type fd)) as [def|e]; [|discriminate].
    mred in Hs. destruct (Msgdef.isNakedStruct def); cbn [negb] in Hs.
    + mred in Hs. destruct (naked def value view (cur + 0)) as [[k v1]|e] eqn:En;
        [|discriminate].
      injection Hs as <- <-. apply Hnaked in En as (Hk & Hb & En).
      split; [lia|]. split; [lia|].
      apply (same_outside_weaken _ _ _ _ _ _ En); lia.
    + destruct (sizeOf def value) as [nestedSize|e]; [|discriminate]. mred in Hs.
      unfold setUint32_int, setBigUint64, setFloat64 in Hs.
      write Hs b1 E1. write Hs b2 E2. write Hs b3 E3. write Hs b4 E4.
      destruct E1 as (_ & _ & E1). destruct E2 as (_ & _ & E2).
      destruct E3 as (_ & _ & E3). destruct E4 as (_ & Hfit & E4).
      pose proof (same_outside_len _ _ _ _ E1). pose proof (same_outside_len _ _ _ _ E2).
      pose proof (same_outside_len _ _ _ _ E3). pose proof (same_outside_len _ _ _ _ E4).
      destruct (naked def value _ (cur + 24)) as [[k v1]|e] eqn:En; [|discriminate].
      injection Hs as <- <-. apply Hnaked in En as (Hk & Hb & En).
      split; [lia|]. split; [destruct (Z.eq_dec k 0); lia|].
      apply (same_outside_trans _ _ view b1);
        [apply (same_outside_weaken _ _ _ _ _ _ E1); lia|].
      apply (same_outside_trans _ _ b1 b2);
        [apply (same_outside_weaken _ _ _ _ _ _ E2); lia|].
      apply (same_outside_trans _ _ b2 b3);
        [apply (same_outside_weaken _ _ _ _ _ _ E3); lia|].
      apply (same_outside_trans _ _ b3 b4);
        [apply (same_outside_weaken _ _ _ _ _ _ E4); lia|].
      apply (same_outside_weaken _ _ _ _ _ _ En); lia.
  - destruct (tag_of (Field.type fd)) as [[]|]; [..|discriminate];
      try (now apply serializeString_frame in Hs);
      unfold setUint8, setInt8, setUint16, setInt16, setUint32, setInt32, setFloat32,
        setFloat64, setBigUint64, setBigInt64, setUint8, setUint16, setUint32,
        setBigUint64 in Hs;
      try (destruct (getBigInt value); [|discriminate]; mred in Hs);
      write Hs b E; injection Hs as <- <-; destruct E as (_ & Hfit & E);
      (split; [lia|]); (split; [lia | exact E]).
Qed.

Lemma serializeField_frame def message offset io view fd io' view' :
  serializeField S naked sizeOf def message offset (io, view) fd = Ok (io', view') ->
  io <= io' /\ (io < io' -> offset + io' <= len view) /\
  same_outside (offset + io) (io' - io) view view'.
Proof.
  unfold serializeField. intros Hs.
  destruct (get_prop message (Field.name fd)) as [v|e]; [|discriminate]. mred in Hs.
  assert (Hone : forall value i0 v0 i1 v1,
            ('(n, view) ← serializeNonArrayField S naked sizeOf (Msgdef.namespaces def)
                             fd value v0 (offset + i0);
             Ok (i0 + n, view)) = Ok (i1, v1) ->
            i0 <= i1 /\ (i0 < i1 -> offset + i1 <= len v0) /\
            same_outside (offset + i0) (i1 - i0) v0 v1).
  { intros value i0 v0 i1 v1 Ho. mred in Ho.
    destruct (serializeNonArrayField S naked sizeOf (Msgdef.namespaces def) fd value
                v0 (offset + i0)) as [[k v2]|e] eqn:Ef;
      [|discriminate].
    injection Ho as <- <-. apply serializeNonArrayField_frame in Ef as (Hk & Hb & Ef).
    split; [lia|]. split; [lia|]. apply (same_outside_weaken _ _ _ _ _ _ Ef); lia. }
  destruct (Field.isArray fd); [|now apply Hone in Hs].
  destruct (match Field.arrayLength fd with Some l => _ | None => _ end)
    as [[[n i0] v0]|e] eqn:El; [|discriminate].
  assert (H0 : io <= i0 /\ (io < i0 -> offset + i0 <= len view) /\
               same_outside (offset + io) (i0 - io) view v0).
  { destruct (Field.arrayLength fd).
    - injection El as _ <- <-. split; [lia|]. split; [lia|]. apply same_outside_refl.
    - unfold setUint32_int in El. write El b E. injection El as _ <- <-.
      destruct E as (_ & Hfit & E).
      split; [lia|]. split; [lia|]. apply (same_outside_weaken _ _ _ _ _ _ E); lia. }
  mred in Hs. revert Hs. unfold for_lt.
  apply (loop_inv (fun s : Z * list Z =>
                     io <= fst s /\ (io < fst s -> offset + fst s <= len view) /\
                     same_outside (offset + io) (fst s - io) view (snd s))
           _ _ _ (i0, v0) (io', view')); [|exact H0].
  intros i [i1 v1] [i2 v2] Hi Hb. cbn [fst snd] in *.
  apply Hone in Hb. now apply (advance_trans offset io view i1 v1 i2 v2).
Qed.

End Frame.

Lemma serializeNakedMessage_frame S : forall fuel def v view off n view',
  serializeNakedMessage fuel S def v view off = Ok (n, view') ->
  0 <= n /\ (0 < n -> off + n <= len view) /\ same_outside off n view view'.
Proof.
  induction fuel as [|fuel IH]; intros def v view off n view' Hs;
    cbn [serializeNakedMessage] in Hs; [discriminate|].
  revert Hs.
  apply (foldM_inv (fun st : Z * list Z =>
                      0 <= fst st /\ (0 < fst st -> off + fst st <= len view) /\
                      same_outside off (fst st) view (snd st))
           _ _ (0, view) (n, view')).
  - intros [i1 v1] fd [i2 v2] (Hi1 & Hb1 & H1) Hf. cbn [fst snd] in *.
    apply (serializeField_frame S _ _ (IH)) in Hf.
    destruct (advance_trans off 0 view i1 v1 i2 v2) as (Hle & Hb & Hs); auto.
    + split; [lia|]. split; [exact Hb1|]. now rewrite Z.add_0_r, Z.sub_0_r.
    + split; [lia|]. split; [exact Hb|]. now rewrite Z.add_0_r, Z.sub_0_r in Hs.
  - cbn [fst snd]. split; [lia|]. split; [lia|]. apply same_outside_refl.
Qed.

(** *** Properties that no field names *)

Lemma foldM_ext_in {A B} (f g : B -> A -> res B) l :
  (forall b a, a ∈ l -> f b a = g b a) -> forall b, foldM f b l = foldM g b l.
Proof.
  induction l as [|a l IH]; intros Hfg b; cbn [foldM]; [reflexivity|].
  rewrite Hfg by (now left). destruct (g b a); [|reflexivity].
  apply IH. intros b' a' Ha'. apply Hfg. now right.
Qed.

Lemma get_prop_other m (k : list Z) x name :
  name <> k -> get_prop (VObject (<[k := x]> m)) name = get_prop (VObject m) name.
Proof. intros Hne. unfold get_prop. now rewrite lookup_insert_ne by congruence. Qed.

Lemma naked_ignores S def m k x :
  k ∉ map Field.name (Msgdef.definitions def) ->
  forall fuel,
    (forall view off,
       serializeNakedMessage fuel S def (VObject (<[k := x]> m)) view off
       = serializeNakedMessage fuel S def (VObject m) view off) /\
    serializedNakedMessageSize fuel S def (VObject (<[k := x]> m))
    = serializedNakedMessageSize fuel S def (VObject m).
Proof.
  intros Hk [|fuel]; [split; reflexivity|].
  assert (Hne : forall fd, fd ∈ Msgdef.definitions def -> Field.name fd <> k).
  { intros fd Hfd E. apply Hk. rewrite <- E. apply list_elem_of_fmap. eauto. }
  split; [intros view off|]; cbn [serializeNakedMessage serializedNakedMessageSize];
    apply foldM_ext_in; intros st fd Hfd.
  - unfold serializeField. destruct st as [io v0].
    now rewrite (get_prop_other m k x (Field.name fd)) by (now apply Hne).
  - unfold sizeField. now rewrite (get_prop_other m k x (Field.name fd)) by (now apply Hne).
Qed.

Import Examples.

(** X13.  [serializeNakedMessage] writes only where it says: when it
    returns [n], then [n] is not negative, the offset plus [n] is inside
    the buffer unless [n] is 0, the buffer has kept its length, and every
    byte before the offset or from the offset plus [n] on is unchanged. *)
Theorem serializeNakedMessage_writes_inside (fuel : nat)
  (S : gmap (list Z) Msgdef.t) (def : Msgdef.t) (v : jsvalue)
  (view : list Z) (off n : Z) (view' : list Z)
  (Hs : serializeNakedMessage fuel S def v view off = Ok (n, view')) :
  0 <= n /\ (0 < n -> off + n <= len view) /\ same_outside off n view view'.
Proof. exact (serializeNakedMessage_frame S fuel def v view off n view' Hs). Qed.

Lemma serializeNakedMessage_writes_inside_witness :
  serializeNakedMessage 1 (fst mapsP) defP valueP (zeros 10) 2
  = Ok (5, [0; 0; 7; 1; 0; 3; 2; 0; 0; 0]) /\
  same_outside 2 5 (zeros 10) [0; 0; 7; 1; 0; 3; 2; 0; 0; 0].
Proof.
  assert (Hs : serializeNakedMessage 1 (fst mapsP) defP valueP (zeros 10) 2
               = Ok (5, [0; 0; 7; 1; 0; 3; 2; 0; 0; 0])) by (vm_compute; reflexivity).
  split; [exact Hs|].
  exact (proj2 (proj2 (serializeNakedMessage_writes_inside _ _ _ _ _ _ _ _ Hs))).
Defined.

(** The four stores of the header into a fresh buffer. *)
Lemma header_stored size hash ts b4 :
  (view ← setUint32_int (zeros size) 0 1447317076;
   view ← setUint32_int view (0 + 4) size;
   view ← setBigUint64 view (0 + 4 + 4) hash;
   setFloat64 view (0 + 4 + 4 + 8) ts) = Ok b4 ->
  24 <= size /\ b4 = Wire.header size hash ts ++ zeros (size - 24).
Proof.
  unfold setUint32_int, setBigUint64, setFloat64. intros Hh.
  assert (Hsize : 24 <= size).
  { write Hh b1 E1. write Hh b2 E2. write Hh b3 E3.
    apply set_bytes_inv in Hh as (_ & Hfit & _). rewrite len_le_bytes in Hfit.
    destruct E1 as (_ & _ & E1). destruct E2 as (_ & _ & E2).
    destruct E3 as (_ & _ & E3).
    apply same_outside_len in E1, E2, E3. rewrite len_zeros in E1.
    change (Z.of_nat 8) with 8 in Hfit. lia. }
  split; [exact Hsize|]. revert Hh.
  rewrite (set_bytes_at [] _ size) by (len_simpl; lia). mred.
  rewrite set_bytes_at by (len_simpl; lia). mred.
  rewrite set_bytes_at by (len_simpl; lia). mred.
  rewrite set_bytes_at by (len_simpl; lia).
  intros Hb4. apply Ok_inj in Hb4. subst b4.
  unfold Wire.header. rewrite !len_le_bytes.
  change (Z.of_nat 4) with 4. change (Z.of_nat 8) with 8.
  cbn [app]. rewrite <- !app_assoc. change MAGIC with 1447317076.
  replace (size - 4 - 4 - 8 - 8) with (size - 24) by lia. reflexivity.
Qed.

(** X14.  The buffer that [serializeMessage] returns has the length that
    [serializedMessageSize] computes, which is at least 24; it starts with
    the header (the magic word, the size, the hash of the definition of
    the type name and the timestamp, little-endian); and the number of
    bytes written, header included, is between 24 and that size:
    [serializeMessage] never returns a buffer that it has overrun. *)
Theorem serializeMessage_sized (fuel : nat) (S : gmap (list Z) Msgdef.t)
  (msg : MessageData.t) (buf : list Z) (curOffset : Z)
  (Hs : serializeMessage_run fuel S msg = Ok (buf, curOffset)) :
  serializeMessage fuel S msg = Ok buf /\
  exists def size,
    find_msgdef S (MessageData.typeName msg) = Ok def /\
    serializedMessageSize fuel S msg = Ok size /\
    len buf = size /\ 24 <= curOffset <= size /\
    take 24 buf = Wire.header size (Msgdef.hashValue def) (MessageData.timestamp msg).
Proof.
  split; [unfold serializeMessage; now rewrite Hs|].
  unfold serializeMessage_run in Hs.
  destruct (find_msgdef S (MessageData.typeName msg)) as [def|e]; [|discriminate].
  destruct (serializedMessageSize fuel S msg) as [size|e]; [|discriminate].
  mred in Hs. unfold new_ArrayBuffer in Hs.
  destruct (Z.ltb_spec size 0); [discriminate|].
  destruct (view ← setUint32_int (zeros size) 0 1447317076;
            view ← setUint32_int view (0 + 4) size;
            view ← setBigUint64 view (0 + 4 + 4) (Msgdef.hashValue def);
            setFloat64 view (0 + 4 + 4 + 8) (MessageData.timestamp msg))
    as [b4|e] eqn:Eh.
  - pose proof (header_stored _ _ _ _ Eh) as [Hsize ->]. mred in Eh.
    destruct (setUint32_int (zeros size) 0 1447317076) as [b1|]; [|discriminate].
    destruct (setUint32_int b1 (0 + 4) size) as [b2|]; [|discriminate].
    destruct (setBigUint64 b2 (0 + 4 + 4) _) as [b3|]; [|discriminate].
    rewrite Eh in Hs.
    destruct (serializeNakedMessage fuel S def _ _ _) as [[n view']|e] eqn:En;
      [|discriminate].
    injection Hs as <- <-.
    apply serializeNakedMessage_frame in En as (Hn & Hb & En).
    set (hdr := Wire.header size (Msgdef.hashValue def) (MessageData.timestamp msg))
      in *.
    assert (Hhdr : len hdr = 24).
    { unfold hdr, Wire.header. rewrite !len_app, !len_le_bytes. reflexivity. }
    assert (Hlen : len (hdr ++ zeros (size - 24)) = size)
      by (rewrite len_app, len_zeros; lia).
    exists def, size. split; [reflexivity|]. split; [reflexivity|].
    split; [rewrite (same_outside_len _ _ _ _ En); exact Hlen|].
    split; [destruct (Z.eq_dec n 0); lia|].
    change 24%nat with (Z.to_nat (0 + 4 + 4 + 8 + 8)).
    rewrite (same_outside_take _ _ _ _ En).
    change (Z.to_nat (0 + 4 + 4 + 8 + 8)) with 24%nat.
    apply take_app_length'. apply Nat2Z.inj. exact Hhdr.
  - exfalso. mred in Eh.
    destruct (setUint32_int (zeros size) 0 1447317076) as [b1|]; [|discriminate].
    destruct (setUint32_int b1 (0 + 4) size) as [b2|]; [|discriminate].
    destruct (setBigUint64 b2 (0 + 4 + 4) _) as [b3|]; [|discriminate].
    rewrite Eh in Hs. discriminate.
Qed.

Lemma serializeMessage_sized_witness :
  parse 1 textP = Ok [defP] /\
  serializeMessage_run 1 (fst mapsP) msgP = Ok (bufP, 29) /\
  serializeMessage 1 (fst mapsP) msgP = Ok bufP.
Proof.
  assert (Hs : serializeMessage_run 1 (fst mapsP) msgP = Ok (bufP, 29))
    by (vm_compute; reflexivity).
  split; [vm_compute; reflexivity|]. split; [exact Hs|].
  exact (proj1 (serializeMessage_sized 1 (fst mapsP) msgP bufP 29 Hs)).
Defined.

(** X16.  A property of the message object that is not a field of the
    definition of the type name is ignored: the computed size and the
    serialized buffer (or the error) are the same with and without it. *)
Theorem serializeMessage_ignores_unknown (fuel : nat) (S : gmap (list Z) Msgdef.t)
  (typeName : list Z) (ts : number) (m : gmap (list Z) jsvalue)
  (k : list Z) (x : jsvalue) (def : Msgdef.t)
  (Hdef : find_msgdef S typeName = Ok def)
  (Hk : k ∉ map Field.name (Msgdef.definitions def)) :
  serializedMessageSize fuel S (MessageData.mk typeName ts (VObject (<[k := x]> m)))
  = serializedMessageSize fuel S (MessageData.mk typeName ts (VObject m)) /\
  serializeMessage fuel S (MessageData.mk typeName ts (VObject (<[k := x]> m)))
  = serializeMessage fuel S (MessageData.mk typeName ts (VObject m)).
Proof.
  destruct (naked_ignores S def m k x Hk fuel) as [Hw Hsz].
  assert (Hsize :
    serializedMessageSize fuel S (MessageData.mk typeName ts (VObject (<[k := x]> m)))
    = serializedMessageSize fuel S (MessageData.mk typeName ts (VObject m))).
  { unfold serializedMessageSize.
    cbn [MessageData.message MessageData.typeName typeof].
    rewrite Hdef. mred. now rewrite Hsz. }
  split; [exact Hsize|].
  unfold serializeMessage, serializeMessage_run.
  rewrite Hsize. clear Hsize.
  cbn [MessageData.message MessageData.typeName MessageData.timestamp].
  rewrite Hdef. mred.
  destruct (serializedMessageSize fuel S _) as [size|e]; [|reflexivity].
  destruct (new_ArrayBuffer size) as [b0|e]; [|reflexivity].
  destruct (setUint32_int b0 0 1447317076) as [b1|e]; [|reflexivity].
  destruct (setUint32_int b1 (0 + 4) size) as [b2|e]; [|reflexivity].
  destruct (setBigUint64 b2 (0 + 4 + 4) _) as [b3|e]; [|reflexivity].
  destruct (setFloat64 b3 (0 + 4 + 4 + 8) ts) as [b4|e]; [|reflexivity].
  now rewrite Hw.
Qed.

Lemma serializeMessage_ignores_unknown_witness :
  find_msgdef (fst mapsP) (js "p") = Ok defP /\
  serializeMessage 1 (fst mapsP)
    (MessageData.mk (js "p") (of_Z 0)
       (VObject (<[js "extra" := num 1]>
                   (list_to_map [(js "n", num 7); (js "v", VTyped KUint16 [1; 515])]))))
  = serializeMessage 1 (fst mapsP)
      (MessageData.mk (js "p") (of_Z 0)
         (VObject (list_to_map [(js "n", num 7); (js "v", VTyped KUint16 [1; 515])]))).
Proof.
  assert (Hdef : find_msgdef (fst mapsP) (js "p") = Ok defP) by (vm_compute; reflexivity).
  split; [exact Hdef|].
  refine (proj2 (serializeMessage_ignores_unknown 1 (fst mapsP) (js "p") (of_Z 0) _
                   (js "extra") (num 1) defP Hdef _)).
  vm_compute. intros Hin.
  repeat (apply elem_of_cons in Hin as [Hin|Hin]; [discriminate Hin|]).
  now apply elem_of_nil in Hin.
Defined.

End Encode_facts.


(** ** Plain texts *)

Module Plain_text_facts.
Import Preprocess.

Lemma stripLineComments_cons c t :
  c <> 47 -> stripLineComments false (c :: t) = c :: stripLineComments false t.
Proof.
  intros Hc. cbn [stripLineComments]. destruct c as [|p|p]; try reflexivity.
  do 6 (destruct p as [p|p|]; try reflexivity). congruence.
Qed.

Lemma stripBlockComments_cons fuel c t :
  c <> 47 ->
  stripBlockComments (S fuel) (c :: t) = c :: stripBlockComments fuel t.
Proof.
  intros Hc. cbn [stripBlockComments]. destruct c as [|p|p]; try reflexivity.
  do 6 (destruct p as [p|p|]; try reflexivity). congruence.
Qed.

Lemma stripLineComments_plain s : 47 ∉ s -> stripLineComments false s = s.
Proof.
  induction s as [|c t IH]; intros Hs; [reflexivity|].
  rewrite not_elem_of_cons in Hs. destruct Hs as [Hc Ht].
  rewrite stripLineComments_cons by congruence. now rewrite IH.
Qed.

Lemma stripBlockComments_plain fuel : forall s, 47 ∉ s -> stripBlockComments fuel s = s.
Proof.
  induction fuel as [|fuel IH]; intros s Hs; [reflexivity|].
  destruct s as [|c t]; [reflexivity|].
  rewrite not_elem_of_cons in Hs. destruct Hs as [Hc Ht].
  rewrite stripBlockComments_cons by congruence. now rewrite IH.
Qed.

Lemma matchHere_plain c t : c <> 35 -> matchHere (c :: t) = None.
Proof.
  intros Hc. unfold matchHere.
  replace (is_prefix IMPORT (c :: t)) with false; [reflexivity|].
  change IMPORT with (35 :: js "import"). cbn [is_prefix].
  destruct (Z.eqb_spec 35 c); [congruence | reflexivity].
Qed.

Lemma importStatements_plain fuel : forall s, 35 ∉ s -> importStatements fuel s = [].
Proof.
  induction fuel as [|fuel IH]; intros s Hs; [reflexivity|]. cbn [importStatements].
  destruct s as [|c t]; [reflexivity|].
  rewrite not_elem_of_cons in Hs. destruct Hs as [Hc Ht].
  rewrite matchHere_plain by congruence. now apply IH.
Qed.

(** X18.  A text without the characters [/] and [#] has no comment and
    no import: [preprocess] returns it unchanged, whatever the mapping of
    the imports. *)
Theorem preprocess_plain (text : list Z) (importedDefinitions : gmap (list Z) (list Z))
  (Hslash : 47 ∉ text) (Hhash : 35 ∉ text) :
  preprocess text importedDefinitions = Ok text.
Proof.
  unfold preprocess. cbn [preprocessRecursive].
  assert (Hclean : stripComments text = text).
  { unfold stripComments. rewrite stripLineComments_plain by exact Hslash.
    now apply stripBlockComments_plain. }
  rewrite Hclean, importStatements_plain by exact Hhash. reflexivity.
Qed.

Lemma preprocess_plain_witness :
  (47 ∉ Examples.textXY) /\ (35 ∉ Examples.textXY) /\
  preprocess Examples.textXY ∅ = Ok Examples.textXY.
Proof.
  assert (Hslash : 47 ∉ Examples.textXY)
    by (apply (bool_decide_unpack _); vm_compute; exact I).
  assert (Hhash : 35 ∉ Examples.textXY)
    by (apply (bool_decide_unpack _); vm_compute; exact I).
  split; [exact Hslash|]. split; [exact Hhash|].
  exact (preprocess_plain Examples.textXY ∅ Hslash Hhash).
Defined.

End Plain_text_facts.


(** ** The bytes that a decoding needs *)

Module Cut_facts.
Import Serde Decode_facts.

Lemma slice_take off w k buf :
  0 <= off -> 0 <= w -> off + w <= k ->
  slice off w (take (Z.to_nat k) buf) = slice off w buf.
Proof.
  intros H0 H1 H2. unfold slice.
  rewrite !take_drop_commute, take_take. do 2 f_equal. lia.
Qed.

Lemma get_cut {A} (f : list Z -> A) v L off w r :
  0 <= byteOffset v -> L <= byteLength v ->
  f <$> get_bytes v off w = Ok r -> 0 <= w -> off + w <= L ->
  f <$> get_bytes (cut L v) off w = Ok r.
Proof.
  intros Hbo HL Hr Hw Hfit. revert Hr. unfold get_bytes, cut.
  cbn [byteLength byteOffset buffer].
  destruct (Z.leb_spec 0 off); [|discriminate].
  destruct (Z.leb_spec (off + w) (byteLength v)); [|discriminate].
  destruct (Z.leb_spec (off + w) L); [|lia].
  cbn [andb]. rewrite slice_take by lia. auto.
Qed.

Lemma window_cut v L p n bs :
  uint8_window (buffer v) p n = Ok bs -> p + n <= byteOffset v + L ->
  uint8_window (buffer (cut L v)) p n = Ok bs.
Proof.
  intros Hw Hfit. apply uint8_window_inv in Hw as (H0 & H1 & H2 & ->).
  cbn [cut buffer].
  rewrite uint8_window_ok; [now rewrite slice_take by lia | lia | lia |].
  unfold len in *. rewrite length_take. lia.
Qed.

Lemma typedArray_cut k v L p n arr :
  typedArray k (buffer v) p n = Ok arr -> p + elem_size k * n <= byteOffset v + L ->
  typedArray k (buffer (cut L v)) p n = Ok arr.
Proof.
  rewrite !typedArray_window. intros Ht Hfit.
  destruct (uint8_window (buffer v) p _) as [bs|e] eqn:Hw; [|discriminate].
  now rewrite (window_cut v L p _ bs Hw Hfit).
Qed.

(** A loop whose position never goes back runs the same on a view that
    reaches its last position. *)
Lemma loop_cut {S} (pos : S -> Z) (B : Z) (body body' : Z -> S -> res S) n :
  (forall i s r, body i s = Ok r -> pos s <= pos r) ->
  (forall i s r, body i s = Ok r -> pos r <= B -> body' i s = Ok r) ->
  forall i s r, loop n i body s = Ok r -> pos r <= B -> loop n i body' s = Ok r.
Proof.
  intros Hmono Hstep. induction n as [|n IH]; intros i s r Hl HB; cbn [loop] in *;
    [exact Hl|].
  destruct (body i s) as [s1|e] eqn:E; [|discriminate]. mred in Hl.
  assert (Hle : pos s1 <= pos r).
  { revert Hl. apply (loop_inv (fun x => pos s1 <= pos x)); [|lia].
    intros j a b Ha Hb. apply Hmono in Hb. lia. }
  rewrite (Hstep _ _ _ E) by lia. mred. now apply IH.
Qed.

Lemma foldM_cut {A S} (pos : S -> Z) (B : Z) (f f' : S -> A -> res S) l :
  (forall s a r, f s a = Ok r -> pos s <= pos r) ->
  (forall s a r, f s a = Ok r -> pos r <= B -> f' s a = Ok r) ->
  forall s r, foldM f s l = Ok r -> pos r <= B -> foldM f' s l = Ok r.
Proof.
  intros Hmono Hstep. induction l as [|a l IH]; intros s r Hl HB; cbn [foldM] in *;
    [exact Hl|].
  destruct (f s a) as [s1|e] eqn:E; [|discriminate]. mred in Hl.
  assert (Hle : pos s1 <= pos r).
  { revert Hl. apply (foldM_inv (fun x => pos s1 <= pos x)); [|lia].
    intros b c d Hb Hd. apply Hmono in Hd. lia. }
  rewrite (Hstep _ _ _ E) by lia. mred. now apply IH.
Qed.

(** One read of a scalar: the getter [g] at [o], then the property. *)
Ltac scalar_cut g Hr Hbo HL :=
  match type of Hr with
  | context [g ?v ?o] =>
      let x := fresh "x" in
      let E := fresh "E" in
      let Hinh := fresh "Hinh" in
      destruct (g v o) as [x|] eqn:E; [|discriminate Hr];
      destruct (inherited _) eqn:Hinh; [discriminate Hr|];
      apply Ok_inj in Hr; apply pair_equal_spec in Hr as [<- <-];
      match goal with
      | |- context [g (cut ?L v) o] =>
          let E' := fresh "E" in
          assert (E' : g (cut L v) o = Ok x)
            by (unfold g in E |- *; apply (get_cut _ _ _ _ _ _ Hbo HL E); lia);
          rewrite E'; reflexivity
      end
  end.

Ltac read_cut g H x E Hbo HL :=
  match type of H with
  | context [g ?v ?o] =>
      destruct (g v o) as [x|] eqn:E; [|discriminate H];
      match goal with
      | |- context [g (cut ?L v) o] =>
          let E' := fresh "E" in
          assert (E' : g (cut L v) o = Ok x)
            by (unfold g in E |- *; apply (get_cut _ _ _ _ _ _ Hbo HL E); lia);
          rewrite E'; clear E'
      end
  end.

Section Cut.
Context (S : gmap (list Z) Msgdef.t) (H : gmap Z Msgdef.t).
Context (naked : Msgdef.t -> DataView -> Z -> gmap (list Z) jsvalue ->
                 res (Z * gmap (list Z) jsvalue)).
Hypothesis Hconsumed : forall def v off out n out',
  naked def v off out = Ok (n, out') -> 0 <= n.
Hypothesis Hnaked : forall def v L off out n out',
  0 <= byteOffset v -> L <= byteLength v ->
  naked def v off out = Ok (n, out') -> off + n <= L ->
  naked def (cut L v) off out = Ok (n, out').

Lemma readBasicType_cut v L off out fd n out' :
  0 <= byteOffset v -> L <= byteLength v ->
  readBasicType v off out fd = Ok (n, out') -> off + n <= L ->
  readBasicType (cut L v) off out fd = Ok (n, out').
Proof.
  intros Hbo HL Hr Hfit.
  unfold readBasicType, set_prop in *. mred. mred in Hr.
  destruct (tag_of (Field.type fd)) as [[]|]; [..|discriminate];
    try (first [ scalar_cut getUint8 Hr Hbo HL | scalar_cut getInt8 Hr Hbo HL
               | scalar_cut getUint16 Hr Hbo HL | scalar_cut getInt16 Hr Hbo HL
               | scalar_cut getInt32 Hr Hbo HL
               | scalar_cut getBigUint64 Hr Hbo HL | scalar_cut getBigInt64 Hr Hbo HL
               | scalar_cut getFloat32 Hr Hbo HL | scalar_cut getFloat64 Hr Hbo HL ]).
  - scalar_cut getUint32 Hr Hbo HL.
  - destruct (Field.upperBound fd) as [l|].
    + destruct (uint8_window (buffer v) _ l) as [bs|e] eqn:Ew; [|discriminate].
      destruct (inherited _); [discriminate|].
      apply Ok_inj in Hr. apply pair_equal_spec in Hr as [<- <-].
      change (byteOffset (cut L v)) with (byteOffset v).
      rewrite (window_cut v L _ _ _ Ew) by lia.
      reflexivity.
    + destruct (getUint32 v off) as [l|e] eqn:El; [|discriminate].
      destruct (uint8_window (buffer v) _ l) as [bs|e] eqn:Ew; [|discriminate].
      destruct (inherited _) eqn:Hinh; [discriminate|].
      apply Ok_inj in Hr. apply pair_equal_spec in Hr as [<- <-].
      pose proof (uint8_window_inv _ _ _ _ Ew) as (_ & Hl0 & _).
      assert (El' : getUint32 (cut L v) off = Ok l).
      { unfold getUint32 in *. apply (get_cut _ _ _ _ _ _ Hbo HL El); lia. }
      rewrite El'. cbv beta iota.
      change (byteOffset (cut L v)) with (byteOffset v).
      rewrite (window_cut v L _ _ _ Ew) by lia.
      reflexivity.
Qed.

Lemma deserializeMessage_cut v L offset m :
  0 <= byteOffset v -> L <= byteLength v ->
  deserializeMessage_with H naked v offset = Ok m ->
  default 0 offset + Message.size m <= L ->
  deserializeMessage_with H naked (cut L v) offset = Ok m.
Proof.
  intros Hbo HL Hm Hfit.
  pose proof (deserializeMessage_with_header H naked Hconsumed _ _ _ Hm) as (Hsz & _).
  unfold deserializeMessage_with in *. set (o := default 0 offset) in *.
  cbn [cut byteOffset byteLength buffer].
  destruct (Z.ltb_spec o 0); [discriminate|].
  destruct (Z.leb_spec (byteOffset v + byteLength v) o); [discriminate|].
  destruct (Z.leb_spec (byteOffset v + L) o); [lia|].
  cbn [orb] in *. unfold new_DataView in *.
  destruct (Z.leb_spec 0 (byteOffset v + o)); [|discriminate].
  destruct (Z.leb_spec 0 (byteLength v - o)); [|discriminate].
  destruct (Z.leb_spec (byteOffset v + o + (byteLength v - o)) (len (buffer v)));
    [|discriminate].
  destruct (Z.leb_spec 0 (L - o)); [|lia].
  assert (Hlen : len (take (Z.to_nat (byteOffset v + L)) (buffer v)) = byteOffset v + L).
  { unfold len in *. rewrite length_take. lia. }
  rewrite Hlen.
  destruct (Z.leb_spec (byteOffset v + o + (L - o)) (byteOffset v + L)); [|lia].
  cbn [andb] in *. mred. mred in Hm.
  set (w := mkView (buffer v) (byteOffset v + o) (byteLength v - o)) in *.
  replace (mkView (take (Z.to_nat (byteOffset v + L)) (buffer v))
                  (byteOffset v + o) (L - o))
    with (cut (L - o) w)
    by (unfold cut, w; cbn [byteOffset buffer]; do 3 f_equal; lia).
  assert (Hbo' : 0 <= byteOffset w) by (cbn; lia).
  assert (HL' : L - o <= byteLength w) by (cbn; lia).
  change (byteLength (cut (L - o) w)) with (L - o).
  cbn [byteLength w] in Hm.
  destruct (Z.ltb_spec (byteLength v - o) 24); [discriminate|].
  destruct (Z.ltb_spec (L - o) 24); [lia|].
  read_cut getUint32 Hm magic E1 Hbo' HL'. mred. mred in Hm.
  destruct (negb (_ =? 1447317076)); [discriminate|].
  read_cut getUint32 Hm word E2 Hbo' HL'. mred. mred in Hm.
  destruct (Z.ltb_spec (byteLength v - o) (size_of_word word)); [discriminate|].
  read_cut getBigUint64 Hm hash E3 Hbo' HL'. mred. mred in Hm.
  read_cut getFloat64 Hm ts E4 Hbo' HL'. mred. mred in Hm.
  destruct (find_by_hash H hash) as [def|e]; [|discriminate].
  destruct (naked def w _ ∅) as [[n out]|e] eqn:En; [|discriminate].
  destruct (Z.eqb_spec (0 + 4 + 4 + 8 + 8 + n) (size_of_word word)) as [Hn|];
    [|discriminate].
  cbn [negb] in Hm. apply Ok_inj in Hm. subst m. cbn [Message.size] in *.
  destruct (Z.ltb_spec (L - o) (size_of_word word)); [lia|].
  rewrite (Hnaked _ _ (L - o) _ _ _ _ Hbo' HL' En) by lia.
  destruct (Z.eqb_spec (0 + 4 + 4 + 8 + 8 + n) (size_of_word word)); [|lia].
  reflexivity.
Qed.

Lemma readNonArrayField_cut fd ns v L off out n out' :
  0 <= byteOffset v -> L <= byteLength v ->
  readNonArrayField S H naked fd ns v off out = Ok (n, out') -> off + n <= L ->
  readNonArrayField S H naked fd ns (cut L v) off out = Ok (n, out').
Proof.
  intros Hbo HL Hr Hfit. unfold readNonArrayField, set_prop in *.
  destruct (Field.isComplex fd); [|now apply readBasicType_cut].
  destruct (lookupMsgdef S ns (Field.type fd)) as [def|e]; [|discriminate].
  mred. mred in Hr. destruct (Msgdef.isNakedStruct def).
  - destruct (naked def v off ∅) as [[k o]|e] eqn:En; [|discriminate].
    destruct (inherited _); [discriminate|].
    apply Ok_inj in Hr. apply pair_equal_spec in Hr as [<- <-].
    now rewrite (Hnaked _ _ L _ _ _ _ Hbo HL En) by lia.
  - destruct (deserializeMessage_with H naked v (Some off)) as [m|e] eqn:Em;
      [|discriminate].
    destruct (inherited _); [discriminate|].
    apply Ok_inj in Hr. apply pair_equal_spec in Hr as [<- <-].
    now rewrite (deserializeMessage_cut _ L _ _ Hbo HL Em) by (cbn; lia).
Qed.

Lemma deserializeField_cut def v L offset io out fd io' out' :
  0 <= byteOffset v -> L <= byteLength v ->
  deserializeField S H naked def v offset (io, out) fd = Ok (io', out') ->
  offset + io' <= L ->
  deserializeField S H naked def (cut L v) offset (io, out) fd = Ok (io', out').
Proof.
  intros Hbo HL Hr Hfit. unfold deserializeField, set_prop in *.
  destruct (Field.isArray fd).
  - destruct (match Field.arrayLength fd with Some l => _ | None => _ end)
      as [[n i0]|e] eqn:El; [|discriminate].
    mred in Hr.
    assert (Hpre : i0 <= io' ->
              match Field.arrayLength fd with
              | Some l => Ok (l, io)
              | None => l ← getUint32 (cut L v) (offset + io); Ok (l, io + 4)
              end = Ok (n, i0)).
    { intros Hi0. destruct (Field.arrayLength fd); [exact El|].
      destruct (getUint32 v (offset + io)) as [l|e] eqn:Eg; [|discriminate].
      apply Ok_inj in El. apply pair_equal_spec in El as [<- <-].
      assert (Eg' : getUint32 (cut L v) (offset + io) = Ok l).
      { unfold getUint32 in *. apply (get_cut _ _ _ _ _ _ Hbo HL Eg); lia. }
      now rewrite Eg'. }
    assert (Hslow :
      forall i1 arr fo,
        for_lt n
           (fun _ '(innerOffset, array, fieldOutput) =>
              '(n0, fieldOutput) ← readNonArrayField S H naked fd
                                     (Msgdef.namespaces def) v
                                     (offset + innerOffset) fieldOutput;
              elem ← get_prop (VObject fieldOutput) (Field.name fd);
              Ok (innerOffset + n0, array ++ [elem], fieldOutput))
           (i0, [], ∅) = Ok (i1, arr, fo) ->
        offset + i1 <= L ->
        i0 <= i1 /\
        for_lt n
           (fun _ '(innerOffset, array, fieldOutput) =>
              '(n0, fieldOutput) ← readNonArrayField S H naked fd
                                     (Msgdef.namespaces def) (cut L v)
                                     (offset + innerOffset) fieldOutput;
              elem ← get_prop (VObject fieldOutput) (Field.name fd);
              Ok (innerOffset + n0, array ++ [elem], fieldOutput))
           (i0, [], ∅) = Ok (i1, arr, fo)).
    { intros i1 arr fo Ef Hi1. unfold for_lt in *.
      assert (Hmono : forall (i : Z) (s r : Z * list jsvalue * gmap (list Z) jsvalue),
                (let '(innerOffset, array, fieldOutput) := s in
                 '(n0, fieldOutput) ← readNonArrayField S H naked fd
                                        (Msgdef.namespaces def) v
                                        (offset + innerOffset) fieldOutput;
                 elem ← get_prop (VObject fieldOutput) (Field.name fd);
                 Ok (innerOffset + n0, array ++ [elem], fieldOutput)) = Ok r ->
                fst (fst s) <= fst (fst r)).
      { intros _ [[a b] c] r Hb. cbn [fst].
        destruct (readNonArrayField S H naked fd _ v _ c) as [[k c']|e] eqn:Er;
          [|discriminate].
        apply (readNonArrayField_consumed S H naked Hconsumed) in Er. mred in Hb.
        destruct (get_prop _ _); [|discriminate]. apply Ok_inj in Hb. subst r.
        cbn [fst]. lia. }
      split.
      - refine (loop_inv (fun s : Z * list jsvalue * gmap (list Z) jsvalue =>
                            i0 <= fst (fst s)) _ _ _ _ _ _ _ Ef); [|cbn [fst]; lia].
        intros i s r Hs Hb. apply Hmono in Hb; [lia | exact i].
      - apply (loop_cut (fun s : Z * list jsvalue * gmap (list Z) jsvalue => fst (fst s))
                 (L - offset) _ _ _ Hmono); [|exact Ef|cbn [fst]; lia].
        intros _ [[a b] c] r Hb Hr'.
        destruct (readNonArrayField S H naked fd _ v _ c) as [[k c']|e] eqn:Er;
          [|discriminate].
        mred in Hb. destruct (get_prop (VObject c') _) as [el|e] eqn:Eg; [|discriminate].
        apply Ok_inj in Hb. subst r. cbn [fst] in Hr'.
        rewrite (readNonArrayField_cut _ _ _ L _ _ _ _ Hbo HL Er) by lia.
        mred. now rewrite Eg. }
    destruct (tag_of (Field.type fd)) as [[]|]; cbn [typed_kind] in *;
      try (destruct (for_lt n _ (i0, [], ∅)) as [[[i1 arr] fo]|e] eqn:Ef in Hr;
           [|discriminate];
           destruct (inherited _) eqn:Hinh; [discriminate|];
           apply Ok_inj in Hr; apply pair_equal_spec in Hr as [<- <-];
           destruct (Hslow _ _ _ Ef Hfit) as [Hi0 Ef'];
           rewrite (Hpre Hi0); mred; mred in Ef'; rewrite Ef'; reflexivity);
      try (destruct (typedArray _ _ _ n) as [arr|e] eqn:Et; [|discriminate];
           destruct (inherited _) eqn:Hinh; [discriminate|];
           apply Ok_inj in Hr; apply pair_equal_spec in Hr as [<- <-];
           pose proof Et as Et'; rewrite typedArray_window in Et';
           destruct (uint8_window _ _ _) as [bs|e] eqn:Ew in Et'; [|discriminate];
           apply uint8_window_inv in Ew as (_ & Hn & _);
           rewrite Hpre by (cbn [elem_size] in *; lia); mred;
           change (byteOffset (cut L v)) with (byteOffset v);
           rewrite (typedArray_cut _ v L _ _ _ Et) by (cbn [elem_size] in *; lia);
           reflexivity).
    destruct (for_lt n _ (i0, [])) as [[i1 arr]|e] eqn:Ef in Hr; [|discriminate].
    destruct (inherited _) eqn:Hinh; [discriminate|].
    apply Ok_inj in Hr. apply pair_equal_spec in Hr as [<- <-].
    unfold for_lt in *.
    assert (Hmono : forall (i : Z) (s r : Z * list jsvalue),
              (let '(innerOffset, array) := s in
               b ← getUint8 v (offset + innerOffset);
               Ok (innerOffset + 1, array ++ [VBool (negb (b =? 0))])) = Ok r ->
              fst s <= fst r).
    { intros _ [a b] r Hb. destruct (getUint8 v _); [|discriminate].
      apply Ok_inj in Hb. subst r. cbn [fst]. lia. }
    assert (Hi0 : i0 <= i1).
    { refine (loop_inv (fun s : Z * list jsvalue => i0 <= fst s) _ _ _ _ _ _ _ Ef);
        [|cbn [fst]; lia].
      intros i s r Hs Hb. apply Hmono in Hb; [lia | exact i]. }
    rewrite (Hpre Hi0). mred.
    match goal with
    | |- context [loop ?k ?i ?b ?s0] =>
        assert (Ef' : loop k i b s0 = Ok (i1, arr));
        [apply (loop_cut (fun st : Z * list jsvalue => fst st) (L - offset) _ _ _ Hmono);
           [|exact Ef|cbn [fst]; lia]
        |rewrite Ef'; reflexivity]
    end.
    intros _ [a b] r Hb Hr'.
    destruct (getUint8 v (offset + a)) as [x|e] eqn:Eg; [|discriminate].
    apply Ok_inj in Hb. subst r. cbn [fst] in Hr'.
    assert (Eg' : getUint8 (cut L v) (offset + a) = Ok x).
    { unfold getUint8 in *. apply (get_cut _ _ _ _ _ _ Hbo HL Eg); lia. }
    now rewrite Eg'.
  - destruct (readNonArrayField S H naked fd _ v _ out) as [[k o]|e] eqn:Er;
      [|discriminate].
    apply Ok_inj in Hr. apply pair_equal_spec in Hr as [<- <-].
    now rewrite (readNonArrayField_cut _ _ _ L _ _ _ _ Hbo HL Er) by lia.
Qed.

End Cut.

Lemma naked_cut S H : forall fuel def v L off out n out',
  0 <= byteOffset v -> L <= byteLength v ->
  deserializeNakedMessage fuel S H def v off out = Ok (n, out') -> off + n <= L ->
  deserializeNakedMessage fuel S H def (cut L v) off out = Ok (n, out').
Proof.
  induction fuel as [|fuel IH]; intros def v L off out n out' Hbo HL Hr Hfit;
    cbn [deserializeNakedMessage] in *; [discriminate|].
  apply (foldM_cut (fun st : Z * gmap (list Z) jsvalue => fst st) (L - off)
           (deserializeField S H (deserializeNakedMessage fuel S H) def v off));
    [| |exact Hr|cbn [fst]; lia].
  - intros [i o] fd [i' o'] Hf. cbn [fst].
    apply (deserializeField_consumed S H _ (naked_consumed S H fuel)) in Hf. exact Hf.
  - intros [i o] fd [i' o'] Hf Hi. cbn [fst] in Hi.
    apply (deserializeField_cut S H _ (naked_consumed S H fuel) (IH)); auto. lia.
Qed.

Import Examples.

(** X20.  A decoding needs the bytes of the message and no more:
    a message that [deserializeMessage] reads from a buffer at an offset
    is read, with the same result, from the first [L] bytes of the buffer
    for every [L] that reaches the end of the message (the offset plus
    its size). *)
Theorem deserializeMessage_exact (fuel : nat)
  (S : gmap (list Z) Msgdef.t) (H : gmap Z Msgdef.t)
  (buf : list Z) (offset : option Z) (m : Message.t) (L : Z)
  (Hm : deserializeMessage fuel S H (whole buf) offset = Ok m)
  (HL : default 0 offset + Message.size m <= L) :
  deserializeMessage fuel S H (whole (take (Z.to_nat L) buf)) offset = Ok m.
Proof.
  destruct (Z.le_gt_cases (len buf) L) as [Hall|Hcut].
  - rewrite take_ge by (unfold len in Hall; lia). exact Hm.
  - pose proof (deserializeMessage_offset _ _ _ _ _ _ Hm) as (Ho & _).
    pose proof (deserializeMessage_with_header H _ (naked_consumed S H fuel) _ _ _ Hm)
      as (Hsz & _).
    assert (Hw : whole (take (Z.to_nat L) buf) = cut L (whole buf)).
    { unfold whole, cut. cbn [byteOffset buffer]. rewrite Z.add_0_l. f_equal.
      unfold len in *. rewrite length_take. lia. }
    rewrite Hw. unfold deserializeMessage in *.
    apply (deserializeMessage_cut H _ (naked_consumed S H fuel)); auto.
    + intros def v L0 off out n out'. apply naked_cut.
    + cbn. lia.
    + cbn. lia.
Qed.

Lemma deserializeMessage_exact_witness :
  deserializeMessage 1 (fst mapsP) (snd mapsP) (whole (bufP ++ [1; 2; 3])) None
  = Ok decodedP /\
  deserializeMessage 1 (fst mapsP) (snd mapsP)
                     (whole (take (Z.to_nat 29) (bufP ++ [1; 2; 3]))) None
  = Ok decodedP.
Proof.
  assert (Hm : deserializeMessage 1 (fst mapsP) (snd mapsP)
                 (whole (bufP ++ [1; 2; 3])) None = Ok decodedP)
    by (vm_compute; reflexivity).
  split; [exact Hm|].
  refine (deserializeMessage_exact 1 (fst mapsP) (snd mapsP) (bufP ++ [1; 2; 3]) None
            decodedP 29 Hm _).
  vm_compute. discriminate.
Defined.

End Cut_facts.

(** ** Well-formed messages fill their buffer *)

Module Fill_facts.
Import Serde Examples.

Lemma wf_Y :
  WF.message WF.plain_string 1 (fst mapsXY) (snd mapsXY) defY (object [(js "z", num 7)]).
Proof.
  exists (list_to_map [(js "z", num 7)]). split; [reflexivity|]. split.
  - intros k Hk. apply RoundTrip_facts.object_keys in Hk.
    apply list_elem_of_singleton in Hk as ->.
    eexists. split; [left | reflexivity].
  - repeat constructor. exists (num 7). split; [vm_compute; reflexivity|].
    unfold WF.field, WF.element. cbn [Field.isArray Field.isComplex Field.basic defY
      Msgdef.definitions Field.type Field.upperBound].
    replace (tag_of (js "uint32")) with (Some Uint32) by (vm_compute; reflexivity).
    exists 7. split; [|reflexivity]. exists 0, (2 ^ 32). split; [reflexivity | lia].
Qed.

Lemma wf_XY :
  WF.message WF.plain_string 2 (fst mapsXY) (snd mapsXY) defX (MessageData.message msgXY).
Proof.
  exists (list_to_map [(js "y", object [(js "z", num 7)])]).
  split; [reflexivity|]. split.
  - intros k Hk. apply RoundTrip_facts.object_keys in Hk.
    apply list_elem_of_singleton in Hk as ->.
    eexists. split; [left | reflexivity].
  - repeat constructor. exists (object [(js "z", num 7)]).
    split; [vm_compute; reflexivity|].
    exists defY. split; [|exact wf_Y]. split; [vm_compute; reflexivity|].
    intros _. split; [cbn; lia | vm_compute; reflexivity].
Qed.

(** X22.  For a message that is well formed for the struct of its type
    name, with plain strings, [serializeMessage] fills its buffer: the
    size calculation succeeds, the buffer has that size, the number of
    bytes written is that size, and the buffer is the header followed by
    the wire image of the message. *)
Theorem serializeMessage_fills (fuel depth : nat)
  (S : gmap (list Z) Msgdef.t) (H : gmap Z Msgdef.t)
  (msg : MessageData.t) (def : Msgdef.t)
  (Hdef : find_msgdef S (MessageData.typeName msg) = Ok def)
  (Hfuel : (depth <= fuel)%nat)
  (Hwf : WF.message WF.plain_string depth S H def (MessageData.message msg)) :
  exists size body,
    serializedMessageSize fuel S msg = Ok size /\
    Wire.nakedMessage fuel S def (MessageData.message msg) = Ok body /\
    size = 24 + len body /\
    serializeMessage_run fuel S msg
    = Ok (Wire.header size (Msgdef.hashValue def) (MessageData.timestamp msg) ++ body,
          size).
Proof.
  destruct (RoundTrip_facts.naked_codec S H depth fuel def _ Hfuel Hwf)
    as (bs & m & Hm & Hw & Hs & _).
  assert (Hsize : serializedMessageSize fuel S msg = Ok (24 + len bs)).
  { unfold serializedMessageSize. rewrite Hm. cbn [typeof].
    rewrite bool_decide_true by reflexivity. cbn [negb].
    rewrite Hdef. mred. rewrite <- Hm, Hs. reflexivity. }
  exists (24 + len bs), bs. split; [exact Hsize|]. split; [exact Hw|].
  split; [reflexivity|].
  rewrite (Message_facts.serializeMessage_run_wire fuel S msg def (24 + len bs) bs
             Hdef Hsize Hw ltac:(lia)).
  replace (24 + len bs - 24 - len bs) with 0 by lia.
  now rewrite (zeros_nonpos 0), app_nil_r by lia.
Qed.

Lemma serializeMessage_fills_witness :
  WF.message WF.plain_string 2 (fst mapsXY) (snd mapsXY) defX (MessageData.message msgXY) /\
  exists size body,
    serializedMessageSize 2 (fst mapsXY) msgXY = Ok size /\
    Wire.nakedMessage 2 (fst mapsXY) defX (MessageData.message msgXY) = Ok body /\
    size = 24 + len body /\
    serializeMessage_run 2 (fst mapsXY) msgXY
    = Ok (Wire.header size (Msgdef.hashValue defX) (MessageData.timestamp msgXY) ++ body,
          size).
Proof.
  split; [exact wf_XY|].
  refine (serializeMessage_fills 2 2 (fst mapsXY) (snd mapsXY) msgXY defX _ (le_n 2)
            wf_XY).
  vm_compute. reflexivity.
Defined.

End Fill_facts.


(** ** Enum values *)

Module Enum_facts.
Import Parse Examples Number_facts.

(** The number of a non-zero integer below 2^53 in magnitude. *)
Lemma of_Z_small z :
  z <> 0 -> Z.abs z < 2 ^ 53 ->
  of_Z z = F64 (pack (if z <? 0 then 1 else 0) (Z.log2 (Z.abs z) + 1023)
                     (Z.abs z * 2 ^ (52 - Z.log2 (Z.abs z)) - 2 ^ 52)).
Proof.
  intros Hne Hz. unfold of_Z.
  destruct (Z.eqb_spec z 0); [contradiction|].
  assert (Hk : Z.log2 (Z.abs z) < 53) by (apply Z.log2_lt_pow2; lia).
  destruct (Z.leb_spec (Z.log2 (Z.abs z)) 52); [reflexivity | lia].
Qed.

(** Adding one to the number of an integer gives the number of the next
    integer, from [-2^53] to [2^53]. *)
Lemma number_add_of_Z z :
  - 2 ^ 53 <= z < 2 ^ 53 -> number_add (of_Z z) (of_Z 1) = of_Z (z + 1).
Proof.
  intros Hz.
  destruct (Z.eq_dec z (- 2 ^ 53)) as [->|H1]; [vm_compute; reflexivity|].
  destruct (Z.eq_dec z (2 ^ 53 - 1)) as [->|H2]; [vm_compute; reflexivity|].
  destruct (Z.eq_dec z 0) as [->|H3]; [vm_compute; reflexivity|].
  destruct (Z.eq_dec z (- 1)) as [->|H4]; [vm_compute; reflexivity|].
  rewrite (of_Z_small z), (of_Z_small (z + 1)) by lia.
  set (s := if z <? 0 then 1 else 0).
  set (a := Z.abs z). set (k := Z.log2 a).
  set (c := Z.abs (z + 1)). set (j := Z.log2 c).
  assert (Ha : 0 < a < 2 ^ 53) by lia.
  assert (Hc : 0 < c < 2 ^ 53) by lia.
  assert (Hk : 0 <= k < 53).
  { split; [apply Z.log2_nonneg|]. apply Z.log2_lt_pow2; lia. }
  assert (Hj : 0 <= j < 53).
  { split; [apply Z.log2_nonneg|]. apply Z.log2_lt_pow2; lia. }
  destruct (Z.log2_spec a) as [Hlo Hhi]; [lia|]. fold k in Hlo, Hhi.
  rewrite Z.pow_succ_r in Hhi by lia.
  assert (Hp : 2 ^ k * 2 ^ (52 - k) = 2 ^ 52).
  { rewrite <- Z.pow_add_r by lia. f_equal. lia. }
  assert (Hq : 0 < 2 ^ (52 - k)) by (apply Z.pow_pos_nonneg; lia).
  assert (Hm : 0 <= a * 2 ^ (52 - k) - 2 ^ 52 < 2 ^ 52) by nia.
  assert (Hs : 0 <= s <= 1) by (unfold s; destruct (z <? 0); lia).
  assert (Hone : forall b : Z, b = bits_of (of_Z 1) ->
            is_nan b = false /\ is_inf b = false /\ sign b = 0 /\
            significand b = 2 ^ 52 /\ exponent b = - 52).
  { intros b ->. repeat split; vm_compute; reflexivity. }
  unfold number_add. cbn [bits_of].
  destruct (Hone _ eq_refl) as (-> & -> & -> & -> & ->). clear Hone.
  set (b := pack s (k + 1023) (a * 2 ^ (52 - k) - 2 ^ 52)).
  assert (Hnan : is_nan b = false).
  { unfold is_nan, b. rewrite pack_expo by lia.
    destruct (Z.eqb_spec (k + 1023) 2047); [lia | reflexivity]. }
  assert (Hinf : is_inf b = false).
  { unfold is_inf, b. rewrite pack_expo by lia.
    destruct (Z.eqb_spec (k + 1023) 2047); [lia | reflexivity]. }
  assert (Hsig : significand b = a * 2 ^ (52 - k)).
  { unfold significand, b. rewrite pack_expo, pack_mant by lia.
    destruct (Z.eqb_spec (k + 1023) 0); lia. }
  assert (Hexp : exponent b = k - 52).
  { unfold exponent, b. rewrite pack_expo by lia.
    destruct (Z.eqb_spec (k + 1023) 0); lia. }
  assert (Hsign : sign b = s) by (unfold b; apply pack_sign; lia).
  rewrite Hnan, Hinf, Hsig, Hexp, Hsign. cbn [orb].
  replace (Z.min (k - 52) (- 52)) with (- 52) by lia.
  replace (k - 52 - - 52) with k by lia.
  replace (- 52 - - 52) with 0 by lia.
  assert (Ht : with_sign s (a * 2 ^ (52 - k)) * 2 ^ k + with_sign 0 (2 ^ 52) * 2 ^ 0
               = (z + 1) * 2 ^ 52).
  { unfold with_sign. change (0 =? 1) with false. change (2 ^ 0) with 1.
    cbv beta iota.
    replace (a * 2 ^ (52 - k)) with (Z.abs z * 2 ^ (52 - k)) by reflexivity.
    assert (E : forall y, y * 2 ^ (52 - k) * 2 ^ k = y * 2 ^ 52)
      by (intros y; rewrite <- Hp; lia).
    unfold s. destruct (Z.ltb_spec z 0).
    - change (1 =? 1) with true. cbv beta iota.
      rewrite Z.mul_opp_l, E. lia.
    - change (0 =? 1) with false. cbv beta iota. rewrite E. lia. }
  rewrite Ht. clear Ht.
  destruct (Z.eqb_spec ((z + 1) * 2 ^ 52) 0) as [E|_]; [lia|].
  assert (Hs' : (if (z + 1) * 2 ^ 52 <? 0 then 1 else 0)
                = (if z + 1 <? 0 then 1 else 0)).
  { destruct (Z.ltb_spec ((z + 1) * 2 ^ 52) 0), (Z.ltb_spec (z + 1) 0); lia. }
  rewrite Hs'. clear Hs'.
  replace (Z.abs ((z + 1) * 2 ^ 52)) with (c * 2 ^ 52) by (unfold c; lia).
  set (s' := if z + 1 <? 0 then 1 else 0).
  unfold round_dyadic.
  rewrite Z.log2_mul_pow2 by lia. fold j.
  destruct (Z.leb_spec (- 1022) (52 + j + - 52)); [|lia].
  destruct (Z.log2_spec c) as [Hlo' Hhi']; [lia|]. fold j in Hlo', Hhi'.
  rewrite Z.pow_succ_r in Hhi' by lia.
  assert (Hp' : 2 ^ j * 2 ^ (52 - j) = 2 ^ 52).
  { rewrite <- Z.pow_add_r by lia. f_equal. lia. }
  assert (Hq' : 0 < 2 ^ (52 - j)) by (apply Z.pow_pos_nonneg; lia).
  assert (Hround : (if 52 + j <=? 52 then c * 2 ^ 52 * 2 ^ (52 - (52 + j))
                    else round_shift (c * 2 ^ 52) (52 + j - 52))
                   = c * 2 ^ (52 - j)).
  { destruct (Z.leb_spec (52 + j) 52).
    - assert (j = 0) as -> by lia. cbn. lia.
    - replace (52 + j - 52) with j by lia. unfold round_shift.
      assert (Hj0 : 0 < 2 ^ j) by (apply Z.pow_pos_nonneg; lia).
      assert (Hh : 0 < 2 ^ (j - 1)) by (apply Z.pow_pos_nonneg; lia).
      replace (c * 2 ^ 52) with (c * 2 ^ (52 - j) * 2 ^ j) by (rewrite <- Hp'; lia).
      rewrite Z.div_mul, Z.mod_mul by lia.
      destruct (Z.ltb_spec (2 ^ (j - 1)) 0); [lia|].
      destruct (Z.eqb_spec 0 (2 ^ (j - 1))); [lia|]. reflexivity. }
  rewrite Hround. clear Hround.
  destruct (Z.eqb_spec (c * 2 ^ (52 - j)) (2 ^ 53)) as [E|_]; [nia|].
  destruct (Z.ltb_spec 1023 (52 + j + - 52)); [lia|].
  f_equal. f_equal. lia.
Qed.

(** The number of an integer below 2^53 in magnitude is integral and
    denotes that integer. *)
Lemma to_exact_integer_of_Z z :
  - 2 ^ 53 < z < 2 ^ 53 -> to_exact_integer (of_Z z) = Some z.
Proof.
  intros Hz.
  destruct (Z.eq_dec z 0) as [->|Hne]; [reflexivity|].
  rewrite of_Z_small by lia.
  set (s := if z <? 0 then 1 else 0).
  set (a := Z.abs z). set (k := Z.log2 a).
  assert (Ha : 0 < a < 2 ^ 53) by lia.
  assert (Hk : 0 <= k < 53).
  { split; [apply Z.log2_nonneg|]. apply Z.log2_lt_pow2; lia. }
  destruct (Z.log2_spec a) as [Hlo Hhi]; [lia|]. fold k in Hlo, Hhi.
  rewrite Z.pow_succ_r in Hhi by lia.
  assert (Hp : 2 ^ k * 2 ^ (52 - k) = 2 ^ 52).
  { rewrite <- Z.pow_add_r by lia. f_equal. lia. }
  assert (Hq : 0 < 2 ^ (52 - k)) by (apply Z.pow_pos_nonneg; lia).
  set (P := 2 ^ (52 - k)) in *.
  assert (Hm : 0 <= a * P - 2 ^ 52 < 2 ^ 52) by nia.
  assert (Hs : 0 <= s <= 1) by (unfold s; destruct (z <? 0); lia).
  unfold to_exact_integer. cbn [bits_of].
  rewrite pack_expo, pack_sign, pack_mant by lia.
  destruct (Z.eqb_spec (k + 1023) 2047); [lia|].
  destruct (Z.eqb_spec (k + 1023) 0); [lia|].
  replace (2 ^ 52 + (a * P - 2 ^ 52)) with (a * P) by lia.
  assert (Hsign : with_sign s a = z).
  { unfold with_sign, s, a. destruct (Z.ltb_spec z 0).
    - change (1 =? 1) with true. cbv beta iota. lia.
    - change (0 =? 1) with false. cbv beta iota. lia. }
  destruct (Z.leb_spec 1075 (k + 1023)).
  - assert (k = 52) as Hk52 by lia. unfold P. rewrite Hk52.
    change (2 ^ (52 - 52)) with 1. change (2 ^ (52 + 1023 - 1075)) with 1.
    rewrite !Z.mul_1_r. now rewrite Hsign.
  - replace (1075 - (k + 1023)) with (52 - k) by lia. fold P.
    rewrite Z.mod_mul by lia. change (0 =? 0) with true. cbv beta iota.
    rewrite Z.div_mul by lia. now rewrite Hsign.
Qed.

(** The value that the enum case gives the member at index [i]: its
    explicit value, or the sum of the value of the previous member and
    one, or [next] for the first member. *)
Lemma assignEnumValues_spec members : forall next i m,
  members !! i = Some m ->
  exists m',
    assignEnumValues next members !! i = Some m' /\
    Field.name m' = Field.name m /\
    Field.value m'
    = Some match Field.value m with
           | Some v => v
           | None =>
               match i with
               | O => next
               | S j =>
                   number_add
                     (default (of_Z 0) ((assignEnumValues next members !! j)
                                          ≫= Field.value))
                     (of_Z 1)
               end
           end.
Proof.
  induction members as [|m0 members IH]; intros next i m Hi; [discriminate|].
  cbn [assignEnumValues].
  destruct i as [|i].
  - cbn in Hi. injection Hi as ->.
    destruct (Field.value m) as [v|] eqn:Hv.
    + exists m. cbn. rewrite Hv. auto.
    + exists (with_value m next). cbn. auto.
  - cbn in Hi.
    destruct (Field.value m0) as [v0|] eqn:Hv0.
    + destruct (IH (number_add v0 (of_Z 1)) i m Hi) as (m' & Hm' & Hn & Hval).
      exists m'. cbn [lookup list_lookup] in *. split; [exact Hm'|]. split; [exact Hn|].
      rewrite Hval. destruct (Field.value m); [reflexivity|].
      destruct i as [|i]; [cbn; now rewrite Hv0 | reflexivity].
    + destruct (IH (number_add next (of_Z 1)) i m Hi) as (m' & Hm' & Hn & Hval).
      exists m'. cbn [lookup list_lookup] in *. split; [exact Hm'|]. split; [exact Hn|].
      rewrite Hval. destruct (Field.value m); [reflexivity|].
      destruct i as [|i]; reflexivity.
Qed.

(** C8, as the code has it.  A member without an explicit value gets the
    sum, in the arithmetic of numbers, of the value of the previous member
    and one, and 0 when it is the first; that sum is the next integer
    while the previous value is an integer from [-2^53] to [2^53 - 1],
    and a number of such an integer denotes it; the enum entity holds the
    members so numbered; for [enum E { A, B=10, C }] the values are 0,
    10, 11 and the field [E f = B] of a struct becomes a [uint32] field
    that is not complex, with default 10; every enum entity that [parse]
    returns has [hashValue] 0, whatever entity list the grammar hands
    over. *)
Theorem enum_values (fuel : nat) (text : list Z) (defs : list Msgdef.t)
  (H : parse fuel text = Ok defs) :
  (forall members i m, members !! i = Some m ->
     exists m',
       assignEnumValues (of_Z 0) members !! i = Some m' /\
       Field.name m' = Field.name m /\
       Field.value m'
       = Some match Field.value m with
              | Some v => v
              | None =>
                  match i with
                  | O => of_Z 0
                  | S j =>
                      number_add
                        (default (of_Z 0)
                           ((assignEnumValues (of_Z 0) members !! j) ≫= Field.value))
                        (of_Z 1)
                  end
              end) /\
  (forall z, - 2 ^ 53 <= z < 2 ^ 53 ->
     number_add (of_Z z) (of_Z 1) = of_Z (z + 1)) /\
  (forall z, - 2 ^ 53 < z < 2 ^ 53 -> to_exact_integer (of_Z z) = Some z) /\
  (forall namespaces st name cls members st' r,
     parseEntity namespaces st (Enum name cls members) = Ok (st', r) ->
     r = [Msgdef.mk (join Lookup.sep (namespaces ++ [name])) namespaces
                    (assignEnumValues (of_Z 0) members) 0 true
                    (default false cls) false]) /\
  parse 1 textE
  = Ok [Msgdef.mk (js "E") []
                  [enumMember "A" 0; enumMember "B" 10; enumMember "C" 11]
                  0 true false false;
        Msgdef.mk (js "S") []
                  [Field.mk (js "f") (js "uint32") false false None None None
                            (Some (VNumber (of_Z 10))) false None]
                  8043100821631631018 false false false] /\
  (forall d, In d defs -> Msgdef.isEnum d = true -> Msgdef.hashValue d = 0) /\
  (forall fuel' entities defs',
     parseTree fuel' entities = Ok defs' ->
     forall d, In d defs' -> Msgdef.isEnum d = true -> Msgdef.hashValue d = 0).
Proof.
  split; [intros members i m; apply assignEnumValues_spec|].
  split; [exact number_add_of_Z|].
  split; [exact to_exact_integer_of_Z|].
  split.
  { intros namespaces st name cls members st' r Hr. cbn [parseEntity] in Hr.
    match type of Hr with
    | (?c ≫= _) = _ => destruct c as [st0|e]; [|discriminate]
    end.
    mred in Hr. now injection Hr as <- <-. }
  split; [vm_compute; reflexivity|].
  split; [|exact Parse_facts.parseTree_enum_hash].
  unfold parse in H.
  destruct (Grammar.main text) as [[entities several]|e]; [|discriminate].
  mred in H. destruct several; [discriminate|].
  now apply (Parse_facts.parseTree_enum_hash fuel entities).
Qed.

(** [enum class] written without a blank, a fractional value, and the
    members after it. *)
Lemma enum_values_witness :
  exists defs,
    parse 1 (js "enumclass E { A = 1.5, B } struct S { double x = 0.9; }")
    = Ok defs /\
    (forall d, In d defs -> Msgdef.isEnum d = true -> Msgdef.hashValue d = 0) /\
    (map Field.value <$> (Msgdef.definitions <$> head defs))
    = Some [Some (F64 0x3FF8000000000000); Some (F64 0x4004000000000000)].
Proof.
  eexists. split; [vm_compute; reflexivity|].
  split; [|vm_compute; reflexivity].
  refine (proj1 (proj2 (proj2 (proj2 (proj2 (proj2
            (enum_values 1 (js "enumclass E { A = 1.5, B } struct S { double x = 0.9; }")
                         _ _))))))).
  vm_compute. reflexivity.
Defined.

(** The sum is rounded from 2^53 on: in
    [enum E { A = 9007199254740991, B, C }] the member [B] gets
    9007199254740992 and the member [C] gets 9007199254740992 again, not
    the value of [B] plus one. *)
Lemma enum_value_repeats :
  exists a b c,
    parse 1 textEnumMax
    = Ok [Msgdef.mk (js "E") []
            [Field.mk (js "A") (js "uint32") false false None None None None true (Some a);
             Field.mk (js "B") (js "uint32") false false None None None None true (Some b);
             Field.mk (js "C") (js "uint32") false false None None None None true (Some c)]
            0 true false false;
          Msgdef.mk (js "S") [] [Field.basic (js "b") (js "bool")]
                    3100530811533682650 false false false] /\
    to_exact_integer a = Some 9007199254740991 /\
    to_exact_integer b = Some 9007199254740992 /\
    to_exact_integer c = Some 9007199254740992 /\
    c = number_add b (of_Z 1).
Proof.
  eexists _, _, _.
  split; [vm_compute; reflexivity|].
  repeat split; vm_compute; reflexivity.
Qed.

End Enum_facts.

(** ** The struct hash *)

Module Djb2_facts.
Import Serde Parse Examples Schema_facts.

Lemma ends_high_cons a s : s <> [] -> ends_high (a :: s) = ends_high s.
Proof. unfold ends_high. destruct s; [contradiction | reflexivity]. Qed.

Lemma high_not_low c : Text.is_low_surrogate c = true -> Text.is_high_surrogate c = false.
Proof.
  unfold Text.is_low_surrogate, Text.is_high_surrogate. intros H.
  apply andb_true_iff in H as [H _]. apply Z.leb_le in H.
  destruct (Z.leb_spec c 56319); [lia|]. apply andb_false_r.
Qed.

(** The characters of a string with one more code unit: a low surrogate
    after a high surrogate completes the last character, any other code
    unit is a character of its own. *)
Lemma char_codes_snoc c : forall n s, (length s <= n)%nat ->
  char_codes (s ++ [c])
  = if Text.is_low_surrogate c && ends_high s then char_codes s
    else char_codes s ++ [c].
Proof.
  induction n as [|n IH]; intros s Hn.
  - destruct s; [|cbn in Hn; lia]. cbn [app char_codes ends_high last].
    rewrite andb_false_r. now destruct (Text.is_high_surrogate c).
  - destruct s as [|a s]; [apply (IH []); cbn; lia|].
    cbn [length] in Hn. cbn [app char_codes].
    destruct (Text.is_high_surrogate a) eqn:Ha.
    + destruct s as [|d s].
      * cbn [app char_codes]. unfold ends_high. cbn [last]. rewrite Ha.
        rewrite andb_true_r.
        destruct (Text.is_low_surrogate c) eqn:Hc; [reflexivity|].
        now destruct (Text.is_high_surrogate c).
      * cbn [length] in Hn. cbn [app].
        destruct (Text.is_low_surrogate d) eqn:Hd.
        -- rewrite IH by lia.
           assert (E : ends_high (a :: d :: s) = ends_high s).
           { destruct s as [|e s]; [|rewrite !ends_high_cons by discriminate; reflexivity].
             unfold ends_high. cbn [last]. now apply high_not_low. }
           rewrite E. now destruct (_ && _).
        -- change (d :: s ++ [c]) with ((d :: s) ++ [c]).
           rewrite IH by (cbn [length]; lia).
           rewrite (ends_high_cons a (d :: s)) by discriminate.
           now destruct (_ && _).
    + rewrite IH by lia.
      assert (E : ends_high (a :: s) = ends_high s).
      { destruct s as [|e s]; [|rewrite ends_high_cons by discriminate; reflexivity].
        unfold ends_high. cbn [last]. exact Ha. }
      rewrite E. now destruct (_ && _).
Qed.

Lemma hashString_snoc str c :
  hashString (str ++ [c])
  = if Text.is_low_surrogate c && ends_high str then hashString str
    else hashStep (hashString str) c.
Proof.
  unfold hashString. rewrite (char_codes_snoc c (length str)) by lia.
  destruct (_ && _); [reflexivity|]. now rewrite foldl_app.
Qed.

(** The hash that [parse] stores in a struct is the hash of the canonical
    text of that struct. *)
Lemma parseTree_hash_text fuel entities defs d :
  named entities -> parseTree fuel entities = Ok defs ->
  d ∈ defs -> Msgdef.isEnum d = false ->
  exists fuel' canonical,
    fuel = S fuel' /\
    canonicalText (computeHashValue fuel' (fst (createSchemaMaps defs))) d
                  (Msgdef.name d) = Ok canonical /\
    Msgdef.hashValue d = hashString canonical.
Proof.
  intros Hnamed Hparse Hd Hstruct.
  pose proof (parseTree_NoDup fuel entities defs Hnamed Hparse) as Hnd.
  pose proof (parseTree_settled fuel entities defs Hparse) as Hset.
  pose proof (parse_hash fuel entities defs d Hparse Hd Hstruct) as Hh.
  destruct fuel as [|fuel]; [discriminate|]. cbn [computeHashValue] in Hh.
  rewrite (lookup_own _ _ _ d) in Hh.
  - mred in Hh.
    destruct (canonicalText _ d (Msgdef.name d)) as [canonical|e] eqn:Ht; [|discriminate].
    mred in Hh. apply Ok_inj in Hh.
    exists fuel, canonical. auto.
  - now apply Maps_facts.createSchemaMaps_found.
  - rewrite Forall_forall in Hset. exact (proj1 (proj2 (Hset d Hd))).
Qed.

(** C3.  The hash of a text starts from 5381, and a text with one more
    character [c] takes [hash] to [((hash << 5) + hash + code(c)) mod 2^64]
    (a low surrogate after a high surrogate is the second half of the same
    character and leaves the hash as it is); [computeHashValue] returns
    that hash of the canonical text of the struct it looks up, and the
    [hashValue] of every struct that [parse] returns is that hash of the
    canonical text of the struct; the canonical text of
    [struct a { bool b; }] hashes to 3808120302725858088, which is the
    [hashValue] that [parse] gives the entity. *)
Theorem hash_is_djb2 (fuel : nat) (text : list Z) (defs : list Msgdef.t)
  (d : Msgdef.t)
  (Hparse : parse fuel text = Ok defs)
  (Hd : d ∈ defs)
  (Hstruct : Msgdef.isEnum d = false) :
  hashString [] = 5381 /\
  (forall str c,
     hashString (str ++ [c])
     = if Text.is_low_surrogate c && ends_high str then hashString str
       else (Z.shiftl (hashString str) 5 + hashString str + c) mod 2 ^ 64) /\
  (forall fuel' nameToSchema namespaces typeName,
     computeHashValue (S fuel') nameToSchema namespaces typeName
     = (msgdef ← lookupMsgdef nameToSchema namespaces typeName;
        canonical ← canonicalText (computeHashValue fuel' nameToSchema)
                                  msgdef typeName;
        Ok (hashString canonical))) /\
  (exists fuel' canonical,
     fuel = S fuel' /\
     canonicalText (computeHashValue fuel' (fst (createSchemaMaps defs))) d
                   (Msgdef.name d) = Ok canonical /\
     Msgdef.hashValue d = hashString canonical) /\
  canonicalText (computeHashValue 0 ∅)
                (Msgdef.mk (js "a") [] [Field.basic (js "b") (js "bool")]
                           0 false false false) (js "a")
  = Ok textOfA /\
  hashString textOfA = 3808120302725858088 /\
  parse 1 (js "struct a { bool b; }")
  = Ok [Msgdef.mk (js "a") [] [Field.basic (js "b") (js "bool")]
                  3808120302725858088 false false false].
Proof.
  split; [reflexivity|].
  split.
  { intros str c. rewrite hashString_snoc.
    destruct (_ && _); [reflexivity | apply Hash_facts.hashStep_spec]. }
  split; [reflexivity|].
  split.
  { destruct (parse_tree _ _ _ Hparse) as (entities & Hnamed & Htree).
    exact (parseTree_hash_text fuel entities defs d Hnamed Htree Hd Hstruct). }
  repeat split; vm_compute; reflexivity.
Qed.

Lemma hash_is_djb2_witness :
  parse 2 textXY = Ok [defX; defY] /\
  exists fuel' canonical,
    2%nat = S fuel' /\
    canonicalText (computeHashValue fuel' (fst (createSchemaMaps [defX; defY]))) defX
                  (Msgdef.name defX) = Ok canonical /\
    Msgdef.hashValue defX = hashString canonical.
Proof.
  assert (Hp : parse 2 textXY = Ok [defX; defY]) by (vm_compute; reflexivity).
  split; [exact Hp|].
  refine (proj1 (proj2 (proj2 (proj2
            (hash_is_djb2 2 textXY [defX; defY] defX Hp _ eq_refl))))).
  left.
Defined.

End Djb2_facts.

(** ** The entities of the result and the declarations *)

Module Declared_facts.
Import Serde Parse Examples Schema_facts.

Lemma parseEntity_yields : forall entity namespaces st st' r,
  parseEntity namespaces st entity = Ok (st', r) ->
  Forall (yields namespaces entity) r.
Proof.
  fix IH 1. intros entity namespaces st st' r H.
  destruct entity as [name definitions|type cx name value|name cls definitions
                     |name naked definitions];
    cbn [parseEntity] in H;
    match type of H with
    | (?c ≫= _) = _ => destruct c as [st0|e]; [|discriminate]
    end; mred in H.
  - destruct (Z.ltb_spec 0 (len namespaces)) as [|Hlen]; [discriminate|].
    assert (Hns : namespaces = []).
    { destruct namespaces; [reflexivity|]. unfold len in Hlen. cbn [length] in Hlen. lia. }
    subst namespaces. cbn [app] in H.
    assert (Hgo : forall es st0 acc st' r,
              (fix go (es : list Parse.entity) (st : pstate) (results : list Msgdef.t)
                 : res (pstate * list Msgdef.t) :=
                 match es with
                 | [] => Ok (st, results)
                 | e :: es' =>
                     '(st, r) ← parseEntity [name] st e;
                     go es' st (results ++ r)
                 end) es st0 acc = Ok (st', r) ->
              forall P : Msgdef.t -> Prop,
                Forall P acc ->
                (forall e' d, e' ∈ es -> yields [name] e' d -> P d) ->
                Forall P r).
    { clear H. induction es as [|e es IHes]; intros st1 acc st2 r' H P Hacc HP.
      - injection H as <- <-. exact Hacc.
      - destruct (parseEntity [name] st1 e) as [[st3 r1]|err] eqn:He; [|discriminate].
        mred in H. apply IH in He.
        eapply (IHes _ _ _ _ H).
        + apply Forall_app. split; [exact Hacc|].
          eapply Forall_impl; [exact He|]. intros d Hd. apply (HP e); [left | exact Hd].
        + intros e' d He' Hd. apply (HP e'); [now right | exact Hd]. }
    eapply (Hgo _ _ _ _ _ H); [constructor|].
    intros e' d He' [Hleaf|(ns & es & e'' & _ & Hnil & _)]; [|discriminate].
    right. exists name, definitions, e'. destruct Hleaf as (Hk & Hn & Hname).
    repeat split; auto.
  - destruct (defaultValueTypeCheck type value); [|discriminate].
    mred in H. injection H as <- <-. constructor.
  - injection H as <- <-. constructor; [|constructor]. left. repeat split.
  - destruct (mapM _ definitions) as [ds|e] eqn:Hds; [|discriminate]. mred in H.
    destruct (foldM _ tt ds) as [u|e] eqn:Hck; [|discriminate]. mred in H.
    injection H as <- <-. constructor; [|constructor]. left. repeat split.
Qed.

Lemma yields_declared entities e d :
  e ∈ entities -> yields [] e d -> declared entities d.
Proof.
  intros He [(Hk & Hns & Hname)|(ns & es & e' & -> & _ & He' & Hk & Hns & Hname)].
  - left. exists e. repeat split; auto.
  - right. exists ns, es, e'. repeat split; auto.
Qed.

Lemma parseEntities_declared all entities : forall st results st' out,
  parseEntities entities [] st results = Ok (st', out) ->
  (forall e, e ∈ entities -> e ∈ all) ->
  Forall (declared all) results -> Forall (declared all) out.
Proof.
  induction entities as [|e es IH]; intros st results st' out H Hall Hr;
    cbn [parseEntities] in H.
  - injection H as <- <-. exact Hr.
  - destruct (parseEntity [] st e) as [[st1 r1]|err] eqn:He; [|discriminate].
    mred in H. apply parseEntity_yields in He.
    eapply IH; [exact H | intros e' He'; apply Hall; now right |].
    apply Forall_app. split; [exact Hr|].
    eapply Forall_impl; [exact He|]. intros d Hd.
    apply (yields_declared all e d); [apply Hall; left | exact Hd].
Qed.

Lemma parseTree_all_declared fuel entities defs :
  parseTree fuel entities = Ok defs -> Forall (declared entities) defs.
Proof.
  intros H. destruct (parseTree_same _ _ _ H) as (st & parsed & Hp & Hs).
  apply (parseEntities_declared entities) in Hp; [|auto|constructor]. clear H.
  induction Hs as [|x y parsed defs Hxy _ IH]; [constructor|].
  apply Forall_cons in Hp as [Hx Hp]. constructor; [|now apply IH].
  destruct Hxy as [h ->]. exact Hx.
Qed.

(** X21.  Every entity of the result of [parse] stands for an enum or a
    struct that the entity list of the grammar declares, at the top level
    or inside a namespace of the top level (a namespace inside a
    namespace is rejected): it is an enum exactly when the declaration
    is, it is in no namespace and bears the declared name, or it is in the
    one namespace of the declaration and bears the name of the namespace,
    ["::"] and the declared name.  This holds for every entity list, and
    so for the entity list of every text. *)
Theorem parseTree_declared (fuel : nat) (entities : list entity)
  (defs : list Msgdef.t) (d : Msgdef.t)
  (Hparse : parseTree fuel entities = Ok defs)
  (Hd : d ∈ defs) :
  (exists e, e ∈ entities /\
             entity_kind e = Some (Msgdef.isEnum d) /\
             Msgdef.namespaces d = [] /\
             Msgdef.name d = entity_name e) \/
  (exists ns es e, Namespace ns es ∈ entities /\ e ∈ es /\
                   entity_kind e = Some (Msgdef.isEnum d) /\
                   Msgdef.namespaces d = [ns] /\
                   Msgdef.name d = ns ++ Lookup.sep ++ entity_name e).
Proof.
  pose proof (parseTree_all_declared fuel entities defs Hparse) as Hall.
  rewrite Forall_forall in Hall. exact (Hall d Hd).
Qed.

(** The struct [V] of the namespace [ns1] in
    [namespace ns1 { struct U { V v; } struct V { bool b; } }]. *)
Lemma parseTree_declared_witness :
  Grammar.main textNs = Ok (entitiesNs, false) /\
  parse 2 textNs = Ok [defNsU; defNsV] /\
  parseTree 2 entitiesNs = Ok [defNsU; defNsV] /\
  exists ns es e,
    Namespace ns es ∈ entitiesNs /\ e ∈ es /\
    entity_kind e = Some false /\
    Msgdef.namespaces defNsV = [ns] /\
    js "ns1::V" = ns ++ Lookup.sep ++ entity_name e.
Proof.
  assert (Hp : parseTree 2 entitiesNs = Ok [defNsU; defNsV]) by (vm_compute; reflexivity).
  split; [vm_compute; reflexivity|]. split; [vm_compute; reflexivity|].
  split; [exact Hp|].
  assert (Hd : defNsV ∈ [defNsU; defNsV]) by (right; left).
  destruct (parseTree_declared 2 entitiesNs [defNsU; defNsV] defNsV Hp Hd)
    as [(e & _ & _ & Hns & _)|Hin]; [discriminate Hns | exact Hin].
Defined.

(** X17.  The default values of the result of [parse] have passed the
    type check: a field of a struct that has a default value (other than
    null or undefined) is not complex, and the value, or each element of
    the array that the value is for an array field, has the type that
    the type name of the field requires.  This holds for every entity
    list, whatever its default values are, and so for the entity list of
    every text. *)
Theorem parseTree_defaults_checked (fuel : nat) (entities : list entity)
  (defs : list Msgdef.t) (d : Msgdef.t) (fd : Field.t) (dv : jsvalue)
  (Hparse : parseTree fuel entities = Ok defs)
  (Hd : d ∈ defs)
  (Hstruct : Msgdef.isEnum d = false)
  (Hfd : fd ∈ Msgdef.definitions d)
  (Hdv : Field.defaultValue fd = Some dv)
  (Hset : nullish dv = false) :
  Field.isComplex fd = false /\
  if Field.isArray fd
  then exists elems,
         dv = VArray elems /\
         Forall (fun e => defaultValueTypeCheck (Field.type fd) e = Ok tt) elems
  else defaultValueTypeCheck (Field.type fd) dv = Ok tt.
Proof.
  pose proof (parseTree_settled fuel entities defs Hparse) as Hall.
  rewrite Forall_forall in Hall. destruct (Hall d Hd) as (_ & _ & _ & Hck).
  specialize (Hck Hstruct). rewrite Forall_forall in Hck. specialize (Hck fd Hfd).
  unfold checkDefault in Hck. rewrite Hdv in Hck.
  change (opt (Some dv)) with dv in Hck.
  rewrite Hset in Hck. cbn [negb] in Hck.
  destruct (Field.isComplex fd); [discriminate|]. split; [reflexivity|].
  destruct (Field.isArray fd).
  - destruct dv as [| | | | | |elems| |]; try discriminate.
    exists elems. split; [reflexivity|]. clear Hdv Hset.
    induction elems as [|e elems IH]; [constructor|]. cbn [foldM] in Hck.
    destruct (defaultValueTypeCheck (Field.type fd) e) as [[]|err] eqn:He;
      [|discriminate].
    mred in Hck. constructor; [exact He | exact (IH Hck)].
  - now destruct (defaultValueTypeCheck (Field.type fd) dv) as [[]|].
Qed.

(** The default [0.9] of [struct d { double x = 0.9; }]. *)
Lemma parseTree_defaults_checked_witness :
  Grammar.main textDefault = Ok (entitiesDefault, false) /\
  parse 1 textDefault = Ok [defDefault] /\
  parseTree 1 entitiesDefault = Ok [defDefault] /\
  Field.isComplex fieldDefault = false /\
  defaultValueTypeCheck (js "float64") (VNumber (F64 0x3FECCCCCCCCCCCCD)) = Ok tt.
Proof.
  assert (Hp : parseTree 1 entitiesDefault = Ok [defDefault]) by (vm_compute; reflexivity).
  split; [vm_compute; reflexivity|]. split; [vm_compute; reflexivity|].
  split; [exact Hp|].
  refine (parseTree_defaults_checked 1 entitiesDefault [defDefault] defDefault
            fieldDefault (VNumber (F64 0x3FECCCCCCCCCCCCD)) Hp _ eq_refl _ eq_refl eq_refl).
  - left.
  - left.
Defined.

End Declared_facts.
